(** * Pycornetto: the lexical relation graph, its query engine and the
      similarity layer, embedded from [lib/cornetto/parse.py],
      [lib/cornetto/cornet.py] and [lib/cornetto/simcornet.py], with the
      value translation of the proxy in [lib/cornetto/server.py].

    Layout: the definitions come first, one module per source module
    ([Py] for the Python built-ins the code calls, [ET] for ElementTree
    elements, [NX] for the networkx multigraph, [Parse], [Cornet],
    [SimCornet]), followed by the readers of the two files
    ([ParseSynsets], [ParseLexUnits], [ParseCounts]), the remaining
    queries ([Queries]) and the proxy ([Server]); the theorems follow,
    grouped by component. *)

From Stdlib Require Import ZArith QArith String Ascii List Bool Lia.
From stdpp Require Import base gmap strings list fin_maps.

Set Warnings "-register-all".

(* ===================================================================== *)
(** * Python built-ins used by the code *)
(* ===================================================================== *)

Module Py.

(** Exceptions the modelled code can raise.  [Diverges] is not a Python
    exception: it marks a loop of the model that ran out of fuel. *)
Inductive exn : Type :=
| IndexError
| KeyError
| ValueError (msg : string)
| AttributeError
| TypeError
| ZeroDivisionError
| OverflowError
| Diverges.

Inductive result (A : Type) : Type :=
| Ok (a : A)
| Raise (e : exn).
Arguments Ok {A} a.
Arguments Raise {A} e.

Definition rbind {A B} (m : result A) (f : A -> result B) : result B :=
  match m with
  | Ok a => f a
  | Raise e => Raise e
  end.

(** [string.whitespace] of Python 2: space, \t, \n, \v, \f, \r. *)
Definition is_space (c : ascii) : bool :=
  let n := nat_of_ascii c in
  (n =? 32)%nat || ((9 <=? n)%nat && (n <=? 13)%nat).

Fixpoint lstrip (s : string) : string :=
  match s with
  | EmptyString => EmptyString
  | String c s' => if is_space c then lstrip s' else s
  end.

Fixpoint rstrip (s : string) : string :=
  match s with
  | EmptyString => EmptyString
  | String c s' =>
      match rstrip s' with
      | EmptyString => if is_space c then EmptyString else String c EmptyString
      | r => String c r
      end
  end.

(** [s.strip()] *)
Definition strip (s : string) : string := rstrip (lstrip s).

(** [s.split(sep)] for a one-character separator: every occurrence of
    [sep] ends a field, so the result has one field more than [s] has
    separators and is never empty. *)
Fixpoint split (sep : ascii) (s : string) : list string :=
  match s with
  | EmptyString => [EmptyString]
  | String c s' =>
      if Ascii.eqb c sep then EmptyString :: split sep s'
      else match split sep s' with
           | [] => [String c EmptyString]
           | f :: fs => String c f :: fs
           end
  end.

(** [sep.join(fields)] *)
Fixpoint join (sep : string) (l : list string) : string :=
  match l with
  | [] => EmptyString
  | [x] => x
  | x :: rest => (x ++ sep ++ join sep rest)%string
  end.

Definition upper_char (c : ascii) : ascii :=
  let n := nat_of_ascii c in
  if ((97 <=? n)%nat && (n <=? 122)%nat)%bool then ascii_of_nat (n - 32) else c.

Definition lower_char (c : ascii) : ascii :=
  let n := nat_of_ascii c in
  if ((65 <=? n)%nat && (n <=? 90)%nat)%bool then ascii_of_nat (n + 32) else c.

Fixpoint map_string (f : ascii -> ascii) (s : string) : string :=
  match s with
  | EmptyString => EmptyString
  | String c s' => String (f c) (map_string f s')
  end.

(** [s.upper()] and [s.lower()] on byte strings. *)
Definition upper (s : string) : string := map_string upper_char s.
Definition lower (s : string) : string := map_string lower_char s.

(** Truth value of a string: empty is false. *)
Definition truthy (s : string) : bool :=
  match s with EmptyString => false | _ => true end.

(** [s[-1]]: the last character, [IndexError] on the empty string. *)
Fixpoint last_char (s : string) : result ascii :=
  match s with
  | EmptyString => Raise IndexError
  | String c EmptyString => Ok c
  | String _ s' => last_char s'
  end.

(** [s[:-1]]: all but the last character; the empty string stays empty. *)
Fixpoint but_last (s : string) : string :=
  match s with
  | EmptyString => EmptyString
  | String _ EmptyString => EmptyString
  | String c s' => String c (but_last s')
  end.

(** Value of a decimal digit character, if it is one. *)
Definition digit_val (c : ascii) : option Z :=
  let n := nat_of_ascii c in
  if ((48 <=? n)%nat && (n <=? 57)%nat)%bool then Some (Z.of_nat (n - 48)) else None.

Fixpoint digits_val (acc : Z) (s : string) : option Z :=
  match s with
  | EmptyString => Some acc
  | String c s' =>
      match digit_val c with
      | Some d => digits_val (10 * acc + d)%Z s'
      | None => None
      end
  end.

(** [int(s)] on a string: optional blanks around an optionally signed,
    non-empty run of decimal digits; anything else is a [ValueError]. *)
Definition int_of_string (s : string) : result Z :=
  let bad := Raise (ValueError "invalid literal for int()") in
  let unsigned (t : string) :=
    match t with
    | EmptyString => None
    | _ => digits_val 0 t
    end in
  match strip s with
  | String "-" t =>
      match unsigned t with Some z => Ok (- z)%Z | None => bad end
  | String "+" t =>
      match unsigned t with Some z => Ok z | None => bad end
  | t => match unsigned t with Some z => Ok z | None => bad end
  end.

End Py.

(* ===================================================================== *)
(** * ElementTree elements *)
(* ===================================================================== *)

Module ET.

(** An XML element: tag, attributes and child elements.  The code holds
    elements by reference; the graph and the indices therefore store
    object identities ([node] below) and the content lives in a heap. *)
Inductive Element : Type :=
  Elem { tag : string; attrib : list (string * string); children : list Element }.

(** [elem.get(key)]: the attribute or [None]. *)
Fixpoint assoc (key : string) (l : list (string * string)) : option string :=
  match l with
  | [] => None
  | (k, v) :: l' => if String.eqb k key then Some v else assoc key l'
  end.

Definition get (e : Element) (key : string) : option string := assoc key (attrib e).

(** [elem.get(key, default)] *)
Definition get_default (e : Element) (key default : string) : string :=
  match get e key with Some v => v | None => default end.

(** [elem.find(tag)]: the first child with that tag, or [None]. *)
Definition find (e : Element) (t : string) : option Element :=
  List.find (fun c => String.eqb (tag c) t) (children e).

(** Truth value of an element.  [Element] defines [__len__] (the number
    of children) and no [__nonzero__], so [if elem:] tests whether the
    element has children. *)
Definition truthy (e : Element) : bool :=
  match children e with [] => false | _ => true end.

End ET.

(** Object identities of the elements held by the indices and the graph. *)
Abbreviation node := nat.

(* ===================================================================== *)
(** * The Cornet class: parsing of specifications *)
(* ===================================================================== *)

Module SpecParser.
Import Py.

Definition _unit_separator : ascii := ":"%char.

(** [_split_unit_spec]:
<<
    spec = spec + 2 * self._unit_separator
    return spec.strip().split(self._unit_separator)[:3]
>> *)
Definition _split_unit_spec (spec : string) : list string :=
  let spec := (spec ++ String _unit_separator (String _unit_separator EmptyString))%string in
  firstn 3 (split _unit_separator (strip spec)).

(** The callers' [form, cat, sense = self._split_unit_spec(spec)]: a
    three-way unpacking, a [ValueError] on any other length. *)
Definition unpack3 (l : list string) : result (string * string * string) :=
  match l with
  | [a; b; c] => Ok (a, b, c)
  | _ => Raise (ValueError "need exactly 3 values to unpack")
  end.

(** [spec[-1] in "123456789"] *)
Definition digit_1_9 (c : ascii) : option Z :=
  match digit_val c with
  | Some 0%Z => None
  | o => o
  end.

(** [_split_rel_spec]:
<<
    if spec[-1] in "123456789":
        name, depth = spec[:-1], int(spec[-1])
    elif spec[-1] == "+":
        name, depth  = spec[:-1], 9
    else:
        name, depth = spec, 1
    return name.upper(), depth
>> *)
Definition _split_rel_spec (spec : string) : result (string * Z) :=
  rbind (last_char spec) (fun c =>
    let '(name, depth) :=
      match digit_1_9 c with
      | Some d => (but_last spec, d)
      | None =>
          if Ascii.eqb c "+"%char then (but_last spec, 9%Z)
          else (spec, 1%Z)
      end in
    Ok (upper name, depth)).

(** [_split_query]:
    [query.strip().split() + 3 * [""]], relation upper-cased, first three. *)
Fixpoint words_aux (cur : option string) (s : string) : list string :=
  match s with
  | EmptyString => match cur with Some w => [w] | None => [] end
  | String c s' =>
      if is_space c then
        match cur with
        | Some w => w :: words_aux None s'
        | None => words_aux None s'
        end
      else
        words_aux (Some (match cur with Some w => (w ++ String c EmptyString)%string
                                   | None => String c EmptyString end)) s'
  end.

Definition _split_query (query : string) : string * string * string :=
  match words_aux None (strip query) ++ [""; ""; ""] with
  | a :: b :: c :: _ => (a, upper b, c)
  | _ => ("", "", "")
  end.

End SpecParser.

(* ===================================================================== *)
(** * networkx.MultiDiGraph, as far as the code uses it *)
(* ===================================================================== *)

Module NX.

(** The attribute dict of an edge.  The code only ever writes
    [relation=...] into it; [attr] is the value stored under the key
    ["relation"], which is whatever [Element.get] returned: a string
    or [None]. *)
Abbreviation attr := (option string).

Definition attr_eqb (a b : attr) : bool :=
  match a, b with
  | Some x, Some y => String.eqb x y
  | None, None => true
  | _, _ => false
  end.

(** [succ[u][v]] and [pred[v][u]] hold the key dict of the parallel
    edges from [u] to [v]: keys are 0, 1, ... in order of insertion, so
    a list of attribute dicts stands for it.  networkx stores the same
    dict object under both maps. *)
Record MultiDiGraph : Type := {
  succ : gmap node (gmap node (list attr));
  pred : gmap node (gmap node (list attr))
}.

(** [networkx.MultiDiGraph()] *)
Definition empty : MultiDiGraph := {| succ := ∅; pred := ∅ |}.

(** [n in graph] *)
Definition has_node (g : MultiDiGraph) (n : node) : bool :=
  bool_decide (is_Some (succ g !! n)).

(** [graph.add_node(n)] *)
Definition add_node (g : MultiDiGraph) (n : node) : MultiDiGraph :=
  match succ g !! n with
  | Some _ => g
  | None => {| succ := <[n := ∅]> (succ g); pred := <[n := ∅]> (pred g) |}
  end.

(** [graph[u][v]]: the key dict, [KeyError] when [u] is no node or has
    no edge to [v]. *)
Definition getitem2 (g : MultiDiGraph) (u v : node) : option (list attr) :=
  match succ g !! u with
  | Some nbrs => nbrs !! v
  | None => None
  end.

(** [graph.add_edge(u, v, relation=r)]: both end points become nodes;
    the new edge gets the next free key of the pair's key dict. *)
Definition add_edge (g : MultiDiGraph) (u v : node) (a : attr) : MultiDiGraph :=
  let g := add_node (add_node g u) v in
  let keydict :=
    match getitem2 g u v with
    | Some kd => kd ++ [a]
    | None => [a]
    end in
  {| succ := <[u := <[v := keydict]> (default ∅ (succ g !! u))]> (succ g);
     pred := <[v := <[u := keydict]> (default ∅ (pred g !! v))]> (pred g) |}.

(** The edges leaving one node, as [edges_iter] walks them:
    neighbours in dict order, then the key dict. *)
Definition out_edges_of (g : MultiDiGraph) (n : node) : list (node * node * attr) :=
  match succ g !! n with
  | Some nbrs =>
      flat_map (fun '(nbr, keydict) => map (fun a => (n, nbr, a)) keydict)
               (map_to_list nbrs)
  | None => []
  end.

(** The edges entering one node, each as (source, target, data). *)
Definition in_edges_of (g : MultiDiGraph) (n : node) : list (node * node * attr) :=
  match pred g !! n with
  | Some nbrs =>
      flat_map (fun '(nbr, keydict) => map (fun a => (nbr, n, a)) keydict)
               (map_to_list nbrs)
  | None => []
  end.

(** [graph.out_edges_iter(nbunch, data=True)] for a list [nbunch]:
    nodes of the list that are not in the graph are skipped. *)
Definition out_edges_iter (g : MultiDiGraph) (nbunch : list node)
  : list (node * node * attr) :=
  flat_map (out_edges_of g) nbunch.

(** [graph.in_edges_iter(nbunch, data=True)] *)
Definition in_edges_iter (g : MultiDiGraph) (nbunch : list node)
  : list (node * node * attr) :=
  flat_map (in_edges_of g) nbunch.

(** There is an edge from [u] to [v] carrying [a]. *)
Definition has_edge (g : MultiDiGraph) (u v : node) (a : attr) : Prop :=
  ∃ kd, getitem2 g u v = Some kd ∧ a ∈ kd.

(** [pred[v][u]], when both keys are there. *)
Definition getpred (g : MultiDiGraph) (v u : node) : option (list attr) :=
  match pred g !! v with
  | Some nbrs => nbrs !! u
  | None => None
  end.

(** The two adjacency maps describe the same edges. *)
Definition mirrored (g : MultiDiGraph) : Prop :=
  ∀ u v, getitem2 g u v = getpred g v u.

(** What [add_node] and [add_edge] maintain: a node is a key of both
    adjacency maps, and the maps mirror each other. *)
Definition wf (g : MultiDiGraph) : Prop :=
  (∀ n, succ g !! n = None ↔ pred g !! n = None) ∧ mirrored g.

(** The number of edges from [u] to [v] whose relation is [r]. *)
Definition edge_count (g : MultiDiGraph) (u v : node) (r : attr) : nat :=
  length (List.filter (attr_eqb r) (default [] (getitem2 g u v))).

(** No edge from a node to itself. *)
Definition no_self_loops (g : MultiDiGraph) : Prop :=
  ∀ u a, ¬ has_edge g u u a.

(** At most one edge of a given relation from [u] to [v]. *)
Definition no_duplicate_edges (g : MultiDiGraph) : Prop :=
  ∀ u v r, edge_count g u v r ≤ 1.

End NX.

(* ===================================================================== *)
(** * parse.py: from synsets to edges *)
(* ===================================================================== *)

Module Parse.
Import Py.

(** The heap of parsed elements, by object identity. *)
Abbreviation heap := (gmap node ET.Element).

(** [elem.set(key, value)] *)
Fixpoint set_assoc (key value : string) (l : list (string * string))
  : list (string * string) :=
  match l with
  | [] => [(key, value)]
  | (k, v) :: l' =>
      if String.eqb k key then (k, value) :: l' else (k, v) :: set_assoc key value l'
  end.

Definition set_attr (e : ET.Element) (key value : string) : ET.Element :=
  ET.Elem (ET.tag e) (set_assoc key value (ET.attrib e)) (ET.children e).

(** [add_edge]:
<<
    if from_node == to_node:
        return
    try:
        for attr in graph[from_node][to_node].values():
            if attr["relation"] == relation:
                return
    except KeyError:
        pass
    graph.add_edge(from_node, to_node, relation=relation)
>>
    (elements compare by identity). *)
Definition add_edge (graph : NX.MultiDiGraph) (from_node to_node : node)
           (relation : NX.attr) : NX.MultiDiGraph :=
  if Nat.eqb from_node to_node then graph
  else
    match NX.getitem2 graph from_node to_node with
    | Some keydict =>
        if existsb (fun a => NX.attr_eqb a relation) keydict then graph
        else NX.add_edge graph from_node to_node relation
    | None => NX.add_edge graph from_node to_node relation
    end.

(** [sy_id2lus[key]] where [key] came from [Element.get]: [None] is
    never a key of the table. *)
Definition lookup_lus (sy_id2lus : gmap string (list node)) (key : option string)
  : result (list node) :=
  match key with
  | Some k =>
      match sy_id2lus !! k with
      | Some lus => Ok lus
      | None => Raise KeyError
      end
  | None => Raise KeyError
  end.

(** The body of the outer loop of [_synonym_relations_to_edges] for one
    [from_node]: the [c_sy_id] back-reference on the unit, then a
    SYNONYM edge to every other member. *)
Definition note_synset (h : heap) (from_node : node) (c_sy_id : string) : heap :=
  match h !! from_node with
  | Some e =>
      let v := match ET.get e "c_sy_id" with
               | Some old => (old ++ "," ++ c_sy_id)%string
               | None => c_sy_id
               end in
      <[from_node := set_attr e "c_sy_id" v]> h
  | None => h
  end.

Definition synonym_edges_from (nodes : list node) (graph : NX.MultiDiGraph)
           (from_node : node) : NX.MultiDiGraph :=
  fold_left
    (fun g to_node =>
       if negb (Nat.eqb from_node to_node)
       then add_edge g from_node to_node (Some "SYNONYM")
       else g)
    nodes graph.

(** [_synonym_relations_to_edges] *)
Definition _synonym_relations_to_edges (synset_el : ET.Element)
           (sy_id2lus : gmap string (list node))
           (st : heap * NX.MultiDiGraph) : result (heap * NX.MultiDiGraph) :=
  rbind (lookup_lus sy_id2lus (ET.get synset_el "c_sy_id")) (fun nodes =>
    let c_sy_id := default "" (ET.get synset_el "c_sy_id") in
    Ok (fold_left
          (fun '(h, g) from_node =>
             (note_synset h from_node c_sy_id, synonym_edges_from nodes g from_node))
          nodes st)).

(** [synset_el.find("wn_internal_relations") or []]: iterating an
    element yields its children; an element without children is false
    and replaced by the empty list, which yields nothing either. *)
Definition relation_elements (synset_el : ET.Element) : list ET.Element :=
  match ET.find synset_el "wn_internal_relations" with
  | Some rels => ET.children rels
  | None => []
  end.

Definition edges_between (from_nodes to_nodes : list node) (relation : NX.attr)
           (graph : NX.MultiDiGraph) : NX.MultiDiGraph :=
  fold_left
    (fun g from_node =>
       fold_left (fun g to_node => add_edge g from_node to_node relation) to_nodes g)
    from_nodes graph.

(** [_wn_internal_relations_to_edges] *)
Definition _wn_internal_relations_to_edges (synset_el : ET.Element)
           (sy_id2lus : gmap string (list node))
           (graph : NX.MultiDiGraph) : result NX.MultiDiGraph :=
  rbind (lookup_lus sy_id2lus (ET.get synset_el "c_sy_id")) (fun from_nodes =>
    Ok (fold_left
          (fun g relation_el =>
             let relation := ET.get relation_el "relation_name" in
             match lookup_lus sy_id2lus (ET.get relation_el "target") with
             | Ok to_nodes => edges_between from_nodes to_nodes relation g
             | Raise _ => g
             end)
          (relation_elements synset_el) graph)).

(** [_relations_to_edges]; [synsets] lists [set(sy_id2synset.values())]
    in the order the set happens to be iterated in. *)
Fixpoint _relations_to_edges (synsets : list ET.Element)
         (sy_id2lus : gmap string (list node))
         (st : heap * NX.MultiDiGraph) : result (heap * NX.MultiDiGraph) :=
  match synsets with
  | [] => Ok st
  | synset_el :: rest =>
      rbind (_synonym_relations_to_edges synset_el sy_id2lus st) (fun '(h, g) =>
      rbind (_wn_internal_relations_to_edges synset_el sy_id2lus g) (fun g =>
      _relations_to_edges rest sy_id2lus (h, g)))
  end.

(** The graph part of [parse_cdb].  The two XML event loops are taken by
    what they hand on: [lus], the [cdb_lu] elements in file order (each
    is passed to [graph.add_node]), their contents [h], the distinct
    synset elements and the table [sy_id2lus]. *)
Definition parse_cdb (h : heap) (lus : list node) (synsets : list ET.Element)
           (sy_id2lus : gmap string (list node)) : result (heap * NX.MultiDiGraph) :=
  let graph := fold_left NX.add_node lus NX.empty in
  _relations_to_edges synsets sy_id2lus (h, graph).

End Parse.

(* ===================================================================== *)
(** * cornet.py: the Cornet class *)
(* ===================================================================== *)

Module Cornet.
Import Py SpecParser.

(** What a public method hands back for one lexical unit or relation:
    a string (formats [spec] and [xml]), the object itself (format
    [raw]: the element, or the attribute dict of an edge), or [None]. *)
Inductive value : Type :=
| VNone
| VStr (s : string)
| VLu (lu : node)
| VEdge (edge : NX.attr).

Definition value_eqb (a b : value) : bool :=
  match a, b with
  | VNone, VNone => true
  | VStr x, VStr y => String.eqb x y
  | VLu x, VLu y => Nat.eqb x y
  | VEdge x, VEdge y => NX.attr_eqb x y
  | _, _ => false
  end.

(** Calls into the indices and the traversal engine, in the order a
    public method makes them. *)
Inductive event : Type :=
| Ev_form2lu_get (form : string)
| Ev_sy_id2synset_get (c_sy_id : string)
| Ev_transitive_closure (lus : list node) (rel_name : string)
| Ev_bidirectional_shortest_path (from_lus to_lus : list node) (rel_name : string)
| Ev_search_related_lex_units (from_lu : node).

(** A public method: the calls it made, and its result or exception. *)
Definition M (A : Type) : Type := (list event * result A)%type.

Definition ret {A} (a : A) : M A := ([], Ok a).
Definition raise {A} (e : exn) : M A := ([], Raise e).
Definition lift {A} (r : result A) : M A := ([], r).
Definition tick (ev : event) : M unit := ([ev], Ok tt).
Definition bind {A B} (m : M A) (f : A -> M B) : M B :=
  match m with
  | (t, Ok a) => let '(t', r) := f a in (t ++ t', r)
  | (t, Raise e) => (t, Raise e)
  end.
Definition trace {A} (m : M A) : list event := fst m.
Definition outcome {A} (m : M A) : result A := snd m.

Notation "'let*' x := m 'in' k" := (bind m (fun x => k))
  (at level 10, x pattern, m at level 100, k at level 200, only parsing).
Notation "'let?' x := m 'in' k" := (rbind m (fun x => k))
  (at level 10, x pattern, m at level 100, k at level 200, only parsing).

(** [for x in l: body], the body threading a state and able to raise. *)
Fixpoint for_each {A S} (l : list A) (body : S -> A -> M S) (s : S) : M S :=
  match l with
  | [] => ret s
  | x :: rest => let* s' := body s x in for_each rest body s'
  end.

(** A Cornet instance after [open]: the tables and the graph that
    [parse_cdb] returned, the contents of the elements they refer to,
    and the two settings. *)
Record Cornet : Type := {
  _form2lu : gmap string (list node);
  _c_lu_id2lu : gmap string node;
  _c_sy_id2synset : gmap string ET.Element;
  _graph : NX.MultiDiGraph;
  elements : Parse.heap;
  _output_format : string;
  _max_depth : Z
}.

Definition _handled_output_formats : list string := ["spec"; "xml"; "raw"].
Definition _default_output_format : string := "spec".
Definition _default_max_depth : Z := 9.

(** The element a reference points to. *)
Definition deref (c : Cornet) (lu : node) : ET.Element :=
  default (ET.Elem "cdb_lu" [] []) (elements c !! lu).

(** ** Accessors of [<cdb_lu>] elements *)

(** [_get_lu_form]: [lu.find("form").get("form-spelling", "")], and
    [""] when there is no [<form>] (the [AttributeError] is caught). *)
Definition _get_lu_form (c : Cornet) (lu : node) : string :=
  match ET.find (deref c lu) "form" with
  | Some f => ET.get_default f "form-spelling" ""
  | None => ""
  end.

Definition _get_lu_cat (c : Cornet) (lu : node) : string :=
  match ET.find (deref c lu) "form" with
  | Some f => ET.get_default f "form-cat" ""
  | None => ""
  end.

Definition _get_lu_sense (c : Cornet) (lu : node) : string :=
  ET.get_default (deref c lu) "c_seq_nr" "".

(** [_lu_has_cat]:
    [not cat or lu.find("form").get("form-cat").lower() == cat]; a
    missing [<form>] or attribute raises [AttributeError], which is
    caught and answered by [""], false. *)
Definition _lu_has_cat (c : Cornet) (lu : node) (cat : string) : bool :=
  negb (truthy cat) ||
  match ET.find (deref c lu) "form" with
  | Some f =>
      match ET.get f "form-cat" with
      | Some v => String.eqb (lower v) cat
      | None => false
      end
  | None => false
  end.

(** [_lu_has_sense]: [not sense or lu.get("c_seq_nr") == sense] *)
Definition _lu_has_sense (c : Cornet) (lu : node) (sense : string) : bool :=
  negb (truthy sense) ||
  match ET.get (deref c lu) "c_seq_nr" with
  | Some v => String.eqb v sense
  | None => false
  end.

(** [_rel_has_name]: [not name or edge.get("relation") == name] *)
Definition _rel_has_name (edge : NX.attr) (name : string) : bool :=
  negb (truthy name) ||
  match edge with
  | Some r => String.eqb r name
  | None => false
  end.

(** ** Formatting *)

(** [xml.etree.tostring] on an element; the exact layout of the
    serialisation plays no role below. *)
Definition dquote : string := String (ascii_of_nat 34) EmptyString.

Fixpoint tostring (e : ET.Element) : string :=
  let attrs :=
    fold_right (fun '(k, v) acc => (" " ++ k ++ "=" ++ dquote ++ v ++ dquote ++ acc)%string)
               ""%string (ET.attrib e) in
  match ET.children e with
  | [] => ("<" ++ ET.tag e ++ attrs ++ " />")%string
  | cs =>
      ("<" ++ ET.tag e ++ attrs ++ ">"
           ++ fold_right (fun ch acc => (tostring ch ++ acc)%string) ""%string cs
           ++ "</" ++ ET.tag e ++ ">")%string
  end.

(** [_lu_to_spec] *)
Definition _lu_to_spec (c : Cornet) (lu : node) : string :=
  join ":" [_get_lu_form c lu; _get_lu_cat c lu; _get_lu_sense c lu].

(** [if not format: format = self._output_format] *)
Definition effective_format (c : Cornet) (format : option string) : string :=
  match format with
  | Some f => if truthy f then f else _output_format c
  | None => _output_format c
  end.

Definition unknown_format (format : string) : exn :=
  ValueError ("unknown output format: " ++ format).

(** [_get_lex_unit_formatter] *)
Definition _get_lex_unit_formatter (c : Cornet) (format : option string)
  : result (node -> value) :=
  let format := effective_format c format in
  if String.eqb format "spec" then Ok (fun lu => VStr (_lu_to_spec c lu))
  else if String.eqb format "xml" then Ok (fun lu => VStr (tostring (deref c lu)))
  else if String.eqb format "raw" then Ok (fun lu => VLu lu)
  else Raise (unknown_format format).

(** [_rel_to_spec]: [edge.get("relation")]; the argument is the edge's
    attribute dict, or [None] at the head of a predecessor chain, on
    which [.get] is an [AttributeError]. *)
Definition _rel_to_spec (edge : option NX.attr) : result value :=
  match edge with
  | Some (Some r) => Ok (VStr r)
  | Some None => Ok VNone
  | None => Raise AttributeError
  end.

(** [_get_relation_formatter].  For ["xml"] the code returns [tostring],
    which serialises elements; what it is applied to is an attribute
    dict (or [None]), on which it raises. *)
Definition _get_relation_formatter (c : Cornet) (format : option string)
  : result (option NX.attr -> result value) :=
  let format := effective_format c format in
  if String.eqb format "xml" then Ok (fun _ => Raise AttributeError)
  else if String.eqb format "spec" then Ok _rel_to_spec
  else if String.eqb format "raw" then
    Ok (fun edge => match edge with Some a => Ok (VEdge a) | None => Ok VNone end)
  else Raise (unknown_format format).

(** ** Settings *)

(** [set_output_format] *)
Definition set_output_format (c : Cornet) (format : string) : result Cornet :=
  if existsb (String.eqb format) _handled_output_formats then
    Ok {| _form2lu := _form2lu c; _c_lu_id2lu := _c_lu_id2lu c;
          _c_sy_id2synset := _c_sy_id2synset c; _graph := _graph c;
          elements := elements c; _output_format := format;
          _max_depth := _max_depth c |}
  else Raise TypeError.

(** [set_max_depth] *)
Definition set_max_depth (c : Cornet) (max_depth : Z) : result Cornet :=
  if ((0 <? max_depth) && (max_depth <? 10))%Z then
    Ok {| _form2lu := _form2lu c; _c_lu_id2lu := _c_lu_id2lu c;
          _c_sy_id2synset := _c_sy_id2synset c; _graph := _graph c;
          elements := elements c; _output_format := _output_format c;
          _max_depth := max_depth |}
  else Raise (ValueError "not a valid value for maximal depth").

(** ** Lexical units *)

(** The units of [self._form2lu.get(form, [])] that pass both filters. *)
Definition matching_lus (c : Cornet) (form cat sense : string) : list node :=
  List.filter (fun lu => _lu_has_cat c lu cat && _lu_has_sense c lu sense)
              (default [] (_form2lu c !! form)).

(** [get_lex_units] *)
Definition get_lex_units (c : Cornet) (spec : string) (format : option string)
  : M (list value) :=
  let* (form, cat, sense) := lift (unpack3 (_split_unit_spec spec)) in
  let* formatter := lift (_get_lex_unit_formatter c format) in
  let* _ := tick (Ev_form2lu_get form) in
  ret (map formatter (matching_lus c form cat sense)).

(** The elements in a list obtained with [format="raw"]. *)
Definition as_lus (vs : list value) : list node :=
  omap (fun v => match v with VLu lu => Some lu | _ => None end) vs.

(** ** Search *)

(** The nodes some edge of the graph leads to. *)
Definition edge_targets (g : NX.MultiDiGraph) : gset node :=
  union_list (map (fun p => dom (snd p)) (map_to_list (NX.succ g))).

(** One turn of the [for] loop of [_transitive_closure]:
<<
    if ( self._rel_has_name(edge, rel_name) and
         to_lu not in successors):
        successors[to_lu] = distance + 1
        if to_lu not in lus:
            next_queue.append(to_lu)
>> *)
Definition tc_visit (rel_name : string) (lus : gset node) (distance : nat)
           (st : gmap node nat * list node) (e : node * node * NX.attr)
  : gmap node nat * list node :=
  let '(successors, next_queue) := st in
  let '(from_lu, to_lu, edge) := e in
  if _rel_has_name edge rel_name && negb (bool_decide (is_Some (successors !! to_lu)))
  then
    let successors := <[to_lu := S distance]> successors in
    if bool_decide (to_lu ∈ lus) then (successors, next_queue)
    else (successors, next_queue ++ [to_lu])
  else st.

(** The [while queue:] loop.  [fuel] bounds the number of turns; the
    loop proper has no such bound. *)
Fixpoint tc_loop (g : NX.MultiDiGraph) (rel_name : string) (lus : gset node)
         (fuel : nat) (queue : list node) (distance : nat)
         (successors : gmap node nat) : option (gmap node nat) :=
  match queue with
  | [] => Some successors
  | _ =>
      match fuel with
      | 0 => None
      | S fuel' =>
          let '(successors, next_queue) :=
            fold_left (tc_visit rel_name lus distance)
                      (NX.out_edges_iter g queue) (successors, []) in
          tc_loop g rel_name lus fuel' next_queue (S distance) successors
      end
  end.

(** [_transitive_closure]: [queue = lus], [lus = dict.fromkeys(lus)],
    [distance = 0], [successors = {}], then the loop. *)
Definition transitive_closure_fuel (g : NX.MultiDiGraph) (fuel : nat)
           (lus : list node) (rel_name : string) : option (gmap node nat) :=
  tc_loop g rel_name (list_to_set lus) fuel lus 0 ∅.

Definition _transitive_closure (c : Cornet) (lus : list node) (rel_name : string)
  : result (gmap node nat) :=
  match transitive_closure_fuel (_graph c) (S (size (edge_targets (_graph c)))) lus rel_name with
  | Some successors => Ok successors
  | None => Raise Diverges
  end.

(** Predecessor and successor dicts of the bidirectional search: a unit
    maps to the pair (unit, edge) it was reached through, or to
    [(None, None)] when it is a source, respectively a target. *)
Abbreviation links := (gmap node (option node * option NX.attr)).

(** [dict.fromkeys(lus, (None, None))] *)
Definition fromkeys (lus : list node) : links :=
  fold_left (fun d lu => <[lu := (None, None)]> d) lus ∅.

Definition in_dict (d : links) (lu : node) : bool := bool_decide (is_Some (d !! lu)).

(** The forward [for] loop of [_bidirectional_shortest_path]; the third
    component is the unit the loop returned at, if it did:
<<
    if self._rel_has_name(edge, rel_name):
        if to_lu not in pred: # prevent cycles
            forward_fringe.append(to_lu)
            pred[to_lu] = (from_lu, edge)
        if to_lu in succ:  return pred, to_lu, succ # found path
>> *)
Fixpoint forward_scan (rel_name : string) (succ : links)
         (edges : list (node * node * NX.attr)) (pred : links)
         (forward_fringe : list node) : links * list node * option node :=
  match edges with
  | [] => (pred, forward_fringe, None)
  | (from_lu, to_lu, edge) :: rest =>
      if _rel_has_name edge rel_name then
        let '(pred, forward_fringe) :=
          if negb (in_dict pred to_lu)
          then (<[to_lu := (Some from_lu, Some edge)]> pred, forward_fringe ++ [to_lu])
          else (pred, forward_fringe) in
        if in_dict succ to_lu then (pred, forward_fringe, Some to_lu)
        else forward_scan rel_name succ rest pred forward_fringe
      else forward_scan rel_name succ rest pred forward_fringe
  end.

(** The reverse [for] loop:
<<
    if self._rel_has_name(edge, rel_name):
        if from_lu not in succ:
            # may replace existing relation
            succ[from_lu] = (to_lu, edge)
            reverse_fringe.append(from_lu)
        if from_lu in pred:  return pred, from_lu, succ # found path
>> *)
Fixpoint reverse_scan (rel_name : string) (pred : links)
         (edges : list (node * node * NX.attr)) (succ : links)
         (reverse_fringe : list node) : links * list node * option node :=
  match edges with
  | [] => (succ, reverse_fringe, None)
  | (from_lu, to_lu, edge) :: rest =>
      if _rel_has_name edge rel_name then
        let '(succ, reverse_fringe) :=
          if negb (in_dict succ from_lu)
          then (<[from_lu := (Some to_lu, Some edge)]> succ, reverse_fringe ++ [from_lu])
          else (succ, reverse_fringe) in
        if in_dict pred from_lu then (succ, reverse_fringe, Some from_lu)
        else reverse_scan rel_name pred rest succ reverse_fringe
      else reverse_scan rel_name pred rest succ reverse_fringe
  end.

Abbreviation search_result := (option links * option node * option links)%type.

(** The [while forward_fringe and reverse_fringe and level != depth:]
    loop.  [remaining] is [depth - level]: [level] starts at 0 and only
    grows by one, so for a depth that is not negative the test
    [level != depth] is [remaining != 0]. *)
Fixpoint bsp_loop (g : NX.MultiDiGraph) (rel_name : string) (remaining : nat)
         (pred succ : links) (forward_fringe reverse_fringe : list node)
  : search_result :=
  match forward_fringe, reverse_fringe, remaining with
  | [], _, _ | _, [], _ | _, _, 0 => (None, None, None)
  | _, _, S remaining' =>
      let this_level := forward_fringe in
      let '(pred, forward_fringe, found) :=
        forward_scan rel_name succ (NX.out_edges_iter g this_level) pred [] in
      match found with
      | Some to_lu => (Some pred, Some to_lu, Some succ)
      | None =>
          (* level += 1; if level == depth: break *)
          match remaining' with
          | 0 => (None, None, None)
          | S remaining'' =>
              let this_level := reverse_fringe in
              let '(succ, reverse_fringe, found) :=
                reverse_scan rel_name pred (NX.in_edges_iter g this_level) succ [] in
              match found with
              | Some from_lu => (Some pred, Some from_lu, Some succ)
              | None =>
                  bsp_loop g rel_name remaining'' pred succ forward_fringe reverse_fringe
              end
          end
      end
  end.

(** [_bidirectional_shortest_path]; [depth] is positive at every call
    (it comes out of [_split_rel_spec]). *)
Definition _bidirectional_shortest_path (g : NX.MultiDiGraph)
           (from_lus to_lus : list node) (rel_name : string) (depth : nat)
  : search_result :=
  let pred := fromkeys from_lus in
  let succ := fromkeys to_lus in
  (* check trivial case where sources and targets intersect *)
  match List.find (in_dict succ) from_lus with
  | Some lu => (None, Some lu, None)
  | None => bsp_loop g rel_name depth pred succ from_lus to_lus
  end.

(** [not d] for a dict or [None] *)
Definition falsy (d : option links) : bool :=
  match d with
  | None => true
  | Some m => bool_decide (m = ∅)
  end.

(** [d[key]] for a value that may be [None] (not subscriptable) and a
    key that may be [None] (never a key here). *)
Definition getitem (d : option links) (key : option node)
  : result (option node * option NX.attr) :=
  match d with
  | None => Raise TypeError
  | Some m =>
      match key with
      | None => Raise KeyError
      | Some lu =>
          match m !! lu with
          | Some v => Ok v
          | None => Raise KeyError
          end
      end
  end.

(** The first loop of [_reconstruct_path], from the common unit to a
    target:
<<
    while lu is not None:
        path.append(lu_formatter(lu))
        lu, edge = succ[lu]
        if edge is not None:
            path.append(rel_formatter(edge))
>> *)
Fixpoint path_to_target (lu_formatter : node -> value)
         (rel_formatter : option NX.attr -> result value)
         (fuel : nat) (succ : option links) (lu : option node) (path : list value)
  : result (list value) :=
  match lu with
  | None => Ok path
  | Some n =>
      match fuel with
      | 0 => Raise Diverges
      | S fuel' =>
          let path := path ++ [lu_formatter n] in
          let? (lu', edge) := getitem succ (Some n) in
          match edge with
          | Some e =>
              let? r := rel_formatter (Some e) in
              path_to_target lu_formatter rel_formatter fuel' succ lu' (path ++ [r])
          | None => path_to_target lu_formatter rel_formatter fuel' succ lu' path
          end
      end
  end.

(** The second loop, from the common unit back to a source:
<<
    while lu is not None:
        path.insert(0, lu_formatter(lu))
        lu, edge = pred[lu]
        if edge is not None:
            path.insert(0, rel_formatter(edge))
>> *)
Fixpoint path_from_source (lu_formatter : node -> value)
         (rel_formatter : option NX.attr -> result value)
         (fuel : nat) (pred : option links) (lu : option node) (path : list value)
  : result (list value) :=
  match lu with
  | None => Ok path
  | Some n =>
      match fuel with
      | 0 => Raise Diverges
      | S fuel' =>
          let path := lu_formatter n :: path in
          let? (lu', edge) := getitem pred (Some n) in
          match edge with
          | Some e =>
              let? r := rel_formatter (Some e) in
              path_from_source lu_formatter rel_formatter fuel' pred lu' (r :: path)
          | None => path_from_source lu_formatter rel_formatter fuel' pred lu' path
          end
      end
  end.

(** [_reconstruct_path].  [fuel] bounds each of its two loops. *)
Definition _reconstruct_path (c : Cornet) (fuel : nat) (pred : option links)
           (common_lu : option node) (succ : option links) (format : option string)
  : result (list value) :=
  let? lu_formatter := _get_lex_unit_formatter c format in
  let? rel_formatter := _get_relation_formatter c format in
  if falsy pred && falsy succ then
    match common_lu with
    | Some lu =>
        if ET.truthy (deref c lu)
        then Ok [lu_formatter lu]   (* trivial path: sources and targets intersect *)
        else Ok []
    | None => Ok []                 (* no path found *)
    end
  else
    (* from common lu to target lu *)
    let? path := path_to_target lu_formatter rel_formatter fuel succ common_lu [] in
    (* from source lu to common *)
    let? (lu, edge) := getitem pred common_lu in
    let? r := rel_formatter edge in
    path_from_source lu_formatter rel_formatter fuel pred lu (r :: path).

(** [test_lex_units_relation] *)
Definition test_lex_units_relation (c : Cornet) (from_lu_spec rel_spec to_lu_spec : string)
           (format : option string) : M (list value) :=
  let* (rel_name, depth) := lift (_split_rel_spec rel_spec) in
  let* from_lus := get_lex_units c from_lu_spec (Some "raw") in
  let* to_lus := get_lex_units c to_lu_spec (Some "raw") in
  let* _ := tick (Ev_bidirectional_shortest_path (as_lus from_lus) (as_lus to_lus) rel_name) in
  let '(pred, common_lu, succ) :=
    _bidirectional_shortest_path (_graph c) (as_lus from_lus) (as_lus to_lus)
                                 rel_name (Z.to_nat depth) in
  lift (_reconstruct_path c (S (Z.to_nat depth)) pred common_lu succ format).

(** The units a spec resolves to: what [get_lex_units] returns for it
    with [format="raw"]. *)
Definition resolve (c : Cornet) (spec : string) : list node :=
  match unpack3 (_split_unit_spec spec) with
  | Ok (form, cat, sense) => matching_lus c form cat sense
  | Raise _ => []
  end.

(** The last two statements of [test_lex_units_relation] on their own:
    the search between two lists of units and the path rebuilt from
    its result. *)
Definition path_between (c : Cornet) (from_lus to_lus : list node)
           (rel_name : string) (depth : nat) (format : option string)
  : result (list value) :=
  let '(pred, common_lu, succ) :=
    _bidirectional_shortest_path (_graph c) from_lus to_lus rel_name depth in
  _reconstruct_path c (S depth) pred common_lu succ format.

(** ** Related units *)

(** The nested dict [_search_related_lex_units] returns: relation ->
    unit -> the same again.  Dicts are kept as association lists. *)
Inductive related : Type :=
  Related (entries : list (value * list (value * related))).

(** Attribute dicts cannot be dict keys. *)
Definition hashable (v : value) : bool :=
  match v with VEdge _ => false | _ => true end.

Fixpoint dict_set {V} (k : value) (v : V) (d : list (value * V)) : list (value * V) :=
  match d with
  | [] => [(k, v)]
  | (k', v') :: d' => if value_eqb k' k then (k', v) :: d' else (k', v') :: dict_set k v d'
  end.

Fixpoint dict_get {V} (k : value) (d : list (value * V)) : option V :=
  match d with
  | [] => None
  | (k', v') :: d' => if value_eqb k' k then Some v' else dict_get k d'
  end.

(** [_search_related_lex_units]; [fuel] bounds the depth of the
    recursion, which [len(path) <= depth] bounds in the code. *)
Fixpoint _search_related_lex_units (g : NX.MultiDiGraph) (fuel : nat)
         (from_lu : node) (rel_name : string) (depth : Z)
         (lu_formatter : node -> value)
         (rel_formatter : option NX.attr -> result value)
         (path : list node) : result related :=
  if (Z.of_nat (length path) <=? depth)%Z then
    match fuel with
    | 0 => Raise Diverges
    | S fuel' =>
        let? entries :=
          fold_left
            (fun acc '(_, to_lu, edge) =>
               let? from_lu_related := acc in
               if negb (existsb (Nat.eqb to_lu) path) && _rel_has_name edge rel_name then
                 let? to_lu_related :=
                   _search_related_lex_units g fuel' to_lu rel_name depth
                     lu_formatter rel_formatter (path ++ [to_lu]) in
                 let to_lu_repr := lu_formatter to_lu in
                 let? rel_repr := rel_formatter (Some edge) in
                 if hashable rel_repr then
                   match dict_get rel_repr from_lu_related with
                   | Some inner =>
                       Ok (dict_set rel_repr (dict_set to_lu_repr to_lu_related inner)
                                    from_lu_related)
                   | None =>
                       Ok (dict_set rel_repr [(to_lu_repr, to_lu_related)] from_lu_related)
                   end
                 else Raise TypeError
               else Ok from_lu_related)
            (NX.out_edges_of g from_lu) (Ok []) in
        Ok (Related entries)
    end
  else Ok (Related []).

(** The depth [get_related_lex_units] searches to:
<<
    if not rel_name:
        if rel_spec == "+":
            # silently change to max allowed search depth
            depth = self._max_depth
        elif depth > self._max_depth:
            raise ValueError(...)
>> *)
Definition checked_depth (c : Cornet) (rel_spec rel_name : string) (depth : Z)
  : result Z :=
  if negb (truthy rel_name) then
    if String.eqb rel_spec "+" then Ok (_max_depth c)
    else if (_max_depth c <? depth)%Z then
      Raise (ValueError "requested search depth is larger than maximum search depth")
    else Ok depth
  else Ok depth.

(** [get_related_lex_units] *)
Definition get_related_lex_units (c : Cornet) (lu_spec rel_spec : string)
           (format : option string) : M (list (value * related)) :=
  let* (rel_name, depth) := lift (_split_rel_spec rel_spec) in
  let* depth := lift (checked_depth c rel_spec rel_name depth) in
  let* lu_formatter := lift (_get_lex_unit_formatter c format) in
  let* rel_formatter := lift (_get_relation_formatter c format) in
  let* from_lus := get_lex_units c lu_spec (Some "raw") in
  for_each (as_lus from_lus)
    (fun related_lus from_lu =>
       let from_lu_repr := lu_formatter from_lu in
       let* _ := tick (Ev_search_related_lex_units from_lu) in
       let* r := lift (_search_related_lex_units (_graph c) (Z.to_nat depth) from_lu
                         rel_name depth lu_formatter rel_formatter [from_lu]) in
       ret (dict_set from_lu_repr r related_lus))
    [].

(** ** Common subsumers *)

(** [acs.setdefault(key, []).append(x)] *)
Definition setdefault_append (acs : gmap nat (list value)) (key : nat) (x : value)
  : gmap nat (list value) :=
  <[key := default [] (acs !! key) ++ [x]]> acs.

(** [for lu in lus: sucs[lu] = 0] *)
Definition add_zero (lus : list node) (sucs : gmap node nat) : gmap node nat :=
  fold_left (fun m lu => <[lu := 0]> m) lus sucs.

(** The grouping loop of [all_common_subsumers]:
<<
    for lu, dist in sucs1.items():
        try:
            sum_of_dist = dist + sucs2[lu]
        except KeyError:
            continue
        acs.setdefault(sum_of_dist, []).append(formatter(lu))
>> *)
Definition group_by_sum (formatter : node -> value) (sucs1 sucs2 : gmap node nat)
  : gmap nat (list value) :=
  fold_left
    (fun acs '(lu, dist) =>
       match sucs2 !! lu with
       | Some dist2 => setdefault_append acs (dist + dist2) (formatter lu)
       | None => acs
       end)
    (map_to_list sucs1) ∅.

(** [all_common_subsumers] *)
Definition all_common_subsumers (c : Cornet) (lu_spec1 lu_spec2 rel_name : string)
           (format : option string) : M (gmap nat (list value)) :=
  let rel_name := upper rel_name in
  let* formatter := lift (_get_lex_unit_formatter c format) in
  let* lus1 := get_lex_units c lu_spec1 (Some "raw") in
  let* _ := tick (Ev_transitive_closure (as_lus lus1) rel_name) in
  let* sucs1 := lift (_transitive_closure c (as_lus lus1) rel_name) in
  (* Add lus themselves as succesors with zero distance *)
  let sucs1 := add_zero (as_lus lus1) sucs1 in
  let* lus2 := get_lex_units c lu_spec2 (Some "raw") in
  let* _ := tick (Ev_transitive_closure (as_lus lus2) rel_name) in
  let* sucs2 := lift (_transitive_closure c (as_lus lus2) rel_name) in
  let sucs2 := add_zero (as_lus lus2) sucs2 in
  ret (group_by_sum formatter sucs1 sucs2).

(** [min(acs.keys())] on a dict that is not empty *)
Definition min_key (acs : gmap nat (list value)) : option nat :=
  match map (fun p => fst p) (map_to_list acs) with
  | [] => None
  | k :: ks => Some (fold_left Nat.min ks k)
  end.

(** [least_common_subsumers] *)
Definition least_common_subsumers (c : Cornet) (lu_spec1 lu_spec2 rel_name : string)
           (format : option string) : M (list value) :=
  let* acs := all_common_subsumers c lu_spec1 lu_spec2 rel_name format in
  match min_key acs with
  | Some minimum =>
      match acs !! minimum with
      | Some group => ret group
      | None => raise KeyError
      end
  | None => ret []
  end.

End Cornet.

(* ===================================================================== *)
(** * Paths in the graph, for stating what the searches compute *)
(* ===================================================================== *)

Module Reach.

(** An edge from [u] to [v] that passes the relation filter. *)
Definition step (g : NX.MultiDiGraph) (rel_name : string) (u v : node) : Prop :=
  ∃ a, NX.has_edge g u v a ∧ Cornet._rel_has_name a rel_name = true.

(** A directed path of exactly [n] such edges. *)
Inductive walk (g : NX.MultiDiGraph) (rel_name : string) : nat → node → node → Prop :=
| walk_nil u : walk g rel_name 0 u u
| walk_cons n u v w :
    step g rel_name u v → walk g rel_name n v w → walk g rel_name (S n) u w.

(** [x] is [n] edges away from some unit of [lus]. *)
Definition reach (g : NX.MultiDiGraph) (rel_name : string) (lus : list node)
           (n : nat) (x : node) : Prop :=
  ∃ s, s ∈ lus ∧ walk g rel_name n s x.

(** Some path of at most [d] edges leads from a source to a target. *)
Definition connected_within (g : NX.MultiDiGraph) (rel_name : string)
           (from_lus to_lus : list node) (d : nat) : Prop :=
  ∃ n s t, n ≤ d ∧ s ∈ from_lus ∧ t ∈ to_lus ∧ walk g rel_name n s t.

End Reach.

(* ===================================================================== *)
(** * simcornet.py: the SimCornet class *)
(* ===================================================================== *)

Module SimCornet.
Import Py SpecParser Cornet.

(** A SimCornet instance: a Cornet instance and the count totals per
    category, [self._cat2counts]. *)
Record SimCornet : Type := {
  cornet : Cornet;
  _cat2counts : gmap string Z
}.

(** The least common subsumers of two lists of units: what
    [least_common_subsumers] computes from the units its two specs
    resolve to, with the default relation and raw output. *)
Definition lcs_of_units (c : Cornet) (lus1 lus2 : list node) : list node :=
  match _transitive_closure c lus1 "HAS_HYPERONYM",
        _transitive_closure c lus2 "HAS_HYPERONYM" with
  | Ok sucs1, Ok sucs2 =>
      let acs := group_by_sum VLu (add_zero lus1 sucs1) (add_zero lus2 sucs2) in
      match min_key acs with
      | Some minimum => as_lus (default [] (acs !! minimum))
      | None => []
      end
  | _, _ => []
  end.

(** The least common subsumers of one pair of units. *)
Definition unit_lcs (c : Cornet) (lu1 lu2 : node) : list node :=
  lcs_of_units c [lu1] [lu2].

(** The spec of each of these units resolves to that unit and to no
    other. *)
Definition round_trips (c : Cornet) (lus : list node) : bool :=
  forallb (fun lu => bool_decide (resolve c (_lu_to_spec c lu) = [lu])) lus.

Section Floats.

(** Python floats and the operations the class applies to them.
    [math_log x base] is [math.log(x, base)], which raises on zero and
    on negative arguments; [fdiv] is float division, which raises
    [ZeroDivisionError] on a zero divisor. *)
Variable float : Type.
Variable fzero : float.
Variable of_int : Z -> float.
Variables fadd fsub fmul : float -> float -> float.
Variable fneg : float -> float.
Variable fdiv : float -> float -> result float.
Variable fltb : float -> float -> bool.
Variable math_log : float -> Z -> result float.

(** [_get_lu_count]:
<<
    try:
        if subcount:
            return int(lu.find("form").get("subcount"))
        else:
            return int(lu.find("form").get("count"))
    except AttributeError:
        return None      # no <form> elem
    except TypeError:
        return None      # no "(sub)count" attrib
>>
    [int] of a string that is no number is a [ValueError], which is
    not caught. *)
Definition _get_lu_count (sc : SimCornet) (lu : node) (subcount : bool)
  : result (option Z) :=
  match ET.find (deref (cornet sc) lu) "form" with
  | None => Ok None
  | Some form =>
      match ET.get form (if subcount then "subcount" else "count") with
      | None => Ok None
      | Some s => let? n := int_of_string s in Ok (Some n)
      end
  end.

(** [get_count]:
<<
    formatter = self._get_lex_unit_formatter(format)
    lu2count = dict()
    for lu in self.get_lex_units(lu_spec, "raw"):
        lu2count[formatter(lu)] = self._get_lu_count(lu, subcount)
    return lu2count
>> *)
Definition get_count (sc : SimCornet) (lu_spec : string) (subcount : bool)
           (format : option string) : M (list (value * option Z)) :=
  let* formatter := lift (_get_lex_unit_formatter (cornet sc) format) in
  let* lus := get_lex_units (cornet sc) lu_spec (Some "raw") in
  for_each (as_lus lus)
    (fun lu2count lu =>
       let* count := lift (_get_lu_count sc lu subcount) in
       ret (dict_set (formatter lu) count lu2count))
    [].

(** [_p] *)
Definition _p (sc : SimCornet) (lu : node) (subcount smooth cat_totals : bool)
  : result (option float) :=
  let? lu_count := _get_lu_count sc lu subcount in
  match lu_count with
  | None => Ok None
  | Some lu_count =>
      (* probability with optional smoothing by add-one *)
      let lu_count := if (lu_count =? 0)%Z && smooth then 1%Z else lu_count in
      (* optionally use the category-specific totals *)
      let cat :=
        if cat_totals then
          let cat := _get_lu_cat (cornet sc) lu in
          if truthy cat then cat else "all"
        else "all" in
      match _cat2counts sc !! cat with
      | None => Raise KeyError
      | Some total =>
          let count_total := of_int total in
          let? p := fdiv (of_int lu_count) count_total in
          Ok (Some p)
      end
  end.

(** [get_probability]: as [get_count], with
    [lu2prob[formatter(lu)] = self._p(lu, subcount, smooth, cat_totals)]. *)
Definition get_probability (sc : SimCornet) (lu_spec : string)
           (subcount smooth cat_totals : bool) (format : option string)
  : M (list (value * option float)) :=
  let* formatter := lift (_get_lex_unit_formatter (cornet sc) format) in
  let* lus := get_lex_units (cornet sc) lu_spec (Some "raw") in
  for_each (as_lus lus)
    (fun lu2prob lu =>
       let* p := lift (_p sc lu subcount smooth cat_totals) in
       ret (dict_set (formatter lu) p lu2prob))
    [].

(** What [try: ... except OverflowError: return None
    except TypeError: return None] makes of an exception. *)
Definition caught_by_IC (e : exn) : bool :=
  match e with
  | OverflowError | TypeError => true
  | _ => false
  end.

(** [_IC]: [-log(self._p(...), base)] with [base=2]; [log(None, 2)] is a
    [TypeError]. *)
Definition _IC (sc : SimCornet) (lu : node) (subcount smooth cat_totals : bool)
  : result (option float) :=
  let attempt :=
    let? p := _p sc lu subcount smooth cat_totals in
    match p with
    | None => Raise TypeError
    | Some p => let? l := math_log p 2 in Ok (Some (fneg l))
    end in
  match attempt with
  | Ok ic => Ok ic
  | Raise e => if caught_by_IC e then Ok None else Raise e
  end.

(** [get_info_content]: as [get_count], with
    [lu2ic[formatter(lu)] = self._IC(lu, subcount, smooth, cat_totals)]. *)
Definition get_info_content (sc : SimCornet) (lu_spec : string)
           (subcount smooth cat_totals : bool) (format : option string)
  : M (list (value * option float)) :=
  let* formatter := lift (_get_lex_unit_formatter (cornet sc) format) in
  let* lus := get_lex_units (cornet sc) lu_spec (Some "raw") in
  for_each (as_lus lus)
    (fun lu2ic lu =>
       let* ic := lift (_IC sc lu subcount smooth cat_totals) in
       ret (dict_set (formatter lu) ic lu2ic))
    [].

(** Python 2 orders [None] below every number. *)
Definition py_lt (a b : option float) : bool :=
  match a, b with
  | None, Some _ => true
  | Some x, Some y => fltb x y
  | _, _ => false
  end.

(** [max(l)] on a list that is not empty: the first of the largest. *)
Definition py_max (first : option float) (rest : list (option float)) : option float :=
  fold_left (fun max_item item => if py_lt max_item item then item else max_item)
            rest first.

(** [[f(x) for x in l]] for an [f] that may raise *)
Fixpoint map_result {A B} (f : A -> result B) (l : list A) : result (list B) :=
  match l with
  | [] => Ok []
  | x :: rest =>
      let? y := f x in
      let? ys := map_result f rest in
      Ok (y :: ys)
  end.

(** [resnik_sim] *)
Definition resnik_sim (sc : SimCornet) (lu_spec1 lu_spec2 : string)
           (smooth cat_totals : bool) (format : option string) : M (option float) :=
  let c := cornet sc in
  let* found1 := get_lex_units c lu_spec1 None in
  let* found :=
    match found1 with
    | [] => ret false
    | _ => let* found2 := get_lex_units c lu_spec2 None in
           ret (match found2 with [] => false | _ => true end)
    end in
  (* If no matching lex units were found, we return None *)
  if found : bool then
    let* lcss := least_common_subsumers c lu_spec1 lu_spec2 "HAS_HYPERONYM" (Some "raw") in
    let* lcs_ics := lift (map_result (fun lcs => _IC sc lcs true smooth cat_totals)
                                     (as_lus lcss)) in
    match lcs_ics with
    | first :: rest => ret (py_max first rest)
    | [] => ret (Some fzero)
    end
  else ret None.

(** [if min_dist is None or new_dist < min_dist: min_dist = new_dist] *)
Definition update_min (min_dist : option float) (new_dist : float) : option float :=
  match min_dist with
  | None => Some new_dist
  | Some m => if fltb new_dist m then Some new_dist else Some m
  end.

(** The innermost loop of [jiang_conrath_dist], over the least common
    subsumers of one pair. *)
Definition jc_lcs_loop (sc : SimCornet) (smooth cat_totals : bool) (ic1 ic2 : float)
           (lcss : list node) (min_dist : option float) : M (option float) :=
  for_each lcss
    (fun min_dist lcs =>
       let* lcs_ic := lift (_IC sc lcs true smooth cat_totals) in
       match lcs_ic with
       | None => ret min_dist
       | Some lcs_ic =>
           let new_dist := fsub (fadd ic1 ic2) (fmul (of_int 2) lcs_ic) in
           ret (update_min min_dist new_dist)
       end)
    min_dist.

(** [jiang_conrath_dist] *)
Definition jiang_conrath_dist (sc : SimCornet) (lu_spec1 lu_spec2 : string)
           (smooth cat_totals : bool) (format : option string) : M (option float) :=
  let c := cornet sc in
  let* lus1 := get_lex_units c lu_spec1 (Some "raw") in
  let* lus2 := get_lex_units c lu_spec2 (Some "raw") in
  for_each (as_lus lus1)
    (fun min_dist lu1 =>
       let* ic1 := lift (_IC sc lu1 true smooth cat_totals) in
       match ic1 with
       | None => ret min_dist
       | Some ic1 =>
           for_each (as_lus lus2)
             (fun min_dist lu2 =>
                let* ic2 := lift (_IC sc lu2 true smooth cat_totals) in
                match ic2 with
                | None => ret min_dist
                | Some ic2 =>
                    (* hmmm, conversion back to spec stinks *)
                    let* lcss := least_common_subsumers c (_lu_to_spec c lu1)
                                   (_lu_to_spec c lu2) "HAS_HYPERONYM" (Some "raw") in
                    let* min_dist := jc_lcs_loop sc smooth cat_totals ic1 ic2
                                       (as_lus lcss) min_dist in
                    (* If no lcs was found, we assume lcs_ic is zero,
                       and thus the sim score is ic1 + ic2. *)
                    let new_dist := fadd ic1 ic2 in
                    ret (update_min min_dist new_dist)
                end)
             min_dist
       end)
    None.

(** ** The measures in the words of their documentation

    What follows translates no code: it words what the docstrings
    promise, for the comparison with [resnik_sim] and
    [jiang_conrath_dist] above. *)

(** The information content of a unit from its subcount, or [None]
    where [_IC] gives none. *)
Definition IC_of (sc : SimCornet) (smooth cat_totals : bool) (lu : node) : option float :=
  match _IC sc lu true smooth cat_totals with
  | Ok ic => ic
  | Raise _ => None
  end.

(** [_IC] returns for this unit (it raises nothing it does not catch). *)
Definition IC_returns (sc : SimCornet) (smooth cat_totals : bool) (lu : node) : bool :=
  match _IC sc lu true smooth cat_totals with
  | Ok _ => true
  | Raise _ => false
  end.

(** The least common subsumers of every pair of units, pair by pair. *)
Definition pairwise_lcs (c : Cornet) (lus1 lus2 : list node) : list node :=
  concat (map (fun lu1 => concat (map (fun lu2 => unit_lcs c lu1 lu2) lus2)) lus1).

(** Resnik's similarity as the docstring has it: "For every combination
    of lexical units from these two sets, the LCS is computed (if any),
    and the one with the maximum information content is selected";
    zero if there are units but no LCS, [None] if there are no units. *)
Definition resnik_sim_documented (sc : SimCornet) (lu_spec1 lu_spec2 : string)
           (smooth cat_totals : bool) : result (option float) :=
  let c := cornet sc in
  match resolve c lu_spec1, resolve c lu_spec2 with
  | [], _ | _, [] => Ok None
  | lus1, lus2 =>
      let? lcs_ics := map_result (fun lcs => _IC sc lcs true smooth cat_totals)
                                 (pairwise_lcs c lus1 lus2) in
      match lcs_ics with
      | first :: rest => Ok (py_max first rest)
      | [] => Ok (Some fzero)
      end
  end.

(** The distance of one pair through one of its subsumers. *)
Definition jc (ic1 ic2 lcs_ic : float) : float :=
  fsub (fadd ic1 ic2) (fmul (of_int 2) lcs_ic).

(** The distances through the subsumers whose information content is
    defined. *)
Definition jc_through (sc : SimCornet) (smooth cat_totals : bool) (ic1 ic2 : float)
           (lcss : list node) : list float :=
  omap (fun lcs => option_map (jc ic1 ic2) (IC_of sc smooth cat_totals lcs)) lcss.

(** The least of a list of distances, [None] for the empty list. *)
Definition least_dist (dists : list float) : option float :=
  fold_left update_min dists None.

(** What each pair of units with defined information content
    contributes, in a reading where the sum [ic1 + ic2] stands in only
    for a pair without any least common subsumer. *)
Definition jc_pair_documented (sc : SimCornet) (smooth cat_totals : bool)
           (lu1 lu2 : node) : list float :=
  match IC_of sc smooth cat_totals lu1, IC_of sc smooth cat_totals lu2 with
  | Some ic1, Some ic2 =>
      match unit_lcs (cornet sc) lu1 lu2 with
      | [] => [fadd ic1 ic2]
      | lcss => jc_through sc smooth cat_totals ic1 ic2 lcss
      end
  | _, _ => []
  end.

Definition jiang_conrath_dist_documented (sc : SimCornet) (lu_spec1 lu_spec2 : string)
           (smooth cat_totals : bool) : option float :=
  let c := cornet sc in
  least_dist
    (concat (map (fun lu1 =>
                    concat (map (fun lu2 => jc_pair_documented sc smooth cat_totals lu1 lu2)
                                (resolve c lu_spec2)))
                 (resolve c lu_spec1))).

(** What each pair contributes in [jiang_conrath_dist]: the distances
    through its subsumers, and the sum [ic1 + ic2] in any case. *)
Definition jc_pair (sc : SimCornet) (smooth cat_totals : bool)
           (lu1 lu2 : node) : list float :=
  match IC_of sc smooth cat_totals lu1, IC_of sc smooth cat_totals lu2 with
  | Some ic1, Some ic2 =>
      jc_through sc smooth cat_totals ic1 ic2 (unit_lcs (cornet sc) lu1 lu2)
      ++ [fadd ic1 ic2]
  | _, _ => []
  end.

(** [x] is one of the distances the pairs of units contribute. *)
Definition jc_candidate (sc : SimCornet) (smooth cat_totals : bool)
           (lus1 lus2 : list node) (x : float) : Prop :=
  ∃ lu1 lu2 ic1 ic2,
    lu1 ∈ lus1 ∧ lu2 ∈ lus2
    ∧ IC_of sc smooth cat_totals lu1 = Some ic1
    ∧ IC_of sc smooth cat_totals lu2 = Some ic2
    ∧ (x = fadd ic1 ic2
       ∨ ∃ lcs lcs_ic, lcs ∈ unit_lcs (cornet sc) lu1 lu2
                       ∧ IC_of sc smooth cat_totals lcs = Some lcs_ic
                       ∧ x = jc ic1 ic2 lcs_ic).

(** The units whose information content [jiang_conrath_dist] may ask
    for. *)
Definition jc_units (c : Cornet) (lus1 lus2 : list node) : list node :=
  lus1 ++ lus2 ++ pairwise_lcs c lus1 lus2.

(** ** Lin's similarity, and the similarity of Jiang and Conrath *)

(** [max(a, b)] of two items: the first, unless the second is greater. *)
Definition py_max2 (a b : option float) : option float := py_max a [b].

(** The innermost loop of [lin_sim], over the least common subsumers
    of one pair:
<<
    new_sim = (2 * lcs_ic) / float(ic1 + ic2)
    max_sim = max(max_sim, new_sim)
>> *)
Definition lin_lcs_loop (sc : SimCornet) (smooth cat_totals : bool) (ic1 ic2 : float)
           (lcss : list node) (max_sim : option float) : M (option float) :=
  for_each lcss
    (fun max_sim lcs =>
       let* lcs_ic := lift (_IC sc lcs true smooth cat_totals) in
       match lcs_ic with
       | None => ret max_sim
       | Some lcs_ic =>
           let* new_sim := lift (fdiv (fmul (of_int 2) lcs_ic) (fadd ic1 ic2)) in
           ret (py_max2 max_sim (Some new_sim))
       end)
    max_sim.

(** [lin_sim] *)
Definition lin_sim (sc : SimCornet) (lu_spec1 lu_spec2 : string)
           (smooth cat_totals : bool) (format : option string) : M (option float) :=
  let c := cornet sc in
  let* lus1 := get_lex_units c lu_spec1 (Some "raw") in
  let* lus2 := get_lex_units c lu_spec2 (Some "raw") in
  for_each (as_lus lus1)
    (fun max_sim lu1 =>
       let* ic1 := lift (_IC sc lu1 true smooth cat_totals) in
       match ic1 with
       | None => ret max_sim
       | Some ic1 =>
           for_each (as_lus lus2)
             (fun max_sim lu2 =>
                let* ic2 := lift (_IC sc lu2 true smooth cat_totals) in
                match ic2 with
                | None => ret max_sim
                | Some ic2 =>
                    let* lcss := least_common_subsumers c (_lu_to_spec c lu1)
                                   (_lu_to_spec c lu2) "HAS_HYPERONYM" (Some "raw") in
                    let* max_sim := lin_lcs_loop sc smooth cat_totals ic1 ic2
                                      (as_lus lcss) max_sim in
                    (* Hence, without any max_sim yet, we assume max_sim is zero. *)
                    ret (py_max2 max_sim (Some fzero))
                end)
             max_sim
       end)
    None.

(** [jiang_conrath_sim]: [1 / (1 + sim)], and [None] for no distance. *)
Definition jiang_conrath_sim (sc : SimCornet) (lu_spec1 lu_spec2 : string)
           (smooth cat_totals : bool) (format : option string) : M (option float) :=
  let* sim := jiang_conrath_dist sc lu_spec1 lu_spec2 smooth cat_totals format in
  match sim with
  | Some sim =>
      let* r := lift (fdiv (of_int 1) (fadd (of_int 1) sim)) in
      ret (Some r)
  | None => ret None
  end.

End Floats.

End SimCornet.

(* ===================================================================== *)
(** * Exact numbers for the examples *)
(* ===================================================================== *)

(** Rationals in lowest terms stand in for Python's floats in the
    examples, which keep to halves, quarters and small integers, where
    float arithmetic is exact.  The logarithm is the one to base 2 of a
    power of two; no other argument occurs in the examples, and none
    is given a value here. *)
Module Dyadic.
Import Py.

Definition float : Type := Q.
Definition fzero : float := 0%Q.
Definition of_int (z : Z) : float := inject_Z z.
Definition fadd (a b : float) : float := Qred (a + b).
Definition fsub (a b : float) : float := Qred (a - b).
Definition fmul (a b : float) : float := Qred (a * b).
Definition fneg (a : float) : float := Qred (- a).
Definition fdiv (a b : float) : result float :=
  if Qeq_bool b 0 then Raise ZeroDivisionError else Ok (Qred (a / b)).
Definition fltb (a b : float) : bool := negb (Qle_bool b a).

(** [Some k] for the positive number [2^k]. *)
Fixpoint log2_exact (p : positive) : option Z :=
  match p with
  | xH => Some 0%Z
  | xO p => option_map Z.succ (log2_exact p)
  | xI _ => None
  end.

Definition math_log (x : float) (base : Z) : result float :=
  if (Qnum x <=? 0)%Z then Raise (ValueError "math domain error")
  else
    match log2_exact (Z.to_pos (Qnum (Qred x))), log2_exact (Qden (Qred x)) with
    | Some n, Some d =>
        if (base =? 2)%Z then Ok (inject_Z (n - d))
        else Raise (ValueError "no exact logarithm")
    | _, _ => Raise (ValueError "no exact logarithm")
    end.

Definition _IC := SimCornet._IC float of_int fneg fdiv math_log.
Definition get_probability := SimCornet.get_probability float of_int fdiv.
Definition get_info_content := SimCornet.get_info_content float of_int fneg fdiv math_log.
Definition resnik_sim := SimCornet.resnik_sim float fzero of_int fneg fdiv fltb math_log.
Definition resnik_sim_documented :=
  SimCornet.resnik_sim_documented float fzero of_int fneg fdiv fltb math_log.
Definition jiang_conrath_dist :=
  SimCornet.jiang_conrath_dist float of_int fadd fsub fmul fneg fdiv fltb math_log.
Definition jiang_conrath_dist_documented :=
  SimCornet.jiang_conrath_dist_documented float of_int fadd fsub fmul fneg fdiv fltb math_log.

Definition lin_sim :=
  SimCornet.lin_sim float fzero of_int fadd fmul fneg fdiv fltb math_log.
Definition jiang_conrath_sim :=
  SimCornet.jiang_conrath_sim float of_int fadd fsub fmul fneg fdiv fltb math_log.

End Dyadic.

(* ===================================================================== *)
(** * Invariants of the loops, for the proofs below *)
(* ===================================================================== *)

Module Invariants.
Import Cornet Reach.

(** Every key dict belongs to a pair of distinct nodes and holds no
    relation twice. *)
Definition simple (g : NX.MultiDiGraph) : Prop :=
  ∀ u v kd, NX.getitem2 g u v = Some kd → u ≠ v ∧ NoDup kd.

(** The characters [spec[-1] in "123456789"] accepts. *)
Definition digits_1_9 : list ascii :=
  ["1"; "2"; "3"; "4"; "5"; "6"; "7"; "8"; "9"]%char.

Section TransitiveClosure.
Variable g : NX.MultiDiGraph.
Variable rel_name : string.
Variable lus : list node.

(** What one sweep over the out-edges of the queue reaches. *)
Definition reached_by (edges : list (node * node * NX.attr)) (x : node) : Prop :=
  ∃ u a, (u, x, a) ∈ edges ∧ _rel_has_name a rel_name = true.

(** Every edge out of [u] leads to a unit already recorded. *)
Definition closed (m : gmap node nat) (u : node) : Prop :=
  ∀ v, step g rel_name u v → is_Some (m !! v).

(** The state of the loop of [_transitive_closure] when [distance] is
    [d]. *)
Record tc_inv (d : nat) (queue : list node) (m : gmap node nat) : Prop := {
  inv_sound : ∀ x k, m !! x = Some k → 1 ≤ k ≤ d ∧ reach g rel_name lus k x;
  inv_min : ∀ x j, 1 ≤ j ≤ d → reach g rel_name lus j x →
                   ∃ k, k ≤ j ∧ m !! x = Some k;
  inv_queue : ∀ x, x ∈ queue → reach g rel_name lus d x;
  inv_closed : ∀ u, u ∈ lus ∨ is_Some (m !! u) → u ∈ queue ∨ closed m u;
  inv_targets : dom m ⊆ edge_targets g
}.

(** What the loop has computed when the queue is empty. *)
Definition tc_result (m : gmap node nat) : Prop :=
  (∀ x k, m !! x = Some k → 1 ≤ k ∧ reach g rel_name lus k x)
  ∧ (∀ x j, 1 ≤ j → reach g rel_name lus j x → ∃ k, k ≤ j ∧ m !! x = Some k).

End TransitiveClosure.

(** An edge, reversed. *)
Definition flip (e : node * node * NX.attr) : node * node * NX.attr :=
  let '(u, v, a) := e in (v, u, a).

(** Following the links of a dict from [x] ends after [n] links at an
    entry [(None, None)]. *)
Inductive chain (d : links) : node → nat → Prop :=
| chain_end x : d !! x = Some (None, None) → chain d x 0
| chain_link x y e n : d !! x = Some (Some y, Some e) → chain d y n → chain d x (S n).

(** What the search hands to [_reconstruct_path] when it found a path:
    the common unit has a predecessor link, and both dicts lead from it
    to an end within [d] links. *)
Definition found_at (d : nat) (pred succ : links) (w : node) : Prop :=
  (∃ u e n, pred !! w = Some (Some u, Some e) ∧ chain pred w n ∧ n ≤ d)
  ∧ (∃ n, chain succ w n ∧ n ≤ d).

Section Bidirectional.
Variable g : NX.MultiDiGraph.
Variable rel_name : string.
Variables from_lus to_lus : list node.

(** Within [n] edges of a source, respectively of a target. *)
Definition fwd (n : nat) (x : node) : Prop :=
  ∃ j, j ≤ n ∧ reach g rel_name from_lus j x.

Definition bwd (n : nat) (x : node) : Prop :=
  ∃ j t, j ≤ n ∧ t ∈ to_lus ∧ walk g rel_name j x t.

(** The state of the search after [kf] forward and [kr] reverse sweeps
    that found nothing. *)
Record bsp_inv (kf kr : nat) (pred succ : links) (ff rf : list node) : Prop := {
  P_ball : ∀ x, is_Some (pred !! x) ↔ fwd kf x;
  P_closed : ∀ u, is_Some (pred !! u) →
                  u ∈ ff ∨ ∀ v, step g rel_name u v → is_Some (pred !! v);
  P_fringe : ∀ x, x ∈ ff →
                  is_Some (pred !! x)
                  ∧ (kf = 0 ∨ ∃ u e, pred !! x = Some (Some u, Some e));
  P_chain : ∀ x, is_Some (pred !! x) → ∃ n, n ≤ kf ∧ chain pred x n;
  S_ball : ∀ x, is_Some (succ !! x) ↔ bwd kr x;
  S_closed : ∀ v, is_Some (succ !! v) →
                  v ∈ rf ∨ ∀ u, step g rel_name u v → is_Some (succ !! u);
  S_fringe : ∀ x, x ∈ rf → is_Some (succ !! x);
  S_chain : ∀ x, is_Some (succ !! x) → ∃ n, n ≤ kr ∧ chain succ x n;
  PS_disjoint : ∀ x, is_Some (pred !! x) → succ !! x = None
}.

End Bidirectional.

End Invariants.

(* ===================================================================== *)
(** * Paths written out, for stating what the path search returns *)
(* ===================================================================== *)

Module Trails.
Import Cornet Reach.

(** A path with its edges named: from [u], every hop follows one edge
    that passes the relation filter to the next unit, and the last hop
    ends in [w]. *)
Inductive trail (g : NX.MultiDiGraph) (rel_name : string)
  : node → list (NX.attr * node) → node → Prop :=
| trail_nil u : trail g rel_name u [] u
| trail_cons u e v hops w :
    NX.has_edge g u v e → _rel_has_name e rel_name = true →
    trail g rel_name v hops w →
    trail g rel_name u ((e, v) :: hops) w.

(** What the relation formatters of the formats [spec] and [raw] make
    of the attribute dict of an edge. *)
Definition relation_repr (format : string) (edge : NX.attr) : value :=
  if String.eqb format "raw" then VEdge edge
  else match edge with Some r => VStr r | None => VNone end.

(** A trail as [_reconstruct_path] lists it: unit, relation, unit, ... *)
Definition render (lu_formatter : node → value) (rel_repr : NX.attr → value)
           (u : node) (hops : list (NX.attr * node)) : list value :=
  lu_formatter u :: flat_map (fun '(e, v) => [rel_repr e; lu_formatter v]) hops.

(** The entries of the predecessor dict: a source without a link, or
    a link along an edge of the graph that passes the filter. *)
Definition pred_links (g : NX.MultiDiGraph) (rel_name : string) (from_lus : list node)
           (pred : links) : Prop :=
  ∀ x v, pred !! x = Some v →
         (v = (None, None) ∧ x ∈ from_lus)
         ∨ ∃ u e, v = (Some u, Some e) ∧ NX.has_edge g u x e
                  ∧ _rel_has_name e rel_name = true.

(** The same for the successor dict, whose links point forward. *)
Definition succ_links (g : NX.MultiDiGraph) (rel_name : string) (to_lus : list node)
           (succ : links) : Prop :=
  ∀ x v, succ !! x = Some v →
         (v = (None, None) ∧ x ∈ to_lus)
         ∨ ∃ w e, v = (Some w, Some e) ∧ NX.has_edge g x w e
                  ∧ _rel_has_name e rel_name = true.

End Trails.

(* ===================================================================== *)
(** * Distances, for stating what the subsumer search returns *)
(* ===================================================================== *)

Module Subsumers.
Import Cornet Reach.

(** [d] is the least number of edges that pass the filter on a path
    from a unit of [lus] to [x]; it is zero for the units of [lus]
    themselves. *)
Definition distance (g : NX.MultiDiGraph) (rel_name : string) (lus : list node)
           (x : node) (d : nat) : Prop :=
  reach g rel_name lus d x ∧ ∀ j, reach g rel_name lus j x → d ≤ j.

(** [x] is reached from both lists of units, and [k] is the sum of its
    two distances. *)
Definition common_subsumer (g : NX.MultiDiGraph) (rel_name : string)
           (lus1 lus2 : list node) (x : node) (k : nat) : Prop :=
  ∃ d1 d2, distance g rel_name lus1 x d1 ∧ distance g rel_name lus2 x d2 ∧ k = d1 + d2.

(** The entries of [sucs1.items()] that the grouping loop files under
    the key [k]. *)
Definition filed_under (sucs2 : gmap node nat) (k : nat) (p : node * nat) : bool :=
  match sucs2 !! p.1 with
  | Some dist2 => Nat.eqb (p.2 + dist2) k
  | None => false
  end.

End Subsumers.

(* ===================================================================== *)
(** * The edges the synset records call for *)
(* ===================================================================== *)

Module Induced.
Import Py Parse.

(** [u] and [v] are both members of the synset. *)
Definition synonym_pair (sy_id2lus : gmap string (list node)) (synset_el : ET.Element)
           (u v : node) : Prop :=
  ∃ nodes, lookup_lus sy_id2lus (ET.get synset_el "c_sy_id") = Ok nodes
           ∧ u ∈ nodes ∧ v ∈ nodes.

(** The synset has a relation record with the name [relation] (or
    without a name, for [None]) to a synset that is in the table; [u]
    is a member of the synset and [v] a member of the target. *)
Definition related_pair (sy_id2lus : gmap string (list node)) (synset_el : ET.Element)
           (relation : NX.attr) (u v : node) : Prop :=
  ∃ from_nodes relation_el to_nodes,
    lookup_lus sy_id2lus (ET.get synset_el "c_sy_id") = Ok from_nodes
    ∧ relation_el ∈ relation_elements synset_el
    ∧ ET.get relation_el "relation_name" = relation
    ∧ lookup_lus sy_id2lus (ET.get relation_el "target") = Ok to_nodes
    ∧ u ∈ from_nodes ∧ v ∈ to_nodes.

(** The records of the synsets call for an edge from [u] to [v] with
    the relation [a]. *)
Definition induced_edge (synsets : list ET.Element) (sy_id2lus : gmap string (list node))
           (u v : node) (a : NX.attr) : Prop :=
  u ≠ v
  ∧ ∃ synset_el, synset_el ∈ synsets
      ∧ ((a = Some "SYNONYM"%string ∧ synonym_pair sy_id2lus synset_el u v)
         ∨ related_pair sy_id2lus synset_el a u v).

(** The ids of the synsets that list the unit [lu], in the order the
    synsets are gone through, once for every time the unit is listed. *)
Definition listing_ids (synsets : list ET.Element) (sy_id2lus : gmap string (list node))
           (lu : node) : list string :=
  flat_map
    (fun synset_el =>
       match lookup_lus sy_id2lus (ET.get synset_el "c_sy_id") with
       | Ok nodes =>
           repeat (default ""%string (ET.get synset_el "c_sy_id"))
                  (count_occ Nat.eq_dec nodes lu)
       | Raise _ => []
       end)
    synsets.

(** The [c_sy_id] attribute of a unit after the ids [ids] have been
    appended to it one by one, each after a comma. *)
Definition back_reference (old : option string) (ids : list string) : option string :=
  match old, ids with
  | Some s, _ => Some (join "," (s :: ids))
  | None, [] => None
  | None, _ => Some (join "," ids)
  end.

(** The element [e'] is the element [e] but for its attribute
    [c_sy_id], to which the ids [ids] have been appended. *)
Definition unit_after (e : ET.Element) (ids : list string) (e' : ET.Element) : Prop :=
  ET.tag e' = ET.tag e
  ∧ ET.children e' = ET.children e
  ∧ (∀ key, key ≠ "c_sy_id"%string → ET.get e' key = ET.get e key)
  ∧ ET.get e' "c_sy_id" = back_reference (ET.get e "c_sy_id") ids.

End Induced.

(* ===================================================================== *)
(** * cornet.py: creating an instance *)
(* ===================================================================== *)

Module CornetInit.
Import Py Cornet.

(** [__init__], after the optional [open] has set the four tables of
    [opened]:
<<
    self.set_output_format(output_format)
    self.set_max_depth(max_depth)
>> *)
Definition __init__ (opened : Cornet) (output_format : string) (max_depth : Z)
  : result Cornet :=
  let? c := set_output_format opened output_format in
  set_max_depth c max_depth.

(** The two settings hold values their setters accept. *)
Definition settings_ok (c : Cornet) : Prop :=
  In (_output_format c) _handled_output_formats ∧ (1 ≤ _max_depth c ≤ 9)%Z.

(** Two instances with the same tables, whatever their settings. *)
Definition same_tables (c c' : Cornet) : Prop :=
  _form2lu c' = _form2lu c ∧ _c_lu_id2lu c' = _c_lu_id2lu c
  ∧ _c_sy_id2synset c' = _c_sy_id2synset c ∧ _graph c' = _graph c
  ∧ elements c' = elements c.

End CornetInit.

(* ===================================================================== *)
(** * What a dict of related units reports *)
(* ===================================================================== *)

Module RelatedUnits.
Import Cornet.

(** The nested dict [r] is what a search from [from_lu], arrived there
    along [path], has to report: every unit it lists under a relation
    is the end of an edge from [from_lu] with that relation, passes
    the filter, is not on the path already, and has below it what the
    search from that unit reports; and, as long as the path is not
    longer than the depth, every such edge is listed. *)
Inductive reported (g : NX.MultiDiGraph) (rel_name : string) (depth : Z)
          (lu_formatter : node → value) (rel_repr : NX.attr → value)
  : list node → node → related → Prop :=
| reported_intro path from_lu entries :
    (∀ r inner to_repr sub,
       (r, inner) ∈ entries → (to_repr, sub) ∈ inner →
       (Z.of_nat (length path) ≤ depth)%Z
       ∧ (∃ to_lu edge,
            NX.has_edge g from_lu to_lu edge
            ∧ _rel_has_name edge rel_name = true
            ∧ (to_lu ∉ path)
            ∧ to_repr = lu_formatter to_lu ∧ r = rel_repr edge
            ∧ reported g rel_name depth lu_formatter rel_repr (path ++ [to_lu]) to_lu sub)) →
    ((Z.of_nat (length path) ≤ depth)%Z →
     ∀ to_lu edge,
       NX.has_edge g from_lu to_lu edge → _rel_has_name edge rel_name = true →
       to_lu ∉ path →
       ∃ inner sub, dict_get (rel_repr edge) entries = Some inner
                    ∧ dict_get (lu_formatter to_lu) inner = Some sub) →
    reported g rel_name depth lu_formatter rel_repr path from_lu (Related entries).

(** Some unit of [lus] has an edge that passes the filter to another
    unit. *)
Definition some_related (g : NX.MultiDiGraph) (rel_name : string) (lus : list node) : Prop :=
  ∃ lu to_lu edge, lu ∈ lus ∧ NX.has_edge g lu to_lu edge
                   ∧ _rel_has_name edge rel_name = true ∧ to_lu ≠ lu.

(** An edge the search follows from a unit it reached along [path]:
<<
    if ( to_lu not in path and self._rel_has_name(edge, rel_name)):
>> *)
Definition followed (rel_name : string) (path : list node)
           (x : node * node * NX.attr) : bool :=
  let '(_, to_lu, edge) := x in
  negb (existsb (Nat.eqb to_lu) path) && _rel_has_name edge rel_name.

End RelatedUnits.

(* ===================================================================== *)
(** * Reading the synsets *)
(* ===================================================================== *)

Module ParseSynsets.
Import Py Parse.

(** What [_parse_cdb_syn] keeps while it reads: the two tables, the
    units of the synset being read and the ids seen in it. *)
Record tables : Type := {
  sy_id2synset : gmap string ET.Element;
  sy_id2lus : gmap string (list node);
  lus : list node;
  seen_lu_ids : list string
}.

(** Truth value of what [Element.get] returns: [None] and the empty
    string are false. *)
Definition attr_truthy (a : option string) : bool :=
  match a with
  | Some s => truthy s
  | None => false
  end.

(** The branch for a [<cdb_synset>]:
<<
    c_sy_id = elem.get("c_sy_id")
    if c_sy_id and c_sy_id not in sy_id2synset:
        sy_id2synset[c_sy_id] = elem
        sy_id2lus[c_sy_id] = lus[:]
    d_synset_id = elem.get("d_synset_id")
    if d_synset_id and d_synset_id != c_sy_id:
        sy_id2synset[d_synset_id] = elem
        sy_id2lus[d_synset_id] = sy_id2lus[c_sy_id]
    lus = []
    seen_lu_ids = []
>> *)
Definition on_synset (st : tables) (elem : ET.Element) : result tables :=
  let c_sy_id := ET.get elem "c_sy_id" in
  let '(synsets, members) :=
    match c_sy_id with
    | Some id =>
        if truthy id && negb (bool_decide (is_Some (sy_id2synset st !! id)))
        then (<[id := elem]> (sy_id2synset st), <[id := lus st]> (sy_id2lus st))
        else (sy_id2synset st, sy_id2lus st)
    | None => (sy_id2synset st, sy_id2lus st)
    end in
  let d_synset_id := ET.get elem "d_synset_id" in
  rbind
    match d_synset_id with
    | Some d =>
        if truthy d && negb (bool_decide (d_synset_id = c_sy_id)) then
          rbind (lookup_lus members c_sy_id) (fun shared =>
            Ok (<[d := elem]> synsets, <[d := shared]> members))
        else Ok (synsets, members)
    | None => Ok (synsets, members)
    end
    (fun '(synsets, members) =>
       Ok {| sy_id2synset := synsets; sy_id2lus := members;
             lus := []; seen_lu_ids := [] |}).

(** The branch for a [<synonym>]:
<<
    c_lu_id = elem.get("c_lu_id")
    try:
        lu = c_lu_id2lu[c_lu_id]
    except KeyError:
        continue
    if c_lu_id not in seen_lu_ids:
        lus.append(lu)
        seen_lu_ids.append(c_lu_id)
>> *)
Definition on_synonym (c_lu_id2lu : gmap string node) (st : tables) (elem : ET.Element)
  : tables :=
  match ET.get elem "c_lu_id" with
  | Some c_lu_id =>
      match c_lu_id2lu !! c_lu_id with
      | Some lu =>
          if existsb (String.eqb c_lu_id) (seen_lu_ids st) then st
          else {| sy_id2synset := sy_id2synset st; sy_id2lus := sy_id2lus st;
                  lus := lus st ++ [lu]; seen_lu_ids := seen_lu_ids st ++ [c_lu_id] |}
      | None => st
      end
  | None => st
  end.

(** The loop [for event, elem in parser]; [parser] lists the elements
    in the order [iterparse] hands them over, each when it is closed. *)
Fixpoint read_synsets (c_lu_id2lu : gmap string node) (parser : list ET.Element)
         (st : tables) : result tables :=
  match parser with
  | [] => Ok st
  | elem :: rest =>
      if String.eqb (ET.tag elem) "cdb_synset" then
        rbind (on_synset st elem) (read_synsets c_lu_id2lu rest)
      else if String.eqb (ET.tag elem) "synonym" then
        read_synsets c_lu_id2lu rest (on_synonym c_lu_id2lu st elem)
      else read_synsets c_lu_id2lu rest st
  end.

(** [_parse_cdb_syn], without its warnings. *)
Definition _parse_cdb_syn (parser : list ET.Element) (c_lu_id2lu : gmap string node)
  : result (gmap string ET.Element * gmap string (list node)) :=
  rbind (read_synsets c_lu_id2lu parser
           {| sy_id2synset := ∅; sy_id2lus := ∅; lus := []; seen_lu_ids := [] |})
        (fun st => Ok (sy_id2synset st, sy_id2lus st)).

(** A [<cdb_synset>] that has a [d_synset_id] but no [c_sy_id]. *)
Definition unnamed_synset (elem : ET.Element) : Prop :=
  ET.tag elem = "cdb_synset"%string
  ∧ attr_truthy (ET.get elem "c_sy_id") = false
  ∧ attr_truthy (ET.get elem "d_synset_id") = true.

(** The elements of a document in the order [iterparse] hands them
    over with its default events: each element when its end tag is
    read, so after its children. *)
Fixpoint end_events (e : ET.Element) : list ET.Element :=
  match e with
  | ET.Elem _ _ cs => flat_map end_events cs ++ [e]
  end.

(** The units [lus] are the units of distinct ids of the table. *)
Definition known_once (c_lu_id2lu : gmap string node) (lus : list node) : Prop :=
  ∃ ids, NoDup ids ∧ Forall2 (fun c_lu_id lu => c_lu_id2lu !! c_lu_id = Some lu) ids lus.

(** What holds of the two tables after the elements [done]: they have
    the same keys, none of them empty; a synset is filed under its own
    [c_sy_id] or [d_synset_id], and its [c_sy_id] is a key; the units
    of a synset are known and listed once. *)
Definition table_inv (c_lu_id2lu : gmap string node) (done : list ET.Element)
           (synsets : gmap string ET.Element) (members : gmap string (list node)) : Prop :=
  (∀ id, is_Some (synsets !! id) ↔ is_Some (members !! id))
  ∧ (∀ id elem,
       synsets !! id = Some elem →
       truthy id = true ∧ elem ∈ done ∧ ET.tag elem = "cdb_synset"%string
       ∧ (ET.get elem "c_sy_id" = Some id ∨ ET.get elem "d_synset_id" = Some id)
       ∧ ∃ k, ET.get elem "c_sy_id" = Some k ∧ is_Some (members !! k))
  ∧ (∀ id lus, members !! id = Some lus → known_once c_lu_id2lu lus).

(** What holds of the state of the loop after the elements [done]. *)
Definition state_inv (c_lu_id2lu : gmap string node) (done : list ET.Element)
           (st : tables) : Prop :=
  table_inv c_lu_id2lu done (sy_id2synset st) (sy_id2lus st)
  ∧ NoDup (seen_lu_ids st)
  ∧ Forall2 (fun c_lu_id lu => c_lu_id2lu !! c_lu_id = Some lu) (seen_lu_ids st) (lus st).

End ParseSynsets.

(* ===================================================================== *)
(** * Reading the lexical units *)
(* ===================================================================== *)

Module ParseLexUnits.
Import Py Parse ParseSynsets.

(** What stops [_parse_lex_units]: a failed [assert], or the use of
    [form_elem] before any [<form>] has been read. *)
Inductive stopped : Type :=
| AssertionError
| UnboundLocalError.

Inductive parsed (A : Type) : Type :=
| Returned (a : A)
| Stopped (e : stopped).
Arguments Returned {A} a.
Arguments Stopped {A} e.

(** What [_parse_lex_units] keeps while it reads: the two tables, the
    elements passed to [graph.add_node] (an element is known by its
    identity; its content is in [contents]) and the [<form>] read
    last. *)
Record lu_tables : Type := {
  form2lu : gmap string (list node);
  c_lu_id2lu : gmap string node;
  added : list node;
  contents : heap;
  form_elem : option ET.Element
}.

(** [form2lu.setdefault(form, []).append(elem)] *)
Definition file_under (form : string) (lu : node) (t : gmap string (list node))
  : gmap string (list node) :=
  <[form := default [] (t !! form) ++ [lu]]> t.

(** The branch for a [<cdb_lu>], with [verbose] false:
<<
    assert not elem.get("c_sy_id")
    c_lu_id = elem.get("c_lu_id")
    assert c_lu_id and c_lu_id not in c_lu_id2lu
    graph.add_node(elem)
    c_lu_id2lu[c_lu_id] = elem
    form = form_elem.get("form-spelling")
    if form:
        form2lu.setdefault(form, []).append(elem)
>>
    What follows in the loop body changes nothing unless [verbose] is
    set.  The element is a new object: its identity is the number of
    units read before it. *)
Definition on_lex_unit (st : lu_tables) (elem : ET.Element) : parsed lu_tables :=
  if attr_truthy (ET.get elem "c_sy_id") then Stopped AssertionError
  else
    match ET.get elem "c_lu_id" with
    | Some c_lu_id =>
        if truthy c_lu_id && negb (bool_decide (is_Some (c_lu_id2lu st !! c_lu_id))) then
          let lu := length (added st) in
          match form_elem st with
          | None => Stopped UnboundLocalError
          | Some form_el =>
              let form := ET.get form_el "form-spelling" in
              Returned
                {| form2lu := match form with
                              | Some f => if truthy f then file_under f lu (form2lu st)
                                          else form2lu st
                              | None => form2lu st
                              end;
                   c_lu_id2lu := <[c_lu_id := lu]> (c_lu_id2lu st);
                   added := added st ++ [lu];
                   contents := <[lu := elem]> (contents st);
                   form_elem := form_elem st |}
          end
        else Stopped AssertionError
    | None => Stopped AssertionError
    end.

(** The branch for a [<form>]: [form_elem = elem]. *)
Definition on_form (st : lu_tables) (elem : ET.Element) : lu_tables :=
  {| form2lu := form2lu st; c_lu_id2lu := c_lu_id2lu st; added := added st;
     contents := contents st; form_elem := Some elem |}.

(** The loop [for event, elem in parser]. *)
Fixpoint read_lex_units (parser : list ET.Element) (st : lu_tables) : parsed lu_tables :=
  match parser with
  | [] => Returned st
  | elem :: rest =>
      if String.eqb (ET.tag elem) "cdb_lu" then
        match on_lex_unit st elem with
        | Returned st' => read_lex_units rest st'
        | Stopped e => Stopped e
        end
      else if String.eqb (ET.tag elem) "form" then read_lex_units rest (on_form st elem)
      else read_lex_units rest st
  end.

(** [_parse_lex_units] with [verbose] false: the two tables it
    returns, and what it did to the graph and the elements. *)
Definition _parse_lex_units (parser : list ET.Element)
  : parsed (gmap string (list node) * gmap string node * list node * heap) :=
  match read_lex_units parser
          {| form2lu := ∅; c_lu_id2lu := ∅; added := []; contents := ∅;
             form_elem := None |} with
  | Returned st => Returned (form2lu st, c_lu_id2lu st, added st, contents st)
  | Stopped e => Stopped e
  end.

(** The [<form>] read last among the elements [l]. *)
Definition last_form (l : list ET.Element) : option ET.Element :=
  List.find (fun e => String.eqb (ET.tag e) "form") (rev l).

(** The element [elem], read after the elements [before], is a
    [<cdb_lu>] the loop stops at. *)
Definition flawed (before : list ET.Element) (elem : ET.Element) : Prop :=
  ET.tag elem = "cdb_lu"%string
  ∧ (attr_truthy (ET.get elem "c_sy_id") = true
     ∨ attr_truthy (ET.get elem "c_lu_id") = false
     ∨ (∃ earlier, earlier ∈ before ∧ ET.tag earlier = "cdb_lu"%string
                   ∧ ET.get earlier "c_lu_id" = ET.get elem "c_lu_id")
     ∨ last_form before = None).

(** What holds of the state of the loop after the elements [done]. *)
Definition lu_inv (done : list ET.Element) (st : lu_tables) : Prop :=
  added st = seq 0 (length (added st))
  ∧ (∀ lu, lu ∈ added st ↔ is_Some (contents st !! lu))
  ∧ (∀ lu e, contents st !! lu = Some e →
             e ∈ done ∧ ET.tag e = "cdb_lu"%string
             ∧ attr_truthy (ET.get e "c_sy_id") = false
             ∧ ∃ id, ET.get e "c_lu_id" = Some id ∧ c_lu_id2lu st !! id = Some lu)
  ∧ (∀ id lu, c_lu_id2lu st !! id = Some lu →
              truthy id = true
              ∧ ∃ e, contents st !! lu = Some e ∧ ET.get e "c_lu_id" = Some id)
  ∧ (∀ form units, form2lu st !! form = Some units →
                   truthy form = true ∧ units ≠ [] ∧ NoDup units
                   ∧ ∀ lu, lu ∈ units → lu ∈ added st)
  ∧ (∀ f1 f2 u1 u2 lu, form2lu st !! f1 = Some u1 → form2lu st !! f2 = Some u2 →
                       lu ∈ u1 → lu ∈ u2 → f1 = f2)
  ∧ form_elem st = last_form done
  ∧ (∀ e, e ∈ done → ET.tag e = "cdb_lu"%string →
          ∃ id, ET.get e "c_lu_id" = Some id ∧ is_Some (c_lu_id2lu st !! id))
  ∧ (∀ before elem after, done = before ++ elem :: after → ¬ flawed before elem)
  ∧ (∀ before e after fe form,
       done = before ++ e :: after → ET.tag e = "cdb_lu"%string →
       last_form before = Some fe → ET.get fe "form-spelling" = Some form →
       truthy form = true →
       ∃ lu units, contents st !! lu = Some e ∧ form2lu st !! form = Some units ∧ lu ∈ units).

End ParseLexUnits.

(* ===================================================================== *)
(** * Reading the count totals *)
(* ===================================================================== *)

Module ParseCounts.
Import Py.

(** ["noun verb adj other all".split()] *)
Definition counted_categories : list string := ["noun"; "verb"; "adj"; "other"; "all"].

(** ["count-total-%s" % cat] *)
Definition total_attr (cat : string) : string := ("count-total-" ++ cat)%string.

(** [_parse_count_totals], on the root of the document:
<<
    cat2count = dict()
    for cat in "noun verb adj other all".split():
        try:
            cat2count[cat] = int(parser.root.get("count-total-%s" % cat))
        except TypeError:
            print >>stderr, "ERROR: This cdb_lu file seems to have no counts!"
            raise
    return cat2count
>>
    [int(None)] is the [TypeError], raised again; [int] of a string
    that is no number is a [ValueError]. *)
Definition _parse_count_totals (root : ET.Element) : result (gmap string Z) :=
  fold_left
    (fun acc cat =>
       rbind acc (fun cat2count =>
         match ET.get root (total_attr cat) with
         | None => Raise TypeError
         | Some s => rbind (int_of_string s) (fun n => Ok (<[cat := n]> cat2count))
         end))
    counted_categories (Ok ∅).

End ParseCounts.

(* ===================================================================== *)
(** * The XML-RPC proxy *)
(* ===================================================================== *)

Module Server.
Import Py.

(** The values the proxy hands to XML-RPC: [None], booleans, integers,
    strings, lists and dicts of these.  A dict is the list of its
    items. *)
Inductive pyval : Type :=
| PNone
| PBool (b : bool)
| PInt (n : Z)
| PStr (s : string)
| PList (l : list pyval)
| PDict (items : list (pyval * pyval)).

(** A boolean or an integer as a number: [False == 0], [True == 1]. *)
Definition as_int (v : pyval) : option Z :=
  match v with
  | PBool b => Some (if b then 1 else 0)%Z
  | PInt n => Some n
  | _ => None
  end.

(** Equality of two keys of a dict. *)
Definition key_eqb (a b : pyval) : bool :=
  match a, b with
  | PNone, PNone => true
  | PStr x, PStr y => String.eqb x y
  | _, _ =>
      match as_int a, as_int b with
      | Some x, Some y => Z.eqb x y
      | _, _ => false
      end
  end.

(** [d[k] = v]: the value of an equal key is replaced, the key stays. *)
Fixpoint setitem (k v : pyval) (d : list (pyval * pyval)) : list (pyval * pyval) :=
  match d with
  | [] => [(k, v)]
  | (k', v') :: d' =>
      if key_eqb k' k then (k', v) :: d' else (k', v') :: setitem k v d'
  end.

(** [dict(pairs)] *)
Definition dict_of (pairs : list (pyval * pyval)) : list (pyval * pyval) :=
  fold_left (fun d kv => match kv with (k, v) => setitem k v d end) pairs [].

(** [_safe_return]:
<<
    if value is None:
        return False
    elif type(value) is type([]):
        return [self._safe_return(e) for e in value]
    elif type(value) is type({}):
        return dict( (self._safe_return(k), self._safe_return(v))
                     for k,v in value.items() )
    else:
        return value
>> *)
Fixpoint _safe_return (value : pyval) : pyval :=
  match value with
  | PNone => PBool false
  | PList l => PList (map _safe_return l)
  | PDict items =>
      PDict (dict_of (map (fun kv => match kv with
                                     | (k, v) => (_safe_return k, _safe_return v)
                                     end) items))
  | _ => value
  end.

(** No [None] in the value, at any depth. *)
Fixpoint none_free (v : pyval) : bool :=
  match v with
  | PNone => false
  | PList l => forallb none_free l
  | PDict items =>
      forallb (fun kv => match kv with (k, v) => none_free k && none_free v end) items
  | _ => true
  end.

(** No key of the items equals a later one. *)
Fixpoint keys_distinct (d : list (pyval * pyval)) : bool :=
  match d with
  | [] => true
  | (k, _) :: d' => negb (existsb (fun kv => key_eqb k (fst kv)) d') && keys_distinct d'
  end.

(** The dicts in the value, at any depth, have distinct keys, as the
    dicts of Python have. *)
Fixpoint dicts_proper (v : pyval) : bool :=
  match v with
  | PList l => forallb dicts_proper l
  | PDict items =>
      keys_distinct items
      && forallb (fun kv => match kv with (k, v) => dicts_proper k && dicts_proper v end)
                 items
  | _ => true
  end.

End Server.

(* ===================================================================== *)
(** * Queries and synsets *)
(* ===================================================================== *)

Module Queries.
Import Py SpecParser Cornet.

(** What [ask] hands back: the result of the method it called. *)
Inductive answer : Type :=
| LexUnits (lus : list value)
| RelatedLexUnits (related_lus : list (value * related))
| Path (path : list value).

(** [ask]:
<<
    from_spec, rel, to_spec = self._split_query(query)
    if to_spec:
        return self.test_lex_units_relation(from_spec, rel, to_spec, format)
    elif rel:
        return self.get_related_lex_units(from_spec, rel, format)
    else:
        return self.get_lex_units(from_spec, format)
>> *)
Definition ask (c : Cornet) (query : string) (format : option string) : M answer :=
  let '(from_spec, rel, to_spec) := _split_query query in
  if truthy to_spec then
    let* path := test_lex_units_relation c from_spec rel to_spec format in
    ret (Path path)
  else if truthy rel then
    let* related_lus := get_related_lex_units c from_spec rel format in
    ret (RelatedLexUnits related_lus)
  else
    let* lus := get_lex_units c from_spec format in
    ret (LexUnits lus).

(** What a public method hands back for one synset: the specs of its
    units (format [spec]), its serialisation ([xml]) or the element
    ([raw]). *)
Inductive synset_value : Type :=
| SySpecs (specs : list string)
| SyXml (xml : string)
| SyRaw (synset : ET.Element).

(** [synset.find("synonyms") or []]: the children of [<synonyms>], and
    nothing when that element is missing or has no children. *)
Definition synonym_elements (synset : ET.Element) : list ET.Element :=
  match ET.find synset "synonyms" with
  | Some synonyms => ET.children synonyms
  | None => []
  end.

(** [self._c_lu_id2lu[c_lu_id]] where [c_lu_id] came from
    [Element.get]: [None] is no key of the table. *)
Definition lookup_lu (c : Cornet) (c_lu_id : option string) : option node :=
  match c_lu_id with
  | Some id => _c_lu_id2lu c !! id
  | None => None
  end.

(** [_synset_to_specs]:
<<
    specs = []
    seen_lu_ids = []
    for syn in synset.find("synonyms") or []:
        c_lu_id = syn.get("c_lu_id")
        try:
            lu = self._c_lu_id2lu[c_lu_id]
        except KeyError:
            continue
        if c_lu_id not in seen_lu_ids:
            specs.append(self._lu_to_spec(lu))
            seen_lu_ids.append(c_lu_id)
    return specs
>> *)
Definition _synset_to_specs (c : Cornet) (synset : ET.Element) : list string :=
  fst (fold_left
         (fun '(specs, seen_lu_ids) syn =>
            let c_lu_id := ET.get syn "c_lu_id" in
            match lookup_lu c c_lu_id with
            | None => (specs, seen_lu_ids)
            | Some lu =>
                if existsb (fun seen => bool_decide (seen = c_lu_id)) seen_lu_ids
                then (specs, seen_lu_ids)
                else (specs ++ [_lu_to_spec c lu], seen_lu_ids ++ [c_lu_id])
            end)
         (synonym_elements synset) ([], [])).

(** [_get_synset_formatter] *)
Definition _get_synset_formatter (c : Cornet) (format : option string)
  : result (ET.Element → synset_value) :=
  let format := effective_format c format in
  if String.eqb format "spec" then Ok (fun synset => SySpecs (_synset_to_specs c synset))
  else if String.eqb format "xml" then Ok (fun synset => SyXml (tostring synset))
  else if String.eqb format "raw" then Ok SyRaw
  else Raise (unknown_format format).

(** [get_synsets]:
<<
    form, cat, sense = self._split_unit_spec(spec)
    synsets = []
    formatter = self._get_synset_formatter(format)
    for lu in self._form2lu.get(form, []):
        if ( self._lu_has_cat(lu, cat) and self._lu_has_sense(lu, sense) ):
            for c_sy_id in lu.get("c_sy_id", "").split(","):
                try:
                    sy = self._c_sy_id2synset[c_sy_id]
                except KeyError:
                    continue
                synsets.append(formatter(sy))
    return synsets
>> *)
Definition get_synsets (c : Cornet) (spec : string) (format : option string)
  : M (list synset_value) :=
  let* (form, cat, sense) := lift (unpack3 (_split_unit_spec spec)) in
  let* formatter := lift (_get_synset_formatter c format) in
  let* _ := tick (Ev_form2lu_get form) in
  for_each (matching_lus c form cat sense)
    (fun synsets lu =>
       for_each (split "," (ET.get_default (deref c lu) "c_sy_id" ""))
         (fun synsets c_sy_id =>
            let* _ := tick (Ev_sy_id2synset_get c_sy_id) in
            match _c_sy_id2synset c !! c_sy_id with
            | Some sy => ret (synsets ++ [formatter sy])
            | None => ret synsets
            end)
         synsets)
    [].

(** Two elements of the same content.  Synsets and their relations
    are held as values here, not by reference: a [<relation>] element
    is known by the synset it is a child of and by its place among the
    relations of that synset. *)
Fixpoint Element_eqb (a b : ET.Element) : bool :=
  match a, b with
  | ET.Elem tag1 attrib1 children1, ET.Elem tag2 attrib2 children2 =>
      String.eqb tag1 tag2
      && bool_decide (attrib1 = attrib2)
      && (fix all_eqb (l1 l2 : list ET.Element) : bool :=
            match l1, l2 with
            | [], [] => true
            | x :: l1', y :: l2' => Element_eqb x y && all_eqb l1' l2'
            | _, _ => false
            end) children1 children2
  end.

(** What the relation formatter makes of a [<relation>] element, the
    keys of the dict [get_related_synsets] returns: [rel.get("relation")]
    (format [spec]), the serialisation of the element ([xml]) or the
    element itself ([raw]). *)
Inductive relation_repr : Type :=
| RelSpec (relation : option string)
| RelXml (xml : string)
| RelRaw (from_syn : ET.Element) (place : nat).

(** Equal as keys of a dict: strings and [None] by value, an element
    by identity. *)
Definition relation_repr_eqb (a b : relation_repr) : bool :=
  match a, b with
  | RelSpec x, RelSpec y => bool_decide (x = y)
  | RelXml x, RelXml y => String.eqb x y
  | RelRaw s i, RelRaw t j => Element_eqb s t && Nat.eqb i j
  | _, _ => false
  end.

(** [_get_relation_formatter], for what [get_related_synsets] applies
    the formatter to: the [<relation>] element at [place] in [from_syn]. *)
Definition _get_relation_formatter_of_element (c : Cornet) (format : option string)
  : result (ET.Element → nat → ET.Element → relation_repr) :=
  let format := effective_format c format in
  if String.eqb format "xml" then Ok (fun _ _ rel => RelXml (tostring rel))
  else if String.eqb format "spec" then Ok (fun _ _ rel => RelSpec (ET.get rel "relation"))
  else if String.eqb format "raw" then Ok (fun from_syn place _ => RelRaw from_syn place)
  else Raise (unknown_format format).

(** [related_syns.setdefault(rel_repr, []).append(syn_repr)] *)
Fixpoint setdefault_append_repr (related_syns : list (relation_repr * list synset_value))
         (rel_repr : relation_repr) (syn_repr : synset_value)
  : list (relation_repr * list synset_value) :=
  match related_syns with
  | [] => [(rel_repr, [syn_repr])]
  | (k, syns) :: rest =>
      if relation_repr_eqb k rel_repr then (k, syns ++ [syn_repr]) :: rest
      else (k, syns) :: setdefault_append_repr rest rel_repr syn_repr
  end.

(** The elements in a list obtained with [format="raw"]. *)
Definition as_synsets (vs : list synset_value) : list ET.Element :=
  omap (fun v => match v with SyRaw synset => Some synset | _ => None end) vs.

(** [enumerate(l)] *)
Definition enumerate {A} (l : list A) : list (nat * A) := combine (seq 0 (length l)) l.

(** [get_related_synsets]:
<<
    form, cat, sense = self._split_unit_spec(lu_spec)
    if rel_name: rel_name = rel_name.upper()
    syn_formatter = self._get_synset_formatter(format)
    rel_formatter = self._get_relation_formatter(format)
    related_syns = {}
    for from_syn in self.get_synsets(lu_spec, format="raw"):
        for rel in from_syn.find("wn_internal_relations") or []:
            if self._rel_has_name(rel, rel_name):
                to_syn_id = rel.get("target")
                to_syn = self._c_sy_id2synset[to_syn_id]
                syn_repr = syn_formatter(to_syn)
                rel_repr = rel_formatter(rel)
                related_syns.setdefault(rel_repr, []).append(syn_repr)
    return related_syns
>>
    [rel_name] is [None] by default, which is as false as the empty
    string; [_rel_has_name] reads the attribute [relation] of the
    element; a target that is [None] is no key of the table. *)
Definition get_related_synsets (c : Cornet) (lu_spec : string) (rel_name : option string)
           (format : option string) : M (list (relation_repr * list synset_value)) :=
  let* _ := lift (unpack3 (_split_unit_spec lu_spec)) in
  let rel_name := match rel_name with Some name => upper name | None => "" end in
  let* syn_formatter := lift (_get_synset_formatter c format) in
  let* rel_formatter := lift (_get_relation_formatter_of_element c format) in
  let* from_syns := get_synsets c lu_spec (Some "raw") in
  for_each (as_synsets from_syns)
    (fun related_syns from_syn =>
       for_each (enumerate (Parse.relation_elements from_syn))
         (fun related_syns '(place, rel) =>
            if _rel_has_name (ET.get rel "relation") rel_name then
              match ET.get rel "target" with
              | Some to_syn_id =>
                  let* _ := tick (Ev_sy_id2synset_get to_syn_id) in
                  match _c_sy_id2synset c !! to_syn_id with
                  | Some to_syn =>
                      ret (setdefault_append_repr related_syns
                             (rel_formatter from_syn place rel) (syn_formatter to_syn))
                  | None => raise KeyError
                  end
              | None => raise KeyError
              end
            else ret related_syns)
         related_syns)
    [].

(** [get_lex_unit_by_id]:
<<
    formatter = self._get_lex_unit_formatter(format)
    try:
        return formatter(self._c_lu_id2lu[c_lu_id])
    except KeyError:
        return None
>> *)
Definition get_lex_unit_by_id (c : Cornet) (c_lu_id : string) (format : option string)
  : M (option value) :=
  let* formatter := lift (_get_lex_unit_formatter c format) in
  ret (option_map formatter (_c_lu_id2lu c !! c_lu_id)).

(** [get_synset_by_id] *)
Definition get_synset_by_id (c : Cornet) (c_sy_id : string) (format : option string)
  : M (option synset_value) :=
  let* formatter := lift (_get_synset_formatter c format) in
  let* _ := tick (Ev_sy_id2synset_get c_sy_id) in
  ret (option_map formatter (_c_sy_id2synset c !! c_sy_id)).

(** The loop of [get_lex_unit_from_synset]: the first synonym whose
    unit is in the table and has the form [lemma]. *)
Fixpoint first_with_form (c : Cornet) (lemma : string) (synonyms : list ET.Element)
  : option node :=
  match synonyms with
  | [] => None
  | syn :: rest =>
      match lookup_lu c (ET.get syn "c_lu_id") with
      | Some lu =>
          if String.eqb (_get_lu_form c lu) lemma then Some lu
          else first_with_form c lemma rest
      | None => first_with_form c lemma rest
      end
  end.

(** [get_lex_unit_from_synset]:
<<
    try:
        synset = self._c_sy_id2synset[c_sy_id]
    except KeyError:
        return None
    formatter = self._get_lex_unit_formatter(format)
    for syn in synset.find("synonyms") or []:
        c_lu_id = syn.get("c_lu_id")
        try:
            lu = self._c_lu_id2lu[c_lu_id]
            luform = self._get_lu_form(lu)
            if luform == lemma:
                return formatter(lu)
        except KeyError:
            continue
    return None
>> *)
Definition get_lex_unit_from_synset (c : Cornet) (c_sy_id lemma : string)
           (format : option string) : M (option value) :=
  let* _ := tick (Ev_sy_id2synset_get c_sy_id) in
  match _c_sy_id2synset c !! c_sy_id with
  | None => ret None
  | Some synset =>
      let* formatter := lift (_get_lex_unit_formatter c format) in
      ret (option_map formatter (first_with_form c lemma (synonym_elements synset)))
  end.

(** The words of a query, as [query.strip().split()] gives them. *)
Definition words (query : string) : list string := words_aux None (strip query).

(** No comma in the string. *)
Definition comma_free (s : string) : Prop := split "," s = [s].

End Queries.

(* ===================================================================== *)
(** * Small databases used in examples *)
(* ===================================================================== *)

Module Examples.
Import Py Cornet.

(** A [<cdb_lu>] element with its [<form>] child. *)
Definition cdb_lu (c_lu_id form cat sense : string)
           (counts : list (string * string)) : ET.Element :=
  ET.Elem "cdb_lu" [("c_lu_id", c_lu_id); ("c_seq_nr", sense)]
    [ET.Elem "form" ([("form-cat", cat); ("form-spelling", form)] ++ counts) []].

(** A [<cdb_synset>] element with its relations (name, target). *)
Definition cdb_synset (c_sy_id : string) (rels : list (string * string)) : ET.Element :=
  ET.Elem "cdb_synset" [("c_sy_id", c_sy_id)]
    [ET.Elem "wn_internal_relations" []
       (map (fun '(r, t) => ET.Elem "relation" [("relation_name", r); ("target", t)] [])
            rels)].

(** The instance [open] leaves behind, given what the parsers built. *)
Definition instance (form2lu : gmap string (list node))
           (parsed : result (Parse.heap * NX.MultiDiGraph))
           (output_format : string) (max_depth : Z) : Cornet :=
  let '(h, g) := match parsed with
                 | Ok st => st
                 | Raise _ => (∅, NX.empty)
                 end in
  {| _form2lu := form2lu; _c_lu_id2lu := ∅; _c_sy_id2synset := ∅;
     _graph := g; elements := h;
     _output_format := output_format; _max_depth := max_depth |}.

(** The lamps of the docstrings: lamp:noun:2 has the hyponym
    gloeilamp:noun:1, which has the hyponym fotolamp:noun:1. *)
Definition lamp_heap : Parse.heap :=
  list_to_map [(1, cdb_lu "1" "lamp" "noun" "1" []);
               (2, cdb_lu "2" "lamp" "noun" "2" []);
               (3, cdb_lu "3" "gloeilamp" "noun" "1" []);
               (4, cdb_lu "4" "fotolamp" "noun" "1" [])].

Definition lamp_parsed : result (Parse.heap * NX.MultiDiGraph) :=
  Parse.parse_cdb lamp_heap [1; 2; 3; 4]
    [cdb_synset "s1" [];
     cdb_synset "s2" [("HAS_HYPONYM", "s3")];
     cdb_synset "s3" [("HAS_HYPONYM", "s4"); ("HAS_HYPERONYM", "s2")];
     cdb_synset "s4" [("HAS_HYPERONYM", "s3")]]
    (list_to_map [("s1", [1]); ("s2", [2]); ("s3", [3]); ("s4", [4])]).

Definition lamp_form2lu : gmap string (list node) :=
  list_to_map [("lamp", [1; 2]); ("gloeilamp", [3]); ("fotolamp", [4])].

Definition lamps : Cornet := instance lamp_form2lu lamp_parsed "spec" 9.

(** A synset {A, B, C} whose members are listed twice, with a relation
    to itself and the same relation to another synset given twice. *)
Definition abc_heap : Parse.heap :=
  list_to_map [(1, cdb_lu "1" "A" "noun" "1" []);
               (2, cdb_lu "2" "B" "noun" "1" []);
               (3, cdb_lu "3" "C" "noun" "1" []);
               (4, cdb_lu "4" "D" "noun" "1" [])].

Definition abc_synsets : list ET.Element :=
  [cdb_synset "abc" [("NEAR_SYNONYM", "abc"); ("HAS_HYPERONYM", "d"); ("HAS_HYPERONYM", "d")];
   cdb_synset "d" []].

Definition abc_sy_id2lus : gmap string (list node) :=
  list_to_map [("abc", [1; 2; 3; 1]); ("d", [4])].

Definition abc_parsed : result (Parse.heap * NX.MultiDiGraph) :=
  Parse.parse_cdb abc_heap [1; 2; 3; 4] abc_synsets abc_sy_id2lus.

Definition abc_graph : NX.MultiDiGraph :=
  match abc_parsed with Ok st => snd st | Raise _ => NX.empty end.

Definition abc_heap' : Parse.heap :=
  match abc_parsed with Ok st => fst st | Raise _ => ∅ end.

(** A database whose second [<cdb_lu>] has no child element at all; the
    parser files it under the form of the [<form>] it saw last. *)
Definition bare_heap : Parse.heap :=
  list_to_map [(1, cdb_lu "1" "x" "noun" "1" []);
               (2, ET.Elem "cdb_lu" [("c_lu_id", "2"); ("c_seq_nr", "5")] [])].

Definition bare : Cornet :=
  instance (list_to_map [("x", [1; 2])])
           (Parse.parse_cdb bare_heap [1; 2] [] ∅) "spec" 9.

(** A chain of four hyperonym links a -> b -> c -> d -> e, queried with
    the maximum search depth set to 3. *)
Definition chain_heap : Parse.heap :=
  list_to_map [(1, cdb_lu "1" "a" "noun" "1" []);
               (2, cdb_lu "2" "b" "noun" "1" []);
               (3, cdb_lu "3" "c" "noun" "1" []);
               (4, cdb_lu "4" "d" "noun" "1" []);
               (5, cdb_lu "5" "e" "noun" "1" [])].

Definition chain_parsed : result (Parse.heap * NX.MultiDiGraph) :=
  Parse.parse_cdb chain_heap [1; 2; 3; 4; 5]
    [cdb_synset "sa" [("HAS_HYPERONYM", "sb")];
     cdb_synset "sb" [("HAS_HYPERONYM", "sc")];
     cdb_synset "sc" [("HAS_HYPERONYM", "sd")];
     cdb_synset "sd" [("HAS_HYPERONYM", "se")];
     cdb_synset "se" []]
    (list_to_map [("sa", [1]); ("sb", [2]); ("sc", [3]); ("sd", [4]); ("se", [5])]).

Definition chain_form2lu : gmap string (list node) :=
  list_to_map [("a", [1]); ("b", [2]); ("c", [3]); ("d", [4]); ("e", [5])].

Definition chain : Cornet := instance chain_form2lu chain_parsed "spec" 3.

(** Counts for the measures.  The word "a" has two senses: sense 1 and
    "b" share the hyperonym "x" directly, sense 2 and "b" meet two
    links up in "y", which is the rarer of the two subsumers. *)
Definition counted (c_lu_id form sense subcount : string) : ET.Element :=
  cdb_lu c_lu_id form "noun" sense [("count", "1"); ("subcount", subcount)].

Definition senses_heap : Parse.heap :=
  list_to_map [(1, counted "1" "a" "1" "4"); (2, counted "2" "a" "2" "1");
               (3, counted "3" "b" "1" "1"); (4, counted "4" "x" "1" "8");
               (5, counted "5" "m" "1" "1"); (6, counted "6" "n" "1" "1");
               (7, counted "7" "y" "1" "4")].

Definition senses_parsed : result (Parse.heap * NX.MultiDiGraph) :=
  Parse.parse_cdb senses_heap [1; 2; 3; 4; 5; 6; 7]
    [cdb_synset "sa1" [("HAS_HYPERONYM", "sx")];
     cdb_synset "sa2" [("HAS_HYPERONYM", "sm")];
     cdb_synset "sb" [("HAS_HYPERONYM", "sx"); ("HAS_HYPERONYM", "sn")];
     cdb_synset "sx" [];
     cdb_synset "sm" [("HAS_HYPERONYM", "sy")];
     cdb_synset "sn" [("HAS_HYPERONYM", "sy")];
     cdb_synset "sy" []]
    (list_to_map [("sa1", [1]); ("sa2", [2]); ("sb", [3]); ("sx", [4]);
                  ("sm", [5]); ("sn", [6]); ("sy", [7])]).

Definition senses : SimCornet.SimCornet :=
  {| SimCornet.cornet :=
       instance (list_to_map [("a", [1; 2]); ("b", [3]); ("x", [4]);
                              ("m", [5]); ("n", [6]); ("y", [7])])
                senses_parsed "spec" 9;
     SimCornet._cat2counts := list_to_map [("all", 16%Z); ("noun", 16%Z)] |}.

(** Two words below one hyperonym whose subcount exceeds the total
    count, so that its information content is negative. *)
Definition overcounted_heap : Parse.heap :=
  list_to_map [(1, counted "1" "p" "1" "8"); (2, counted "2" "q" "1" "8");
               (3, counted "3" "l" "1" "32")].

Definition overcounted : SimCornet.SimCornet :=
  {| SimCornet.cornet :=
       instance (list_to_map [("p", [1]); ("q", [2]); ("l", [3])])
                (Parse.parse_cdb overcounted_heap [1; 2; 3]
                   [cdb_synset "sp" [("HAS_HYPERONYM", "sl")];
                    cdb_synset "sq" [("HAS_HYPERONYM", "sl")];
                    cdb_synset "sl" []]
                   (list_to_map [("sp", [1]); ("sq", [2]); ("sl", [3])]))
                "spec" 9;
     SimCornet._cat2counts := list_to_map [("all", 16%Z)] |}.

(** The word "a" with a first unit that has no sense number and no
    hyperonym, and a second one, sense 2, that shares the hyperonym
    "x" with "b". *)
Definition unnumbered_heap : Parse.heap :=
  list_to_map [(1, counted "1" "a" "" "8"); (2, counted "2" "a" "2" "4");
               (3, counted "3" "b" "1" "4"); (4, counted "4" "x" "1" "8")].

Definition unnumbered : SimCornet.SimCornet :=
  {| SimCornet.cornet :=
       instance (list_to_map [("a", [1; 2]); ("b", [3]); ("x", [4])])
                (Parse.parse_cdb unnumbered_heap [1; 2; 3; 4]
                   [cdb_synset "sa1" [];
                    cdb_synset "sa2" [("HAS_HYPERONYM", "sx")];
                    cdb_synset "sb" [("HAS_HYPERONYM", "sx")];
                    cdb_synset "sx" []]
                   (list_to_map [("sa1", [1]); ("sa2", [2]); ("sb", [3]); ("sx", [4])]))
                "spec" 9;
     SimCornet._cat2counts := list_to_map [("all", 16%Z)] |}.

(** One word, "iets", whose subcount is the total count: everything is
    counted under it, and its information content is zero. *)
Definition top : SimCornet.SimCornet :=
  {| SimCornet.cornet :=
       instance (list_to_map [("iets", [1])])
                (Parse.parse_cdb (list_to_map [(1, counted "1" "iets" "1" "16")]) [1]
                   [cdb_synset "s" []] (list_to_map [("s", [1])]))
                "spec" 9;
     SimCornet._cat2counts := list_to_map [("all", 16%Z)] |}.

(** Two words without any relation; nothing was counted under the
    first, whose subcount is zero. *)
Definition zeroed : SimCornet.SimCornet :=
  {| SimCornet.cornet :=
       instance (list_to_map [("z", [1]); ("w", [2])])
                (Parse.parse_cdb (list_to_map [(1, counted "1" "z" "1" "0");
                                               (2, counted "2" "w" "1" "4")]) [1; 2]
                   [cdb_synset "sz" []; cdb_synset "sw" []]
                   (list_to_map [("sz", [1]); ("sw", [2])]))
                "spec" 9;
     SimCornet._cat2counts := list_to_map [("all", 16%Z)] |}.

(** Two words, "a" and "b", with the same two hyperonyms: "y", which
    half of the counts fall under, and the rarer "x". *)
Definition forked : SimCornet.SimCornet :=
  {| SimCornet.cornet :=
       instance (list_to_map [("a", [1]); ("b", [2]); ("x", [3]); ("y", [4])])
                (Parse.parse_cdb (list_to_map [(1, counted "1" "a" "1" "1");
                                               (2, counted "2" "b" "1" "1");
                                               (3, counted "3" "x" "1" "4");
                                               (4, counted "4" "y" "1" "8")]) [1; 2; 3; 4]
                   [cdb_synset "sa" [("HAS_HYPERONYM", "sx"); ("HAS_HYPERONYM", "sy")];
                    cdb_synset "sb" [("HAS_HYPERONYM", "sx"); ("HAS_HYPERONYM", "sy")];
                    cdb_synset "sx" []; cdb_synset "sy" []]
                   (list_to_map [("sa", [1]); ("sb", [2]); ("sx", [3]); ("sy", [4])]))
                "spec" 9;
     SimCornet._cat2counts := list_to_map [("all", 16%Z)] |}.

(** A [<cdb_synset>] element with its synonyms (the ids of its
    units) and its relations. *)
Definition cdb_synset_of (c_sy_id : string) (c_lu_ids : list string)
           (rels : list (string * string)) : ET.Element :=
  ET.Elem "cdb_synset" [("c_sy_id", c_sy_id)]
    [ET.Elem "synonyms" []
       (map (fun id => ET.Elem "synonym" [("c_lu_id", id)] []) c_lu_ids);
     ET.Elem "wn_internal_relations" []
       (map (fun '(r, t) => ET.Elem "relation" [("relation_name", r); ("target", t)] [])
            rels)].

(** The synset {A, B, C} again, complete with its synonyms: A is listed
    twice, and one synonym names a unit that does not exist. *)
Definition twice_abc : ET.Element :=
  cdb_synset_of "abc" ["1"; "2"; "3"; "1"; "9"] [("HAS_HYPERONYM", "d")].

Definition twice_d : ET.Element := cdb_synset_of "d" ["4"] [].

Definition twice_parsed : result (Parse.heap * NX.MultiDiGraph) :=
  Parse.parse_cdb abc_heap [1; 2; 3; 4] [twice_abc; twice_d] abc_sy_id2lus.

Definition twice : Cornet :=
  let '(h, g) := match twice_parsed with
                 | Ok st => st
                 | Raise _ => (∅, NX.empty)
                 end in
  {| _form2lu := list_to_map [("A", [1]); ("B", [2]); ("C", [3]); ("D", [4])];
     _c_lu_id2lu := list_to_map [("1", 1); ("2", 2); ("3", 3); ("4", 4)];
     _c_sy_id2synset := list_to_map [("abc", twice_abc); ("d", twice_d)];
     _graph := g; elements := h;
     _output_format := "spec"; _max_depth := 9 |}.

(** The synset file of [twice], as the parser reads it. *)
Definition twice_events : list ET.Element :=
  ParseSynsets.end_events (ET.Elem "cdb_syn" [] [twice_abc; twice_d]).

(** A file of three lexical units, as the parser reads it, and the
    instance on what [_parse_lex_units] makes of it. *)
Definition unit_events : list ET.Element :=
  ParseSynsets.end_events
    (ET.Elem "cdb_lu_list" []
       [cdb_lu "r1" "A" "noun" "1" []; cdb_lu "r2" "A" "verb" "1" [];
        cdb_lu "r3" "B" "noun" "1" []]).

Definition read_units : Cornet :=
  match ParseLexUnits._parse_lex_units unit_events with
  | ParseLexUnits.Returned (form2lu, c_lu_id2lu, lus, h) =>
      {| _form2lu := form2lu; _c_lu_id2lu := c_lu_id2lu; _c_sy_id2synset := ∅;
         _graph := fold_left NX.add_node lus NX.empty; elements := h;
         _output_format := "spec"; _max_depth := 9 |}
  | ParseLexUnits.Stopped _ =>
      {| _form2lu := ∅; _c_lu_id2lu := ∅; _c_sy_id2synset := ∅;
         _graph := NX.empty; elements := ∅;
         _output_format := "spec"; _max_depth := 9 |}
  end.

(** A database read from its two files: the three units above, and two
    synsets.  The first synset names the unit r1 twice, and a unit
    that does not exist. *)
Definition opened_synsets : list ET.Element :=
  [cdb_synset_of "s1" ["r1"; "r3"; "r1"; "r9"] [("HAS_HYPERONYM", "s2")];
   cdb_synset_of "s2" ["r2"] []].

Definition opened_syn_events : list ET.Element :=
  ParseSynsets.end_events (ET.Elem "cdb_syn" [] opened_synsets).

Definition nothing_opened : Cornet :=
  {| _form2lu := ∅; _c_lu_id2lu := ∅; _c_sy_id2synset := ∅;
     _graph := NX.empty; elements := ∅;
     _output_format := "spec"; _max_depth := 9 |}.

Definition opened : Cornet :=
  match ParseLexUnits._parse_lex_units unit_events with
  | ParseLexUnits.Returned (form2lu, c_lu_id2lu, lus, h) =>
      match ParseSynsets._parse_cdb_syn opened_syn_events c_lu_id2lu with
      | Ok (sy_id2synset, sy_id2lus) =>
          match Parse.parse_cdb h lus opened_synsets sy_id2lus with
          | Ok (h', g) =>
              {| _form2lu := form2lu; _c_lu_id2lu := c_lu_id2lu;
                 _c_sy_id2synset := sy_id2synset;
                 _graph := g; elements := h';
                 _output_format := "spec"; _max_depth := 9 |}
          | Raise _ => nothing_opened
          end
      | Raise _ => nothing_opened
      end
  | ParseLexUnits.Stopped _ => nothing_opened
  end.

(** A file with count totals and one adverb. *)
Definition totals_root : ET.Element :=
  ET.Elem "cdb_lu_list"
    [("count-total-noun", "8"); ("count-total-verb", "4"); ("count-total-adj", "2");
     ("count-total-other", "2"); ("count-total-all", "16")] [].

Definition adverbs : SimCornet.SimCornet :=
  {| SimCornet.cornet :=
       instance (list_to_map [("graag", [1])])
                (Parse.parse_cdb
                   (list_to_map [(1, cdb_lu "1" "graag" "adv" "1" [("count", "3")])]) [1]
                   [cdb_synset "s" []] (list_to_map [("s", [1])]))
                "spec" 9;
     SimCornet._cat2counts :=
       match ParseCounts._parse_count_totals totals_root with
       | Ok cat2counts => cat2counts
       | Raise _ => ∅
       end |}.

End Examples.

(* ===================================================================== *)
(** * Theorems *)
(* ===================================================================== *)

Module SpecParserFacts.
Import Py SpecParser Cornet Invariants.

Example split_rel_spec_ex1 : _split_rel_spec "has_hyperonym3" = Ok ("HAS_HYPERONYM", 3%Z).
Proof. reflexivity. Qed.

Example split_rel_spec_ex2 : _split_rel_spec "HAS_HYPERONYM+" = Ok ("HAS_HYPERONYM", 9%Z).
Proof. reflexivity. Qed.

Example split_rel_spec_ex3 : _split_rel_spec "x0" = Ok ("X0", 1%Z).
Proof. reflexivity. Qed.

Example split_unit_spec_ex1 : _split_unit_spec "slang::1" = ["slang"; ""; "1"].
Proof. reflexivity. Qed.

Example split_unit_spec_ex2 : _split_unit_spec "a:b:c:d" = ["a"; "b"; "c"].
Proof. reflexivity. Qed.

Example split_query_ex :
  _split_query " lamp has_hyponym2  fotolamp " = ("lamp", "HAS_HYPONYM2", "fotolamp").
Proof. reflexivity. Qed.

(** ** Strings *)

Lemma last_char_snoc (s : string) (ch : ascii) :
  last_char (s ++ String ch EmptyString) = Ok ch.
Proof.
  induction s as [|a s IH]; simpl; [reflexivity|].
  destruct (s ++ String ch EmptyString)%string eqn:E; [|exact IH].
  destruct s; discriminate.
Qed.

Lemma but_last_snoc (s : string) (ch : ascii) :
  but_last (s ++ String ch EmptyString) = s.
Proof.
  induction s as [|a s IH]; simpl; [reflexivity|].
  destruct (s ++ String ch EmptyString)%string eqn:E.
  - destruct s; discriminate.
  - rewrite IH. reflexivity.
Qed.

Lemma string_snoc_inv (s : string) :
  s = EmptyString ∨ ∃ s' ch, s = (s' ++ String ch EmptyString)%string.
Proof.
  induction s as [|a s IH]; [left; reflexivity|right].
  destruct IH as [->|(s' & ch & ->)].
  - exists EmptyString, a. reflexivity.
  - exists (String a s'), ch. reflexivity.
Qed.

Lemma rstrip_snoc (s : string) (ch : ascii) :
  is_space ch = false →
  rstrip (s ++ String ch EmptyString) = (s ++ String ch EmptyString)%string.
Proof.
  intros Hch. induction s as [|a s IH].
  - simpl. rewrite Hch. reflexivity.
  - change (rstrip (String a (s ++ String ch EmptyString))
            = String a (s ++ String ch EmptyString)).
    simpl. rewrite IH.
    destruct (s ++ String ch EmptyString)%string eqn:E; [|reflexivity].
    destruct s; discriminate.
Qed.

Lemma lstrip_app_nonspace (s t : string) (ch : ascii) :
  is_space ch = false →
  lstrip (s ++ String ch t) = (lstrip s ++ String ch t)%string.
Proof.
  intros Hch. induction s as [|a s IH]; simpl.
  - rewrite Hch. reflexivity.
  - destruct (is_space a); [exact IH|reflexivity].
Qed.

Lemma string_app_assoc (a b c : string) :
  ((a ++ b) ++ c)%string = (a ++ (b ++ c))%string.
Proof.
  induction a as [|x a IH]; [reflexivity|].
  change (String x ((a ++ b) ++ c) = String x (a ++ (b ++ c))).
  f_equal. exact IH.
Qed.

Lemma split_nonempty (sep : ascii) (s : string) : split sep s ≠ [].
Proof.
  destruct s as [|a s]; simpl; [discriminate|].
  destruct (Ascii.eqb a sep); [discriminate|].
  destruct (split sep s); discriminate.
Qed.

Lemma split_app_sep (sep : ascii) (s t : string) :
  split sep (s ++ String sep t) = split sep s ++ split sep t.
Proof.
  induction s as [|a s IH]; simpl.
  - rewrite Ascii.eqb_refl. reflexivity.
  - destruct (Ascii.eqb a sep); [rewrite IH; reflexivity|].
    rewrite IH.
    destruct (split sep s) as [|f fs] eqn:E; [|reflexivity].
    exfalso. exact (split_nonempty _ _ E).
Qed.

(** The padded spec is only stripped on the left, and its fields are
    those of the spec followed by two empty ones. *)
Lemma strip_padded (spec : string) :
  strip (spec ++ "::") = (lstrip spec ++ "::")%string.
Proof.
  unfold strip.
  rewrite (lstrip_app_nonspace spec ":" ":") by reflexivity.
  change (String ":" ":") with (":" ++ String ":" EmptyString)%string.
  rewrite <- string_app_assoc.
  apply rstrip_snoc. reflexivity.
Qed.

Lemma split_padded (s : string) :
  split ":" (s ++ "::") = split ":" s ++ [EmptyString; EmptyString].
Proof.
  change ("::"%string) with (String ":" (String ":" EmptyString)).
  rewrite split_app_sep. reflexivity.
Qed.

Lemma split_unit_spec_fields (spec : string) :
  _split_unit_spec spec = firstn 3 (split ":" (lstrip spec) ++ [EmptyString; EmptyString]).
Proof.
  unfold _split_unit_spec, _unit_separator.
  change (String ":" (String ":" EmptyString)) with "::"%string.
  rewrite strip_padded, split_padded. reflexivity.
Qed.

Lemma split_unit_spec_unpacks (spec : string) :
  length (_split_unit_spec spec) = 3
  ∧ ∃ form cat sense, unpack3 (_split_unit_spec spec) = Ok (form, cat, sense).
Proof.
  rewrite split_unit_spec_fields.
  destruct (split ":" (lstrip spec)) as [|f1 [|f2 [|f3 fs]]] eqn:Es.
  - exfalso. exact (split_nonempty _ _ Es).
  - split; [reflexivity|]. exists f1, EmptyString, EmptyString. reflexivity.
  - split; [reflexivity|]. exists f1, f2, EmptyString. reflexivity.
  - split; [reflexivity|]. exists f1, f2, f3. reflexivity.
Qed.

(** C8.  Splitting a lexical-unit spec never fails: whatever the number
    of separators, [_split_unit_spec] returns exactly three fields, so
    the callers' three-way unpacking always succeeds.  The fields are
    those of the spec (leading blanks removed) between the [:]
    separators, padded on the right with empty fields and cut after the
    third: missing trailing fields are empty, and a spec with more than
    three fields is not rejected either, its extra fields are
    dropped. *)
Theorem split_unit_spec_total (spec : string) :
  _split_unit_spec spec = firstn 3 (split ":" (lstrip spec) ++ [EmptyString; EmptyString])
  ∧ length (_split_unit_spec spec) = 3
  ∧ ∃ form cat sense, unpack3 (_split_unit_spec spec) = Ok (form, cat, sense).
Proof.
  split; [apply split_unit_spec_fields|apply split_unit_spec_unpacks].
Qed.

(** ** Relation specs *)

Lemma digit_1_9_spec (ch : ascii) :
  (In ch digits_1_9 → digit_1_9 ch = Some (Z.of_nat (nat_of_ascii ch - 48)))
  ∧ (¬ In ch digits_1_9 → digit_1_9 ch = None).
Proof.
  destruct ch as [[] [] [] [] [] [] [] []]; split; intros H;
    try reflexivity;
    try (exfalso; simpl in H; intuition discriminate);
    try (exfalso; apply H; simpl; tauto).
Qed.

Lemma truthy_upper (s : string) : truthy (upper s) = truthy s.
Proof. destruct s; reflexivity. Qed.

Lemma eqb_snoc_plus (s : string) :
  String.eqb (s ++ "+") "+" = negb (truthy s).
Proof.
  destruct s as [|a s]; [reflexivity|].
  change (String.eqb (String a (s ++ "+")) "+" = false).
  simpl. destruct (Ascii.eqb a "+"); [|reflexivity].
  destruct s; reflexivity.
Qed.

(** C7, as the code has it.  A relation spec that is not empty ends in
    some character [ch].  If [ch] is a digit 1-9 the depth is its value
    and the name is the rest; if [ch] is [+] the depth is 9 whatever
    the configured maximum search depth is, and the name is the rest;
    otherwise the whole spec is the name and the depth is 1.  The name
    is upper-cased.  [get_related_lex_units] keeps the depth 9 of a
    named spec ending in [+], and replaces it by the configured maximum
    only for the spec [+] itself. *)
Theorem split_rel_spec_cases (c : Cornet) (s : string) (ch : ascii) :
  let spec := (s ++ String ch EmptyString)%string in
  (In ch digits_1_9 →
     _split_rel_spec spec = Ok (upper s, Z.of_nat (nat_of_ascii ch - 48)))
  ∧ (ch = "+"%char →
     _split_rel_spec spec = Ok (upper s, 9%Z)
     ∧ (truthy s = true → checked_depth c spec (upper s) 9 = Ok 9%Z)
     ∧ (truthy s = false → checked_depth c spec (upper s) 9 = Ok (_max_depth c)))
  ∧ (¬ In ch digits_1_9 → ch ≠ "+"%char →
     _split_rel_spec spec = Ok (upper spec, 1%Z)).
Proof.
  intros spec. unfold _split_rel_spec. subst spec.
  rewrite last_char_snoc, but_last_snoc. simpl.
  destruct (digit_1_9_spec ch) as [Hd Hn].
  split; [|split].
  - intros Hin. rewrite (Hd Hin). reflexivity.
  - intros ->. split; [reflexivity|].
    unfold checked_depth. rewrite truthy_upper, eqb_snoc_plus.
    split; intros ->; reflexivity.
  - intros Hnin Hplus. rewrite (Hn Hnin).
    destruct (Ascii.eqb_spec ch "+"); [contradiction|reflexivity].
Qed.

(** C7, counterexample.  With the maximum search
    depth configured to 3, the spec [HAS_HYPERONYM+] still parses to
    depth 9: [get_related_lex_units] keeps 9, and
    [test_lex_units_relation] finds a path of four links. *)
Lemma plus_depth_is_not_max_depth :
  _max_depth Examples.chain = 3%Z
  ∧ _split_rel_spec "HAS_HYPERONYM+" = Ok ("HAS_HYPERONYM", 9%Z)
  ∧ checked_depth Examples.chain "HAS_HYPERONYM+" "HAS_HYPERONYM" 9 = Ok 9%Z
  ∧ outcome (test_lex_units_relation Examples.chain "a" "HAS_HYPERONYM+" "e" None)
    = Ok [VStr "a:noun:1"; VStr "HAS_HYPERONYM"; VStr "b:noun:1"; VStr "HAS_HYPERONYM";
          VStr "c:noun:1"; VStr "HAS_HYPERONYM"; VStr "d:noun:1"; VStr "HAS_HYPERONYM";
          VStr "e:noun:1"].
Proof. repeat split; vm_compute; reflexivity. Qed.

(** C10.  The empty relation spec has no last character:
    [_split_rel_spec] raises [IndexError], and so do
    [test_lex_units_relation] and [get_related_lex_units], before they
    look up anything. *)
Theorem empty_rel_spec_raises :
  _split_rel_spec "" = Raise IndexError
  ∧ (∀ c from_lu_spec to_lu_spec format,
       test_lex_units_relation c from_lu_spec "" to_lu_spec format = ([], Raise IndexError))
  ∧ (∀ c lu_spec format,
       get_related_lex_units c lu_spec "" format = ([], Raise IndexError)).
Proof. repeat split. Qed.

End SpecParserFacts.

(* --------------------------------------------------------------------- *)
(** ** Graph construction *)
(* --------------------------------------------------------------------- *)

Module GraphFacts.
Import Py Invariants.

Lemma attr_eqb_eq (a b : NX.attr) : NX.attr_eqb a b = true ↔ a = b.
Proof.
  destruct a as [x|], b as [y|]; simpl; try (split; congruence).
  rewrite String.eqb_eq. split; congruence.
Qed.

Lemma attr_eqb_refl (a : NX.attr) : NX.attr_eqb a a = true.
Proof. apply attr_eqb_eq. reflexivity. Qed.

Lemma getitem2_add_node g n u v :
  NX.getitem2 (NX.add_node g n) u v = NX.getitem2 g u v.
Proof.
  unfold NX.add_node. destruct (NX.succ g !! n) eqn:E; [reflexivity|].
  unfold NX.getitem2. simpl.
  destruct (decide (n = u)) as [->|Hne].
  - rewrite lookup_insert_eq, E. apply lookup_empty.
  - rewrite lookup_insert_ne by done. reflexivity.
Qed.

Lemma wf_empty : NX.wf NX.empty.
Proof. split; [intros n; simpl; rewrite !lookup_empty; tauto|]. intros u v. reflexivity. Qed.

Lemma getpred_add_node g n v u :
  NX.wf g → NX.getpred (NX.add_node g n) v u = NX.getpred g v u.
Proof.
  intros [Hk _]. unfold NX.add_node. destruct (NX.succ g !! n) eqn:E; [reflexivity|].
  unfold NX.getpred. simpl.
  destruct (decide (n = v)) as [->|Hne].
  - rewrite lookup_insert_eq. apply Hk in E. rewrite E. apply lookup_empty.
  - rewrite lookup_insert_ne by done. reflexivity.
Qed.

Lemma wf_add_node g n : NX.wf g → NX.wf (NX.add_node g n).
Proof.
  intros Hwf. split.
  - destruct Hwf as [Hk _]. intros m. unfold NX.add_node.
    destruct (NX.succ g !! n) eqn:E; [apply Hk|]. simpl.
    destruct (decide (n = m)) as [->|Hne].
    + rewrite !lookup_insert_eq. split; discriminate.
    + rewrite !lookup_insert_ne by done. apply Hk.
  - intros u v. rewrite getitem2_add_node, getpred_add_node by exact Hwf.
    apply Hwf.
Qed.

Lemma add_node_is_node g n : is_Some (NX.succ (NX.add_node g n) !! n).
Proof.
  unfold NX.add_node. destruct (NX.succ g !! n) eqn:E; [rewrite E; eauto|].
  simpl. rewrite lookup_insert_eq. eauto.
Qed.

Lemma add_node_keeps_nodes g n m :
  is_Some (NX.succ g !! m) → is_Some (NX.succ (NX.add_node g n) !! m).
Proof.
  intros Hm. unfold NX.add_node. destruct (NX.succ g !! n) eqn:E; [exact Hm|].
  simpl. destruct (decide (n = m)) as [->|Hne].
  - rewrite lookup_insert_eq. eauto.
  - rewrite lookup_insert_ne by done. exact Hm.
Qed.

(** The key dict of a pair after [add_edge]: one more entry for the
    pair itself, nothing changes elsewhere. *)
Lemma getitem2_add_edge g u v a u' v' :
  NX.getitem2 (NX.add_edge g u v a) u' v'
  = if decide (u' = u ∧ v' = v)
    then Some (default [] (NX.getitem2 g u v) ++ [a])
    else NX.getitem2 g u' v'.
Proof.
  unfold NX.add_edge.
  set (g1 := NX.add_node (NX.add_node g u) v).
  assert (Hg1 : ∀ x y, NX.getitem2 g1 x y = NX.getitem2 g x y).
  { intros x y. unfold g1. rewrite !getitem2_add_node. reflexivity. }
  assert (Hkd : match NX.getitem2 g1 u v with Some kd => kd ++ [a] | None => [a] end
                = default [] (NX.getitem2 g u v) ++ [a]).
  { rewrite Hg1. destruct (NX.getitem2 g u v); reflexivity. }
  rewrite Hkd. clear Hkd.
  unfold NX.getitem2 at 1. simpl.
  destruct (decide (u' = u)) as [->|Hne].
  - rewrite lookup_insert_eq.
    destruct (decide (v' = v)) as [->|Hne'].
    + rewrite lookup_insert_eq. rewrite decide_True by done. reflexivity.
    + rewrite lookup_insert_ne by done. rewrite decide_False by tauto.
      rewrite <- Hg1. unfold NX.getitem2.
      destruct (NX.succ g1 !! u); [reflexivity|apply lookup_empty].
  - rewrite lookup_insert_ne by done. rewrite decide_False by tauto.
    rewrite <- Hg1. reflexivity.
Qed.

Lemma getpred_add_edge g u v a u' v' :
  NX.wf g →
  NX.getpred (NX.add_edge g u v a) v' u'
  = if decide (u' = u ∧ v' = v)
    then Some (default [] (NX.getitem2 g u v) ++ [a])
    else NX.getpred g v' u'.
Proof.
  intros Hwf. unfold NX.add_edge.
  set (g1 := NX.add_node (NX.add_node g u) v).
  assert (Hwf1 : NX.wf (NX.add_node g u)) by (apply wf_add_node; exact Hwf).
  assert (Hg1 : ∀ x y, NX.getitem2 g1 x y = NX.getitem2 g x y).
  { intros x y. unfold g1. rewrite !getitem2_add_node. reflexivity. }
  assert (Hp1 : ∀ x y, NX.getpred g1 x y = NX.getpred g x y).
  { intros x y. unfold g1. rewrite !getpred_add_node by assumption. reflexivity. }
  assert (Hkd : match NX.getitem2 g1 u v with Some kd => kd ++ [a] | None => [a] end
                = default [] (NX.getitem2 g u v) ++ [a]).
  { rewrite Hg1. destruct (NX.getitem2 g u v); reflexivity. }
  rewrite Hkd. clear Hkd.
  unfold NX.getpred at 1. simpl.
  destruct (decide (v' = v)) as [->|Hne].
  - rewrite lookup_insert_eq.
    destruct (decide (u' = u)) as [->|Hne'].
    + rewrite lookup_insert_eq. rewrite decide_True by done. reflexivity.
    + rewrite lookup_insert_ne by done. rewrite decide_False by tauto.
      rewrite <- Hp1. unfold NX.getpred.
      destruct (NX.pred g1 !! v); [reflexivity|apply lookup_empty].
  - rewrite lookup_insert_ne by done. rewrite decide_False by tauto.
    rewrite <- Hp1. reflexivity.
Qed.

Lemma wf_add_edge g u v a : NX.wf g → NX.wf (NX.add_edge g u v a).
Proof.
  intros Hwf. split.
  - assert (Hwf2 : NX.wf (NX.add_node (NX.add_node g u) v))
      by (do 2 apply wf_add_node; exact Hwf).
    assert (Hu : is_Some (NX.succ (NX.add_node (NX.add_node g u) v) !! u))
      by (apply add_node_keeps_nodes, add_node_is_node).
    assert (Hv : is_Some (NX.succ (NX.add_node (NX.add_node g u) v) !! v))
      by apply add_node_is_node.
    destruct Hwf2 as [Hk _].
    intros n. unfold NX.add_edge.
    set (g1 := NX.add_node (NX.add_node g u) v) in *. simpl.
    destruct (decide (u = n)) as [->|Hun], (decide (v = n)) as [->|Hvn];
      rewrite ?lookup_insert_eq, ?lookup_insert_ne by done.
    + split; discriminate.
    + split; [discriminate|]. intros Hp. apply Hk in Hp.
      rewrite Hp in Hu. destruct Hu; discriminate.
    + split; [|discriminate]. intros Hs. rewrite Hs in Hv. destruct Hv; discriminate.
    + apply Hk.
  - intros x y. rewrite getitem2_add_edge, getpred_add_edge by exact Hwf.
    destruct (decide (x = u ∧ y = v)); [reflexivity|apply Hwf].
Qed.

(** ** [parse.add_edge] keeps the graph simple *)

Lemma existsb_attr_eqb_false (r : NX.attr) (kd : list NX.attr) :
  existsb (fun a => NX.attr_eqb a r) kd = false → r ∉ kd.
Proof.
  intros H Hin. apply list_elem_of_In in Hin.
  assert (existsb (fun a => NX.attr_eqb a r) kd = true) as Ht.
  { apply existsb_exists. exists r. split; [exact Hin|apply attr_eqb_refl]. }
  congruence.
Qed.

Lemma add_edge_simple g u v r :
  simple g → simple (Parse.add_edge g u v r).
Proof.
  intros Hs. unfold Parse.add_edge.
  destruct (Nat.eqb_spec u v) as [->|Hne]; [exact Hs|].
  assert (Hadd : ∀ kd0, default [] (NX.getitem2 g u v) = kd0 → NoDup (kd0 ++ [r]) →
                 simple (NX.add_edge g u v r)).
  { intros kd0 Hkd0 Hnd x y kd. rewrite getitem2_add_edge.
    destruct (decide (x = u ∧ y = v)) as [[-> ->]|_].
    - intros [= <-]. rewrite Hkd0. split; [exact Hne|exact Hnd].
    - apply Hs. }
  destruct (NX.getitem2 g u v) as [kd|] eqn:E.
  - destruct (existsb (fun a => NX.attr_eqb a r) kd) eqn:Ex; [exact Hs|].
    apply (Hadd kd); [reflexivity|].
    apply NoDup_app. split; [apply (Hs _ _ _ E)|]. split.
    + intros x Hx Hx'. apply list_elem_of_singleton in Hx'. subst x.
      exact (existsb_attr_eqb_false _ _ Ex Hx).
    + apply NoDup_singleton.
  - apply (Hadd []); [reflexivity|]. apply NoDup_singleton.
Qed.

Lemma add_edge_wf g u v r : NX.wf g → NX.wf (Parse.add_edge g u v r).
Proof.
  intros Hwf. unfold Parse.add_edge.
  destruct (Nat.eqb u v); [exact Hwf|].
  destruct (NX.getitem2 g u v) as [kd|].
  - destruct (existsb _ kd); [exact Hwf|apply wf_add_edge; exact Hwf].
  - apply wf_add_edge; exact Hwf.
Qed.

(** A property of graphs that [parse.add_edge] keeps is kept by the
    whole of [_relations_to_edges]. *)
Section Preserved.
Variable P : NX.MultiDiGraph → Prop.
Hypothesis P_add_edge : ∀ g u v r, P g → P (Parse.add_edge g u v r).

Lemma synonym_edges_from_preserves nodes g from_node :
  P g → P (Parse.synonym_edges_from nodes g from_node).
Proof.
  unfold Parse.synonym_edges_from. revert g.
  induction nodes as [|to_node nodes IH]; intros g Hg; simpl; [exact Hg|].
  apply IH. destruct (negb (from_node =? to_node)); [apply P_add_edge|]; exact Hg.
Qed.

Lemma synonym_relations_preserves synset_el sy_id2lus h g h' g' :
  Parse._synonym_relations_to_edges synset_el sy_id2lus (h, g) = Ok (h', g') →
  P g → P g'.
Proof.
  unfold Parse._synonym_relations_to_edges.
  destruct (Parse.lookup_lus sy_id2lus (ET.get synset_el "c_sy_id")) as [nodes|e];
    simpl; [|discriminate].
  intros Heq Hg. inversion Heq as [Hfold]. clear Heq.
  assert (Hgen : ∀ all_nodes some_nodes h0 g0, P g0 →
            P (snd (fold_left
                      (fun '(h, g) from_node =>
                         (Parse.note_synset h from_node
                            (default ""%string (ET.get synset_el "c_sy_id")),
                          Parse.synonym_edges_from all_nodes g from_node))
                      some_nodes (h0, g0)))).
  { intros all_nodes some_nodes.
    induction some_nodes as [|n some_nodes IH]; intros h0 g0 Hg0; simpl; [exact Hg0|].
    apply IH. apply synonym_edges_from_preserves. exact Hg0. }
  specialize (Hgen nodes nodes h g Hg). rewrite Hfold in Hgen. exact Hgen.
Qed.

Lemma edges_between_preserves from_nodes to_nodes r g :
  P g → P (Parse.edges_between from_nodes to_nodes r g).
Proof.
  unfold Parse.edges_between. revert g.
  induction from_nodes as [|f from_nodes IH]; intros g Hg; simpl; [exact Hg|].
  apply IH. clear IH. revert g Hg.
  induction to_nodes as [|t to_nodes IH]; intros g Hg; simpl; [exact Hg|].
  apply IH. apply P_add_edge. exact Hg.
Qed.

Lemma wn_internal_relations_preserves synset_el sy_id2lus g g' :
  Parse._wn_internal_relations_to_edges synset_el sy_id2lus g = Ok g' →
  P g → P g'.
Proof.
  unfold Parse._wn_internal_relations_to_edges.
  destruct (Parse.lookup_lus sy_id2lus (ET.get synset_el "c_sy_id")) as [from_nodes|e];
    simpl; [|discriminate].
  intros [= <-]. revert g.
  induction (Parse.relation_elements synset_el) as [|rel rels IH]; intros g Hg; simpl;
    [exact Hg|].
  apply IH.
  destruct (Parse.lookup_lus sy_id2lus (ET.get rel "target")); [|exact Hg].
  apply edges_between_preserves. exact Hg.
Qed.

Lemma relations_to_edges_preserves synsets sy_id2lus h g h' g' :
  Parse._relations_to_edges synsets sy_id2lus (h, g) = Ok (h', g') →
  P g → P g'.
Proof.
  revert h g. induction synsets as [|synset_el synsets IH]; intros h g; simpl.
  - intros Heq. inversion Heq. subst. tauto.
  - destruct (Parse._synonym_relations_to_edges synset_el sy_id2lus (h, g))
      as [[h1 g1]|e] eqn:E1; simpl; [|discriminate].
    destruct (Parse._wn_internal_relations_to_edges synset_el sy_id2lus g1)
      as [g2|e] eqn:E2; simpl; [|discriminate].
    intros Hrest Hg. eapply IH; [exact Hrest|].
    eapply wn_internal_relations_preserves; [exact E2|].
    eapply synonym_relations_preserves; [exact E1|exact Hg].
Qed.

End Preserved.

Lemma add_nodes_simple lus g : simple g → simple (fold_left NX.add_node lus g).
Proof.
  revert g. induction lus as [|n lus IH]; intros g Hg; simpl; [exact Hg|].
  apply IH. intros u v kd. rewrite getitem2_add_node. apply Hg.
Qed.

Lemma add_nodes_wf lus g : NX.wf g → NX.wf (fold_left NX.add_node lus g).
Proof.
  revert g. induction lus as [|n lus IH]; intros g Hg; simpl; [exact Hg|].
  apply IH. apply wf_add_node. exact Hg.
Qed.

Lemma simple_empty : simple NX.empty.
Proof. intros u v kd. unfold NX.getitem2. simpl. rewrite lookup_empty. discriminate. Qed.

Lemma filter_attr_eqb_notin (r : NX.attr) (kd : list NX.attr) :
  r ∉ kd → List.filter (NX.attr_eqb r) kd = [].
Proof.
  induction kd as [|a kd IH]; intros Hnotin; simpl; [reflexivity|].
  destruct (NX.attr_eqb r a) eqn:E.
  - apply attr_eqb_eq in E. subst a. exfalso. apply Hnotin. left.
  - apply IH. intros Hin. apply Hnotin. right. exact Hin.
Qed.

Lemma filter_attr_eqb_NoDup (r : NX.attr) (kd : list NX.attr) :
  NoDup kd → length (List.filter (NX.attr_eqb r) kd) ≤ 1.
Proof.
  induction 1 as [|a kd Hnotin Hnd IH]; simpl; [lia|].
  destruct (NX.attr_eqb r a) eqn:E; [|exact IH].
  apply attr_eqb_eq in E. subst a. simpl.
  rewrite filter_attr_eqb_notin by exact Hnotin. simpl. lia.
Qed.

Lemma simple_no_self_loops g : simple g → NX.no_self_loops g.
Proof. intros Hs u a (kd & Hkd & _). destruct (Hs _ _ _ Hkd) as [Hne _]. congruence. Qed.

Lemma simple_no_duplicate_edges g : simple g → NX.no_duplicate_edges g.
Proof.
  intros Hs u v r. unfold NX.edge_count.
  destruct (NX.getitem2 g u v) as [kd|] eqn:E; simpl; [|lia].
  apply filter_attr_eqb_NoDup. apply (Hs _ _ _ E).
Qed.

(** The graph [parse_cdb] returns is one [add_node] and [add_edge] keep
    well formed. *)
Lemma parse_cdb_wf h lus synsets sy_id2lus h' g :
  Parse.parse_cdb h lus synsets sy_id2lus = Ok (h', g) → NX.wf g.
Proof.
  unfold Parse.parse_cdb. intros Hp.
  eapply (relations_to_edges_preserves NX.wf); [apply add_edge_wf|exact Hp|].
  apply add_nodes_wf, wf_empty.
Qed.

(** C3.  Every graph [parse_cdb] produces has no edge from a node to
    itself, and between any ordered pair of nodes at most one edge of
    any given relation name, whatever the synsets and relation records
    of the input are (members listed twice, relations given twice,
    relations of a synset to itself). *)
Theorem parse_cdb_graph_simple h lus synsets sy_id2lus h' g :
  Parse.parse_cdb h lus synsets sy_id2lus = Ok (h', g) →
  NX.no_self_loops g ∧ NX.no_duplicate_edges g.
Proof.
  unfold Parse.parse_cdb. intros Hp.
  assert (Hs : simple g).
  { eapply (relations_to_edges_preserves simple); [apply add_edge_simple|exact Hp|].
    apply add_nodes_simple, simple_empty. }
  split; [apply simple_no_self_loops|apply simple_no_duplicate_edges]; exact Hs.
Qed.

(** The synset {A, B, C} of the examples yields six SYNONYM and six
    NEAR_SYNONYM edges between its members and one HAS_HYPERONYM edge
    from each, although its input repeats a member and a relation and
    relates the synset to itself. *)
Lemma parse_cdb_graph_simple_witness :
  Parse.parse_cdb Examples.abc_heap [1; 2; 3; 4] Examples.abc_synsets
                  Examples.abc_sy_id2lus
  = Ok (Examples.abc_heap', Examples.abc_graph)
  ∧ NX.no_self_loops Examples.abc_graph ∧ NX.no_duplicate_edges Examples.abc_graph.
Proof.
  split; [vm_compute; reflexivity|].
  apply (parse_cdb_graph_simple Examples.abc_heap [1; 2; 3; 4] Examples.abc_synsets
           Examples.abc_sy_id2lus Examples.abc_heap' Examples.abc_graph).
  vm_compute. reflexivity.
Defined.

Example abc_edges :
  NX.out_edges_iter Examples.abc_graph [1; 2; 3; 4]
  = [(1, 4, Some "HAS_HYPERONYM"); (1, 2, Some "SYNONYM"); (1, 2, Some "NEAR_SYNONYM");
     (1, 3, Some "SYNONYM"); (1, 3, Some "NEAR_SYNONYM");
     (2, 4, Some "HAS_HYPERONYM"); (2, 3, Some "SYNONYM"); (2, 3, Some "NEAR_SYNONYM");
     (2, 1, Some "SYNONYM"); (2, 1, Some "NEAR_SYNONYM");
     (3, 4, Some "HAS_HYPERONYM"); (3, 2, Some "SYNONYM"); (3, 2, Some "NEAR_SYNONYM");
     (3, 1, Some "SYNONYM"); (3, 1, Some "NEAR_SYNONYM")].
Proof. vm_compute. reflexivity. Qed.

End GraphFacts.

(* --------------------------------------------------------------------- *)
(** ** Traversal *)
(* --------------------------------------------------------------------- *)

Module TraversalFacts.
Import Py SpecParser Cornet Reach Invariants.

(** ** Edges as the iterators list them *)

Lemma elem_of_out_edges_of g n u v a :
  (u, v, a) ∈ NX.out_edges_of g n ↔ u = n ∧ NX.has_edge g n v a.
Proof.
  unfold NX.out_edges_of, NX.has_edge, NX.getitem2.
  rewrite list_elem_of_In.
  destruct (NX.succ g !! n) as [nbrs|] eqn:E.
  - rewrite in_flat_map. split.
    + intros ([nbr kd] & Hin & Hx). apply in_map_iff in Hx as (a' & Heq & Ha).
      inversion Heq; subst. split; [reflexivity|].
      exists kd. split.
      * apply elem_of_map_to_list. apply list_elem_of_In. exact Hin.
      * apply list_elem_of_In. exact Ha.
    + intros (-> & kd & Hkd & Ha). exists (v, kd). split.
      * apply list_elem_of_In. apply elem_of_map_to_list. exact Hkd.
      * apply in_map_iff. exists a. split; [reflexivity|]. apply list_elem_of_In. exact Ha.
  - simpl. split; [tauto|]. intros (_ & kd & Hkd & _). discriminate.
Qed.

Lemma elem_of_out_edges_iter g nbunch u v a :
  (u, v, a) ∈ NX.out_edges_iter g nbunch ↔ u ∈ nbunch ∧ NX.has_edge g u v a.
Proof.
  unfold NX.out_edges_iter. rewrite list_elem_of_In, in_flat_map. split.
  - intros (n & Hn & Hx). apply list_elem_of_In, elem_of_out_edges_of in Hx as [-> He].
    split; [apply list_elem_of_In; exact Hn|exact He].
  - intros [Hu He]. exists u. split; [apply list_elem_of_In; exact Hu|].
    apply list_elem_of_In, elem_of_out_edges_of. tauto.
Qed.

Lemma elem_of_in_edges_of g n u v a :
  NX.wf g →
  (u, v, a) ∈ NX.in_edges_of g n ↔ v = n ∧ NX.has_edge g u n a.
Proof.
  intros [_ Hm].
  unfold NX.in_edges_of, NX.has_edge. rewrite (Hm u n). unfold NX.getpred.
  rewrite list_elem_of_In.
  destruct (NX.pred g !! n) as [nbrs|] eqn:E.
  - rewrite in_flat_map. split.
    + intros ([nbr kd] & Hin & Hx). apply in_map_iff in Hx as (a' & Heq & Ha).
      inversion Heq; subst. split; [reflexivity|].
      exists kd. split.
      * apply elem_of_map_to_list. apply list_elem_of_In. exact Hin.
      * apply list_elem_of_In. exact Ha.
    + intros (-> & kd & Hkd & Ha). exists (u, kd). split.
      * apply list_elem_of_In. apply elem_of_map_to_list. exact Hkd.
      * apply in_map_iff. exists a. split; [reflexivity|]. apply list_elem_of_In. exact Ha.
  - simpl. split; [tauto|]. intros (_ & kd & Hkd & _). discriminate.
Qed.

Lemma elem_of_in_edges_iter g nbunch u v a :
  NX.wf g →
  (u, v, a) ∈ NX.in_edges_iter g nbunch ↔ v ∈ nbunch ∧ NX.has_edge g u v a.
Proof.
  intros Hwf.
  unfold NX.in_edges_iter. rewrite list_elem_of_In, in_flat_map. split.
  - intros (n & Hn & Hx).
    apply list_elem_of_In, (elem_of_in_edges_of _ _ _ _ _ Hwf) in Hx as [-> He].
    split; [apply list_elem_of_In; exact Hn|exact He].
  - intros [Hu He]. exists v. split; [apply list_elem_of_In; exact Hu|].
    apply list_elem_of_In, (elem_of_in_edges_of _ _ _ _ _ Hwf). tauto.
Qed.

Lemma has_edge_target g u v a : NX.has_edge g u v a → v ∈ edge_targets g.
Proof.
  intros (kd & Hkd & _). unfold NX.getitem2 in Hkd.
  destruct (NX.succ g !! u) as [nbrs|] eqn:E; [|discriminate].
  unfold edge_targets. apply elem_of_union_list.
  exists (dom nbrs). split.
  - apply list_elem_of_In, in_map_iff. exists (u, nbrs). split; [reflexivity|].
    apply list_elem_of_In, elem_of_map_to_list. exact E.
  - apply elem_of_dom. eauto.
Qed.

(** ** Paths *)

Lemma walk_snoc g rel n u v w :
  walk g rel n u v → step g rel v w → walk g rel (S n) u w.
Proof.
  induction 1 as [u|n u x v Hs Hw IH]; intros Hvw.
  - econstructor; [exact Hvw|constructor].
  - econstructor; [exact Hs|apply IH; exact Hvw].
Qed.

Lemma walk_snoc_inv g rel n u w :
  walk g rel (S n) u w → ∃ v, walk g rel n u v ∧ step g rel v w.
Proof.
  revert u. induction n as [|n IH]; intros u Hw.
  - inversion Hw as [|n' u' v w' Hs Hw']; subst. inversion Hw'; subst.
    exists u. split; [constructor|exact Hs].
  - inversion Hw as [|n' u' v w' Hs Hw']; subst.
    destruct (IH _ Hw') as (x & Hx & Hxw).
    exists x. split; [econstructor; eassumption|exact Hxw].
Qed.

Lemma walk_app g rel n m u v w :
  walk g rel n u v → walk g rel m v w → walk g rel (n + m) u w.
Proof.
  induction 1 as [u|n u x v Hs Hw IH]; intros Hvw; simpl; [exact Hvw|].
  econstructor; [exact Hs|apply IH; exact Hvw].
Qed.

Lemma reach_0 g rel lus x : reach g rel lus 0 x ↔ x ∈ lus.
Proof.
  split.
  - intros (s & Hs & Hw). inversion Hw; subst. exact Hs.
  - intros Hx. exists x. split; [exact Hx|constructor].
Qed.

Lemma reach_S g rel lus n x :
  reach g rel lus (S n) x ↔ ∃ u, reach g rel lus n u ∧ step g rel u x.
Proof.
  split.
  - intros (s & Hs & Hw). apply walk_snoc_inv in Hw as (u & Hu & Hux).
    exists u. split; [exists s; tauto|exact Hux].
  - intros (u & (s & Hs & Hw) & Hux). exists s. split; [exact Hs|].
    eapply walk_snoc; eassumption.
Qed.


(** ** The transitive closure *)

Section TransitiveClosure.
Variable g : NX.MultiDiGraph.
Variable rel_name : string.
Variable lus : list node.

Let seeds : gset node := list_to_set lus.

Local Abbreviation reached_by := (Invariants.reached_by rel_name).
Local Abbreviation closed := (Invariants.closed g rel_name).
Local Abbreviation tc_inv := (Invariants.tc_inv g rel_name lus).
Local Abbreviation tc_result := (Invariants.tc_result g rel_name lus).

Lemma tc_visit_unfold d m nq u v a :
  tc_visit rel_name seeds d (m, nq) (u, v, a)
  = if _rel_has_name a rel_name then
      match m !! v with
      | Some _ => (m, nq)
      | None => (<[v := S d]> m, if bool_decide (v ∈ seeds) then nq else nq ++ [v])
      end
    else (m, nq).
Proof.
  unfold tc_visit. destruct (_rel_has_name a rel_name); simpl; [|reflexivity].
  destruct (m !! v) eqn:E.
  - rewrite bool_decide_eq_true_2 by eauto. reflexivity.
  - rewrite bool_decide_eq_false_2 by (intros [? ?]; discriminate). simpl.
    destruct (bool_decide (v ∈ seeds)); reflexivity.
Qed.

Lemma tc_sweep_spec d edges m nq m' nq' :
  fold_left (tc_visit rel_name seeds d) edges (m, nq) = (m', nq') →
  (∀ x k, m' !! x = Some k ↔
          m !! x = Some k ∨ (m !! x = None ∧ k = S d ∧ reached_by edges x))
  ∧ (∀ x, x ∈ nq' ↔
          x ∈ nq ∨ (m !! x = None ∧ (x ∉ lus) ∧ reached_by edges x)).
Proof.
  revert m nq. induction edges as [|[[u v] a] edges IH]; intros m nq.
  - simpl. intros [= <- <-]. split; intros x.
    + intros k. split; [tauto|]. intros [H|(_ & _ & (? & ? & H & _))]; [exact H|].
      inversion H.
    + split; [tauto|]. intros [H|(_ & _ & (? & ? & H & _))]; [exact H|]. inversion H.
  - cbn [fold_left]. rewrite tc_visit_unfold.
    assert (Hcons : ∀ x, reached_by ((u, v, a) :: edges) x ↔
                         (x = v ∧ _rel_has_name a rel_name = true) ∨ reached_by edges x).
    { intros x. unfold Invariants.reached_by. split.
      - intros (u' & a' & Hin & Hrel). apply elem_of_cons in Hin as [Heq|Hin].
        + inversion Heq; subst. left. tauto.
        + right. eauto.
      - intros [[-> Hrel]|(u' & a' & Hin & Hrel)].
        + exists u, a. split; [left|exact Hrel].
        + exists u', a'. split; [right; exact Hin|exact Hrel]. }
    destruct (_rel_has_name a rel_name) eqn:Hrel.
    + destruct (m !! v) as [kv|] eqn:Ev.
      * intros Hfold. destruct (IH _ _ Hfold) as [IHm IHq]. split; intros x.
        -- intros k. rewrite IHm, Hcons. split; [tauto|].
           intros [H|(Hx & Hk & [[-> _]|Hr])]; [tauto|congruence|tauto].
        -- rewrite IHq, Hcons. split; [tauto|].
           intros [H|(Hx & Hk & [[-> _]|Hr])]; [tauto|congruence|tauto].
      * intros Hfold. destruct (IH _ _ Hfold) as [IHm IHq]. split; intros x.
        -- intros k. rewrite IHm, Hcons.
           destruct (decide (x = v)) as [->|Hne].
           ++ rewrite lookup_insert_eq. split.
              ** intros [[= <-]|(Hx & _)]; [|discriminate]. right. tauto.
              ** intros [H|(_ & -> & _)]; [congruence|]. left. reflexivity.
           ++ rewrite lookup_insert_ne by done. split; [tauto|].
              intros [H|(Hx & Hk & [[-> _]|Hr])]; [tauto|congruence|tauto].
        -- rewrite IHq, Hcons.
           destruct (decide (x = v)) as [->|Hne].
           ++ rewrite lookup_insert_eq.
              destruct (bool_decide (v ∈ seeds)) eqn:Hs.
              ** apply bool_decide_eq_true_1 in Hs.
                 assert (v ∈ lus) by (apply elem_of_list_to_set in Hs; exact Hs).
                 split; [intros [H0|(H0 & _)]; [tauto|discriminate]|].
                 intros [H0|(_ & H0 & _)]; [tauto|contradiction].
              ** apply bool_decide_eq_false_1 in Hs.
                 assert (v ∉ lus) by (intros H0; apply Hs, elem_of_list_to_set; exact H0).
                 rewrite elem_of_app, list_elem_of_singleton.
                 split; [intros [[H0|_]|(H0 & _)]; [tauto| |discriminate]|]; tauto.
           ++ rewrite lookup_insert_ne by done.
              assert ((x ∈ (if bool_decide (v ∈ seeds) then nq else nq ++ [v])) ↔ (x ∈ nq)) as ->.
              { destruct (bool_decide (v ∈ seeds)); [reflexivity|].
                rewrite elem_of_app, list_elem_of_singleton. tauto. }
              split; [tauto|].
              intros [H|(Hx & Hk & [[-> _]|Hr])]; [tauto|congruence|tauto].
    + intros Hfold. destruct (IH _ _ Hfold) as [IHm IHq]. split; intros x.
      * intros k. rewrite IHm, Hcons. split; [tauto|].
        intros [H|(Hx & Hk & [[_ Hf]|Hr])]; [tauto|discriminate|tauto].
      * rewrite IHq, Hcons. split; [tauto|].
        intros [H|(Hx & Hk & [[_ Hf]|Hr])]; [tauto|discriminate|tauto].
Qed.


Lemma reached_by_out_edges queue x :
  reached_by (NX.out_edges_iter g queue) x ↔ ∃ u, u ∈ queue ∧ step g rel_name u x.
Proof.
  unfold Invariants.reached_by, step. split.
  - intros (u & a & Hin & Hrel). apply elem_of_out_edges_iter in Hin as [Hu He].
    exists u. split; [exact Hu|]. exists a. tauto.
  - intros (u & Hu & a & He & Hrel). exists u, a.
    split; [apply elem_of_out_edges_iter; tauto|exact Hrel].
Qed.

Lemma tc_inv_init : tc_inv 0 lus ∅.
Proof.
  split.
  - intros x k H. rewrite lookup_empty in H. discriminate.
  - intros x j Hj. lia.
  - intros x Hx. apply reach_0. exact Hx.
  - intros u [Hu|[k Hk]]; [left; exact Hu|]. rewrite lookup_empty in Hk. discriminate.
  - rewrite dom_empty_L. apply empty_subseteq.
Qed.

Lemma tc_inv_step d queue m m' nq :
  tc_inv d queue m →
  fold_left (tc_visit rel_name seeds d) (NX.out_edges_iter g queue) (m, []) = (m', nq) →
  tc_inv (S d) nq m'
  ∧ dom m ⊆ dom m'
  ∧ (nq ≠ [] → dom m ≠ dom m').
Proof.
  intros [Hsound Hmin Hqueue Hclosed Htargets] Hfold.
  apply tc_sweep_spec in Hfold as [Hm Hq].
  assert (Hmono : ∀ x k, m !! x = Some k → m' !! x = Some k).
  { intros x k H. apply Hm. left. exact H. }
  assert (Hnew : ∀ x, reached_by (NX.out_edges_iter g queue) x → is_Some (m' !! x)).
  { intros x Hr. destruct (m !! x) as [k|] eqn:E.
    - exists k. apply Hmono. exact E.
    - exists (S d). apply Hm. right. tauto. }
  assert (Hclosed_mono : ∀ u, closed m u → closed m' u).
  { intros u Hc v Hv. destruct (Hc v Hv) as [k Hk]. exists k. apply Hmono. exact Hk. }
  assert (Hqueue_closed : ∀ u, u ∈ queue → closed m' u).
  { intros u Hu v Hv. apply Hnew. apply reached_by_out_edges. eauto. }
  split; [split|split].
  - (* sound *)
    intros x k Hk. apply Hm in Hk as [Hk|(Hx & -> & Hr)].
    + destruct (Hsound _ _ Hk) as [? ?]. split; [lia|assumption].
    + split; [lia|]. apply reached_by_out_edges in Hr as (u & Hu & Hux).
      apply reach_S. exists u. split; [apply Hqueue; exact Hu|exact Hux].
  - (* minimal *)
    intros x j Hj Hr.
    destruct (decide (j ≤ d)) as [Hle|Hgt].
    + destruct (Hmin x j ltac:(lia) Hr) as (k & Hk & Hx).
      exists k. split; [exact Hk|apply Hmono; exact Hx].
    + assert (j = S d) as -> by lia.
      apply reach_S in Hr as (u & Hu & Hux).
      assert (Hu' : u ∈ lus ∨ is_Some (m !! u)).
      { destruct d as [|d']; [left; apply reach_0 in Hu; exact Hu|].
        right. destruct (Hmin u (S d') ltac:(lia) Hu) as (k & _ & Hk). eauto. }
      destruct (Hclosed u Hu') as [Hin|Hc].
      * assert (Hr : reached_by (NX.out_edges_iter g queue) x)
          by (apply reached_by_out_edges; eauto).
        destruct (m !! x) as [k|] eqn:E.
        -- exists k. split; [destruct (Hsound _ _ E); lia|apply Hmono; exact E].
        -- exists (S d). split; [lia|]. apply Hm. right. tauto.
      * destruct (Hc x Hux) as [k Hk].
        exists k. split; [destruct (Hsound _ _ Hk); lia|apply Hmono; exact Hk].
  - (* queue *)
    intros x Hx. apply Hq in Hx as [Hx|(_ & _ & Hr)]; [inversion Hx|].
    apply reached_by_out_edges in Hr as (u & Hu & Hux).
    apply reach_S. exists u. split; [apply Hqueue; exact Hu|exact Hux].
  - (* closed *)
    intros u Hu.
    assert (Hold : u ∈ lus ∨ is_Some (m !! u) → closed m' u).
    { intros H. destruct (Hclosed u H) as [Hin|Hc];
        [apply Hqueue_closed; exact Hin|apply Hclosed_mono; exact Hc]. }
    destruct Hu as [Hu|[k Hk]]; [right; apply Hold; left; exact Hu|].
    apply Hm in Hk as [Hk|(Hx & -> & Hr)]; [right; apply Hold; right; eauto|].
    destruct (decide (u ∈ lus)) as [Hin|Hnin]; [right; apply Hold; left; exact Hin|].
    left. apply Hq. right. tauto.
  - (* targets *)
    intros x Hx. apply elem_of_dom in Hx as [k Hk].
    apply Hm in Hk as [Hk|(_ & _ & (u & a & Hin & _))].
    + apply Htargets. apply elem_of_dom. eauto.
    + apply elem_of_out_edges_iter in Hin as [_ He]. eapply has_edge_target. exact He.
  - intros x Hx. apply elem_of_dom in Hx as [k Hk]. apply elem_of_dom.
    exists k. apply Hmono. exact Hk.
  - intros Hne Heq. destruct nq as [|x nq]; [congruence|].
    assert (Hx : x ∈ x :: nq) by left.
    apply Hq in Hx as [Hx|(Hx & _ & Hr)]; [inversion Hx|].
    apply not_elem_of_dom in Hx. apply Hx. rewrite Heq. apply elem_of_dom.
    apply Hnew. exact Hr.
Qed.

Lemma tc_inv_final d m : tc_inv d [] m → tc_result m.
Proof.
  intros [Hsound Hmin _ Hclosed _]. split.
  - intros x k Hk. destruct (Hsound _ _ Hk). split; [lia|assumption].
  - assert (Hall : ∀ u, u ∈ lus ∨ is_Some (m !! u) → closed m u).
    { intros u Hu. destruct (Hclosed u Hu) as [Hin|Hc]; [inversion Hin|exact Hc]. }
    assert (Hdom : ∀ j x, reach g rel_name lus (S j) x → is_Some (m !! x)).
    { induction j as [|j IH]; intros x Hr; apply reach_S in Hr as (u & Hu & Hux).
      - apply reach_0 in Hu. apply (Hall u); [left; exact Hu|exact Hux].
      - apply (Hall u); [right; apply IH; exact Hu|exact Hux]. }
    intros x j Hj Hr.
    destruct (decide (j ≤ d)) as [Hle|Hgt]; [apply Hmin; [lia|exact Hr]|].
    destruct j as [|j]; [lia|]. destruct (Hdom _ _ Hr) as [k Hk].
    exists k. split; [destruct (Hsound _ _ Hk); lia|exact Hk].
Qed.

(** The loop ends within the fuel, and on the closure. *)
Lemma tc_loop_terminates fuel queue d m :
  tc_inv d queue m →
  size (edge_targets g ∖ dom m) < fuel →
  ∃ successors, tc_loop g rel_name seeds fuel queue d m = Some successors
                ∧ tc_result successors.
Proof.
  revert queue d m. induction fuel as [|fuel IH]; intros queue d m Hinv Hsize; [lia|].
  destruct queue as [|q queue].
  - exists m. split; [reflexivity|]. eapply tc_inv_final. exact Hinv.
  - cbn [tc_loop].
    destruct (fold_left (tc_visit rel_name seeds d) (NX.out_edges_iter g (q :: queue)) (m, []))
      as [m' nq] eqn:Hfold.
    destruct (tc_inv_step _ _ _ _ _ Hinv Hfold) as (Hinv' & Hsub & Hgrow).
    destruct nq as [|x nq].
    + destruct fuel; (exists m'; split; [reflexivity|eapply tc_inv_final; exact Hinv']).
    + apply IH; [exact Hinv'|].
      assert (Hlt : size (edge_targets g ∖ dom m') < size (edge_targets g ∖ dom m)).
      { apply subset_size. split.
        - set_solver.
        - intros Hrev. apply Hgrow; [discriminate|].
          pose proof (inv_targets _ _ _ _ _ _ Hinv') as Ht.
          apply set_eq. intros y. split; [apply Hsub|].
          intros Hy. destruct (decide (y ∈ dom m)) as [?|Hn]; [assumption|].
          exfalso. assert (y ∈ edge_targets g ∖ dom m) as Hy' by set_solver.
          apply Hrev in Hy'. set_solver. }
      lia.
Qed.


End TransitiveClosure.

(** More fuel does not change what the loop returns. *)
Lemma tc_loop_fuel_mono g rel_name seeds fuel fuel' queue d m r :
  tc_loop g rel_name seeds fuel queue d m = Some r → fuel ≤ fuel' →
  tc_loop g rel_name seeds fuel' queue d m = Some r.
Proof.
  revert fuel' queue d m. induction fuel as [|fuel IH]; intros fuel' queue d m Hr Hle.
  - destruct queue; [|discriminate]. destruct fuel'; exact Hr.
  - destruct fuel' as [|fuel']; [lia|].
    destruct queue as [|q queue]; [exact Hr|].
    cbn [tc_loop] in *.
    destruct (fold_left _ _ _) as [m' nq]. apply IH; [exact Hr|lia].
Qed.

(** The search returns with the fuel [_transitive_closure] gives it, and
    its result is sound and complete for paths of at least one edge. *)
Lemma transitive_closure_returns (c : Cornet) (lus : list node) (rel_name : string) :
  ∃ successors,
    _transitive_closure c lus rel_name = Ok successors
    ∧ (∀ x k, successors !! x = Some k → 1 ≤ k ∧ reach (_graph c) rel_name lus k x)
    ∧ (∀ x j, 1 ≤ j → reach (_graph c) rel_name lus j x →
              ∃ k, k ≤ j ∧ successors !! x = Some k).
Proof.
  destruct (tc_loop_terminates (_graph c) rel_name lus
              (S (size (edge_targets (_graph c)))) lus 0 ∅)
    as (successors & Hloop & Hsound & Hmin).
  { apply tc_inv_init. }
  { assert (size (edge_targets (_graph c) ∖ dom (∅ : gmap node nat))
            ≤ size (edge_targets (_graph c))) by (apply subseteq_size; set_solver).
    lia. }
  exists successors. split; [|split; [exact Hsound|exact Hmin]].
  unfold _transitive_closure, transitive_closure_fuel. rewrite Hloop. reflexivity.
Qed.

(** C2.  [_transitive_closure] returns (it does not loop for ever), and
    the map it returns has as keys exactly the units that some path of
    at least one edge passing the filter leads to from a seed unit,
    seed units reached that way included.  Each key maps to the length
    of the shortest such path: a positive number, the number of edges
    of an actual path from a seed, so never below the unit's distance
    from the seed set. *)
Theorem transitive_closure_correct (c : Cornet) (lus : list node) (rel_name : string) :
  ∃ successors,
    _transitive_closure c lus rel_name = Ok successors
    ∧ (∀ x, is_Some (successors !! x) ↔
            ∃ j, 1 ≤ j ∧ reach (_graph c) rel_name lus j x)
    ∧ (∀ x k, successors !! x = Some k ↔
              1 ≤ k ∧ reach (_graph c) rel_name lus k x
              ∧ ∀ j, 1 ≤ j → reach (_graph c) rel_name lus j x → k ≤ j)
    ∧ (∀ x k d, successors !! x = Some k →
                (∀ i, reach (_graph c) rel_name lus i x → d ≤ i) → d ≤ k).
Proof.
  destruct (transitive_closure_returns c lus rel_name)
    as (successors & Hret & Hsound & Hmin).
  exists successors. split; [exact Hret|]. split; [|split].
  - intros x. split.
    + intros [k Hk]. exists k. apply Hsound. exact Hk.
    + intros (j & Hj & Hr). destruct (Hmin x j Hj Hr) as (k & _ & Hk). eauto.
  - intros x k. split.
    + intros Hk. destruct (Hsound _ _ Hk) as [H1 Hr]. split; [exact H1|]. split; [exact Hr|].
      intros j Hj Hrj. destruct (Hmin x j Hj Hrj) as (k' & Hle & Hk'). congruence.
    + intros (H1 & Hr & Hleast). destruct (Hmin x k H1 Hr) as (k' & Hle & Hk').
      destruct (Hsound _ _ Hk') as [H1' Hr']. specialize (Hleast k' H1' Hr').
      assert (k' = k) as -> by lia. exact Hk'.
  - intros x k d Hk Hd. apply Hd. apply Hsound. exact Hk.
Qed.

Example transitive_closure_ex :
  _transitive_closure Examples.chain [1; 2] "HAS_HYPERONYM"
  = Ok (list_to_map [(2, 1); (3, 1); (4, 2); (5, 3)]).
Proof. vm_compute. reflexivity. Qed.


(** ** The bidirectional search *)

Lemma fromkeys_lookup (lus : list node) (x : node) :
  fromkeys lus !! x = if decide (x ∈ lus) then Some (None, None) else None.
Proof.
  unfold fromkeys.
  assert (H : ∀ (d : links),
             fold_left (fun d lu => <[lu := (None, None)]> d) lus d !! x
             = if decide (x ∈ lus) then Some (None, None) else d !! x).
  { induction lus as [|a lus IH]; intros d; cbn [fold_left].
    - destruct (decide (x ∈ [])) as [Hin|_]; [inversion Hin|reflexivity].
    - rewrite IH.
      destruct (decide (x ∈ lus)) as [Hin|Hnin], (decide (x ∈ a :: lus)) as [Hin'|Hnin'];
        try reflexivity.
      + exfalso. apply Hnin'. right. exact Hin.
      + apply elem_of_cons in Hin' as [->|?]; [apply lookup_insert_eq|contradiction].
      + apply lookup_insert_ne. intros ->. apply Hnin'. left. }
  rewrite H. destruct (decide (x ∈ lus)); [reflexivity|apply lookup_empty].
Qed.

Lemma in_dict_true (d : links) (x : node) : in_dict d x = true ↔ is_Some (d !! x).
Proof. unfold in_dict. apply bool_decide_eq_true. Qed.

Lemma in_dict_false (d : links) (x : node) : in_dict d x = false ↔ d !! x = None.
Proof.
  unfold in_dict. rewrite bool_decide_eq_false. split.
  - intros H. destruct (d !! x); [exfalso; apply H; eauto|reflexivity].
  - intros -> [? ?]. discriminate.
Qed.

Section Scan.
Variable rel_name : string.

(** What a forward sweep does to the predecessor dict and the fringe,
    whether it ends by finding a unit of [succ] or not. *)
Lemma forward_scan_spec succ edges pred ff pred' ff' found :
  forward_scan rel_name succ edges pred ff = (pred', ff', found) →
  (∀ x v, pred !! x = Some v → pred' !! x = Some v)
  ∧ (∀ x v, pred' !! x = Some v → pred !! x = None →
            ∃ u e, v = (Some u, Some e) ∧ (u, x, e) ∈ edges
                   ∧ _rel_has_name e rel_name = true ∧ x ∈ ff')
  ∧ (∀ x, x ∈ ff' → x ∈ ff ∨ (pred !! x = None ∧ is_Some (pred' !! x)))
  ∧ (∀ x, x ∈ ff → x ∈ ff')
  ∧ match found with
    | Some w => is_Some (succ !! w) ∧ is_Some (pred' !! w)
    | None => ∀ u x e, (u, x, e) ∈ edges → _rel_has_name e rel_name = true →
                       is_Some (pred' !! x) ∧ succ !! x = None
    end.
Proof.
  revert pred ff. induction edges as [|[[u x] e] edges IH]; intros pred ff.
  - simpl. intros Heq. inversion Heq; subst.
    split; [tauto|]. split; [intros; congruence|]. split; [tauto|]. split; [tauto|].
    intros ? ? ? Hin. inversion Hin.
  - cbn [forward_scan].
    destruct (_rel_has_name e rel_name) eqn:Hrel.
    + destruct (in_dict pred x) eqn:Hin; cbn [negb].
      * destruct (in_dict succ x) eqn:Hs.
        -- intros [= <- <- <-]. repeat split; try tauto; try congruence.
           ++ apply in_dict_true. exact Hs.
           ++ apply in_dict_true. exact Hin.
        -- intros Hscan. destruct (IH _ _ Hscan) as (H1 & H2 & H3 & H4 & H5).
           split; [exact H1|]. split.
           { intros y v Hy Hn. destruct (H2 y v Hy Hn) as (u' & e' & ? & ? & ? & ?).
             exists u', e'. repeat split; try assumption. right. assumption. }
           split; [exact H3|]. split; [exact H4|].
           destruct found as [w|]; [exact H5|].
           intros u' y e' Hin' Hrel'. apply elem_of_cons in Hin' as [Heq|Hin'].
           ++ inversion Heq; subst. split.
              ** apply in_dict_true in Hin as [v Hv]. exists v. apply H1. exact Hv.
              ** apply in_dict_false. exact Hs.
           ++ eapply H5; eassumption.
      * apply in_dict_false in Hin.
        destruct (in_dict succ x) eqn:Hs.
        -- intros [= <- <- <-]. split.
           { intros y v Hy. rewrite lookup_insert_ne; [exact Hy|congruence]. }
           split.
           { intros y v Hy Hn. destruct (decide (y = x)) as [->|Hne].
             - rewrite lookup_insert_eq in Hy. inversion Hy; subst.
               exists u, e. repeat split; try assumption; [left|].
               apply elem_of_app. right. left.
             - rewrite lookup_insert_ne in Hy by congruence. congruence. }
           split.
           { intros y Hy. apply elem_of_app in Hy as [Hy|Hy]; [left; exact Hy|].
             apply list_elem_of_singleton in Hy. subst y. right. split; [exact Hin|].
             rewrite lookup_insert_eq. eauto. }
           split.
           { intros y Hy. apply elem_of_app. left. exact Hy. }
           split; [apply in_dict_true; exact Hs|]. rewrite lookup_insert_eq. eauto.
        -- intros Hscan. destruct (IH _ _ Hscan) as (H1 & H2 & H3 & H4 & H5).
           assert (Hx' : pred' !! x = Some (Some u, Some e)).
           { apply H1. apply lookup_insert_eq. }
           split.
           { intros y v Hy. apply H1. rewrite lookup_insert_ne; [exact Hy|congruence]. }
           split.
           { intros y v Hy Hn. destruct (decide (y = x)) as [->|Hne].
             - rewrite Hx' in Hy. inversion Hy; subst.
               exists u, e. repeat split; try assumption; [left|].
               apply H4. apply elem_of_app. right. left.
             - destruct (H2 y v Hy) as (u' & e' & ? & ? & ? & ?).
               { rewrite lookup_insert_ne by congruence. exact Hn. }
               exists u', e'. repeat split; try assumption. right. assumption. }
           split.
           { intros y Hy. apply H3 in Hy as [Hy|[Hy1 Hy2]].
             - apply elem_of_app in Hy as [Hy|Hy]; [left; exact Hy|].
               apply list_elem_of_singleton in Hy. subst y. right. split; [exact Hin|].
               rewrite Hx'. eauto.
             - right. split; [|exact Hy2].
               destruct (decide (y = x)) as [->|Hne]; [exact Hin|].
               rewrite lookup_insert_ne in Hy1 by congruence. exact Hy1. }
           split.
           { intros y Hy. apply H4. apply elem_of_app. left. exact Hy. }
           destruct found as [w|]; [exact H5|].
           intros u' y e' Hin' Hrel'. apply elem_of_cons in Hin' as [Heq|Hin'].
           ++ inversion Heq; subst. split; [rewrite Hx'; eauto|].
              apply in_dict_false. exact Hs.
           ++ eapply H5; eassumption.
    + intros Hscan. destruct (IH _ _ Hscan) as (H1 & H2 & H3 & H4 & H5).
      split; [exact H1|]. split.
      { intros y v Hy Hn. destruct (H2 y v Hy Hn) as (u' & e' & ? & ? & ? & ?).
        exists u', e'. repeat split; try assumption. right. assumption. }
      split; [exact H3|]. split; [exact H4|].
      destruct found as [w|]; [exact H5|].
      intros u' y e' Hin' Hrel'. apply elem_of_cons in Hin' as [Heq|Hin'].
      * inversion Heq; subst. congruence.
      * eapply H5; eassumption.
Qed.


(** The reverse sweep is the forward sweep on the reversed edges, with
    the two dicts exchanged. *)
Lemma reverse_scan_flip pred edges succ rf :
  reverse_scan rel_name pred edges succ rf
  = forward_scan rel_name pred (map flip edges) succ rf.
Proof.
  revert succ rf. induction edges as [|[[u v] a] edges IH]; intros succ rf; [reflexivity|].
  cbn [reverse_scan forward_scan map flip].
  destruct (_rel_has_name a rel_name); [|apply IH].
  destruct (negb (in_dict succ u)); (destruct (in_dict pred u); [reflexivity|apply IH]).
Qed.

Lemma reverse_scan_spec pred edges succ rf succ' rf' found :
  reverse_scan rel_name pred edges succ rf = (succ', rf', found) →
  (∀ x v, succ !! x = Some v → succ' !! x = Some v)
  ∧ (∀ x v, succ' !! x = Some v → succ !! x = None →
            ∃ w e, v = (Some w, Some e) ∧ (x, w, e) ∈ edges
                   ∧ _rel_has_name e rel_name = true ∧ x ∈ rf')
  ∧ (∀ x, x ∈ rf' → x ∈ rf ∨ (succ !! x = None ∧ is_Some (succ' !! x)))
  ∧ (∀ x, x ∈ rf → x ∈ rf')
  ∧ match found with
    | Some w => is_Some (pred !! w) ∧ is_Some (succ' !! w)
    | None => ∀ x w e, (x, w, e) ∈ edges → _rel_has_name e rel_name = true →
                       is_Some (succ' !! x) ∧ pred !! x = None
    end.
Proof.
  rewrite reverse_scan_flip. intros Hscan.
  destruct (forward_scan_spec _ _ _ _ _ _ _ Hscan) as (H1 & H2 & H3 & H4 & H5).
  assert (Hflip : ∀ x w e, (w, x, e) ∈ map flip edges ↔ (x, w, e) ∈ edges).
  { intros x w e. rewrite !list_elem_of_In, in_map_iff. split.
    - intros ([[a b] c] & Heq & Hin). inversion Heq; subst. exact Hin.
    - intros Hin. exists (x, w, e). split; [reflexivity|exact Hin]. }
  split; [exact H1|]. split.
  { intros x v Hx Hn. destruct (H2 x v Hx Hn) as (w & e & ? & Hin & ? & ?).
    exists w, e. repeat split; try assumption. apply Hflip. exact Hin. }
  split; [exact H3|]. split; [exact H4|].
  destruct found as [w|]; [exact H5|].
  intros x w e Hin Hrel. apply (H5 w x e); [apply Hflip; exact Hin|exact Hrel].
Qed.

End Scan.

Section Bidirectional.
Variable g : NX.MultiDiGraph.
Hypothesis g_wf : NX.wf g.
Variable rel_name : string.
Variables from_lus to_lus : list node.

Local Abbreviation fwd := (Invariants.fwd g rel_name from_lus).
Local Abbreviation bwd := (Invariants.bwd g rel_name to_lus).
Local Abbreviation bsp_inv := (Invariants.bsp_inv g rel_name from_lus to_lus).

Lemma chain_mono (d d' : links) x n :
  (∀ y v, d !! y = Some v → d' !! y = Some v) → chain d x n → chain d' x n.
Proof.
  intros Hsub. induction 1 as [x Hx|x y e n Hx Hy IH].
  - apply chain_end. apply Hsub. exact Hx.
  - eapply chain_link; [apply Hsub; exact Hx|exact IH].
Qed.

Lemma fwd_mono n m x : n ≤ m → fwd n x → fwd m x.
Proof. intros Hle (j & Hj & Hr). exists j. split; [lia|exact Hr]. Qed.

Lemma bwd_mono n m x : n ≤ m → bwd n x → bwd m x.
Proof. intros Hle (j & t & Hj & Hr). exists j, t. split; [lia|exact Hr]. Qed.

Lemma fwd_step n u v : fwd n u → step g rel_name u v → fwd (S n) v.
Proof.
  intros (j & Hj & Hr) Huv. exists (S j). split; [lia|]. apply reach_S. eauto.
Qed.

Lemma bwd_step n u v : bwd n v → step g rel_name u v → bwd (S n) u.
Proof.
  intros (j & t & Hj & Ht & Hw) Huv. exists (S j), t. split; [lia|]. split; [exact Ht|].
  econstructor; eassumption.
Qed.

Lemma fwd_S_inv n x :
  fwd (S n) x → fwd n x ∨ ∃ u, fwd n u ∧ step g rel_name u x.
Proof.
  intros (j & Hj & Hr). destruct (decide (j ≤ n)) as [Hle|Hgt].
  - left. exists j. tauto.
  - right. assert (j = S n) as -> by lia. apply reach_S in Hr as (u & Hu & Hux).
    exists u. split; [exists n; split; [lia|exact Hu]|exact Hux].
Qed.

Lemma bwd_S_inv n x :
  bwd (S n) x → bwd n x ∨ ∃ v, bwd n v ∧ step g rel_name x v.
Proof.
  intros (j & t & Hj & Ht & Hw). destruct (decide (j ≤ n)) as [Hle|Hgt].
  - left. exists j, t. tauto.
  - right. assert (j = S n) as -> by lia.
    inversion Hw as [|n' u v w Hs Hw']; subst.
    exists v. split; [exists n, t; split; [lia|tauto]|exact Hs].
Qed.

Lemma step_out_edge ff u v :
  u ∈ ff → step g rel_name u v →
  ∃ e, (u, v, e) ∈ NX.out_edges_iter g ff ∧ _rel_has_name e rel_name = true.
Proof.
  intros Hu (e & He & Hrel). exists e. split; [|exact Hrel].
  apply elem_of_out_edges_iter. tauto.
Qed.

Lemma step_in_edge rf u v :
  v ∈ rf → step g rel_name u v →
  ∃ e, (u, v, e) ∈ NX.in_edges_iter g rf ∧ _rel_has_name e rel_name = true.
Proof.
  intros Hv (e & He & Hrel). exists e. split; [|exact Hrel].
  apply elem_of_in_edges_iter; [exact g_wf|tauto].
Qed.

Lemma bsp_inv_forward kf kr pred succ ff rf pred' ff' found :
  bsp_inv kf kr pred succ ff rf →
  forward_scan rel_name succ (NX.out_edges_iter g ff) pred [] = (pred', ff', found) →
  match found with
  | None => bsp_inv (S kf) kr pred' succ ff' rf
  | Some w =>
      fwd (S kf) w ∧ bwd kr w
      ∧ (∃ u e n, pred' !! w = Some (Some u, Some e) ∧ chain pred' w n ∧ n ≤ S kf)
      ∧ (∃ n, chain succ w n ∧ n ≤ kr)
  end.
Proof.
  intros [Pb Pc Pf Pch Sb Sc Sf Sch Dis] Hscan.
  apply forward_scan_spec in Hscan as (H1 & H2 & H3 & H4 & H5).
  assert (Hnew : ∀ x v, pred' !! x = Some v → pred !! x = None →
            ∃ u e n, v = (Some u, Some e) ∧ step g rel_name u x ∧ fwd kf u
                     ∧ chain pred' u n ∧ n ≤ kf ∧ x ∈ ff').
  { intros x v Hx Hn. destruct (H2 x v Hx Hn) as (u & e & -> & Hin & Hrel & Hff).
    apply elem_of_out_edges_iter in Hin as [Hu He].
    destruct (Pf u Hu) as [Hpu _]. destruct (Pch u Hpu) as (n & Hn' & Hc).
    exists u, e, n. split; [reflexivity|]. split; [exists e; tauto|].
    split; [apply Pb; exact Hpu|]. split; [eapply chain_mono; eassumption|tauto]. }
  destruct found as [w|].
  - destruct H5 as [Hs [v Hv]].
    assert (Hn : pred !! w = None).
    { destruct (pred !! w) eqn:E; [|reflexivity].
      rewrite (Dis w) in Hs by eauto. destruct Hs; discriminate. }
    destruct (Hnew w v Hv Hn) as (u & e & n & -> & Hstep & Hfu & Hc & Hle & _).
    split; [eapply fwd_step; eassumption|]. split; [apply Sb; exact Hs|]. split.
    + exists u, e, (S n). split; [exact Hv|]. split; [|lia].
      eapply chain_link; eassumption.
    + destruct (Sch w Hs) as (m & Hm & Hcm). eauto.
  - split.
    + intros x. split.
      * intros [v Hv]. destruct (pred !! x) eqn:E.
        -- apply (fwd_mono kf); [lia|]. apply Pb. eauto.
        -- destruct (Hnew x v Hv E) as (u & e & n & _ & Hstep & Hfu & _).
           eapply fwd_step; eassumption.
      * intros Hx. apply fwd_S_inv in Hx as [Hx|(u & Hu & Hux)].
        -- apply Pb in Hx as [v Hv]. exists v. apply H1. exact Hv.
        -- apply Pb in Hu. destruct (Pc u Hu) as [Hin|Hcl].
           ++ destruct (step_out_edge _ _ _ Hin Hux) as (e & He & Hrel).
              apply (H5 _ _ _ He Hrel).
           ++ destruct (Hcl x Hux) as [v Hv]. exists v. apply H1. exact Hv.
    + intros u [v Hv]. destruct (pred !! u) eqn:E.
      * right. intros x Hux. destruct (Pc u ltac:(eauto)) as [Hin|Hcl].
        -- destruct (step_out_edge _ _ _ Hin Hux) as (e & He & Hrel).
           apply (H5 _ _ _ He Hrel).
        -- destruct (Hcl x Hux) as [vx Hvx]. exists vx. apply H1. exact Hvx.
      * left. destruct (Hnew u v Hv E) as (? & ? & ? & _ & _ & _ & _ & _ & Hin). exact Hin.
    + intros x Hx. apply H3 in Hx as [Hx|[Hn [v Hv]]]; [inversion Hx|].
      split; [eauto|]. right.
      destruct (Hnew x v Hv Hn) as (u & e & n & -> & _). eauto.
    + intros x [v Hv]. destruct (pred !! x) eqn:E.
      * destruct (Pch x ltac:(eauto)) as (n & Hn & Hc).
        exists n. split; [lia|]. eapply chain_mono; eassumption.
      * destruct (Hnew x v Hv E) as (u & e & n & -> & _ & _ & Hc & Hle & _).
        exists (S n). split; [lia|]. eapply chain_link; eassumption.
    + exact Sb.
    + exact Sc.
    + exact Sf.
    + exact Sch.
    + intros x [v Hv]. destruct (pred !! x) eqn:E; [apply Dis; eauto|].
      destruct (H2 x v Hv E) as (u & e & _ & Hin & Hrel & _).
      apply (H5 _ _ _ Hin Hrel).
Qed.

Lemma bsp_inv_reverse kf kr pred succ ff rf succ' rf' found :
  1 ≤ kf →
  bsp_inv kf kr pred succ ff rf →
  reverse_scan rel_name pred (NX.in_edges_iter g rf) succ [] = (succ', rf', found) →
  match found with
  | None => bsp_inv kf (S kr) pred succ' ff rf'
  | Some w =>
      fwd kf w ∧ bwd (S kr) w
      ∧ (∃ u e n, pred !! w = Some (Some u, Some e) ∧ chain pred w n ∧ n ≤ kf)
      ∧ (∃ n, chain succ' w n ∧ n ≤ S kr)
  end.
Proof.
  intros Hkf [Pb Pc Pf Pch Sb Sc Sf Sch Dis] Hscan.
  apply reverse_scan_spec in Hscan as (H1 & H2 & H3 & H4 & H5).
  assert (Hnew : ∀ x v, succ' !! x = Some v → succ !! x = None →
            ∃ w e n, v = (Some w, Some e) ∧ step g rel_name x w ∧ bwd kr w
                     ∧ w ∈ rf ∧ chain succ' w n ∧ n ≤ kr ∧ x ∈ rf').
  { intros x v Hx Hn. destruct (H2 x v Hx Hn) as (w & e & -> & Hin & Hrel & Hrf).
    apply (elem_of_in_edges_iter _ _ _ _ _ g_wf) in Hin as [Hw He].
    pose proof (Sf w Hw) as Hsw. destruct (Sch w Hsw) as (n & Hn' & Hc).
    exists w, e, n. split; [reflexivity|]. split; [exists e; tauto|].
    split; [apply Sb; exact Hsw|]. split; [exact Hw|].
    split; [eapply chain_mono; eassumption|tauto]. }
  destruct found as [w|].
  - destruct H5 as [Hp [v Hv]].
    assert (Hn : succ !! w = None) by (apply Dis; exact Hp).
    destruct (Hnew w v Hv Hn) as (t & e & n & -> & Hstep & Hbt & Ht & Hc & Hle & _).
    split; [apply Pb; exact Hp|]. split; [eapply bwd_step; eassumption|]. split.
    + (* the unit found is in the forward fringe: it has a real predecessor *)
      destruct (Pc w Hp) as [Hin|Hcl].
      * destruct (Pf w Hin) as [_ [H0|(u & e' & Hw)]]; [lia|].
        destruct (Pch w Hp) as (m & Hm & Hcm). exists u, e', m. tauto.
      * exfalso. pose proof (Hcl t Hstep) as Hpt.
        pose proof (Dis t Hpt) as Hnt. destruct (Sf t Ht) as [? Hst]. congruence.
    + exists (S n). split; [|lia]. eapply chain_link; eassumption.
  - split.
    + exact Pb.
    + exact Pc.
    + exact Pf.
    + exact Pch.
    + intros x. split.
      * intros [v Hv]. destruct (succ !! x) eqn:E.
        -- apply (bwd_mono kr); [lia|]. apply Sb. eauto.
        -- destruct (Hnew x v Hv E) as (w & e & n & _ & Hstep & Hbw & _).
           eapply bwd_step; eassumption.
      * intros Hx. apply bwd_S_inv in Hx as [Hx|(w & Hw & Hxw)].
        -- apply Sb in Hx as [v Hv]. exists v. apply H1. exact Hv.
        -- apply Sb in Hw. destruct (Sc w Hw) as [Hin|Hcl].
           ++ destruct (step_in_edge _ _ _ Hin Hxw) as (e & He & Hrel).
              apply (H5 _ _ _ He Hrel).
           ++ destruct (Hcl x Hxw) as [v Hv]. exists v. apply H1. exact Hv.
    + intros w [v Hv]. destruct (succ !! w) eqn:E.
      * right. intros x Hxw. destruct (Sc w ltac:(eauto)) as [Hin|Hcl].
        -- destruct (step_in_edge _ _ _ Hin Hxw) as (e & He & Hrel).
           apply (H5 _ _ _ He Hrel).
        -- destruct (Hcl x Hxw) as [vx Hvx]. exists vx. apply H1. exact Hvx.
      * left. destruct (Hnew w v Hv E) as (? & ? & ? & _ & _ & _ & _ & _ & _ & Hin).
        exact Hin.
    + intros x Hx. apply H3 in Hx as [Hx|[Hn Hs]]; [inversion Hx|exact Hs].
    + intros x [v Hv]. destruct (succ !! x) eqn:E.
      * destruct (Sch x ltac:(eauto)) as (n & Hn & Hc).
        exists n. split; [lia|]. eapply chain_mono; eassumption.
      * destruct (Hnew x v Hv E) as (w & e & n & -> & _ & _ & _ & Hc & Hle & _).
        exists (S n). split; [lia|]. eapply chain_link; eassumption.
    + intros x Hp. destruct (succ' !! x) as [v|] eqn:E; [|reflexivity].
      exfalso. pose proof (Dis x Hp) as Hn.
      destruct (H2 x v E Hn) as (w & e & _ & Hin & Hrel & _).
      destruct (H5 _ _ _ Hin Hrel) as [_ Hpx]. rewrite Hpx in Hp. destruct Hp; discriminate.
Qed.


Lemma walk_split n u w i :
  walk g rel_name n u w → i ≤ n →
  ∃ v, walk g rel_name i u v ∧ walk g rel_name (n - i) v w.
Proof.
  intros Hw. revert i. induction Hw as [u|n u x w Hs Hw IH]; intros i Hi.
  - assert (i = 0) as -> by lia. exists u. split; constructor.
  - destruct i as [|i].
    + exists u. split; [constructor|]. econstructor; eassumption.
    + destruct (IH i ltac:(lia)) as (v & Hv1 & Hv2).
      exists v. split; [econstructor; eassumption|exact Hv2].
Qed.

Lemma connected_within_mono d d' :
  d ≤ d' → connected_within g rel_name from_lus to_lus d →
  connected_within g rel_name from_lus to_lus d'.
Proof. intros Hle (n & s & t & Hn & H). exists n, s, t. split; [lia|exact H]. Qed.

Lemma meet_connected kf kr w :
  fwd kf w → bwd kr w → connected_within g rel_name from_lus to_lus (kf + kr).
Proof.
  intros (j & Hj & s & Hs & Hw1) (j' & t & Hj' & Ht & Hw2).
  exists (j + j'), s, t. split; [lia|]. split; [exact Hs|]. split; [exact Ht|].
  eapply walk_app; eassumption.
Qed.

(** While the two dicts share no unit, no path is as short as the two
    radii together. *)
Lemma bsp_inv_not_connected kf kr pred succ ff rf :
  bsp_inv kf kr pred succ ff rf →
  ¬ connected_within g rel_name from_lus to_lus (kf + kr).
Proof.
  intros Hinv (n & s & t & Hn & Hs & Ht & Hw).
  destruct (walk_split n s t (Nat.min kf n) Hw ltac:(lia)) as (v & Hv1 & Hv2).
  assert (Hp : is_Some (pred !! v)).
  { apply (P_ball _ _ _ _ _ _ _ _ _ _ Hinv). exists (Nat.min kf n). split; [lia|]. exists s. tauto. }
  assert (Hsv : is_Some (succ !! v)).
  { apply (S_ball _ _ _ _ _ _ _ _ _ _ Hinv). exists (n - Nat.min kf n), t. split; [lia|tauto]. }
  rewrite (PS_disjoint _ _ _ _ _ _ _ _ _ _ Hinv v Hp) in Hsv. destruct Hsv; discriminate.
Qed.

(** An empty fringe: the dict is closed, so no path exists at all. *)
Lemma bsp_inv_forward_exhausted kf kr pred succ rf d :
  bsp_inv kf kr pred succ [] rf →
  ¬ connected_within g rel_name from_lus to_lus d.
Proof.
  intros Hinv (n & s & t & Hn & Hs & Ht & Hw).
  assert (Hclosed : ∀ u v, is_Some (pred !! u) → step g rel_name u v → is_Some (pred !! v)).
  { intros u v Hu Huv. destruct (P_closed _ _ _ _ _ _ _ _ _ _ Hinv u Hu) as [Hin|Hcl];
      [inversion Hin|exact (Hcl v Huv)]. }
  assert (Hps : is_Some (pred !! s)).
  { apply (P_ball _ _ _ _ _ _ _ _ _ _ Hinv). exists 0. split; [lia|]. apply reach_0. exact Hs. }
  assert (Hpt : is_Some (pred !! t)).
  { clear Hn Hs. induction Hw as [u|n u x w Hux Hw IH]; [exact Hps|].
    apply IH; [exact Ht|]. eapply Hclosed; eassumption. }
  assert (Hst : is_Some (succ !! t)).
  { apply (S_ball _ _ _ _ _ _ _ _ _ _ Hinv). exists 0, t. split; [lia|]. split; [exact Ht|constructor]. }
  rewrite (PS_disjoint _ _ _ _ _ _ _ _ _ _ Hinv t Hpt) in Hst. destruct Hst; discriminate.
Qed.

Lemma bsp_inv_reverse_exhausted kf kr pred succ ff d :
  bsp_inv kf kr pred succ ff [] →
  ¬ connected_within g rel_name from_lus to_lus d.
Proof.
  intros Hinv (n & s & t & Hn & Hs & Ht & Hw).
  assert (Hclosed : ∀ u v, is_Some (succ !! v) → step g rel_name u v → is_Some (succ !! u)).
  { intros u v Hv Huv. destruct (S_closed _ _ _ _ _ _ _ _ _ _ Hinv v Hv) as [Hin|Hcl];
      [inversion Hin|exact (Hcl u Huv)]. }
  assert (Hst : is_Some (succ !! t)).
  { apply (S_ball _ _ _ _ _ _ _ _ _ _ Hinv). exists 0, t. split; [lia|]. split; [exact Ht|constructor]. }
  assert (Hss : is_Some (succ !! s)).
  { clear Hn Hs. induction Hw as [u|n u x w Hux Hw IH]; [exact Hst|].
    eapply Hclosed; [apply IH; assumption|exact Hux]. }
  assert (Hps : is_Some (pred !! s)).
  { apply (P_ball _ _ _ _ _ _ _ _ _ _ Hinv). exists 0. split; [lia|]. apply reach_0. exact Hs. }
  rewrite (PS_disjoint _ _ _ _ _ _ _ _ _ _ Hinv s Hps) in Hss. destruct Hss; discriminate.
Qed.

Lemma bsp_loop_spec n :
  ∀ kf kr pred succ ff rf,
    bsp_inv kf kr pred succ ff rf →
    match bsp_loop g rel_name n pred succ ff rf with
    | (Some pred', Some w, Some succ') =>
        connected_within g rel_name from_lus to_lus (kf + kr + n)
        ∧ found_at (kf + kr + n) pred' succ' w
    | (None, None, None) =>
        ¬ connected_within g rel_name from_lus to_lus (kf + kr + n)
    | _ => False
    end.
Proof.
  induction n as [n IH] using lt_wf_ind.
  intros kf kr pred succ ff rf Hinv.
  destruct ff as [|f ff].
  { destruct rf, n; cbn; eapply bsp_inv_forward_exhausted; exact Hinv. }
  destruct rf as [|r rf].
  { destruct n; cbn; eapply bsp_inv_reverse_exhausted; exact Hinv. }
  destruct n as [|n].
  { cbn. rewrite Nat.add_0_r. eapply bsp_inv_not_connected. exact Hinv. }
  cbn [bsp_loop].
  destruct (forward_scan rel_name succ (NX.out_edges_iter g (f :: ff)) pred [])
    as [[pred' ff'] found] eqn:Hfwd.
  pose proof (bsp_inv_forward _ _ _ _ _ _ _ _ _ Hinv Hfwd) as Hf.
  destruct found as [w|].
  { destruct Hf as (Hfw & Hbw & (u & e & m & Hpw & Hc & Hm) & (m' & Hc' & Hm')).
    split.
    - apply (connected_within_mono (S kf + kr)); [lia|]. eapply meet_connected; eassumption.
    - split; [exists u, e, m|exists m']; repeat split; try assumption; lia. }
  destruct n as [|n].
  { replace (kf + kr + 1) with (S kf + kr) by lia.
    eapply bsp_inv_not_connected. exact Hf. }
  destruct (reverse_scan rel_name pred' (NX.in_edges_iter g (r :: rf)) succ [])
    as [[succ' rf'] found] eqn:Hrev.
  assert (Hkf : 1 ≤ S kf) by lia.
  pose proof (bsp_inv_reverse _ _ _ _ _ _ _ _ _ Hkf Hf Hrev) as Hr.
  destruct found as [w|].
  { destruct Hr as (Hfw & Hbw & (u & e & m & Hpw & Hc & Hm) & (m' & Hc' & Hm')).
    split.
    - apply (connected_within_mono (S kf + S kr)); [lia|]. eapply meet_connected; eassumption.
    - split; [exists u, e, m|exists m']; repeat split; try assumption; lia. }
  specialize (IH n ltac:(lia) (S kf) (S kr) pred' succ' ff' rf' Hr).
  replace (kf + kr + S (S n)) with (S kf + S kr + n) by lia.
  exact IH.
Qed.

Lemma bsp_inv_init :
  (∀ lu, lu ∈ from_lus → lu ∉ to_lus) →
  bsp_inv 0 0 (fromkeys from_lus) (fromkeys to_lus) from_lus to_lus.
Proof.
  intros Hdis.
  assert (Hp : ∀ x, is_Some (fromkeys from_lus !! x) ↔ x ∈ from_lus).
  { intros x. rewrite fromkeys_lookup. destruct (decide (x ∈ from_lus)); split;
      try tauto; eauto. intros [? ?]; discriminate. }
  assert (Hs : ∀ x, is_Some (fromkeys to_lus !! x) ↔ x ∈ to_lus).
  { intros x. rewrite fromkeys_lookup. destruct (decide (x ∈ to_lus)); split;
      try tauto; eauto. intros [? ?]; discriminate. }
  split.
  - intros x. rewrite Hp. split.
    + intros Hx. exists 0. split; [lia|]. apply reach_0. exact Hx.
    + intros (j & Hj & Hr). assert (j = 0) as -> by lia. apply reach_0 in Hr. exact Hr.
  - intros u Hu. left. apply Hp. exact Hu.
  - intros x Hx. split; [apply Hp; exact Hx|left; reflexivity].
  - intros x Hx. exists 0. split; [lia|]. apply chain_end.
    rewrite fromkeys_lookup. apply Hp in Hx. rewrite decide_True by exact Hx. reflexivity.
  - intros x. rewrite Hs. split.
    + intros Hx. exists 0, x. split; [lia|]. split; [exact Hx|constructor].
    + intros (j & t & Hj & Ht & Hw). assert (j = 0) as -> by lia.
      inversion Hw; subst. exact Ht.
  - intros v Hv. left. apply Hs. exact Hv.
  - intros x Hx. apply Hs. exact Hx.
  - intros x Hx. exists 0. split; [lia|]. apply chain_end.
    rewrite fromkeys_lookup. apply Hs in Hx. rewrite decide_True by exact Hx. reflexivity.
  - intros x Hx. apply Hp in Hx. rewrite fromkeys_lookup.
    rewrite decide_False; [reflexivity|]. apply Hdis. exact Hx.
Qed.

(** The search proper: it meets at a unit exactly when a path of at
    most [depth] edges exists; a shared unit is reported at once. *)
Lemma bidirectional_shortest_path_spec (depth : nat) :
  match _bidirectional_shortest_path g from_lus to_lus rel_name depth with
  | (None, Some lu, None) =>
      lu ∈ from_lus ∧ lu ∈ to_lus
  | (Some pred, Some w, Some succ) =>
      (∀ lu, lu ∈ from_lus → lu ∉ to_lus)
      ∧ connected_within g rel_name from_lus to_lus depth
      ∧ found_at depth pred succ w
  | (None, None, None) =>
      (∀ lu, lu ∈ from_lus → lu ∉ to_lus)
      ∧ ¬ connected_within g rel_name from_lus to_lus depth
  | _ => False
  end.
Proof.
  unfold _bidirectional_shortest_path.
  destruct (List.find (in_dict (fromkeys to_lus)) from_lus) as [lu|] eqn:Hfind.
  - apply find_some in Hfind as [Hin Hd]. split; [apply list_elem_of_In; exact Hin|].
    apply in_dict_true in Hd. rewrite fromkeys_lookup in Hd.
    destruct (decide (lu ∈ to_lus)); [assumption|destruct Hd; discriminate].
  - assert (Hdis : ∀ lu, lu ∈ from_lus → lu ∉ to_lus).
    { intros lu Hlu Hlu'. apply list_elem_of_In in Hlu.
      pose proof (find_none _ _ Hfind lu Hlu) as Hn. apply in_dict_false in Hn.
      rewrite fromkeys_lookup, decide_True in Hn by exact Hlu'. discriminate. }
    pose proof (bsp_loop_spec depth 0 0 _ _ _ _ (bsp_inv_init Hdis)) as Hloop.
    destruct (bsp_loop g rel_name depth (fromkeys from_lus) (fromkeys to_lus) from_lus to_lus)
      as [[[pred|] [w|]] [succ|]]; simpl in Hloop; try contradiction; tauto.
Qed.

End Bidirectional.

(** ** Rebuilding the path *)

Section Reconstruct.
Variable lu_formatter : node → value.
Variable rel_formatter : option NX.attr → result value.
Hypothesis rel_formatter_ok : ∀ e, ∃ v, rel_formatter (Some e) = Ok v.

Lemma chain_link_inv (d : links) x y e n :
  d !! x = Some (Some y, Some e) → chain d x n → ∃ n', n = S n' ∧ chain d y n'.
Proof.
  intros Hx Hc. inversion Hc as [x' Hx'|x' y' e' n' Hx' Hy']; subst.
  - congruence.
  - rewrite Hx in Hx'. inversion Hx'; subst. eauto.
Qed.

Lemma path_to_target_ok (succ : links) w n :
  chain succ w n → ∀ fuel acc, n < fuel →
  ∃ p, path_to_target lu_formatter rel_formatter fuel (Some succ) (Some w) acc
       = Ok (acc ++ lu_formatter w :: p).
Proof.
  induction 1 as [x Hx|x y e n Hx Hy IH]; intros fuel acc Hfuel;
    (destruct fuel as [|fuel]; [lia|]); cbn [path_to_target getitem]; rewrite Hx;
    cbn [rbind].
  - exists []. destruct fuel; reflexivity.
  - destruct (rel_formatter_ok e) as [r Hr]. rewrite Hr. cbn [rbind].
    destruct (IH fuel ((acc ++ [lu_formatter x]) ++ [r]) ltac:(lia)) as [p Hp].
    exists (r :: lu_formatter y :: p). rewrite Hp. f_equal.
    rewrite <- !app_assoc. reflexivity.
Qed.

Lemma path_from_source_ok (pred : links) w n :
  chain pred w n → ∀ fuel acc, n < fuel →
  ∃ p, path_from_source lu_formatter rel_formatter fuel (Some pred) (Some w) acc
       = Ok (p ++ acc).
Proof.
  induction 1 as [x Hx|x y e n Hx Hy IH]; intros fuel acc Hfuel;
    (destruct fuel as [|fuel]; [lia|]); cbn [path_from_source getitem]; rewrite Hx;
    cbn [rbind].
  - exists [lu_formatter x]. destruct fuel; reflexivity.
  - destruct (rel_formatter_ok e) as [r Hr]. rewrite Hr. cbn [rbind].
    destruct (IH fuel (r :: lu_formatter x :: acc) ltac:(lia)) as [p Hp].
    exists (p ++ [r; lu_formatter x]). rewrite Hp. f_equal.
    rewrite <- app_assoc. reflexivity.
Qed.

End Reconstruct.

Lemma formatters_spec_or_raw (c : Cornet) (format : option string) :
  effective_format c format = "spec"%string ∨ effective_format c format = "raw"%string →
  ∃ lu_formatter rel_formatter,
    _get_lex_unit_formatter c format = Ok lu_formatter
    ∧ _get_relation_formatter c format = Ok rel_formatter
    ∧ ∀ e, ∃ v, rel_formatter (Some e) = Ok v.
Proof.
  unfold _get_lex_unit_formatter, _get_relation_formatter.
  intros [-> | ->]; simpl; eexists _, _; (split; [reflexivity|]); (split; [reflexivity|]).
  - intros [r|]; eauto.
  - intros e. eauto.
Qed.

Lemma falsy_Some_nonempty (d : links) x : is_Some (d !! x) → falsy (Some d) = false.
Proof.
  intros [v Hv]. unfold falsy. apply bool_decide_eq_false_2. intros ->.
  rewrite lookup_empty in Hv. discriminate.
Qed.

Lemma get_lex_units_raw (c : Cornet) (spec : string) :
  ∃ form, get_lex_units c spec (Some "raw"%string)
          = ([Ev_form2lu_get form], Ok (map VLu (resolve c spec))).
Proof.
  unfold get_lex_units, resolve.
  destruct (SpecParserFacts.split_unit_spec_unpacks spec) as (_ & form & cat & sense & ->).
  exists form. reflexivity.
Qed.

Lemma as_lus_map_VLu (l : list node) : as_lus (map VLu l) = l.
Proof.
  unfold as_lus. induction l as [|x l IH]; [reflexivity|].
  cbn. rewrite IH. reflexivity.
Qed.

(** Paths and reachability, where the formatting does not interfere.
    For a graph as [parse_cdb] builds it, any
    two lists of units, any relation filter and any depth, and for the
    output formats [spec] and [raw] (chosen by the call or by default):
    the search and the rebuilding of the path return a path, which is
    non-empty exactly when some directed path of at most [depth] edges
    passing the filter leads from a source unit to a target unit.  When
    the two lists share a unit whose element has a child element, the
    path is the single formatted unit.  [test_lex_units_relation]
    returns this path for the units its two specs resolve to and the
    name and depth (1 to 9) its relation spec parses to. *)
Theorem path_between_iff_connected (c : Cornet) (format : option string) :
  NX.wf (_graph c) →
  effective_format c format = "spec"%string ∨ effective_format c format = "raw"%string →
  (∀ from_lus to_lus rel_name depth,
     (∀ lu, lu ∈ from_lus → lu ∈ to_lus → ET.truthy (deref c lu) = true) →
     ∃ path,
       path_between c from_lus to_lus rel_name depth format = Ok path
       ∧ (path ≠ [] ↔ connected_within (_graph c) rel_name from_lus to_lus depth)
       ∧ ((∃ lu, lu ∈ from_lus ∧ lu ∈ to_lus) →
          ∃ lu lu_formatter,
            lu ∈ from_lus ∧ lu ∈ to_lus
            ∧ _get_lex_unit_formatter c format = Ok lu_formatter
            ∧ path = [lu_formatter lu]))
  ∧ (∀ from_lu_spec rel_spec to_lu_spec rel_name depth,
       _split_rel_spec rel_spec = Ok (rel_name, depth) →
       (1 ≤ depth ≤ 9)%Z
       ∧ outcome (test_lex_units_relation c from_lu_spec rel_spec to_lu_spec format)
         = path_between c (resolve c from_lu_spec) (resolve c to_lu_spec)
                        rel_name (Z.to_nat depth) format).
Proof.
  intros Hwf Hfmt. split.
  - intros from_lus to_lus rel_name depth Htruthy.
    destruct (formatters_spec_or_raw c format Hfmt) as (lu_f & rel_f & Hlu & Hrel & Hsafe).
    pose proof (bidirectional_shortest_path_spec (_graph c) Hwf rel_name from_lus to_lus depth)
      as Hspec.
    unfold path_between.
    destruct (_bidirectional_shortest_path (_graph c) from_lus to_lus rel_name depth)
      as [[[pred|] [w|]] [succ|]]; try contradiction.
    + (* a path was found *)
      destruct Hspec as (Hdis & Hconn & (u & e & n & Hpw & Hcp & Hn) & (m & Hcs & Hm)).
      unfold _reconstruct_path. rewrite Hlu, Hrel. cbn [rbind].
      rewrite (falsy_Some_nonempty pred w) by eauto. cbn [andb].
      destruct (path_to_target_ok lu_f rel_f Hsafe succ w m Hcs (S depth) [] ltac:(lia))
        as [p Hp].
      rewrite Hp. cbn [rbind getitem]. rewrite Hpw. cbn [rbind].
      destruct (Hsafe e) as [r Hr]. rewrite Hr. cbn [rbind].
      destruct (chain_link_inv _ _ _ _ _ Hpw Hcp) as (n' & -> & Hcu).
      destruct (path_from_source_ok lu_f rel_f Hsafe pred u n' Hcu (S depth)
                  (r :: [] ++ lu_f w :: p) ltac:(lia)) as [q Hq].
      rewrite Hq. eexists. split; [reflexivity|]. split.
      * split; [intros _; exact Hconn|]. intros _. destruct q; discriminate.
      * intros (lu & Hl1 & Hl2). exfalso. exact (Hdis lu Hl1 Hl2).
    + (* the trivial case *)
      destruct Hspec as [Hw1 Hw2].
      unfold _reconstruct_path. rewrite Hlu, Hrel. cbn [rbind falsy andb].
      rewrite (Htruthy w Hw1 Hw2).
      eexists. split; [reflexivity|]. split.
      * split; [|discriminate]. intros _. exists 0, w, w.
        split; [lia|]. split; [exact Hw1|]. split; [exact Hw2|constructor].
      * intros _. exists w, lu_f. tauto.
    + (* no path *)
      destruct Hspec as [Hdis Hnot].
      unfold _reconstruct_path. rewrite Hlu, Hrel. cbn [rbind falsy andb].
      exists []. split; [reflexivity|]. split.
      * split; [congruence|]. intros Hc. contradiction.
      * intros (lu & Hl1 & Hl2). exfalso. exact (Hdis lu Hl1 Hl2).
  - intros from_lu_spec rel_spec to_lu_spec rel_name depth Hsplit. split.
    + unfold _split_rel_spec in Hsplit.
      destruct (last_char rel_spec) as [ch|]; [|discriminate]. cbn [rbind] in Hsplit.
      destruct (SpecParserFacts.digit_1_9_spec ch) as [Hd Hn].
      destruct (digit_1_9 ch) as [d|] eqn:Ed.
      * inversion Hsplit; subst.
        destruct ch as [[] [] [] [] [] [] [] []]; vm_compute in Ed; inversion Ed; lia.
      * destruct (Ascii.eqb ch "+"); inversion Hsplit; lia.
    + unfold test_lex_units_relation, outcome. rewrite Hsplit.
      destruct (get_lex_units_raw c from_lu_spec) as [f1 ->].
      destruct (get_lex_units_raw c to_lu_spec) as [f2 ->].
      cbn [lift bind tick]. rewrite !as_lus_map_VLu.
      unfold path_between.
      destruct (_bidirectional_shortest_path _ _ _ _ _) as [[pred common_lu] succ].
      cbn [lift]. destruct (_reconstruct_path _ _ _ _ _ _); reflexivity.
Qed.

End TraversalFacts.

(* --------------------------------------------------------------------- *)
(** ** Common subsumers *)
(* --------------------------------------------------------------------- *)

Module SubsumerFacts.
Import Py SpecParser Cornet Reach Invariants TraversalFacts.

Lemma add_zero_lookup (lus : list node) (m : gmap node nat) (x : node) :
  add_zero lus m !! x = if decide (x ∈ lus) then Some 0 else m !! x.
Proof.
  unfold add_zero. revert m. induction lus as [|a lus IH]; intros m; cbn [fold_left].
  - destruct (decide (x ∈ [])) as [Hin|_]; [inversion Hin|reflexivity].
  - rewrite IH.
    destruct (decide (x ∈ lus)) as [Hin|Hnin], (decide (x ∈ a :: lus)) as [Hin'|Hnin'];
      try reflexivity.
    + exfalso. apply Hnin'. right. exact Hin.
    + apply elem_of_cons in Hin' as [->|?]; [apply lookup_insert_eq|contradiction].
    + apply lookup_insert_ne. intros ->. apply Hnin'. left.
Qed.

Section Grouping.
Variable formatter : node → value.
Variable sucs2 : gmap node nat.

Let visit (acs : gmap nat (list value)) (p : node * nat) : gmap nat (list value) :=
  let '(lu, dist) := p in
  match sucs2 !! lu with
  | Some dist2 => setdefault_append acs (dist + dist2) (formatter lu)
  | None => acs
  end.

Lemma visit_keeps acs p k group x :
  acs !! k = Some group → x ∈ group →
  ∃ group', visit acs p !! k = Some group' ∧ x ∈ group'.
Proof.
  intros Hk Hx. destruct p as [lu dist]. unfold visit.
  destruct (sucs2 !! lu) as [dist2|]; [|eauto].
  unfold setdefault_append. destruct (decide (dist + dist2 = k)) as [->|Hne].
  - rewrite lookup_insert_eq, Hk. eexists. split; [reflexivity|].
    apply elem_of_app. left. exact Hx.
  - rewrite lookup_insert_ne by exact Hne. eauto.
Qed.

Lemma fold_visit_keeps l acs k group x :
  acs !! k = Some group → x ∈ group →
  ∃ group', fold_left visit l acs !! k = Some group' ∧ x ∈ group'.
Proof.
  revert acs group. induction l as [|p l IH]; intros acs group Hk Hx; cbn [fold_left]; [eauto|].
  destruct (visit_keeps acs p k group x Hk Hx) as (group' & Hk' & Hx').
  eapply IH; eassumption.
Qed.

Lemma fold_visit_adds l acs lu dist dist2 :
  (lu, dist) ∈ l → sucs2 !! lu = Some dist2 →
  ∃ group, fold_left visit l acs !! (dist + dist2) = Some group ∧ formatter lu ∈ group.
Proof.
  revert acs. induction l as [|p l IH]; intros acs Hin H2; [inversion Hin|].
  cbn [fold_left]. apply elem_of_cons in Hin as [<-|Hin]; [|apply IH; assumption].
  eapply fold_visit_keeps.
  - unfold visit. rewrite H2. unfold setdefault_append. apply lookup_insert_eq.
  - apply elem_of_app. right. left.
Qed.

(** Every unit recorded on both sides is in the group of its sum. *)
Lemma group_by_sum_member sucs1 lu dist dist2 :
  sucs1 !! lu = Some dist → sucs2 !! lu = Some dist2 →
  ∃ group, group_by_sum formatter sucs1 sucs2 !! (dist + dist2) = Some group
           ∧ formatter lu ∈ group.
Proof.
  intros H1 H2. unfold group_by_sum.
  apply (fold_visit_adds (map_to_list sucs1) ∅ lu dist dist2); [|exact H2].
  apply elem_of_map_to_list. exact H1.
Qed.

End Grouping.

Lemma fold_min_spec (ks : list nat) (k : nat) :
  fold_left Nat.min ks k ∈ k :: ks ∧ ∀ j, j ∈ k :: ks → fold_left Nat.min ks k ≤ j.
Proof.
  revert k. induction ks as [|a ks IH]; intros k; cbn [fold_left].
  - split; [left|]. intros j Hj. apply list_elem_of_singleton in Hj. lia.
  - destruct (IH (Nat.min k a)) as [Hin Hle]. split.
    + apply elem_of_cons in Hin as [Heq|Hin]; [|right; right; exact Hin].
      rewrite Heq. destruct (Nat.min_spec k a) as [[_ ->]|[_ ->]]; [left|right; left].
    + intros j Hj.
      assert (Hm : fold_left Nat.min ks (Nat.min k a) ≤ Nat.min k a) by (apply Hle; left).
      apply elem_of_cons in Hj as [->|Hj]; [lia|].
      apply elem_of_cons in Hj as [->|Hj]; [lia|].
      apply Hle. right. exact Hj.
Qed.

(** [min(acs.keys())] is the least key, when there is a key at all. *)
Lemma min_key_spec (acs : gmap nat (list value)) :
  match min_key acs with
  | Some minimum =>
      is_Some (acs !! minimum) ∧ ∀ k, is_Some (acs !! k) → minimum ≤ k
  | None => acs = ∅
  end.
Proof.
  unfold min_key.
  assert (Hkeys : ∀ k, k ∈ map (fun p => fst p) (map_to_list acs) ↔ is_Some (acs !! k)).
  { intros k. rewrite list_elem_of_In, in_map_iff. split.
    - intros ([k' v] & <- & Hin). exists v. apply elem_of_map_to_list, list_elem_of_In. exact Hin.
    - intros [v Hv]. exists (k, v). split; [reflexivity|].
      apply list_elem_of_In, elem_of_map_to_list. exact Hv. }
  destruct (map (fun p => fst p) (map_to_list acs)) as [|k ks] eqn:E.
  - apply map_eq. intros k. rewrite lookup_empty.
    destruct (acs !! k) eqn:Ek; [|reflexivity].
    assert (Hin : k ∈ @nil nat) by (apply Hkeys; eauto). inversion Hin.
  - destruct (fold_min_spec ks k) as [Hin Hle]. split.
    + apply Hkeys. exact Hin.
    + intros j Hj. apply Hle. apply Hkeys. exact Hj.
Qed.

(** What [all_common_subsumers] returns, once the format is known to
    be handled. *)
Lemma all_common_subsumers_outcome c lu_spec1 lu_spec2 rel_name format formatter :
  _get_lex_unit_formatter c format = Ok formatter →
  ∃ sucs1 sucs2,
    _transitive_closure c (resolve c lu_spec1) (upper rel_name) = Ok sucs1
    ∧ _transitive_closure c (resolve c lu_spec2) (upper rel_name) = Ok sucs2
    ∧ outcome (all_common_subsumers c lu_spec1 lu_spec2 rel_name format)
      = Ok (group_by_sum formatter (add_zero (resolve c lu_spec1) sucs1)
                         (add_zero (resolve c lu_spec2) sucs2)).
Proof.
  intros Hf.
  destruct (transitive_closure_returns c (resolve c lu_spec1) (upper rel_name))
    as (sucs1 & H1 & _).
  destruct (transitive_closure_returns c (resolve c lu_spec2) (upper rel_name))
    as (sucs2 & H2 & _).
  exists sucs1, sucs2. split; [exact H1|]. split; [exact H2|].
  unfold all_common_subsumers, outcome. rewrite Hf.
  destruct (get_lex_units_raw c lu_spec1) as [f1 ->].
  destruct (get_lex_units_raw c lu_spec2) as [f2 ->].
  cbn [lift bind tick]. rewrite !as_lus_map_VLu. rewrite H1.
  cbn [lift bind tick]. rewrite H2. reflexivity.
Qed.

(** What [least_common_subsumers] makes of the outcome of
    [all_common_subsumers]. *)
Lemma least_common_subsumers_of_all
        (c : Cornet) (lu_spec1 lu_spec2 rel_name : string) (format : option string) :
  match outcome (all_common_subsumers c lu_spec1 lu_spec2 rel_name format) with
  | Raise e =>
      outcome (least_common_subsumers c lu_spec1 lu_spec2 rel_name format) = Raise e
  | Ok acs =>
      (acs ≠ ∅ →
       ∃ minimum group,
         acs !! minimum = Some group
         ∧ (∀ k, is_Some (acs !! k) → minimum ≤ k)
         ∧ outcome (least_common_subsumers c lu_spec1 lu_spec2 rel_name format) = Ok group)
      ∧ (acs = ∅ →
         outcome (least_common_subsumers c lu_spec1 lu_spec2 rel_name format) = Ok [])
      ∧ (∀ lu lu_formatter,
           lu ∈ resolve c lu_spec1 → lu ∈ resolve c lu_spec2 →
           _get_lex_unit_formatter c format = Ok lu_formatter →
           ∃ group,
             acs !! 0 = Some group ∧ lu_formatter lu ∈ group
             ∧ outcome (least_common_subsumers c lu_spec1 lu_spec2 rel_name format)
               = Ok group)
  end.
Proof.
  assert (Hleast : outcome (least_common_subsumers c lu_spec1 lu_spec2 rel_name format)
                   = match outcome (all_common_subsumers c lu_spec1 lu_spec2 rel_name format) with
                     | Ok acs =>
                         match min_key acs with
                         | Some minimum =>
                             match acs !! minimum with
                             | Some group => Ok group
                             | None => Raise KeyError
                             end
                         | None => Ok []
                         end
                     | Raise e => Raise e
                     end).
  { unfold least_common_subsumers, outcome, bind.
    destruct (all_common_subsumers c lu_spec1 lu_spec2 rel_name format) as [t [acs|e]];
      [|reflexivity].
    cbn [snd]. destruct (min_key acs) as [minimum|]; [|reflexivity].
    destruct (acs !! minimum); reflexivity. }
  rewrite Hleast.
  destruct (outcome (all_common_subsumers c lu_spec1 lu_spec2 rel_name format))
    as [acs|e] eqn:Hall; [|reflexivity].
  pose proof (min_key_spec acs) as Hmin.
  split; [|split].
  - intros Hne. destruct (min_key acs) as [minimum|]; [|contradiction].
    destruct Hmin as [[group Hg] Hle]. exists minimum, group. rewrite Hg. tauto.
  - intros ->. reflexivity.
  - intros lu lu_formatter Hl1 Hl2 Hf.
    destruct (all_common_subsumers_outcome c lu_spec1 lu_spec2 rel_name format lu_formatter Hf)
      as (sucs1 & sucs2 & _ & _ & Hout).
    rewrite Hout in Hall. injection Hall as <-.
    destruct (group_by_sum_member lu_formatter
                (add_zero (resolve c lu_spec2) sucs2)
                (add_zero (resolve c lu_spec1) sucs1) lu 0 0) as (group & Hg & Hin).
    { rewrite add_zero_lookup, decide_True by exact Hl1. reflexivity. }
    { rewrite add_zero_lookup, decide_True by exact Hl2. reflexivity. }
    change (0 + 0) with 0 in Hg.
    exists group. split; [exact Hg|]. split; [exact Hin|].
    destruct (min_key _) as [minimum|].
    + destruct Hmin as [_ Hle]. assert (minimum = 0) as -> by (specialize (Hle 0 ltac:(eauto)); lia).
      rewrite Hg. reflexivity.
    + rewrite Hmin in Hg. rewrite lookup_empty in Hg. discriminate.
Qed.

Lemma all_common_subsumers_unknown_format c lu_spec1 lu_spec2 rel_name format e :
  _get_lex_unit_formatter c format = Raise e →
  outcome (all_common_subsumers c lu_spec1 lu_spec2 rel_name format) = Raise e.
Proof. intros Hf. unfold all_common_subsumers, outcome. rewrite Hf. reflexivity. Qed.

(** C4.  With a format the instance knows, [all_common_subsumers]
    returns a dict, and [least_common_subsumers] returns: the group
    stored under the least key of that dict if the dict is not empty,
    the empty list if it is.  A unit both specs resolve to is, as
    formatted, in the group with key 0, which then is the least key
    and the group returned: the unit is a least common subsumer.
    With a format the instance does not know both operations raise
    the formatter's error. *)
Theorem least_common_subsumers_min_group
        (c : Cornet) (lu_spec1 lu_spec2 rel_name : string) (format : option string) :
  match _get_lex_unit_formatter c format with
  | Raise e =>
      outcome (all_common_subsumers c lu_spec1 lu_spec2 rel_name format) = Raise e
      ∧ outcome (least_common_subsumers c lu_spec1 lu_spec2 rel_name format) = Raise e
  | Ok lu_formatter =>
      ∃ acs,
        outcome (all_common_subsumers c lu_spec1 lu_spec2 rel_name format) = Ok acs
        ∧ (acs ≠ ∅ →
           ∃ minimum group,
             acs !! minimum = Some group
             ∧ (∀ k, is_Some (acs !! k) → minimum ≤ k)
             ∧ outcome (least_common_subsumers c lu_spec1 lu_spec2 rel_name format)
               = Ok group)
        ∧ (acs = ∅ →
           outcome (least_common_subsumers c lu_spec1 lu_spec2 rel_name format) = Ok [])
        ∧ (∀ lu,
             lu ∈ resolve c lu_spec1 → lu ∈ resolve c lu_spec2 →
             ∃ group,
               acs !! 0 = Some group ∧ lu_formatter lu ∈ group
               ∧ outcome (least_common_subsumers c lu_spec1 lu_spec2 rel_name format)
                 = Ok group)
  end.
Proof.
  pose proof (least_common_subsumers_of_all c lu_spec1 lu_spec2 rel_name format) as Hleast.
  destruct (_get_lex_unit_formatter c format) as [lu_formatter|e] eqn:Hf.
  - destruct (all_common_subsumers_outcome c lu_spec1 lu_spec2 rel_name format lu_formatter Hf)
      as (sucs1 & sucs2 & _ & _ & Hout).
    rewrite Hout in Hleast. destruct Hleast as (Hne & Hempty & Hshared).
    eexists. split; [exact Hout|]. split; [exact Hne|]. split; [exact Hempty|].
    intros lu Hl1 Hl2. destruct (Hshared lu lu_formatter Hl1 Hl2 eq_refl) as (group & Hg & Hin & Hl).
    exists group. repeat split; [exact Hg|exact Hin|exact Hl].
  - rewrite (all_common_subsumers_unknown_format _ _ _ _ _ e Hf) in Hleast.
    split; [apply all_common_subsumers_unknown_format; exact Hf|exact Hleast].
Qed.

Example least_common_subsumers_ex :
  outcome (all_common_subsumers Examples.lamps "gloeilamp" "fotolamp" "has_hyperonym" None)
  = Ok (list_to_map [(1, [VStr "gloeilamp:noun:1"]); (3, [VStr "lamp:noun:2"])])
  ∧ outcome (least_common_subsumers Examples.lamps "gloeilamp" "fotolamp" "has_hyperonym" None)
    = Ok [VStr "gloeilamp:noun:1"].
Proof. split; vm_compute; reflexivity. Qed.

End SubsumerFacts.

(** * Paths between the lamps, and the output format *)

Module PathExamples.
Import Py SpecParser Cornet Reach Invariants TraversalFacts.

Lemma lamps_wf : NX.wf (_graph Examples.lamps).
Proof.
  apply (GraphFacts.parse_cdb_wf Examples.lamp_heap [1; 2; 3; 4]
           [Examples.cdb_synset "s1" [];
            Examples.cdb_synset "s2" [("HAS_HYPONYM", "s3")];
            Examples.cdb_synset "s3" [("HAS_HYPONYM", "s4"); ("HAS_HYPERONYM", "s2")];
            Examples.cdb_synset "s4" [("HAS_HYPERONYM", "s3")]]
           (list_to_map [("s1", [1]); ("s2", [2]); ("s3", [3]); ("s4", [4])])
           (elements Examples.lamps)).
  vm_compute. reflexivity.
Qed.

(** The theorem at the lamps of the docstrings, default format. *)
Lemma path_between_iff_connected_witness :
  NX.wf (_graph Examples.lamps)
  ∧ (effective_format Examples.lamps None = "spec"%string
     ∨ effective_format Examples.lamps None = "raw"%string)
  ∧ (∃ path,
       path_between Examples.lamps [1; 2] [4] "HAS_HYPONYM" 2 None = Ok path
       ∧ (path ≠ [] ↔ connected_within (_graph Examples.lamps) "HAS_HYPONYM" [1; 2] [4] 2)
       ∧ ((∃ lu, lu ∈ [1; 2] ∧ lu ∈ [4]) →
          ∃ lu lu_formatter,
            lu ∈ [1; 2] ∧ lu ∈ [4]
            ∧ _get_lex_unit_formatter Examples.lamps None = Ok lu_formatter
            ∧ path = [lu_formatter lu])).
Proof.
  split; [exact lamps_wf|]. split; [left; reflexivity|].
  refine (proj1 (path_between_iff_connected Examples.lamps None lamps_wf
                   (or_introl eq_refl)) [1; 2] [4] "HAS_HYPONYM"%string 2 _).
  intros lu H1 H4. exfalso.
  apply list_elem_of_singleton in H4. subst lu.
  apply elem_of_cons in H1 as [?|H1]; [discriminate|].
  apply list_elem_of_singleton in H1. discriminate.
Defined.

Example path_between_ex :
  path_between Examples.lamps [1; 2] [4] "HAS_HYPONYM" 2 None
  = Ok [VStr "lamp:noun:2"; VStr "HAS_HYPONYM"; VStr "gloeilamp:noun:1";
        VStr "HAS_HYPONYM"; VStr "fotolamp:noun:1"].
Proof. vm_compute. reflexivity. Qed.

Lemma lamp_step_2_3 : step (_graph Examples.lamps) "HAS_HYPONYM" 2 3.
Proof.
  exists (Some "HAS_HYPONYM"%string). split; [|reflexivity].
  exists [Some "HAS_HYPONYM"%string]. split; [vm_compute; reflexivity|left].
Qed.

(** C1.  [test_lex_units_relation] does not always return a non-empty
    path when a unit of the second spec is reachable from a unit of the
    first; two inputs where it fails.  (1) With the output
    format [xml] the relation formatter is [tostring], which cannot
    serialise an edge's attribute dict: although lamp:noun:2 has the
    hyponym gloeilamp:noun:1, the call raises instead of returning the
    path.  (2) A unit whose element has no child element is false in
    [if common_lu:]: although both specs resolve to that one unit
    (reachable from itself by zero edges), the call returns the empty
    path. *)
Lemma path_lost_in_formatting :
  (outcome (test_lex_units_relation Examples.lamps "lamp" "HAS_HYPONYM" "gloeilamp"
                                    (Some "xml"%string))
   = Raise AttributeError
   ∧ resolve Examples.lamps "lamp" = [1; 2]
   ∧ resolve Examples.lamps "gloeilamp" = [3]
   ∧ connected_within (_graph Examples.lamps) "HAS_HYPONYM" [1; 2] [3] 1)
  ∧ (outcome (test_lex_units_relation Examples.bare "x::5" "HAS_HYPONYM" "x::5" None)
     = Ok []
     ∧ resolve Examples.bare "x::5" = [2]
     ∧ connected_within (_graph Examples.bare) "HAS_HYPONYM" [2] [2] 1).
Proof.
  split; (split; [vm_compute; reflexivity|]); (split; [vm_compute; reflexivity|]).
  - split; [vm_compute; reflexivity|].
    exists 1, 2, 3. split; [lia|]. split; [right; left|]. split; [left|].
    econstructor; [exact lamp_step_2_3|constructor].
  - exists 0, 2, 2. split; [lia|]. split; [left|]. split; [left|constructor].
Qed.

End PathExamples.

Module FormatFacts.
Import Py SpecParser Cornet Reach Invariants TraversalFacts SimCornet Queries.

Lemma effective_format_Some (c : Cornet) (f : string) :
  truthy f = true → effective_format c (Some f) = f.
Proof. intros H. unfold effective_format. rewrite H. reflexivity. Qed.

Lemma unknown_lex_unit_formatter (c : Cornet) (f : string) :
  truthy f = true → ¬ In f _handled_output_formats →
  _get_lex_unit_formatter c (Some f) = Raise (unknown_format f).
Proof.
  intros Ht Hn. unfold _get_lex_unit_formatter. rewrite effective_format_Some by exact Ht.
  destruct (String.eqb_spec f "spec") as [->|_]; [exfalso; apply Hn; simpl; tauto|].
  destruct (String.eqb_spec f "xml") as [->|_]; [exfalso; apply Hn; simpl; tauto|].
  destruct (String.eqb_spec f "raw") as [->|_]; [exfalso; apply Hn; simpl; tauto|].
  reflexivity.
Qed.

Lemma unknown_relation_formatter (c : Cornet) (f : string) :
  truthy f = true → ¬ In f _handled_output_formats →
  _get_relation_formatter c (Some f) = Raise (unknown_format f).
Proof.
  intros Ht Hn. unfold _get_relation_formatter. rewrite effective_format_Some by exact Ht.
  destruct (String.eqb_spec f "xml") as [->|_]; [exfalso; apply Hn; simpl; tauto|].
  destruct (String.eqb_spec f "spec") as [->|_]; [exfalso; apply Hn; simpl; tauto|].
  destruct (String.eqb_spec f "raw") as [->|_]; [exfalso; apply Hn; simpl; tauto|].
  reflexivity.
Qed.

Lemma unknown_synset_formatter (c : Cornet) (f : string) :
  truthy f = true → ¬ In f _handled_output_formats →
  _get_synset_formatter c (Some f) = Raise (unknown_format f).
Proof.
  intros Ht Hn. unfold _get_synset_formatter. rewrite effective_format_Some by exact Ht.
  destruct (String.eqb_spec f "spec") as [->|_]; [exfalso; apply Hn; simpl; tauto|].
  destruct (String.eqb_spec f "xml") as [->|_]; [exfalso; apply Hn; simpl; tauto|].
  destruct (String.eqb_spec f "raw") as [->|_]; [exfalso; apply Hn; simpl; tauto|].
  reflexivity.
Qed.

Section Selector.

Variable float : Type.
Variable fzero : float.
Variable of_int : Z → float.
Variables fadd fsub fmul : float → float → float.
Variable fneg : float → float.
Variable fdiv : float → float → result float.
Variable fltb : float → float → bool.
Variable math_log : float → Z → result float.

(** C9, as the code has it.  For a format selector that is not empty
    and not one of [spec], [xml], [raw]:
    - [get_lex_units], [all_common_subsumers], [least_common_subsumers],
      [get_synsets], [get_related_synsets], [get_lex_unit_by_id],
      [get_synset_by_id], [get_count], [get_probability] and
      [get_info_content] raise the unknown-format error without having
      looked up or searched anything;
    - [get_related_lex_units] has not looked up or searched anything
      either when it raises, and the error is the unknown-format one
      once its relation spec has parsed and passed the depth check;
    - [test_lex_units_relation] raises the unknown-format error too,
      given a relation spec that parses, and so does
      [get_lex_unit_from_synset], given the id of a synset of the table;
    - [ask] does as the method it passes the query to;
    - [resnik_sim], [jiang_conrath_dist], [jiang_conrath_sim] and
      [lin_sim] do not look at the selector: they do what they do
      without one.
    An empty selector is no error: it stands for the default output
    format of the instance. *)
Theorem unknown_format_raised (c : Cornet) (sc : SimCornet) (f : string) :
  truthy f = true → ¬ In f _handled_output_formats →
  (∀ spec, get_lex_units c spec (Some f) = ([], Raise (unknown_format f)))
  ∧ (∀ lu_spec1 lu_spec2 rel_name,
       all_common_subsumers c lu_spec1 lu_spec2 rel_name (Some f)
       = ([], Raise (unknown_format f))
       ∧ least_common_subsumers c lu_spec1 lu_spec2 rel_name (Some f)
         = ([], Raise (unknown_format f)))
  ∧ (∀ lu_spec rel_spec,
       trace (get_related_lex_units c lu_spec rel_spec (Some f)) = []
       ∧ ∀ rel_name depth depth',
           _split_rel_spec rel_spec = Ok (rel_name, depth) →
           checked_depth c rel_spec rel_name depth = Ok depth' →
           outcome (get_related_lex_units c lu_spec rel_spec (Some f))
           = Raise (unknown_format f))
  ∧ (∀ from_lu_spec rel_spec to_lu_spec rel_name depth,
       _split_rel_spec rel_spec = Ok (rel_name, depth) →
       outcome (test_lex_units_relation c from_lu_spec rel_spec to_lu_spec (Some f))
       = Raise (unknown_format f))
  ∧ (∀ spec, get_lex_units c spec (Some ""%string) = get_lex_units c spec None)
  ∧ (∀ spec, get_synsets c spec (Some f) = ([], Raise (unknown_format f)))
  ∧ (∀ lu_spec rel_name,
       get_related_synsets c lu_spec rel_name (Some f) = ([], Raise (unknown_format f)))
  ∧ (∀ c_lu_id, get_lex_unit_by_id c c_lu_id (Some f) = ([], Raise (unknown_format f)))
  ∧ (∀ c_sy_id, get_synset_by_id c c_sy_id (Some f) = ([], Raise (unknown_format f)))
  ∧ (∀ c_sy_id lemma,
       is_Some (_c_sy_id2synset c !! c_sy_id) →
       outcome (get_lex_unit_from_synset c c_sy_id lemma (Some f))
       = Raise (unknown_format f))
  ∧ (∀ lu_spec subcount smooth cat_totals,
       get_count sc lu_spec subcount (Some f) = ([], Raise (unknown_format f))
       ∧ get_probability float of_int fdiv sc lu_spec subcount smooth cat_totals (Some f)
         = ([], Raise (unknown_format f))
       ∧ get_info_content float of_int fneg fdiv math_log sc lu_spec subcount smooth
                          cat_totals (Some f)
         = ([], Raise (unknown_format f)))
  ∧ (∀ query from_spec rel to_spec,
       _split_query query = (from_spec, rel, to_spec) →
       (truthy to_spec = true →
        ∀ rel_name depth,
          _split_rel_spec rel = Ok (rel_name, depth) →
          outcome (ask c query (Some f)) = Raise (unknown_format f))
       ∧ (truthy to_spec = false → truthy rel = true →
          trace (ask c query (Some f)) = []
          ∧ ∀ rel_name depth depth',
              _split_rel_spec rel = Ok (rel_name, depth) →
              checked_depth c rel rel_name depth = Ok depth' →
              outcome (ask c query (Some f)) = Raise (unknown_format f))
       ∧ (truthy to_spec = false → truthy rel = false →
          ask c query (Some f) = ([], Raise (unknown_format f))))
  ∧ (∀ lu_spec1 lu_spec2 smooth cat_totals,
       resnik_sim float fzero of_int fneg fdiv fltb math_log
                  sc lu_spec1 lu_spec2 smooth cat_totals (Some f)
       = resnik_sim float fzero of_int fneg fdiv fltb math_log
                    sc lu_spec1 lu_spec2 smooth cat_totals None
       ∧ jiang_conrath_dist float of_int fadd fsub fmul fneg fdiv fltb math_log
                            sc lu_spec1 lu_spec2 smooth cat_totals (Some f)
         = jiang_conrath_dist float of_int fadd fsub fmul fneg fdiv fltb math_log
                              sc lu_spec1 lu_spec2 smooth cat_totals None
       ∧ jiang_conrath_sim float of_int fadd fsub fmul fneg fdiv fltb math_log
                           sc lu_spec1 lu_spec2 smooth cat_totals (Some f)
         = jiang_conrath_sim float of_int fadd fsub fmul fneg fdiv fltb math_log
                             sc lu_spec1 lu_spec2 smooth cat_totals None
       ∧ lin_sim float fzero of_int fadd fmul fneg fdiv fltb math_log
                 sc lu_spec1 lu_spec2 smooth cat_totals (Some f)
         = lin_sim float fzero of_int fadd fmul fneg fdiv fltb math_log
                   sc lu_spec1 lu_spec2 smooth cat_totals None).
Proof.
  intros Ht Hn.
  pose proof (unknown_lex_unit_formatter c f Ht Hn) as Hlu.
  pose proof (unknown_lex_unit_formatter (cornet sc) f Ht Hn) as Hlu'.
  pose proof (unknown_synset_formatter c f Ht Hn) as Hsy.
  assert (Hget : ∀ spec, get_lex_units c spec (Some f) = ([], Raise (unknown_format f))).
  { intros spec. unfold get_lex_units.
    destruct (SpecParserFacts.split_unit_spec_unpacks spec) as (_ & form & cat & sense & ->).
    rewrite Hlu. reflexivity. }
  assert (Hrel : ∀ lu_spec rel_spec,
             trace (get_related_lex_units c lu_spec rel_spec (Some f)) = []
             ∧ ∀ rel_name depth depth',
                 _split_rel_spec rel_spec = Ok (rel_name, depth) →
                 checked_depth c rel_spec rel_name depth = Ok depth' →
                 outcome (get_related_lex_units c lu_spec rel_spec (Some f))
                 = Raise (unknown_format f)).
  { intros lu_spec rel_spec. split.
    + unfold get_related_lex_units.
      destruct (_split_rel_spec rel_spec) as [[rel_name depth]|e]; [|reflexivity].
      cbn [lift bind].
      destruct (checked_depth c rel_spec rel_name depth) as [depth'|e]; [|reflexivity].
      cbn [lift bind]. rewrite Hlu. reflexivity.
    + intros rel_name depth depth' Hsplit Hdepth.
      unfold get_related_lex_units. rewrite Hsplit. cbn [lift bind].
      rewrite Hdepth. cbn [lift bind]. rewrite Hlu. reflexivity. }
  assert (Htest : ∀ from_lu_spec rel_spec to_lu_spec rel_name depth,
             _split_rel_spec rel_spec = Ok (rel_name, depth) →
             outcome (test_lex_units_relation c from_lu_spec rel_spec to_lu_spec (Some f))
             = Raise (unknown_format f)).
  { intros from_lu_spec rel_spec to_lu_spec rel_name depth Hsplit.
    unfold test_lex_units_relation, outcome. rewrite Hsplit.
    destruct (get_lex_units_raw c from_lu_spec) as [f1 ->].
    destruct (get_lex_units_raw c to_lu_spec) as [f2 ->].
    cbn [lift bind tick].
    destruct (_bidirectional_shortest_path _ _ _ _ _) as [[pred common_lu] succ].
    unfold _reconstruct_path. rewrite Hlu. reflexivity. }
  split; [exact Hget|]. split.
  { intros lu_spec1 lu_spec2 rel_name.
    assert (Hall : all_common_subsumers c lu_spec1 lu_spec2 rel_name (Some f)
                   = ([], Raise (unknown_format f))).
    { unfold all_common_subsumers. rewrite Hlu. reflexivity. }
    split; [exact Hall|]. unfold least_common_subsumers. rewrite Hall. reflexivity. }
  split; [exact Hrel|]. split; [exact Htest|]. split; [reflexivity|]. split.
  { intros spec. unfold get_synsets.
    destruct (SpecParserFacts.split_unit_spec_unpacks spec) as (_ & form & cat & sense & ->).
    cbn [lift bind]. rewrite Hsy. reflexivity. }
  split.
  { intros lu_spec rel_name. unfold get_related_synsets.
    destruct (SpecParserFacts.split_unit_spec_unpacks lu_spec) as (_ & form & cat & sense & ->).
    cbn [lift bind]. rewrite Hsy. reflexivity. }
  split.
  { intros c_lu_id. unfold get_lex_unit_by_id. rewrite Hlu. reflexivity. }
  split.
  { intros c_sy_id. unfold get_synset_by_id. rewrite Hsy. reflexivity. }
  split.
  { intros c_sy_id lemma [synset Hs]. unfold get_lex_unit_from_synset, outcome.
    cbn [tick bind]. rewrite Hs, Hlu. reflexivity. }
  split.
  { intros lu_spec subcount smooth cat_totals.
    unfold get_count, get_probability, get_info_content. rewrite Hlu'.
    repeat split; reflexivity. }
  split; [|intros; repeat split; reflexivity].
  intros query from_spec rel to_spec Hq. unfold ask. rewrite Hq.
  split; [|split].
  - intros Hto rel_name depth Hsplit. rewrite Hto.
    pose proof (Htest from_spec rel to_spec rel_name depth Hsplit) as H.
    unfold outcome in *.
    destruct (test_lex_units_relation c from_spec rel to_spec (Some f)) as [t r].
    cbn [snd] in H. subst r. reflexivity.
  - intros Hto Hr. rewrite Hto, Hr.
    destruct (Hrel from_spec rel) as [Htr Hout].
    unfold trace, outcome in *.
    destruct (get_related_lex_units c from_spec rel (Some f)) as [t r].
    cbn [fst snd] in *. subst t. split.
    + destruct r; reflexivity.
    + intros rel_name depth depth' Hsplit Hdepth.
      rewrite (Hout rel_name depth depth' Hsplit Hdepth). reflexivity.
  - intros Hto Hr. rewrite Hto, Hr, Hget. reflexivity.
Qed.

End Selector.

Lemma unknown_format_raised_witness :
  truthy "bogus" = true
  ∧ get_lex_units Examples.lamps "lamp" (Some "bogus"%string)
    = ([], Raise (unknown_format "bogus"))
  ∧ get_synsets Examples.lamps "lamp" (Some "bogus"%string)
    = ([], Raise (unknown_format "bogus"))
  ∧ Dyadic.get_info_content Examples.senses "a" true false false (Some "bogus"%string)
    = ([], Raise (unknown_format "bogus")).
Proof.
  split; [reflexivity|].
  assert (Hno : ¬ In "bogus"%string _handled_output_formats).
  { simpl. intros [H|[H|[H|[]]]]; discriminate. }
  pose proof (unknown_format_raised Dyadic.float Dyadic.fzero Dyadic.of_int Dyadic.fadd
                Dyadic.fsub Dyadic.fmul Dyadic.fneg Dyadic.fdiv Dyadic.fltb Dyadic.math_log
                Examples.lamps Examples.senses "bogus" eq_refl Hno)
    as (Hget & _ & _ & _ & _ & Hsyn & _ & _ & _ & _ & Hcount & _).
  split; [apply Hget|]. split; [apply Hsyn|]. apply Hcount.
Defined.

(** C9, counterexamples.  (1) With the unknown
    format [bogus], [test_lex_units_relation] first looks up both
    specs and runs the bidirectional search, and only then raises.
    (2) The empty string is none of the recognised formats, and no
    error is raised for it.  (3) [get_lex_unit_from_synset] looks up
    the synset before it looks at the format: no error for an id that
    is not in the table.  (4) The four measures return their numbers
    whatever the selector. *)
Lemma format_checked_after_search :
  test_lex_units_relation Examples.lamps "lamp" "HAS_HYPONYM" "gloeilamp"
                          (Some "bogus"%string)
  = ([Ev_form2lu_get "lamp"; Ev_form2lu_get "gloeilamp";
      Ev_bidirectional_shortest_path [1; 2] [3] "HAS_HYPONYM"],
     Raise (ValueError "unknown output format: bogus"))
  ∧ get_lex_units Examples.lamps "gloeilamp" (Some ""%string)
    = ([Ev_form2lu_get "gloeilamp"], Ok [VStr "gloeilamp:noun:1"])
  ∧ (get_lex_unit_from_synset Examples.twice "abc" "B" (Some "bogus"%string)
     = ([Ev_sy_id2synset_get "abc"], Raise (ValueError "unknown output format: bogus"))
     ∧ get_lex_unit_from_synset Examples.twice "nope" "B" (Some "bogus"%string)
       = ([Ev_sy_id2synset_get "nope"], Ok None))
  ∧ (outcome (Dyadic.resnik_sim Examples.senses "a" "b" false false (Some "bogus"%string))
     = Ok (Some 1%Q)
     ∧ outcome (Dyadic.jiang_conrath_dist Examples.senses "a" "b" false false
                                          (Some "bogus"%string))
       = Ok (Some 4%Q)
     ∧ outcome (Dyadic.jiang_conrath_sim Examples.senses "a" "b" false false
                                         (Some "bogus"%string))
       = Ok (Some (1 # 5)%Q)
     ∧ outcome (Dyadic.lin_sim Examples.senses "a" "b" false false (Some "bogus"%string))
       = Ok (Some (1 # 2)%Q)).
Proof. repeat split; vm_compute; reflexivity. Qed.

End FormatFacts.

(* ===================================================================== *)
(** * The similarity measures *)
(* ===================================================================== *)

Module SimilarityFacts.
Import Py SpecParser Cornet Reach Invariants TraversalFacts SubsumerFacts SimCornet.

Lemma outcome_bind {A B} (m : M A) (k : A → M B) :
  outcome (bind m k) = rbind (outcome m) (fun a => outcome (k a)).
Proof.
  destruct m as [t [a|e]]; [|reflexivity].
  unfold bind, outcome. cbn [rbind snd]. destruct (k a). reflexivity.
Qed.

Lemma outcome_ret {A} (a : A) : outcome (ret a) = Ok a.
Proof. reflexivity. Qed.

Lemma outcome_lift {A} (r : result A) : outcome (lift r) = r.
Proof. reflexivity. Qed.

Lemma for_each_outcome {A S} (l : list A) (body : S → A → M S) (f : S → A → S) (s : S) :
  (∀ s x, x ∈ l → outcome (body s x) = Ok (f s x)) →
  outcome (for_each l body s) = Ok (fold_left f l s).
Proof.
  revert s. induction l as [|a l IH]; intros s H; cbn [for_each fold_left]; [reflexivity|].
  rewrite outcome_bind, H by left. cbn [rbind]. apply IH.
  intros s' x Hx. apply H. right. exact Hx.
Qed.

Lemma fold_left_concat_map {A B S} (g : S → B → S) (h : A → list B) (l : list A) (s : S) :
  fold_left (fun s x => fold_left g (h x) s) l s = fold_left g (concat (map h l)) s.
Proof.
  revert s. induction l as [|a l IH]; intros s; cbn [fold_left map concat]; [reflexivity|].
  rewrite fold_left_app. apply IH.
Qed.

Lemma get_lex_units_outcome (c : Cornet) (spec : string) (format : option string) formatter :
  _get_lex_unit_formatter c format = Ok formatter →
  outcome (get_lex_units c spec format) = Ok (map formatter (resolve c spec)).
Proof.
  intros Hf. unfold get_lex_units, resolve.
  destruct (SpecParserFacts.split_unit_spec_unpacks spec) as (_ & form & cat & sense & ->).
  rewrite Hf. reflexivity.
Qed.

(** [least_common_subsumers] with the default relation and raw output
    returns, and returns the least common subsumers of the resolved
    units. *)
Lemma least_common_subsumers_raw (c : Cornet) (spec1 spec2 : string) :
  ∃ lcss,
    outcome (least_common_subsumers c spec1 spec2 "HAS_HYPERONYM" (Some "raw"%string))
    = Ok lcss
    ∧ as_lus lcss = lcs_of_units c (resolve c spec1) (resolve c spec2).
Proof.
  destruct (all_common_subsumers_outcome c spec1 spec2 "HAS_HYPERONYM"
              (Some "raw"%string) VLu eq_refl) as (sucs1 & sucs2 & H1 & H2 & Hall).
  change (upper "HAS_HYPERONYM") with "HAS_HYPERONYM"%string in H1, H2.
  unfold lcs_of_units. rewrite H1, H2. cbv zeta.
  unfold least_common_subsumers. rewrite outcome_bind, Hall. cbn [rbind].
  pose proof (min_key_spec (group_by_sum VLu (add_zero (resolve c spec1) sucs1)
                                         (add_zero (resolve c spec2) sucs2))) as Hm.
  destruct (min_key _) as [minimum|].
  - destruct Hm as [[group Hg] _]. rewrite Hg. exists group. split; reflexivity.
  - exists []. split; reflexivity.
Qed.

Section Measures.

Variable float : Type.
Variable fzero : float.
Variable of_int : Z → float.
Variables fadd fsub fmul : float → float → float.
Variable fneg : float → float.
Variable fdiv : float → float → result float.
Variable fltb : float → float → bool.
Variable math_log : float → Z → result float.

Variable sc : SimCornet.
Variables smooth cat_totals : bool.

Local Abbreviation IC := (fun lu => _IC float of_int fneg fdiv math_log sc lu true smooth cat_totals).
Local Abbreviation ic_of := (IC_of float of_int fneg fdiv math_log sc smooth cat_totals).
Local Abbreviation ic_returns := (IC_returns float of_int fneg fdiv math_log sc smooth cat_totals).
Local Abbreviation upd := (update_min float fltb).
Local Abbreviation through :=
  (jc_through float of_int fadd fsub fmul fneg fdiv math_log sc smooth cat_totals).
Local Abbreviation pair := (jc_pair float of_int fadd fsub fmul fneg fdiv math_log sc smooth cat_totals).
Local Abbreviation candidate :=
  (jc_candidate float of_int fadd fsub fmul fneg fdiv math_log sc smooth cat_totals).

Lemma IC_returns_eq (lu : node) : ic_returns lu = true → IC lu = Ok (ic_of lu).
Proof. unfold IC_returns, IC_of. destruct (_IC _ _ _ _ _ _ _ _ _ _); [reflexivity|discriminate]. Qed.

(** ** Resnik *)

(** [resnik_sim], once the default output format is one the instance
    knows, in terms of [max] and of the least common subsumers of the
    two sets of units taken as wholes. *)
Lemma resnik_sim_outcome (spec1 spec2 : string) (format : option string) formatter :
  _get_lex_unit_formatter (cornet sc) None = Ok formatter →
  outcome (resnik_sim float fzero of_int fneg fdiv fltb math_log sc spec1 spec2
                      smooth cat_totals format)
  = match resolve (cornet sc) spec1, resolve (cornet sc) spec2 with
    | [], _ | _, [] => Ok None
    | lus1, lus2 =>
        match map_result IC (lcs_of_units (cornet sc) lus1 lus2) with
        | Ok (first :: rest) => Ok (py_max float fltb first rest)
        | Ok [] => Ok (Some fzero)
        | Raise e => Raise e
        end
    end.
Proof.
  intros Hf. unfold resnik_sim. cbv zeta.
  rewrite outcome_bind, (get_lex_units_outcome _ spec1 None formatter Hf). cbn [rbind].
  destruct (least_common_subsumers_raw (cornet sc) spec1 spec2) as (lcss & Hl & Has).
  destruct (resolve (cornet sc) spec1) as [|a1 l1] eqn:E1; cbn [map].
  { reflexivity. }
  rewrite 2 outcome_bind, (get_lex_units_outcome _ spec2 None formatter Hf). cbn [rbind].
  destruct (resolve (cornet sc) spec2) as [|a2 l2] eqn:E2; cbn [map].
  { reflexivity. }
  rewrite outcome_ret. cbn [rbind]. rewrite outcome_bind, Hl. cbn [rbind].
  rewrite outcome_bind, Has, outcome_lift.
  destruct (map_result _ _) as [[|first rest]|e]; reflexivity.
Qed.

(** ** Jiang and Conrath *)

Lemma jc_lcs_loop_outcome ic1 ic2 lcss min_dist :
  (∀ lcs, lcs ∈ lcss → ic_returns lcs = true) →
  outcome (jc_lcs_loop float of_int fadd fsub fmul fneg fdiv fltb math_log
                       sc smooth cat_totals ic1 ic2 lcss min_dist)
  = Ok (fold_left upd (through ic1 ic2 lcss) min_dist).
Proof.
  unfold jc_lcs_loop, jc_through.
  revert min_dist. induction lcss as [|lcs lcss IH]; intros min_dist Hret; [reflexivity|].
  cbn [for_each omap list_omap]. rewrite 2 outcome_bind, outcome_lift.
  rewrite (IC_returns_eq lcs) by (apply Hret; left). cbn [rbind].
  assert (Hrest : ∀ lcs', lcs' ∈ lcss → ic_returns lcs' = true)
    by (intros lcs' H; apply Hret; right; exact H).
  destruct (ic_of lcs) as [lcs_ic|]; cbn [option_map]; rewrite outcome_ret;
    cbn [rbind fold_left]; apply IH; exact Hrest.
Qed.

Lemma fold_upd_nil_pairs {A} (l : list A) (min_dist : option float) :
  fold_left upd (concat (map (fun _ => []) l)) min_dist = min_dist.
Proof. induction l as [|a l IH]; [reflexivity|exact IH]. Qed.

Lemma round_trips_elem (c : Cornet) (lus : list node) (lu : node) :
  round_trips c lus = true → lu ∈ lus → resolve c (_lu_to_spec c lu) = [lu].
Proof.
  unfold round_trips. rewrite forallb_forall. intros H Hin.
  apply list_elem_of_In in Hin. apply H in Hin. apply bool_decide_eq_true in Hin. exact Hin.
Qed.

Lemma elem_of_pairwise_lcs (c : Cornet) (lus1 lus2 : list node) (lu1 lu2 lcs : node) :
  lu1 ∈ lus1 → lu2 ∈ lus2 → lcs ∈ unit_lcs c lu1 lu2 → lcs ∈ pairwise_lcs c lus1 lus2.
Proof.
  intros H1 H2 Hl. unfold pairwise_lcs.
  apply list_elem_of_In, in_concat. eexists. split.
  - apply in_map_iff. exists lu1. split; [reflexivity|]. apply list_elem_of_In. exact H1.
  - apply in_concat. eexists. split.
    + apply in_map_iff. exists lu2. split; [reflexivity|]. apply list_elem_of_In. exact H2.
    + apply list_elem_of_In. exact Hl.
Qed.

(** The loops of [jiang_conrath_dist] return the least of the distances
    that the pairs of units contribute, taken in the order of the
    loops. *)
Lemma jiang_conrath_dist_outcome (spec1 spec2 : string) (format : option string) :
  round_trips (cornet sc) (resolve (cornet sc) spec1 ++ resolve (cornet sc) spec2) = true →
  forallb ic_returns
          (jc_units (cornet sc) (resolve (cornet sc) spec1) (resolve (cornet sc) spec2))
  = true →
  outcome (jiang_conrath_dist float of_int fadd fsub fmul fneg fdiv fltb math_log
                              sc spec1 spec2 smooth cat_totals format)
  = Ok (least_dist float fltb
          (concat (map (fun lu1 => concat (map (fun lu2 => pair lu1 lu2)
                                               (resolve (cornet sc) spec2)))
                       (resolve (cornet sc) spec1)))).
Proof.
  intros Hround Hret.
  assert (Hic : ∀ lu, lu ∈ jc_units (cornet sc) (resolve (cornet sc) spec1)
                                    (resolve (cornet sc) spec2) →
                      IC lu = Ok (ic_of lu)).
  { intros lu Hin. apply IC_returns_eq. rewrite forallb_forall in Hret.
    apply Hret, list_elem_of_In. exact Hin. }
  unfold jc_units in Hic.
  unfold jiang_conrath_dist. cbv zeta.
  rewrite outcome_bind, (get_lex_units_outcome _ spec1 (Some "raw"%string) VLu eq_refl).
  cbn [rbind].
  rewrite outcome_bind, (get_lex_units_outcome _ spec2 (Some "raw"%string) VLu eq_refl).
  cbn [rbind]. rewrite !as_lus_map_VLu.
  unfold least_dist. rewrite <- fold_left_concat_map.
  apply for_each_outcome. intros min1 lu1 H1.
  rewrite outcome_bind, outcome_lift, Hic by (apply elem_of_app; left; exact H1).
  cbn [rbind]. unfold jc_pair.
  destruct (ic_of lu1) as [ic1|] eqn:E1; cbn beta iota.
  - rewrite <- fold_left_concat_map. apply for_each_outcome. intros min2 lu2 H2.
    rewrite outcome_bind, outcome_lift, Hic
      by (apply elem_of_app; right; apply elem_of_app; left; exact H2).
    cbn [rbind].
    destruct (ic_of lu2) as [ic2|] eqn:E2; cbn beta iota; [|reflexivity].
    destruct (least_common_subsumers_raw (cornet sc) (_lu_to_spec (cornet sc) lu1)
                                         (_lu_to_spec (cornet sc) lu2))
      as (lcss & Hl & Has).
    rewrite (round_trips_elem _ _ lu1 Hround) in Has by (apply elem_of_app; left; exact H1).
    rewrite (round_trips_elem _ _ lu2 Hround) in Has by (apply elem_of_app; right; exact H2).
    fold (unit_lcs (cornet sc) lu1 lu2) in Has.
    rewrite outcome_bind, Hl. cbn [rbind].
    rewrite outcome_bind, Has, jc_lcs_loop_outcome.
    + cbn [rbind]. rewrite outcome_ret, fold_left_app. reflexivity.
    + intros lcs Hlcs. unfold IC_returns. rewrite Hic; [reflexivity|].
      apply elem_of_app; right; apply elem_of_app; right.
      eapply elem_of_pairwise_lcs; eassumption.
  - rewrite outcome_ret. f_equal. symmetry. apply fold_upd_nil_pairs.
Qed.

Lemma elem_of_jc_pair (lu1 lu2 : node) (x : float) :
  x ∈ pair lu1 lu2 ↔
  ∃ ic1 ic2, ic_of lu1 = Some ic1 ∧ ic_of lu2 = Some ic2
    ∧ (x = fadd ic1 ic2
       ∨ ∃ lcs lcs_ic, lcs ∈ unit_lcs (cornet sc) lu1 lu2
                       ∧ ic_of lcs = Some lcs_ic
                       ∧ x = jc float of_int fadd fsub fmul ic1 ic2 lcs_ic).
Proof.
  unfold jc_pair, jc_through.
  destruct (ic_of lu1) as [ic1|]; [destruct (ic_of lu2) as [ic2|]|].
  - rewrite elem_of_app, list_elem_of_omap, list_elem_of_singleton. split.
    + intros [(lcs & Hin & Hx) | ->].
      * destruct (ic_of lcs) as [lcs_ic|] eqn:E; [|discriminate].
        injection Hx as <-. exists ic1, ic2. split; [reflexivity|]. split; [reflexivity|].
        right. exists lcs, lcs_ic. auto.
      * exists ic1, ic2. auto.
    + intros (i1 & i2 & E1 & E2 & Hx). injection E1 as <-. injection E2 as <-.
      destruct Hx as [->|(lcs & lcs_ic & Hin & E & ->)]; [right; reflexivity|].
      left. exists lcs. split; [exact Hin|]. rewrite E. reflexivity.
  - split; [intros H; inversion H|]. intros (i1 & i2 & _ & E & _). discriminate.
  - split; [intros H; inversion H|]. intros (i1 & i2 & E & _). discriminate.
Qed.

Lemma elem_of_jc_pairs (lus1 lus2 : list node) (x : float) :
  x ∈ concat (map (fun lu1 => concat (map (fun lu2 => pair lu1 lu2) lus2)) lus1)
  ↔ candidate lus1 lus2 x.
Proof.
  unfold jc_candidate. rewrite list_elem_of_In, in_concat. split.
  - intros (l & Hl & Hx). apply in_map_iff in Hl as (lu1 & <- & H1).
    apply in_concat in Hx as (l & Hl & Hx). apply in_map_iff in Hl as (lu2 & <- & H2).
    apply list_elem_of_In, elem_of_jc_pair in Hx as (ic1 & ic2 & E1 & E2 & Hx).
    exists lu1, lu2, ic1, ic2. rewrite !list_elem_of_In. auto.
  - intros (lu1 & lu2 & ic1 & ic2 & H1 & H2 & E1 & E2 & Hx).
    eexists. split.
    + apply in_map_iff. exists lu1. split; [reflexivity|]. apply list_elem_of_In. exact H1.
    + apply in_concat. eexists. split.
      * apply in_map_iff. exists lu2. split; [reflexivity|]. apply list_elem_of_In. exact H2.
      * apply list_elem_of_In, elem_of_jc_pair. exists ic1, ic2. auto.
Qed.

(** ** The running minimum *)

Section Least.
Hypothesis fltb_irrefl : ∀ a, fltb a a = false.
Hypothesis fltb_trans : ∀ a b d, fltb a b = true → fltb b d = true → fltb a d = true.

Lemma fold_update_min_spec (dists seen : list float) (init : option float) :
  match init with
  | None => seen = []
  | Some m => m ∈ seen ∧ ∀ x, x ∈ seen → fltb x m = false
  end →
  match fold_left upd dists init with
  | None => seen ++ dists = []
  | Some m => m ∈ seen ++ dists ∧ ∀ x, x ∈ seen ++ dists → fltb x m = false
  end.
Proof.
  revert seen init. induction dists as [|d dists IH]; intros seen init Hinit.
  - cbn [fold_left]. rewrite app_nil_r. exact Hinit.
  - cbn [fold_left].
    replace (seen ++ d :: dists) with ((seen ++ [d]) ++ dists)
      by (rewrite <- app_assoc; reflexivity).
    apply IH. unfold update_min. destruct init as [m|].
    + destruct Hinit as [Hm Hleast]. destruct (fltb d m) eqn:Hd.
      * split; [apply elem_of_app; right; left|].
        intros x Hx. apply elem_of_app in Hx as [Hx|Hx].
        -- destruct (fltb x d) eqn:Hxd; [|reflexivity].
           rewrite <- (Hleast x Hx). symmetry. eapply fltb_trans; eassumption.
        -- apply list_elem_of_singleton in Hx as ->. apply fltb_irrefl.
      * split; [apply elem_of_app; left; exact Hm|].
        intros x Hx. apply elem_of_app in Hx as [Hx|Hx]; [apply Hleast; exact Hx|].
        apply list_elem_of_singleton in Hx as ->. exact Hd.
    + subst seen. split; [left|].
      intros x Hx. apply list_elem_of_singleton in Hx as ->. apply fltb_irrefl.
Qed.

Lemma least_dist_spec (dists : list float) :
  match least_dist float fltb dists with
  | None => dists = []
  | Some m => m ∈ dists ∧ ∀ x, x ∈ dists → fltb x m = false
  end.
Proof. exact (fold_update_min_spec dists [] None eq_refl). Qed.

(** C6, as the code has it.  Let every unit the two specs resolve to
    have a spec of its own that resolves to that unit alone, let [_IC]
    return for the units involved, and let [<] on floats be
    irreflexive and transitive.  Then [jiang_conrath_dist] returns.
    Each pair of units whose information contents [ic1], [ic2] are both
    defined contributes the distance [ic1 + ic2 - 2 * lcs_ic] for each
    of its least common subsumers with a defined information content,
    and in any case, subsumer or not, the distance [ic1 + ic2].  The
    result is [None] exactly when no pair has both information
    contents defined; otherwise it is one of the distances contributed,
    and none of them is smaller. *)
Theorem jiang_conrath_dist_least (spec1 spec2 : string) (format : option string) :
  round_trips (cornet sc) (resolve (cornet sc) spec1 ++ resolve (cornet sc) spec2) = true →
  forallb ic_returns
          (jc_units (cornet sc) (resolve (cornet sc) spec1) (resolve (cornet sc) spec2))
  = true →
  ∃ r,
    outcome (jiang_conrath_dist float of_int fadd fsub fmul fneg fdiv fltb math_log
                                sc spec1 spec2 smooth cat_totals format) = Ok r
    ∧ (r = None ↔
       ∀ lu1 lu2, lu1 ∈ resolve (cornet sc) spec1 → lu2 ∈ resolve (cornet sc) spec2 →
                  ic_of lu1 = None ∨ ic_of lu2 = None)
    ∧ (∀ m, r = Some m →
            candidate (resolve (cornet sc) spec1) (resolve (cornet sc) spec2) m
            ∧ ∀ x, candidate (resolve (cornet sc) spec1) (resolve (cornet sc) spec2) x →
                   fltb x m = false).
Proof.
  intros Hround Hret. eexists. split; [apply jiang_conrath_dist_outcome; assumption|].
  pose proof (least_dist_spec
                (concat (map (fun lu1 => concat (map (fun lu2 => pair lu1 lu2)
                                                     (resolve (cornet sc) spec2)))
                             (resolve (cornet sc) spec1)))) as Hspec.
  destruct (least_dist _ _ _) as [m|]; split.
  - split; [discriminate|]. intros Hnone. exfalso.
    destruct Hspec as [Hm _]. apply elem_of_jc_pairs in Hm.
    destruct Hm as (lu1 & lu2 & ic1 & ic2 & H1 & H2 & E1 & E2 & _).
    destruct (Hnone lu1 lu2 H1 H2); congruence.
  - intros m' [= <-]. destruct Hspec as [Hm Hleast]. split.
    + apply elem_of_jc_pairs. exact Hm.
    + intros x Hx. apply Hleast, elem_of_jc_pairs. exact Hx.
  - split; [|reflexivity]. intros _ lu1 lu2 H1 H2.
    destruct (ic_of lu1) as [ic1|] eqn:E1; [|left; reflexivity].
    destruct (ic_of lu2) as [ic2|] eqn:E2; [|right; reflexivity].
    exfalso.
    assert (Hin : fadd ic1 ic2 ∈ concat (map (fun lu1 => concat (map (fun lu2 => pair lu1 lu2)
                                                     (resolve (cornet sc) spec2)))
                             (resolve (cornet sc) spec1))).
    { apply elem_of_jc_pairs. exists lu1, lu2, ic1, ic2. auto 10. }
    rewrite Hspec in Hin. inversion Hin.
  - intros m [=].
Qed.

End Least.

End Measures.

(** ** The measures on the examples *)

Lemma Dyadic_fltb_irrefl (a : Q) : Dyadic.fltb a a = false.
Proof.
  unfold Dyadic.fltb. apply negb_false_iff, Qle_bool_iff, Qle_refl.
Qed.

Lemma Dyadic_fltb_lt (a b : Q) : Dyadic.fltb a b = true ↔ (a < b)%Q.
Proof.
  unfold Dyadic.fltb. rewrite negb_true_iff. split.
  - intros H. apply Qnot_le_lt. intros Hle. apply Qle_bool_iff in Hle. congruence.
  - intros H. destruct (Qle_bool b a) eqn:E; [|reflexivity].
    apply Qle_bool_iff in E. exfalso. exact (Qlt_not_le _ _ H E).
Qed.

Lemma Dyadic_fltb_trans (a b d : Q) :
  Dyadic.fltb a b = true → Dyadic.fltb b d = true → Dyadic.fltb a d = true.
Proof. rewrite !Dyadic_fltb_lt. apply Qlt_trans. Qed.

(** C5.  On the word "a" with two senses, [resnik_sim] is not the
    maximum over the pairs of units.  The pair (a:noun:1, b:noun:1) has
    the least common subsumer x:noun:1, of information content 1; the
    pair (a:noun:2, b:noun:1) has the least common subsumer y:noun:1,
    of information content 2.  The maximum over the least common
    subsumers of every pair is 2, as the docstring of [resnik_sim]
    words it; [resnik_sim] returns 1, the information content of the
    least common subsumer of the two sets of units taken as wholes. *)
Theorem resnik_sim_not_pairwise :
  resolve (cornet Examples.senses) "a" = [1; 2]
  ∧ resolve (cornet Examples.senses) "b" = [3]
  ∧ unit_lcs (cornet Examples.senses) 1 3 = [4]
  ∧ unit_lcs (cornet Examples.senses) 2 3 = [7]
  ∧ Dyadic._IC Examples.senses 4 true false false = Ok (Some 1%Q)
  ∧ Dyadic._IC Examples.senses 7 true false false = Ok (Some 2%Q)
  ∧ Dyadic.resnik_sim_documented Examples.senses "a" "b" false false = Ok (Some 2%Q)
  ∧ outcome (Dyadic.resnik_sim Examples.senses "a" "b" false false None) = Ok (Some 1%Q).
Proof. repeat split; vm_compute; reflexivity. Qed.

Lemma jiang_conrath_dist_least_witness :
  ∃ r,
    outcome (Dyadic.jiang_conrath_dist Examples.senses "a" "b" false false None) = Ok r
    ∧ (r = None ↔
       ∀ lu1 lu2, lu1 ∈ resolve (cornet Examples.senses) "a" →
                  lu2 ∈ resolve (cornet Examples.senses) "b" →
                  IC_of Dyadic.float Dyadic.of_int Dyadic.fneg Dyadic.fdiv Dyadic.math_log
                        Examples.senses false false lu1 = None
                  ∨ IC_of Dyadic.float Dyadic.of_int Dyadic.fneg Dyadic.fdiv Dyadic.math_log
                          Examples.senses false false lu2 = None)
    ∧ (∀ m, r = Some m →
            jc_candidate Dyadic.float Dyadic.of_int Dyadic.fadd Dyadic.fsub Dyadic.fmul
                         Dyadic.fneg Dyadic.fdiv Dyadic.math_log Examples.senses false false
                         (resolve (cornet Examples.senses) "a")
                         (resolve (cornet Examples.senses) "b") m
            ∧ ∀ x, jc_candidate Dyadic.float Dyadic.of_int Dyadic.fadd Dyadic.fsub Dyadic.fmul
                                Dyadic.fneg Dyadic.fdiv Dyadic.math_log Examples.senses
                                false false
                                (resolve (cornet Examples.senses) "a")
                                (resolve (cornet Examples.senses) "b") x →
                   Dyadic.fltb x m = false).
Proof.
  apply (jiang_conrath_dist_least Dyadic.float Dyadic.of_int Dyadic.fadd Dyadic.fsub
           Dyadic.fmul Dyadic.fneg Dyadic.fdiv Dyadic.fltb Dyadic.math_log
           Examples.senses false false Dyadic_fltb_irrefl Dyadic_fltb_trans "a" "b" None).
  - vm_compute. reflexivity.
  - vm_compute. reflexivity.
Defined.

(** C6, counterexamples.  (1) The pair
    (p:noun:1, q:noun:1) has a least common subsumer, l:noun:1, whose
    subcount exceeds the total count, so that its information content
    is -1; the pair's distance through it is 1 + 1 + 2 = 4, but
    [jiang_conrath_dist] returns 2, the sum it adds for every pair.
    (2) The unit a:noun: without a sense number has no hyperonym and so
    no common subsumer with b:noun:1, and the only other pair is at
    distance 2; but the spec a:noun: the code makes of that unit
    resolves to both units of "a", the subsumer x:noun:1 of a:noun:2 is
    taken for one of a:noun:, and [jiang_conrath_dist] returns 1.
    (3) Nothing was counted under z:noun:1: its probability is zero,
    the logarithm of zero is a [ValueError], [_IC] catches
    [OverflowError] and [TypeError] only, and [jiang_conrath_dist]
    raises, where the unit was to count as one without information
    content and the result to be [None].  The units' own specs resolve
    to them alone here. *)
Lemma jiang_conrath_dist_not_documented :
  (unit_lcs (cornet Examples.overcounted) 1 2 = [3]
   ∧ Dyadic._IC Examples.overcounted 3 true false false = Ok (Some (-1)%Q)
   ∧ Dyadic.jiang_conrath_dist_documented Examples.overcounted "p" "q" false false
     = Some 4%Q
   ∧ outcome (Dyadic.jiang_conrath_dist Examples.overcounted "p" "q" false false None)
     = Ok (Some 2%Q))
  ∧ (unit_lcs (cornet Examples.unnumbered) 1 3 = []
     ∧ resolve (cornet Examples.unnumbered)
               (_lu_to_spec (cornet Examples.unnumbered) 1) = [1; 2]
     ∧ Dyadic.jiang_conrath_dist_documented Examples.unnumbered "a" "b" false false
       = Some 2%Q
     ∧ outcome (Dyadic.jiang_conrath_dist Examples.unnumbered "a" "b" false false None)
       = Ok (Some 1%Q))
  ∧ (resolve (cornet Examples.zeroed) "z" = [1]
     ∧ resolve (cornet Examples.zeroed) "w" = [2]
     ∧ round_trips (cornet Examples.zeroed) [1; 2] = true
     ∧ _get_lu_count Examples.zeroed 1 true = Ok (Some 0%Z)
     ∧ Dyadic._IC Examples.zeroed 1 true false false
       = Raise (ValueError "math domain error")
     ∧ Dyadic.jiang_conrath_dist_documented Examples.zeroed "z" "w" false false = None
     ∧ outcome (Dyadic.jiang_conrath_dist Examples.zeroed "z" "w" false false None)
       = Raise (ValueError "math domain error")).
Proof. repeat split; vm_compute; reflexivity. Qed.

End SimilarityFacts.

(* ===================================================================== *)
(** * Shortest relation paths *)
(* ===================================================================== *)

Module TrailFacts.
Import Py SpecParser Cornet Reach Invariants Trails TraversalFacts.

Lemma trail_walk g rel u hops w :
  trail g rel u hops w → walk g rel (length hops) u w.
Proof.
  induction 1 as [u|u e v hops w He Hrel _ IH]; [constructor|].
  cbn [length]. econstructor; [|exact IH]. exists e. tauto.
Qed.

Lemma trail_app g rel u hops1 v hops2 w :
  trail g rel u hops1 v → trail g rel v hops2 w → trail g rel u (hops1 ++ hops2) w.
Proof.
  induction 1 as [u|u e x hops1 v He Hrel _ IH]; intros H2; [exact H2|].
  cbn [app]. econstructor; [exact He|exact Hrel|apply IH; exact H2].
Qed.

Lemma render_app lu_f rel_r u hops1 hops2 :
  render lu_f rel_r u (hops1 ++ hops2)
  = render lu_f rel_r u hops1 ++ flat_map (fun '(e, v) => [rel_r e; lu_f v]) hops2.
Proof. unfold render. rewrite flat_map_app. reflexivity. Qed.

Section Links.
Variable g : NX.MultiDiGraph.
Hypothesis g_wf : NX.wf g.
Variable rel_name : string.
Variables from_lus to_lus : list node.

Local Abbreviation pred_links := (Trails.pred_links g rel_name from_lus).
Local Abbreviation succ_links := (Trails.succ_links g rel_name to_lus).
Local Abbreviation bsp_inv := (Invariants.bsp_inv g rel_name from_lus to_lus).
Local Abbreviation connected := (connected_within g rel_name from_lus to_lus).

Lemma pred_links_init : pred_links (fromkeys from_lus).
Proof.
  intros x v Hx. rewrite fromkeys_lookup in Hx.
  destruct (decide (x ∈ from_lus)); [|discriminate]. left. split; congruence.
Qed.

Lemma succ_links_init : succ_links (fromkeys to_lus).
Proof.
  intros x v Hx. rewrite fromkeys_lookup in Hx.
  destruct (decide (x ∈ to_lus)); [|discriminate]. left. split; congruence.
Qed.

Lemma pred_links_forward succ ff pred pred' ff' found :
  pred_links pred →
  forward_scan rel_name succ (NX.out_edges_iter g ff) pred [] = (pred', ff', found) →
  pred_links pred'.
Proof.
  intros Hl Hscan x v Hx.
  destruct (forward_scan_spec _ _ _ _ _ _ _ _ Hscan) as (H1 & H2 & _).
  destruct (pred !! x) as [v0|] eqn:Hold.
  - rewrite (H1 x v0 Hold) in Hx. injection Hx as <-. exact (Hl x v0 Hold).
  - destruct (H2 x v Hx Hold) as (u & e & -> & Hin & Hrel & _).
    right. exists u, e. split; [reflexivity|]. split; [|exact Hrel].
    apply elem_of_out_edges_iter in Hin. tauto.
Qed.

Lemma succ_links_reverse pred rf succ succ' rf' found :
  succ_links succ →
  reverse_scan rel_name pred (NX.in_edges_iter g rf) succ [] = (succ', rf', found) →
  succ_links succ'.
Proof.
  intros Hl Hscan x v Hx.
  destruct (reverse_scan_spec _ _ _ _ _ _ _ _ Hscan) as (H1 & H2 & _).
  destruct (succ !! x) as [v0|] eqn:Hold.
  - rewrite (H1 x v0 Hold) in Hx. injection Hx as <-. exact (Hl x v0 Hold).
  - destruct (H2 x v Hx Hold) as (w & e & -> & Hin & Hrel & _).
    right. exists w, e. split; [reflexivity|]. split; [|exact Hrel].
    apply (elem_of_in_edges_iter g rf x w e g_wf) in Hin. tauto.
Qed.

(** When the loop finds a path, the two dicts hold it link by link,
    and no shorter path exists. *)
Lemma bsp_loop_found n :
  ∀ kf kr pred succ ff rf,
    bsp_inv kf kr pred succ ff rf → pred_links pred → succ_links succ →
    match bsp_loop g rel_name n pred succ ff rf with
    | (Some pred', Some w, Some succ') =>
        pred_links pred' ∧ succ_links succ'
        ∧ ∃ u e n1 n2,
            pred' !! w = Some (Some u, Some e)
            ∧ chain pred' w n1 ∧ chain succ' w n2
            ∧ n1 + n2 ≤ kf + kr + n
            ∧ ∀ d, connected d → n1 + n2 ≤ d
    | _ => True
    end.
Proof.
  induction n as [n IH] using lt_wf_ind.
  intros kf kr pred succ ff rf Hinv Hp Hs.
  destruct ff as [|f ff]; [destruct rf, n; exact I|].
  destruct rf as [|r rf]; [destruct n; exact I|].
  destruct n as [|n]; [exact I|].
  cbn [bsp_loop].
  destruct (forward_scan rel_name succ (NX.out_edges_iter g (f :: ff)) pred [])
    as [[pred' ff'] found] eqn:Hfwd.
  pose proof (bsp_inv_forward g rel_name from_lus to_lus _ _ _ _ _ _ _ _ _ Hinv Hfwd) as Hf.
  pose proof (pred_links_forward _ _ _ _ _ _ Hp Hfwd) as Hp'.
  assert (Hshort : ∀ k d, ¬ connected k → connected d → S k ≤ d).
  { intros k d Hnot Hd. destruct (decide (d ≤ k)) as [Hle|]; [|lia].
    exfalso. apply Hnot. eapply connected_within_mono; eassumption. }
  destruct found as [w|].
  { destruct Hf as (_ & _ & (u & e & m & Hpw & Hc & Hm) & (m' & Hc' & Hm')).
    split; [exact Hp'|]. split; [exact Hs|].
    exists u, e, m, m'. repeat split; try assumption; [lia|].
    intros d Hd.
    pose proof (Hshort _ _ (bsp_inv_not_connected g rel_name from_lus to_lus _ _ _ _ _ _ Hinv) Hd).
    lia. }
  destruct n as [|n]; [exact I|].
  destruct (reverse_scan rel_name pred' (NX.in_edges_iter g (r :: rf)) succ [])
    as [[succ' rf'] found] eqn:Hrev.
  assert (Hkf : 1 ≤ S kf) by lia.
  pose proof (bsp_inv_reverse g g_wf rel_name from_lus to_lus _ _ _ _ _ _ _ _ _ Hkf Hf Hrev) as Hr.
  pose proof (succ_links_reverse _ _ _ _ _ _ Hs Hrev) as Hs'.
  destruct found as [w|].
  { destruct Hr as (_ & _ & (u & e & m & Hpw & Hc & Hm) & (m' & Hc' & Hm')).
    split; [exact Hp'|]. split; [exact Hs'|].
    exists u, e, m, m'. repeat split; try assumption; [lia|].
    intros d Hd.
    pose proof (Hshort _ _ (bsp_inv_not_connected g rel_name from_lus to_lus _ _ _ _ _ _ Hf) Hd).
    lia. }
  specialize (IH n ltac:(lia) (S kf) (S kr) pred' succ' ff' rf' Hr Hp' Hs').
  destruct (bsp_loop g rel_name n pred' succ' ff' rf') as [[[p|] [w|]] [s|]]; try exact I.
  destruct IH as (H1 & H2 & u & e & n1 & n2 & H3 & H4 & H5 & H6 & H7).
  split; [exact H1|]. split; [exact H2|].
  exists u, e, n1, n2. repeat split; try assumption. lia.
Qed.

Section Rebuild.
Variable lu_f : node → value.
Variable rel_f : option NX.attr → result value.
Variable rel_r : NX.attr → value.
Hypothesis rel_f_repr : ∀ e, rel_f (Some e) = Ok (rel_r e).

Lemma path_from_source_trail (pred : links) w n :
  pred_links pred → chain pred w n → ∀ fuel acc, n < fuel →
  ∃ s hops,
    s ∈ from_lus ∧ trail g rel_name s hops w ∧ length hops = n
    ∧ path_from_source lu_f rel_f fuel (Some pred) (Some w) acc
      = Ok (render lu_f rel_r s hops ++ acc).
Proof.
  intros Hl. induction 1 as [x Hx|x y e n Hx Hy IH]; intros fuel acc Hfuel;
    (destruct fuel as [|fuel]; [lia|]); cbn [path_from_source getitem]; rewrite Hx;
    cbn [rbind].
  - exists x, []. destruct (Hl x _ Hx) as [[_ Hin]|(u & e & Heq & _)]; [|discriminate].
    split; [exact Hin|]. split; [constructor|]. split; [reflexivity|].
    destruct fuel; reflexivity.
  - rewrite rel_f_repr. cbn [rbind].
    destruct (Hl x _ Hx) as [[Heq _]|(u & e' & Heq & He & Hrel)]; [discriminate|].
    injection Heq as <- <-.
    destruct (IH fuel (rel_r e :: lu_f x :: acc) ltac:(lia)) as (s & hops & Hs & Ht & Hlen & Hp).
    exists s, (hops ++ [(e, x)]). split; [exact Hs|]. split.
    { eapply trail_app; [exact Ht|]. econstructor; [exact He|exact Hrel|constructor]. }
    split; [rewrite length_app; cbn [length]; lia|].
    rewrite Hp, render_app. cbn [flat_map app]. rewrite <- app_assoc. reflexivity.
Qed.

Lemma path_to_target_trail (succ : links) w n :
  succ_links succ → chain succ w n → ∀ fuel acc, n < fuel →
  ∃ hops t,
    t ∈ to_lus ∧ trail g rel_name w hops t ∧ length hops = n
    ∧ path_to_target lu_f rel_f fuel (Some succ) (Some w) acc
      = Ok (acc ++ render lu_f rel_r w hops).
Proof.
  intros Hl. induction 1 as [x Hx|x y e n Hx Hy IH]; intros fuel acc Hfuel;
    (destruct fuel as [|fuel]; [lia|]); cbn [path_to_target getitem]; rewrite Hx;
    cbn [rbind].
  - exists [], x. destruct (Hl x _ Hx) as [[_ Hin]|(u & e & Heq & _)]; [|discriminate].
    split; [exact Hin|]. split; [constructor|]. split; [reflexivity|].
    destruct fuel; reflexivity.
  - rewrite rel_f_repr. cbn [rbind].
    destruct (Hl x _ Hx) as [[Heq _]|(u & e' & Heq & He & Hrel)]; [discriminate|].
    injection Heq as <- <-.
    destruct (IH fuel ((acc ++ [lu_f x]) ++ [rel_r e]) ltac:(lia))
      as (hops & t & Ht & Htr & Hlen & Hp).
    exists ((e, y) :: hops), t. split; [exact Ht|]. split.
    { econstructor; [exact He|exact Hrel|exact Htr]. }
    split; [cbn [length]; lia|].
    rewrite Hp. unfold render. cbn [flat_map app]. rewrite <- !app_assoc. reflexivity.
Qed.

End Rebuild.

End Links.

Lemma relation_formatter_repr (c : Cornet) (format : option string) :
  effective_format c format = "spec"%string ∨ effective_format c format = "raw"%string →
  ∃ lu_f rel_f,
    _get_lex_unit_formatter c format = Ok lu_f
    ∧ _get_relation_formatter c format = Ok rel_f
    ∧ ∀ e, rel_f (Some e) = Ok (relation_repr (effective_format c format) e).
Proof.
  unfold _get_lex_unit_formatter, _get_relation_formatter.
  intros [-> | ->]; cbn; eexists _, _; (split; [reflexivity|]); (split; [reflexivity|]).
  - intros [r|]; reflexivity.
  - intros e. reflexivity.
Qed.

Lemma test_lex_units_relation_outcome c from_lu_spec rel_spec to_lu_spec format rel_name depth :
  _split_rel_spec rel_spec = Ok (rel_name, depth) →
  outcome (test_lex_units_relation c from_lu_spec rel_spec to_lu_spec format)
  = path_between c (resolve c from_lu_spec) (resolve c to_lu_spec)
                 rel_name (Z.to_nat depth) format.
Proof.
  intros Hsplit. unfold test_lex_units_relation, outcome. rewrite Hsplit.
  destruct (get_lex_units_raw c from_lu_spec) as [f1 ->].
  destruct (get_lex_units_raw c to_lu_spec) as [f2 ->].
  cbn [lift bind tick]. rewrite !as_lus_map_VLu. unfold path_between.
  destruct (_bidirectional_shortest_path _ _ _ _ _) as [[pred common_lu] succ].
  cbn [lift]. destruct (_reconstruct_path _ _ _ _ _ _); reflexivity.
Qed.

Lemma split_rel_spec_depth (rel_spec rel_name : string) (depth : Z) :
  _split_rel_spec rel_spec = Ok (rel_name, depth) → (1 ≤ depth ≤ 9)%Z.
Proof.
  unfold _split_rel_spec. intros Hsplit.
  destruct (last_char rel_spec) as [ch|]; [|discriminate]. cbn [rbind] in Hsplit.
  destruct (digit_1_9 ch) as [d|] eqn:Ed.
  - inversion Hsplit; subst.
    destruct ch as [[] [] [] [] [] [] [] []]; vm_compute in Ed; inversion Ed; lia.
  - destruct (Ascii.eqb ch "+"); inversion Hsplit; lia.
Qed.

(** What the search and the rebuilding hand back, when it is not the
    empty list, is a shortest path written out. *)
Lemma path_between_trail (c : Cornet) (format : option string)
      (from_lus to_lus : list node) (rel_name : string) (depth : nat) (path : list value) :
  NX.wf (_graph c) →
  effective_format c format = "spec"%string ∨ effective_format c format = "raw"%string →
  path_between c from_lus to_lus rel_name depth format = Ok path →
  path ≠ [] →
  ∃ lu_f s hops t,
    _get_lex_unit_formatter c format = Ok lu_f
    ∧ s ∈ from_lus ∧ t ∈ to_lus
    ∧ trail (_graph c) rel_name s hops t
    ∧ length hops ≤ depth
    ∧ (∀ d, connected_within (_graph c) rel_name from_lus to_lus d → length hops ≤ d)
    ∧ path = render lu_f (relation_repr (effective_format c format)) s hops.
Proof.
  intros Hwf Hfmt Hpath Hne.
  destruct (relation_formatter_repr c format Hfmt) as (lu_f & rel_f & Hlu & Hrel & Hrepr).
  exists lu_f.
  pose proof (bidirectional_shortest_path_spec (_graph c) Hwf rel_name from_lus to_lus depth)
    as Hspec.
  unfold path_between in Hpath. unfold _bidirectional_shortest_path in Hpath, Hspec.
  destruct (List.find (in_dict (fromkeys to_lus)) from_lus) as [lu|] eqn:Hfind.
  - (* a shared unit *)
    destruct Hspec as [H1 H2].
    unfold _reconstruct_path in Hpath. rewrite Hlu, Hrel in Hpath.
    cbn [rbind falsy andb] in Hpath.
    destruct (ET.truthy (deref c lu)); injection Hpath as <-; [|congruence].
    exists lu, [], lu. split; [exact Hlu|]. split; [exact H1|]. split; [exact H2|].
    split; [constructor|]. split; [cbn; lia|]. split; [intros; cbn; lia|reflexivity].
  - assert (Hdis : ∀ lu, lu ∈ from_lus → lu ∉ to_lus).
    { intros lu Hin Hin'. apply list_elem_of_In in Hin.
      pose proof (find_none _ _ Hfind lu Hin) as Hn. apply in_dict_false in Hn.
      rewrite fromkeys_lookup, decide_True in Hn by exact Hin'. discriminate. }
    pose proof (bsp_loop_found (_graph c) Hwf rel_name from_lus to_lus depth 0 0 _ _ _ _
                  (bsp_inv_init (_graph c) rel_name from_lus to_lus Hdis)
                  (pred_links_init _ _ _) (succ_links_init _ _ _)) as Hfound.
    destruct (bsp_loop (_graph c) rel_name depth (fromkeys from_lus) (fromkeys to_lus)
                       from_lus to_lus) as [[[pred|] [w|]] [succ|]];
      cbn in Hspec; try contradiction.
    + destruct Hfound as (Hp & Hs & u & e & n1 & n2 & Hpw & Hc1 & Hc2 & Hlen & Hmin).
      unfold _reconstruct_path in Hpath. rewrite Hlu, Hrel in Hpath. cbn [rbind] in Hpath.
      rewrite (falsy_Some_nonempty pred w) in Hpath by eauto. cbn [andb] in Hpath.
      destruct (path_to_target_trail (_graph c) rel_name to_lus lu_f rel_f _ Hrepr
                  succ w n2 Hs Hc2 (S depth) [] ltac:(lia))
        as (hops2 & t & Ht & Htr2 & Hl2 & Hp2).
      rewrite Hp2 in Hpath. cbn [rbind getitem] in Hpath. rewrite Hpw in Hpath.
      cbn [rbind] in Hpath. rewrite Hrepr in Hpath. cbn [rbind] in Hpath.
      destruct (chain_link_inv _ _ _ _ _ Hpw Hc1) as (n1' & -> & Hcu).
      destruct (path_from_source_trail (_graph c) rel_name from_lus lu_f rel_f _ Hrepr
                  pred u n1' Hp Hcu (S depth)
                  (relation_repr (effective_format c format) e
                   :: [] ++ render lu_f (relation_repr (effective_format c format)) w hops2)
                  ltac:(lia))
        as (s & hops1 & Hs1 & Htr1 & Hl1 & Hp1).
      rewrite Hp1 in Hpath. injection Hpath as <-.
      destruct (Hp w _ Hpw) as [[Heq _]|(u' & e' & Heq & He & Hre)]; [discriminate|].
      injection Heq as <- <-.
      exists s, (hops1 ++ (e, w) :: hops2), t.
      split; [exact Hlu|]. split; [exact Hs1|]. split; [exact Ht|]. split.
      { eapply trail_app; [exact Htr1|]. econstructor; eassumption. }
      assert (Hlen' : length (hops1 ++ (e, w) :: hops2) = S n1' + n2).
      { rewrite length_app. cbn [length]. lia. }
      split; [lia|]. split; [intros d Hd; specialize (Hmin d Hd); lia|].
      rewrite render_app. reflexivity.
    + exfalso. destruct Hspec as [H1 H2]. exact (Hdis w H1 H2).
    + unfold _reconstruct_path in Hpath. rewrite Hlu, Hrel in Hpath.
      cbn [rbind falsy andb] in Hpath. congruence.
Qed.

(** A non-empty answer of [test_lex_units_relation] (formats [spec] and
    [raw]) is a path of the graph written out: it starts at a unit the
    first spec resolves to, ends at a unit the second spec resolves
    to, every hop follows an edge that passes the relation filter, the
    hops are at most as many as the depth of the relation spec, and no
    path between the two sets of units has fewer. *)
Theorem test_lex_units_relation_shortest
        (c : Cornet) (format : option string)
        (from_lu_spec rel_spec to_lu_spec : string) (path : list value) :
  NX.wf (_graph c) →
  effective_format c format = "spec"%string ∨ effective_format c format = "raw"%string →
  outcome (test_lex_units_relation c from_lu_spec rel_spec to_lu_spec format) = Ok path →
  path ≠ [] →
  ∃ rel_name depth lu_f s hops t,
    _split_rel_spec rel_spec = Ok (rel_name, depth)
    ∧ _get_lex_unit_formatter c format = Ok lu_f
    ∧ s ∈ resolve c from_lu_spec ∧ t ∈ resolve c to_lu_spec
    ∧ trail (_graph c) rel_name s hops t
    ∧ (Z.of_nat (length hops) ≤ depth)%Z
    ∧ (∀ d, connected_within (_graph c) rel_name (resolve c from_lu_spec)
                             (resolve c to_lu_spec) d → length hops ≤ d)
    ∧ path = render lu_f (relation_repr (effective_format c format)) s hops.
Proof.
  intros Hwf Hfmt Hout Hne.
  destruct (_split_rel_spec rel_spec) as [[rel_name depth]|e] eqn:Hsplit.
  - rewrite (test_lex_units_relation_outcome _ _ _ _ _ _ _ Hsplit) in Hout.
    destruct (path_between_trail c format _ _ _ _ _ Hwf Hfmt Hout Hne)
      as (lu_f & s & hops & t & H1 & H2 & H3 & H4 & H5 & H6 & H7).
    pose proof (split_rel_spec_depth _ _ _ Hsplit).
    exists rel_name, depth, lu_f, s, hops, t. repeat split; try assumption. lia.
  - unfold test_lex_units_relation in Hout. rewrite Hsplit in Hout. discriminate.
Qed.

Lemma test_lex_units_relation_shortest_witness :
  ∃ rel_name depth lu_f s hops t,
    _split_rel_spec "HAS_HYPONYM2" = Ok (rel_name, depth)
    ∧ _get_lex_unit_formatter Examples.lamps None = Ok lu_f
    ∧ s ∈ resolve Examples.lamps "lamp" ∧ t ∈ resolve Examples.lamps "fotolamp"
    ∧ trail (_graph Examples.lamps) rel_name s hops t
    ∧ (Z.of_nat (length hops) ≤ depth)%Z
    ∧ (∀ d, connected_within (_graph Examples.lamps) rel_name
                             (resolve Examples.lamps "lamp")
                             (resolve Examples.lamps "fotolamp") d → length hops ≤ d)
    ∧ [VStr "lamp:noun:2"; VStr "HAS_HYPONYM"; VStr "gloeilamp:noun:1";
       VStr "HAS_HYPONYM"; VStr "fotolamp:noun:1"]
      = render lu_f (relation_repr (effective_format Examples.lamps None)) s hops.
Proof.
  apply (test_lex_units_relation_shortest Examples.lamps None "lamp" "HAS_HYPONYM2" "fotolamp").
  - exact PathExamples.lamps_wf.
  - left. reflexivity.
  - vm_compute. reflexivity.
  - discriminate.
Defined.

End TrailFacts.

(* ===================================================================== *)
(** * Common subsumers *)
(* ===================================================================== *)

Module CommonSubsumerFacts.
Import Py SpecParser Cornet Reach Invariants Subsumers TraversalFacts SubsumerFacts.

(** What [_transitive_closure], with the units themselves added at
    distance zero, records for a unit: its distance from the list. *)
Lemma add_zero_distance (c : Cornet) (lus : list node) (rel_name : string)
      (sucs : gmap node nat) (x : node) (d : nat) :
  _transitive_closure c lus rel_name = Ok sucs →
  add_zero lus sucs !! x = Some d ↔ distance (_graph c) rel_name lus x d.
Proof.
  intros Htc.
  destruct (transitive_closure_returns c lus rel_name) as (sucs' & Htc' & Hsound & Hmin).
  rewrite Htc in Htc'. injection Htc' as <-.
  rewrite add_zero_lookup. unfold distance.
  destruct (decide (x ∈ lus)) as [Hin|Hnin].
  - split.
    + intros [= <-]. split; [apply reach_0; exact Hin|lia].
    + intros [_ Hleast]. f_equal. specialize (Hleast 0). rewrite reach_0 in Hleast.
      specialize (Hleast Hin). lia.
  - assert (Hpos : ∀ j, reach (_graph c) rel_name lus j x → 1 ≤ j).
    { intros [|j] Hr; [|lia]. apply reach_0 in Hr. contradiction. }
    split.
    + intros Hx. destruct (Hsound _ _ Hx) as [H1 Hr]. split; [exact Hr|].
      intros j Hj. destruct (Hmin x j (Hpos _ Hj) Hj) as (k & Hle & Hk). congruence.
    + intros [Hr Hleast]. destruct (Hmin x d (Hpos _ Hr) Hr) as (k & Hle & Hk).
      destruct (Hsound _ _ Hk) as [_ Hrk]. specialize (Hleast k Hrk).
      assert (k = d) as -> by lia. exact Hk.
Qed.

Section Filing.
Variable formatter : node → value.
Variable sucs2 : gmap node nat.

Let visit_pair (acs : gmap nat (list value)) (p : node * nat) : gmap nat (list value) :=
  let '(lu, dist) := p in
  match sucs2 !! lu with
  | Some dist2 => setdefault_append acs (dist + dist2) (formatter lu)
  | None => acs
  end.

Lemma fold_visit_lookup (l : list (node * nat)) (acs : gmap nat (list value)) (k : nat) :
  fold_left visit_pair l acs !! k
  = match List.filter (filed_under sucs2 k) l with
    | [] => acs !! k
    | fl => Some (default [] (acs !! k) ++ map (fun p => formatter p.1) fl)
    end.
Proof.
  revert acs. induction l as [|[lu dist] l IH]; intros acs; [reflexivity|].
  cbn [fold_left List.filter]. rewrite IH. unfold filed_under at 2. cbn [fst snd visit_pair].
  destruct (sucs2 !! lu) as [dist2|]; [|reflexivity].
  unfold setdefault_append. destruct (Nat.eqb_spec (dist + dist2) k) as [->|Hne].
  - rewrite lookup_insert_eq. cbn [default].
    destruct (List.filter _ l) as [|p fl].
    + reflexivity.
    + cbn [map]. unfold id. rewrite <- app_assoc. reflexivity.
  - rewrite lookup_insert_ne by exact Hne. reflexivity.
Qed.

(** The dict the grouping loop builds, key by key: the entries of
    [sucs1] whose two distances add up to the key, in the order of
    [sucs1.items()]; no key for an empty group. *)
Lemma group_by_sum_lookup (sucs1 : gmap node nat) (k : nat) :
  group_by_sum formatter sucs1 sucs2 !! k
  = match List.filter (filed_under sucs2 k) (map_to_list sucs1) with
    | [] => None
    | fl => Some (map (fun p => formatter p.1) fl)
    end.
Proof.
  unfold group_by_sum.
  change (fold_left _ (map_to_list sucs1) ∅) with (fold_left visit_pair (map_to_list sucs1) ∅).
  rewrite fold_visit_lookup, lookup_empty. reflexivity.
Qed.

Lemma group_by_sum_elem (sucs1 : gmap node nat) (k : nat) (v : value) :
  (∃ group, group_by_sum formatter sucs1 sucs2 !! k = Some group ∧ v ∈ group)
  ↔ ∃ lu d1 d2, sucs1 !! lu = Some d1 ∧ sucs2 !! lu = Some d2
                ∧ k = d1 + d2 ∧ v = formatter lu.
Proof.
  rewrite group_by_sum_lookup.
  assert (Hin : ∀ p, In p (List.filter (filed_under sucs2 k) (map_to_list sucs1))
                     ↔ sucs1 !! p.1 = Some p.2
                       ∧ ∃ d2, sucs2 !! p.1 = Some d2 ∧ k = p.2 + d2).
  { intros [lu d]. rewrite filter_In, <- list_elem_of_In, elem_of_map_to_list.
    unfold filed_under. cbn [fst snd]. destruct (sucs2 !! lu) as [d2|].
    - rewrite Nat.eqb_eq. split.
      + intros [H1 H2]. split; [exact H1|]. exists d2. split; [reflexivity|lia].
      + intros [H1 (d2' & [= <-] & ->)]. tauto.
    - split; [intros [_ ?]; discriminate|]. intros [_ (d2 & ? & _)]. discriminate. }
  split.
  - intros (group & Hg & Hv).
    destruct (List.filter _ _) as [|p fl] eqn:Efl; [discriminate|].
    injection Hg as <-.
    change (v ∈ map (fun p => formatter p.1) (p :: fl)) in Hv.
    apply list_elem_of_In, in_map_iff in Hv as ([lu d] & <- & Hp).
    apply Hin in Hp as [H1 (d2 & H2 & ->)].
    exists lu, d, d2. tauto.
  - intros (lu & d1 & d2 & H1 & H2 & -> & ->).
    assert (Hp : In (lu, d1) (List.filter (filed_under sucs2 (d1 + d2)) (map_to_list sucs1))).
    { apply Hin. cbn [fst snd]. split; [exact H1|]. exists d2. tauto. }
    destruct (List.filter _ _) as [|p fl] eqn:Efl; [inversion Hp|].
    eexists. split; [reflexivity|].
    apply list_elem_of_In, in_map_iff. exists (lu, d1). split; [reflexivity|exact Hp].
Qed.

Lemma group_by_sum_nonempty (sucs1 : gmap node nat) (k : nat) (group : list value) :
  group_by_sum formatter sucs1 sucs2 !! k = Some group → group ≠ [].
Proof.
  rewrite group_by_sum_lookup.
  destruct (List.filter _ _) as [|p fl]; [discriminate|]. intros [= <-]. discriminate.
Qed.

End Filing.

Lemma all_common_subsumers_filed
      (c : Cornet) (lu_spec1 lu_spec2 rel_name : string) (format : option string)
      (formatter : node → value) :
  _get_lex_unit_formatter c format = Ok formatter →
  ∃ acs,
    outcome (all_common_subsumers c lu_spec1 lu_spec2 rel_name format) = Ok acs
    ∧ (∀ k v,
         (∃ group, acs !! k = Some group ∧ v ∈ group)
         ↔ ∃ lu, v = formatter lu
                 ∧ common_subsumer (_graph c) (upper rel_name)
                                   (resolve c lu_spec1) (resolve c lu_spec2) lu k)
    ∧ (∀ k group, acs !! k = Some group → group ≠ []).
Proof.
  intros Hf.
  destruct (all_common_subsumers_outcome c lu_spec1 lu_spec2 rel_name format formatter Hf)
    as (sucs1 & sucs2 & H1 & H2 & Hall).
  eexists. split; [exact Hall|]. split.
  - intros k v. rewrite group_by_sum_elem. unfold common_subsumer. split.
    + intros (lu & d1 & d2 & Hd1 & Hd2 & -> & ->). exists lu. split; [reflexivity|].
      exists d1, d2. split; [eapply add_zero_distance; eassumption|].
      split; [eapply add_zero_distance; eassumption|reflexivity].
    + intros (lu & -> & d1 & d2 & Hd1 & Hd2 & ->). exists lu, d1, d2.
      split; [eapply add_zero_distance; eassumption|].
      split; [eapply add_zero_distance; eassumption|tauto].
  - intros k group. apply group_by_sum_nonempty.
Qed.

(** [all_common_subsumers], for a known output format: it returns, and
    the dict it returns files under each key exactly the units that
    paths of edges passing the filter lead to from both lists of units
    (the units of the lists themselves at distance zero) and whose two
    distances add up to the key.  No key has an empty group. *)
Theorem all_common_subsumers_spec
        (c : Cornet) (lu_spec1 lu_spec2 rel_name : string) (format : option string)
        (formatter : node → value) :
  _get_lex_unit_formatter c format = Ok formatter →
  ∃ acs,
    outcome (all_common_subsumers c lu_spec1 lu_spec2 rel_name format) = Ok acs
    ∧ (∀ k v,
         (∃ group, acs !! k = Some group ∧ v ∈ group)
         ↔ ∃ lu, v = formatter lu
                 ∧ common_subsumer (_graph c) (upper rel_name)
                                   (resolve c lu_spec1) (resolve c lu_spec2) lu k)
    ∧ (∀ k group, acs !! k = Some group → group ≠ []).
Proof. apply all_common_subsumers_filed. Qed.

Lemma all_common_subsumers_spec_witness :
  ∃ acs,
    outcome (all_common_subsumers Examples.chain "a" "c" "has_hyperonym" None) = Ok acs
    ∧ (∀ k v,
         (∃ group, acs !! k = Some group ∧ v ∈ group)
         ↔ ∃ lu, v = VStr (_lu_to_spec Examples.chain lu)
                 ∧ common_subsumer (_graph Examples.chain) (upper "has_hyperonym")
                                   (resolve Examples.chain "a") (resolve Examples.chain "c")
                                   lu k)
    ∧ (∀ k group, acs !! k = Some group → group ≠ []).
Proof.
  apply (all_common_subsumers_spec Examples.chain "a" "c" "has_hyperonym" None). reflexivity.
Defined.

Lemma least_common_subsumers_outcome
      (c : Cornet) (lu_spec1 lu_spec2 rel_name : string) (format : option string)
      (acs : gmap nat (list value)) :
  outcome (all_common_subsumers c lu_spec1 lu_spec2 rel_name format) = Ok acs →
  outcome (least_common_subsumers c lu_spec1 lu_spec2 rel_name format)
  = match min_key acs with
    | Some minimum =>
        match acs !! minimum with
        | Some group => Ok group
        | None => Raise KeyError
        end
    | None => Ok []
    end.
Proof.
  intros Hall. unfold least_common_subsumers.
  rewrite SimilarityFacts.outcome_bind, Hall. cbn [rbind].
  destruct (min_key acs) as [minimum|]; [|reflexivity].
  destruct (acs !! minimum); reflexivity.
Qed.

Lemma least_common_subsumers_elem
      (c : Cornet) (lu_spec1 lu_spec2 rel_name : string) (format : option string)
      (formatter : node → value) :
  _get_lex_unit_formatter c format = Ok formatter →
  ∃ lcss,
    outcome (least_common_subsumers c lu_spec1 lu_spec2 rel_name format) = Ok lcss
    ∧ ∀ v, v ∈ lcss ↔
           ∃ lu k, v = formatter lu
                   ∧ common_subsumer (_graph c) (upper rel_name)
                                     (resolve c lu_spec1) (resolve c lu_spec2) lu k
                   ∧ ∀ lu' k', common_subsumer (_graph c) (upper rel_name)
                                               (resolve c lu_spec1) (resolve c lu_spec2)
                                               lu' k' → k ≤ k'.
Proof.
  intros Hf.
  destruct (all_common_subsumers_filed c lu_spec1 lu_spec2 rel_name format formatter Hf)
    as (acs & Hall & Hfiled & Hne).
  rewrite (least_common_subsumers_outcome _ _ _ _ _ _ Hall).
  pose proof (min_key_spec acs) as Hmin.
  destruct (min_key acs) as [minimum|].
  - destruct Hmin as [[group Hg] Hleast]. rewrite Hg. exists group. split; [reflexivity|].
    intros v. split.
    + intros Hv. destruct (proj1 (Hfiled minimum v)) as (lu & -> & Hcs); [eauto|].
      exists lu, minimum. split; [reflexivity|]. split; [exact Hcs|].
      intros lu' k' Hcs'. apply Hleast.
      destruct (proj2 (Hfiled k' (formatter lu'))) as (group' & Hg' & _); [eauto|]. eauto.
    + intros (lu & k & -> & Hcs & Hk).
      destruct (proj2 (Hfiled k (formatter lu))) as (groupk & Hgk & Hin); [eauto|].
      assert (Hmk : minimum ≤ k) by (apply Hleast; eauto).
      destruct group as [|v0 group]; [exfalso; exact (Hne _ _ Hg eq_refl)|].
      destruct (proj1 (Hfiled minimum v0)) as (lu0 & _ & Hcs0).
      { exists (v0 :: group). split; [exact Hg|left]. }
      specialize (Hk _ _ Hcs0). assert (k = minimum) as -> by lia.
      rewrite Hg in Hgk. injection Hgk as <-. exact Hin.
  - subst acs. exists []. split; [reflexivity|]. intros v. split; [intros H; inversion H|].
    intros (lu & k & -> & Hcs & _).
    destruct (proj2 (Hfiled k (formatter lu))) as (group & Hg & _); [eauto|].
    rewrite lookup_empty in Hg. discriminate.
Qed.

(** [least_common_subsumers], for a known output format: it returns,
    and what it returns are exactly the units reached from both lists
    of units for which the sum of the two distances is least. *)
Theorem least_common_subsumers_least
        (c : Cornet) (lu_spec1 lu_spec2 rel_name : string) (format : option string)
        (formatter : node → value) :
  _get_lex_unit_formatter c format = Ok formatter →
  ∃ lcss,
    outcome (least_common_subsumers c lu_spec1 lu_spec2 rel_name format) = Ok lcss
    ∧ ∀ v, v ∈ lcss ↔
           ∃ lu k, v = formatter lu
                   ∧ common_subsumer (_graph c) (upper rel_name)
                                     (resolve c lu_spec1) (resolve c lu_spec2) lu k
                   ∧ ∀ lu' k', common_subsumer (_graph c) (upper rel_name)
                                               (resolve c lu_spec1) (resolve c lu_spec2)
                                               lu' k' → k ≤ k'.
Proof. apply least_common_subsumers_elem. Qed.

Lemma least_common_subsumers_least_witness :
  ∃ lcss,
    outcome (least_common_subsumers (SimCornet.cornet Examples.senses) "a" "b"
                                    "HAS_HYPERONYM" None) = Ok lcss
    ∧ ∀ v, v ∈ lcss ↔
           ∃ lu k, v = VStr (_lu_to_spec (SimCornet.cornet Examples.senses) lu)
                   ∧ common_subsumer (_graph (SimCornet.cornet Examples.senses))
                                     (upper "HAS_HYPERONYM")
                                     (resolve (SimCornet.cornet Examples.senses) "a")
                                     (resolve (SimCornet.cornet Examples.senses) "b") lu k
                   ∧ ∀ lu' k', common_subsumer (_graph (SimCornet.cornet Examples.senses))
                                               (upper "HAS_HYPERONYM")
                                               (resolve (SimCornet.cornet Examples.senses) "a")
                                               (resolve (SimCornet.cornet Examples.senses) "b")
                                               lu' k' → k ≤ k'.
Proof.
  apply (least_common_subsumers_least (SimCornet.cornet Examples.senses) "a" "b"
           "HAS_HYPERONYM" None).
  reflexivity.
Defined.

Lemma common_subsumer_sym g rel_name lus1 lus2 x k :
  common_subsumer g rel_name lus1 lus2 x k → common_subsumer g rel_name lus2 lus1 x k.
Proof. intros (d1 & d2 & H1 & H2 & ->). exists d2, d1. split; [|split]; [assumption..|lia]. Qed.

(** The order of the two specs does not matter to
    [least_common_subsumers]: exchanged, they give the same units,
    possibly in another order. *)
Theorem least_common_subsumers_symmetric
        (c : Cornet) (lu_spec1 lu_spec2 rel_name : string) (format : option string)
        (formatter : node → value) :
  _get_lex_unit_formatter c format = Ok formatter →
  ∃ lcss lcss',
    outcome (least_common_subsumers c lu_spec1 lu_spec2 rel_name format) = Ok lcss
    ∧ outcome (least_common_subsumers c lu_spec2 lu_spec1 rel_name format) = Ok lcss'
    ∧ ∀ v, v ∈ lcss ↔ v ∈ lcss'.
Proof.
  intros Hf.
  destruct (least_common_subsumers_elem c lu_spec1 lu_spec2 rel_name format formatter Hf)
    as (lcss & H1 & Hl).
  destruct (least_common_subsumers_elem c lu_spec2 lu_spec1 rel_name format formatter Hf)
    as (lcss' & H2 & Hl').
  exists lcss, lcss'. split; [exact H1|]. split; [exact H2|].
  intros v. rewrite Hl, Hl'.
  split; intros (lu & k & -> & Hcs & Hk); exists lu, k;
    (split; [reflexivity|]); (split; [apply common_subsumer_sym; exact Hcs|]);
    intros lu' k' Hcs'; apply (Hk lu'), common_subsumer_sym; exact Hcs'.
Qed.

Lemma least_common_subsumers_symmetric_witness :
  ∃ lcss lcss',
    outcome (least_common_subsumers (SimCornet.cornet Examples.senses) "a" "b"
                                    "HAS_HYPERONYM" None) = Ok lcss
    ∧ outcome (least_common_subsumers (SimCornet.cornet Examples.senses) "b" "a"
                                      "HAS_HYPERONYM" None) = Ok lcss'
    ∧ ∀ v, v ∈ lcss ↔ v ∈ lcss'.
Proof.
  apply (least_common_subsumers_symmetric (SimCornet.cornet Examples.senses) "a" "b"
           "HAS_HYPERONYM" None (fun lu => VStr (_lu_to_spec (SimCornet.cornet Examples.senses) lu))).
  reflexivity.
Defined.

End CommonSubsumerFacts.

(* ===================================================================== *)
(** * The graph built by the parser *)
(* ===================================================================== *)

Module ParseFacts.
Import Py Parse Induced Invariants GraphFacts TraversalFacts.

(** ** Which edges [add_edge] adds *)

Lemma has_edge_nx_add_edge g u v r x y b :
  NX.has_edge (NX.add_edge g u v r) x y b
  ↔ NX.has_edge g x y b ∨ (x = u ∧ y = v ∧ b = r).
Proof.
  unfold NX.has_edge. rewrite getitem2_add_edge.
  destruct (decide (x = u ∧ y = v)) as [[-> ->]|Hne].
  - split.
    + intros (kd & [= <-] & Hb). apply elem_of_app in Hb as [Hb|Hb].
      * destruct (NX.getitem2 g u v) as [kd|]; [|inversion Hb]. left. eauto.
      * apply list_elem_of_singleton in Hb. right. tauto.
    + intros [(kd & Hkd & Hb)|(_ & _ & ->)]; eexists; (split; [reflexivity|]).
      * rewrite Hkd. apply elem_of_app. left. exact Hb.
      * apply elem_of_app. right. left.
  - split; [tauto|]. intros [H|(-> & -> & _)]; [exact H|]. exfalso. apply Hne. tauto.
Qed.

Lemma has_edge_add_edge g u v r x y b :
  NX.has_edge (Parse.add_edge g u v r) x y b
  ↔ NX.has_edge g x y b ∨ (u ≠ v ∧ x = u ∧ y = v ∧ b = r).
Proof.
  unfold Parse.add_edge. destruct (Nat.eqb_spec u v) as [->|Hne].
  - split; [tauto|]. intros [H|[H _]]; [exact H|contradiction].
  - destruct (NX.getitem2 g u v) as [kd|] eqn:Hkd.
    + destruct (existsb (fun a => NX.attr_eqb a r) kd) eqn:Hex.
      * split; [tauto|]. intros [H|(_ & -> & -> & ->)]; [exact H|].
        exists kd. split; [exact Hkd|].
        apply existsb_exists in Hex as (a & Ha & Heq).
        apply attr_eqb_eq in Heq. subst a. apply list_elem_of_In. exact Ha.
      * rewrite has_edge_nx_add_edge. tauto.
    + rewrite has_edge_nx_add_edge. tauto.
Qed.

Lemma has_edge_add_node g n x y b :
  NX.has_edge (NX.add_node g n) x y b ↔ NX.has_edge g x y b.
Proof. unfold NX.has_edge. rewrite getitem2_add_node. reflexivity. Qed.

Lemma has_edge_add_nodes lus g x y b :
  NX.has_edge (fold_left NX.add_node lus g) x y b ↔ NX.has_edge g x y b.
Proof.
  revert g. induction lus as [|n lus IH]; intros g; [reflexivity|].
  cbn [fold_left]. rewrite IH. apply has_edge_add_node.
Qed.

Lemma has_edge_empty x y b : ¬ NX.has_edge NX.empty x y b.
Proof. intros (kd & Hkd & _). unfold NX.getitem2 in Hkd. cbn in Hkd.
  rewrite lookup_empty in Hkd. discriminate. Qed.

(** A loop whose every turn adds the edges [E a]. *)
Lemma has_edge_fold {A} (f : NX.MultiDiGraph → A → NX.MultiDiGraph)
      (E : A → node → node → NX.attr → Prop) :
  (∀ g a x y b, NX.has_edge (f g a) x y b ↔ NX.has_edge g x y b ∨ E a x y b) →
  ∀ l g x y b,
    NX.has_edge (fold_left f l g) x y b
    ↔ NX.has_edge g x y b ∨ ∃ a, a ∈ l ∧ E a x y b.
Proof.
  intros Hf l. induction l as [|a l IH]; intros g x y b; cbn [fold_left].
  - split; [tauto|]. intros [H|(a & Ha & _)]; [exact H|inversion Ha].
  - rewrite IH, Hf. split.
    + intros [[H|H]|(a' & Ha' & H)]; [tauto| |].
      * right. exists a. split; [left|exact H].
      * right. exists a'. split; [right; exact Ha'|exact H].
    + intros [H|(a' & Ha' & H)]; [tauto|].
      apply elem_of_cons in Ha' as [->|Ha']; [tauto|]. right. eauto.
Qed.

Lemma has_edge_synonym_edges_from nodes g from_node x y b :
  NX.has_edge (synonym_edges_from nodes g from_node) x y b
  ↔ NX.has_edge g x y b
    ∨ (x = from_node ∧ y ∈ nodes ∧ x ≠ y ∧ b = Some "SYNONYM"%string).
Proof.
  unfold synonym_edges_from.
  rewrite (has_edge_fold _ (fun to_node x y b =>
             x = from_node ∧ y = to_node ∧ x ≠ y ∧ b = Some "SYNONYM"%string)).
  - split; (intros [H|H]; [left; exact H|right]).
    + destruct H as (a & Ha & -> & -> & Hne & ->). tauto.
    + destruct H as (-> & Hy & Hne & ->). exists y. tauto.
  - intros g0 a x0 y0 b0. destruct (Nat.eqb_spec from_node a) as [->|Hne]; cbn [negb].
    + split; [tauto|]. intros [H|(-> & -> & Hne & _)]; [exact H|contradiction].
    + rewrite has_edge_add_edge. split; (intros [H|H]; [left; exact H|right]).
      * destruct H as (_ & -> & -> & ->). tauto.
      * destruct H as (-> & -> & _ & ->). tauto.
Qed.

Lemma synonym_fold_snd (c_sy_id : string) (all_nodes some_nodes : list node)
      (h : heap) (g : NX.MultiDiGraph) :
  fold_left (fun '(h, g) from_node =>
               (note_synset h from_node c_sy_id, synonym_edges_from all_nodes g from_node))
            some_nodes (h, g)
  = (fold_left (fun h from_node => note_synset h from_node c_sy_id) some_nodes h,
     fold_left (synonym_edges_from all_nodes) some_nodes g).
Proof.
  revert h g. induction some_nodes as [|n l IH]; intros h g; [reflexivity|].
  cbn [fold_left]. apply IH.
Qed.

Lemma has_edge_synonym_relations synset_el sy_id2lus h g h' g' x y b :
  _synonym_relations_to_edges synset_el sy_id2lus (h, g) = Ok (h', g') →
  NX.has_edge g' x y b
  ↔ NX.has_edge g x y b
    ∨ (x ≠ y ∧ b = Some "SYNONYM"%string ∧ synonym_pair sy_id2lus synset_el x y).
Proof.
  unfold _synonym_relations_to_edges, synonym_pair.
  destruct (lookup_lus sy_id2lus (ET.get synset_el "c_sy_id")) as [nodes|e];
    cbn [rbind]; [|discriminate].
  rewrite synonym_fold_snd. intros Heq. injection Heq as _ <-.
  rewrite (has_edge_fold _ (fun from_node x y b =>
             x = from_node ∧ y ∈ nodes ∧ x ≠ y ∧ b = Some "SYNONYM"%string)).
  - split; (intros [H|H]; [left; exact H|right]).
    + destruct H as (a & Ha & -> & Hy & Hne & ->). split; [exact Hne|].
      split; [reflexivity|]. exists nodes. tauto.
    + destruct H as (Hne & -> & nodes' & [= <-] & Hx & Hy). exists x. tauto.
  - intros g0 a x0 y0 b0. apply has_edge_synonym_edges_from.
Qed.

Lemma has_edge_edges_between from_nodes to_nodes r g x y b :
  NX.has_edge (edges_between from_nodes to_nodes r g) x y b
  ↔ NX.has_edge g x y b ∨ (x ∈ from_nodes ∧ y ∈ to_nodes ∧ x ≠ y ∧ b = r).
Proof.
  unfold edges_between.
  rewrite (has_edge_fold _ (fun from_node x y b =>
             x = from_node ∧ y ∈ to_nodes ∧ x ≠ y ∧ b = r)).
  - split; (intros [H|H]; [left; exact H|right]).
    + destruct H as (a & Ha & -> & Hy & Hne & ->). tauto.
    + destruct H as (Hx & Hy & Hne & ->). exists x. tauto.
  - intros g0 from_node x0 y0 b0.
    rewrite (has_edge_fold _ (fun to_node x y b =>
               x = from_node ∧ y = to_node ∧ x ≠ y ∧ b = r)).
    + split; (intros [H|H]; [left; exact H|right]).
      * destruct H as (a & Ha & -> & -> & Hne & ->). tauto.
      * destruct H as (-> & Hy & Hne & ->). exists y0. tauto.
    + intros g1 to_node x1 y1 b1. rewrite has_edge_add_edge.
      split; (intros [H|H]; [left; exact H|right]).
      * destruct H as (Hne & -> & -> & ->). tauto.
      * destruct H as (-> & -> & Hne & ->). tauto.
Qed.

Lemma has_edge_wn_internal_relations synset_el sy_id2lus g g' x y b :
  _wn_internal_relations_to_edges synset_el sy_id2lus g = Ok g' →
  NX.has_edge g' x y b
  ↔ NX.has_edge g x y b ∨ (x ≠ y ∧ related_pair sy_id2lus synset_el b x y).
Proof.
  unfold _wn_internal_relations_to_edges, related_pair.
  destruct (lookup_lus sy_id2lus (ET.get synset_el "c_sy_id")) as [from_nodes|e];
    cbn [rbind]; [|discriminate].
  intros [= <-].
  rewrite (has_edge_fold _ (fun relation_el x y b =>
             ∃ to_nodes, lookup_lus sy_id2lus (ET.get relation_el "target") = Ok to_nodes
                         ∧ x ∈ from_nodes ∧ y ∈ to_nodes ∧ x ≠ y
                         ∧ b = ET.get relation_el "relation_name")).
  - split; (intros [H|H]; [left; exact H|right]).
    + destruct H as (rel & Hrel & to_nodes & Hto & Hx & Hy & Hne & ->).
      split; [exact Hne|]. exists from_nodes, rel, to_nodes. tauto.
    + destruct H as (Hne & from' & rel & to_nodes & [= <-] & Hrel & <- & Hto & Hx & Hy).
      exists rel. split; [exact Hrel|]. exists to_nodes. tauto.
  - intros g0 rel x0 y0 b0.
    destruct (lookup_lus sy_id2lus (ET.get rel "target")) as [to_nodes|e].
    + rewrite has_edge_edges_between. split; (intros [H|H]; [left; exact H|right]).
      * exists to_nodes. tauto.
      * destruct H as (to' & [= <-] & H). tauto.
    + split; [tauto|]. intros [H|(to' & Hto & _)]; [exact H|discriminate].
Qed.

Lemma has_edge_relations_to_edges synsets sy_id2lus h g h' g' x y b :
  _relations_to_edges synsets sy_id2lus (h, g) = Ok (h', g') →
  NX.has_edge g' x y b ↔ NX.has_edge g x y b ∨ induced_edge synsets sy_id2lus x y b.
Proof.
  unfold induced_edge.
  revert h g. induction synsets as [|synset_el synsets IH]; intros h g; cbn [_relations_to_edges].
  - intros [= <- <-]. split; [tauto|]. intros [H|(_ & s & Hs & _)]; [exact H|inversion Hs].
  - destruct (_synonym_relations_to_edges synset_el sy_id2lus (h, g))
      as [[h1 g1]|e] eqn:E1; cbn [rbind]; [|discriminate].
    destruct (_wn_internal_relations_to_edges synset_el sy_id2lus g1)
      as [g2|e] eqn:E2; cbn [rbind]; [|discriminate].
    intros Hrest. rewrite (IH _ _ Hrest).
    rewrite (has_edge_wn_internal_relations _ _ _ _ x y b E2).
    rewrite (has_edge_synonym_relations _ _ _ _ _ _ x y b E1).
    split.
    + intros [[[H|(Hne & -> & Hp)]|(Hne & Hp)]|(Hne & s & Hs & Hp)]; [tauto| | |].
      * right. split; [exact Hne|]. exists synset_el. split; [left|]. left. tauto.
      * right. split; [exact Hne|]. exists synset_el. split; [left|]. right. exact Hp.
      * right. split; [exact Hne|]. exists s. split; [right; exact Hs|exact Hp].
    + intros [H|(Hne & s & Hs & Hp)]; [tauto|].
      apply elem_of_cons in Hs as [->|Hs].
      * destruct Hp as [[-> Hp]|Hp]; [left; left; right; tauto|left; right; tauto].
      * right. split; [exact Hne|]. exists s. tauto.
Qed.

(** The graph [parse_cdb] builds has exactly the edges the synset
    records call for: a SYNONYM edge between any two distinct members
    of a synset, and, for every relation record of a synset whose
    target is a synset of the table, an edge with the name of the
    record from every member of the synset to every other unit that
    is a member of the target. *)
Theorem parse_cdb_edges h lus synsets sy_id2lus h' g :
  parse_cdb h lus synsets sy_id2lus = Ok (h', g) →
  ∀ u v a, NX.has_edge g u v a ↔ induced_edge synsets sy_id2lus u v a.
Proof.
  unfold parse_cdb. intros Hp u v a.
  rewrite (has_edge_relations_to_edges _ _ _ _ _ _ u v a Hp), has_edge_add_nodes.
  split; [|tauto]. intros [H|H]; [|exact H]. exfalso. exact (has_edge_empty _ _ _ H).
Qed.

Lemma parse_cdb_edges_witness :
  parse_cdb Examples.abc_heap [1; 2; 3; 4] Examples.abc_synsets Examples.abc_sy_id2lus
  = Ok (Examples.abc_heap', Examples.abc_graph)
  ∧ (∀ u v a, NX.has_edge Examples.abc_graph u v a
              ↔ induced_edge Examples.abc_synsets Examples.abc_sy_id2lus u v a).
Proof.
  split; [vm_compute; reflexivity|].
  apply (parse_cdb_edges Examples.abc_heap [1; 2; 3; 4] Examples.abc_synsets
           Examples.abc_sy_id2lus Examples.abc_heap').
  vm_compute. reflexivity.
Defined.

(** ** Nodes *)

Lemma nx_add_edge_keeps_nodes g u v r n :
  is_Some (NX.succ g !! n) → is_Some (NX.succ (NX.add_edge g u v r) !! n).
Proof.
  intros Hn. unfold NX.add_edge. cbn [NX.succ].
  destruct (decide (n = u)) as [->|Hne].
  - rewrite lookup_insert_eq. eauto.
  - rewrite lookup_insert_ne by congruence.
    apply add_node_keeps_nodes, add_node_keeps_nodes. exact Hn.
Qed.

Lemma add_edge_keeps_nodes n g u v r :
  is_Some (NX.succ g !! n) → is_Some (NX.succ (Parse.add_edge g u v r) !! n).
Proof.
  intros Hn. unfold Parse.add_edge. destruct (Nat.eqb u v); [exact Hn|].
  destruct (NX.getitem2 g u v) as [kd|]; [destruct (existsb _ kd); [exact Hn|]|];
    apply nx_add_edge_keeps_nodes; exact Hn.
Qed.

Lemma add_nodes_are_nodes lus g n :
  n ∈ lus ∨ is_Some (NX.succ g !! n) → is_Some (NX.succ (fold_left NX.add_node lus g) !! n).
Proof.
  revert g. induction lus as [|a lus IH]; intros g; cbn [fold_left].
  - intros [H|H]; [inversion H|exact H].
  - intros [H|H]; apply IH.
    + apply elem_of_cons in H as [->|H]; [right; apply add_node_is_node|left; exact H].
    + right. apply add_node_keeps_nodes. exact H.
Qed.

Lemma has_node_true g n : NX.has_node g n = true ↔ is_Some (NX.succ g !! n).
Proof. unfold NX.has_node. apply bool_decide_eq_true. Qed.

Lemma wf_edge_ends g u v a :
  NX.wf g → NX.has_edge g u v a →
  is_Some (NX.succ g !! u) ∧ is_Some (NX.succ g !! v).
Proof.
  intros [Hkeys Hmir] (kd & Hkd & _). split.
  - unfold NX.getitem2 in Hkd. destruct (NX.succ g !! u); [eauto|discriminate].
  - rewrite Hmir in Hkd. unfold NX.getpred in Hkd.
    destruct (NX.pred g !! v) as [nbrs|] eqn:Hp; [|discriminate].
    destruct (NX.succ g !! v) as [s|] eqn:Hs; [eauto|].
    apply Hkeys in Hs. congruence.
Qed.

(** In the graph [parse_cdb] builds, every lexical unit of the file is
    a node, whether a synset lists it or not; both ends of every edge
    are nodes; and the edges that enter a node are the edges that
    leave their sources for it. *)
Theorem parse_cdb_nodes h lus synsets sy_id2lus h' g :
  parse_cdb h lus synsets sy_id2lus = Ok (h', g) →
  (∀ lu, lu ∈ lus → NX.has_node g lu = true)
  ∧ (∀ u v a, NX.has_edge g u v a → NX.has_node g u = true ∧ NX.has_node g v = true)
  ∧ (∀ u v a, (u, v, a) ∈ NX.in_edges_iter g [v] ↔ (u, v, a) ∈ NX.out_edges_iter g [u]).
Proof.
  intros Hp. pose proof (parse_cdb_wf _ _ _ _ _ _ Hp) as Hwf.
  split; [|split].
  - intros lu Hlu. apply has_node_true. unfold parse_cdb in Hp.
    eapply (relations_to_edges_preserves (fun g => is_Some (NX.succ g !! lu)));
      [intros g0 u v r; apply add_edge_keeps_nodes|exact Hp|].
    apply add_nodes_are_nodes. left. exact Hlu.
  - intros u v a He. rewrite !has_node_true. eapply wf_edge_ends; eassumption.
  - intros u v a. rewrite (elem_of_in_edges_iter g [v] u v a Hwf), elem_of_out_edges_iter.
    rewrite !list_elem_of_singleton. tauto.
Qed.

Lemma parse_cdb_nodes_witness :
  (∀ lu, lu ∈ [1; 2; 3; 4] → NX.has_node Examples.abc_graph lu = true)
  ∧ (∀ u v a, NX.has_edge Examples.abc_graph u v a
              → NX.has_node Examples.abc_graph u = true
                ∧ NX.has_node Examples.abc_graph v = true)
  ∧ (∀ u v a, (u, v, a) ∈ NX.in_edges_iter Examples.abc_graph [v]
              ↔ (u, v, a) ∈ NX.out_edges_iter Examples.abc_graph [u]).
Proof.
  apply (parse_cdb_nodes Examples.abc_heap [1; 2; 3; 4] Examples.abc_synsets
           Examples.abc_sy_id2lus Examples.abc_heap').
  vm_compute. reflexivity.
Defined.

(** ** The back-references on the units *)

Lemma assoc_set_assoc key value key' l :
  ET.assoc key' (set_assoc key value l)
  = if String.eqb key key' then Some value else ET.assoc key' l.
Proof.
  induction l as [|[k v] l IH]; cbn [set_assoc ET.assoc].
  - destruct (String.eqb_spec key key'); reflexivity.
  - destruct (String.eqb_spec k key) as [->|Hne]; cbn [ET.assoc].
    + destruct (String.eqb_spec key key'); reflexivity.
    + rewrite IH. destruct (String.eqb_spec k key') as [->|Hne'].
      * destruct (String.eqb_spec key key') as [->|_]; [contradiction|reflexivity].
      * reflexivity.
Qed.

Lemma join_snoc (sep : string) (l : list string) (x : string) :
  l ≠ [] → join sep (l ++ [x]) = (join sep l ++ sep ++ x)%string.
Proof.
  induction l as [|a l IH]; [congruence|]. intros _.
  destruct l as [|b l]; [reflexivity|].
  change (join sep ((a :: b :: l) ++ [x]))
    with (a ++ sep ++ join sep ((b :: l) ++ [x]))%string.
  rewrite IH by discriminate.
  change (join sep (a :: b :: l)) with (a ++ sep ++ join sep (b :: l))%string.
  rewrite !SpecParserFacts.string_app_assoc. reflexivity.
Qed.

Lemma back_reference_snoc (old : option string) (ids : list string) (id : string) :
  back_reference old (ids ++ [id])
  = Some (match back_reference old ids with
          | Some s => (s ++ "," ++ id)%string
          | None => id
          end).
Proof.
  unfold back_reference. destruct old as [s|].
  - change (s :: ids ++ [id]) with ((s :: ids) ++ [id]). rewrite join_snoc by discriminate.
    reflexivity.
  - destruct ids as [|a ids]; [reflexivity|].
    rewrite join_snoc by discriminate. reflexivity.
Qed.

Section BackReferences.
Variable lu : node.
Variable e0 : option ET.Element.

(** The unit [lu], which the file had as [e0], after the ids [ids]. *)
Let state (ids : list string) (h : heap) : Prop :=
  match e0 with
  | Some e => ∃ e', h !! lu = Some e' ∧ unit_after e ids e'
  | None => h !! lu = None
  end.

Lemma state_note_synset ids h n id :
  state ids h →
  state (ids ++ if decide (n = lu) then [id] else []) (note_synset h n id).
Proof.
  unfold state, note_synset. intros Hst.
  destruct (decide (n = lu)) as [->|Hne].
  - destruct e0 as [e|].
    + destruct Hst as (e' & He' & Htag & Hch & Hkeys & Hid). rewrite He'.
      eexists. split; [apply lookup_insert_eq|].
      unfold unit_after, set_attr, ET.get in *. cbn [ET.tag ET.children ET.attrib].
      split; [exact Htag|]. split; [exact Hch|]. split.
      * intros key Hkey. rewrite assoc_set_assoc.
        destruct (String.eqb_spec "c_sy_id" key) as [<-|_]; [congruence|]. apply Hkeys, Hkey.
      * rewrite assoc_set_assoc. cbn [String.eqb Ascii.eqb Bool.eqb].
        rewrite back_reference_snoc, <- Hid. reflexivity.
    + rewrite Hst. exact Hst.
  - rewrite app_nil_r. destruct (h !! n) as [en|]; [|exact Hst].
    destruct e0 as [e|].
    + destruct Hst as (e' & He' & Hafter). exists e'. split; [|exact Hafter].
      rewrite lookup_insert_ne by exact Hne. exact He'.
    + rewrite lookup_insert_ne by exact Hne. exact Hst.
Qed.

Lemma state_note_all ids h nodes id :
  state ids h →
  state (ids ++ repeat id (count_occ Nat.eq_dec nodes lu))
        (fold_left (fun h from_node => note_synset h from_node id) nodes h).
Proof.
  revert ids h. induction nodes as [|n nodes IH]; intros ids h Hst; cbn [fold_left count_occ].
  - cbn [repeat]. rewrite app_nil_r. exact Hst.
  - pose proof (state_note_synset ids h n id Hst) as Hst'.
    apply IH in Hst'. destruct (Nat.eq_dec n lu) as [->|Hne].
    + rewrite decide_True in Hst' by reflexivity.
      cbn [repeat]. rewrite <- app_assoc in Hst'. exact Hst'.
    + rewrite decide_False in Hst' by exact Hne. rewrite app_nil_r in Hst'. exact Hst'.
Qed.

Lemma state_relations_to_edges synsets sy_id2lus ids h g h' g' :
  _relations_to_edges synsets sy_id2lus (h, g) = Ok (h', g') →
  state ids h → state (ids ++ listing_ids synsets sy_id2lus lu) h'.
Proof.
  revert ids h g. induction synsets as [|synset_el synsets IH]; intros ids h g;
    cbn [_relations_to_edges].
  - intros [= <- <-]. unfold listing_ids. cbn [flat_map]. rewrite app_nil_r. tauto.
  - destruct (_synonym_relations_to_edges synset_el sy_id2lus (h, g))
      as [[h1 g1]|e] eqn:E1; cbn [rbind]; [|discriminate].
    destruct (_wn_internal_relations_to_edges synset_el sy_id2lus g1)
      as [g2|e] eqn:E2; cbn [rbind]; [|discriminate].
    intros Hrest Hst.
    unfold listing_ids. cbn [flat_map]. fold (listing_ids synsets sy_id2lus lu).
    rewrite app_assoc. eapply IH; [exact Hrest|].
    unfold _synonym_relations_to_edges in E1.
    destruct (lookup_lus sy_id2lus (ET.get synset_el "c_sy_id")) as [nodes|e];
      cbn [rbind] in E1; [|discriminate].
    rewrite synonym_fold_snd in E1. injection E1 as <- _.
    apply state_note_all. exact Hst.
Qed.

End BackReferences.

Lemma parse_cdb_unit_after h lus synsets sy_id2lus h' g :
  parse_cdb h lus synsets sy_id2lus = Ok (h', g) →
  ∀ lu,
    match h !! lu with
    | Some e => ∃ e', h' !! lu = Some e'
                      ∧ unit_after e (listing_ids synsets sy_id2lus lu) e'
    | None => h' !! lu = None
    end.
Proof.
  unfold parse_cdb. intros Hp lu.
  pose proof (state_relations_to_edges lu (h !! lu) synsets sy_id2lus [] h _ h' g Hp) as Hst.
  cbn [app] in Hst. apply Hst. clear Hst.
  destruct (h !! lu) as [e|] eqn:He; [|reflexivity].
  exists e. split; [reflexivity|]. unfold unit_after, back_reference.
  split; [reflexivity|]. split; [reflexivity|]. split; [reflexivity|].
  destruct (ET.get e "c_sy_id"); reflexivity.
Qed.

(** [parse_cdb] leaves every lexical unit as the file had it, but for
    the attribute [c_sy_id]: to that (which the file does not give) it
    appends, separated by commas, the id of every synset that lists
    the unit, in the order the synsets are gone through, once for
    every time the unit is listed.  Tag, child elements (so the
    [<form>]) and the other attributes are unchanged, and no unit is
    added to or dropped from the file's. *)
Theorem parse_cdb_back_references h lus synsets sy_id2lus h' g :
  parse_cdb h lus synsets sy_id2lus = Ok (h', g) →
  ∀ lu,
    match h !! lu with
    | Some e => ∃ e', h' !! lu = Some e'
                      ∧ unit_after e (listing_ids synsets sy_id2lus lu) e'
    | None => h' !! lu = None
    end.
Proof. apply parse_cdb_unit_after. Qed.

Lemma parse_cdb_back_references_witness :
  parse_cdb Examples.abc_heap [1; 2; 3; 4] Examples.abc_synsets Examples.abc_sy_id2lus
  = Ok (Examples.abc_heap', Examples.abc_graph)
  ∧ (∀ lu,
       match Examples.abc_heap !! lu with
       | Some e => ∃ e', Examples.abc_heap' !! lu = Some e'
                         ∧ unit_after e (listing_ids Examples.abc_synsets
                                                     Examples.abc_sy_id2lus lu) e'
       | None => Examples.abc_heap' !! lu = None
       end).
Proof.
  split; [vm_compute; reflexivity|].
  apply (parse_cdb_back_references Examples.abc_heap [1; 2; 3; 4] Examples.abc_synsets
           Examples.abc_sy_id2lus Examples.abc_heap' Examples.abc_graph).
  vm_compute. reflexivity.
Defined.

Example back_reference_ex :
  ET.get (default (ET.Elem "" [] []) (Examples.abc_heap' !! 1)) "c_sy_id" = Some "abc,abc"%string.
Proof. vm_compute. reflexivity. Qed.

End ParseFacts.

(* ===================================================================== *)
(** * Resolving unit specifications *)
(* ===================================================================== *)

Module LexUnitFacts.
Import Py SpecParser Cornet SpecParserFacts.

(** ** Blanks before a spec *)

Lemma lstrip_blank_prefix (ws s : string) :
  lstrip ws = EmptyString → lstrip (ws ++ s) = lstrip s.
Proof.
  induction ws as [|ch ws IH]; [reflexivity|].
  cbn [lstrip String.append]. change (String ch ws ++ s)%string with (String ch (ws ++ s)).
  cbn [lstrip]. destruct (is_space ch); [exact IH|discriminate].
Qed.

(** [get_lex_units] does not see blanks in front of a spec: the same
    index lookup, the same units.  (Blanks after the spec are part of
    its last field.) *)
Theorem get_lex_units_ignores_leading_blanks
        (c : Cornet) (ws spec : string) (format : option string) :
  lstrip ws = EmptyString →
  get_lex_units c (ws ++ spec) format = get_lex_units c spec format.
Proof.
  intros Hws. unfold get_lex_units.
  rewrite !split_unit_spec_fields, (lstrip_blank_prefix _ _ Hws). reflexivity.
Qed.

Lemma get_lex_units_ignores_leading_blanks_witness :
  get_lex_units Examples.lamps "  lamp:noun" None = get_lex_units Examples.lamps "lamp:noun" None
  ∧ get_lex_units Examples.lamps "lamp " None = ([Ev_form2lu_get "lamp "], Ok []).
Proof.
  split.
  - apply (get_lex_units_ignores_leading_blanks Examples.lamps "  " "lamp:noun" None).
    reflexivity.
  - vm_compute. reflexivity.
Defined.

(** ** The category filter *)

Lemma lower_char_idem (ch : ascii) : lower_char (lower_char ch) = lower_char ch.
Proof. destruct ch as [[] [] [] [] [] [] [] []]; reflexivity. Qed.

Lemma lower_idem (s : string) : lower (lower s) = lower s.
Proof.
  unfold lower. induction s as [|ch s IH]; [reflexivity|].
  cbn [map_string]. rewrite lower_char_idem, IH. reflexivity.
Qed.

Lemma lu_has_cat_lower (c : Cornet) (lu : node) (cat : string) :
  lower cat ≠ cat → _lu_has_cat c lu cat = false.
Proof.
  intros Hcat. unfold _lu_has_cat.
  destruct cat as [|ch cat]; [exfalso; apply Hcat; reflexivity|]. cbn [truthy negb orb].
  destruct (ET.find (deref c lu) "form") as [f|]; [|reflexivity].
  destruct (ET.get f "form-cat") as [v|]; [|reflexivity].
  destruct (String.eqb_spec (lower v) (String ch cat)) as [Heq|]; [|reflexivity].
  exfalso. apply Hcat. rewrite <- Heq. apply lower_idem.
Qed.

(** The category of a unit is compared in lower case with the category
    of the spec as it is written: a spec whose category has a capital
    letter matches no unit at all, whatever the database holds. *)
Theorem capital_category_matches_nothing
        (c : Cornet) (spec form cat sense : string) (format : option string)
        (formatter : node → value) :
  unpack3 (_split_unit_spec spec) = Ok (form, cat, sense) →
  lower cat ≠ cat →
  _get_lex_unit_formatter c format = Ok formatter →
  resolve c spec = [] ∧ outcome (get_lex_units c spec format) = Ok [].
Proof.
  intros Hsplit Hcat Hf.
  assert (Hnone : matching_lus c form cat sense = []).
  { unfold matching_lus. induction (default [] (_form2lu c !! form)) as [|lu l IH];
      [reflexivity|].
    cbn [List.filter]. rewrite (lu_has_cat_lower c lu cat Hcat). exact IH. }
  split.
  - unfold resolve. rewrite Hsplit. exact Hnone.
  - unfold get_lex_units. rewrite Hsplit. cbn [lift bind]. rewrite Hf. cbn [lift bind tick ret].
    rewrite Hnone. reflexivity.
Qed.

Lemma capital_category_matches_nothing_witness :
  resolve Examples.lamps "lamp:NOUN" = []
  ∧ outcome (get_lex_units Examples.lamps "lamp:NOUN" None) = Ok [].
Proof.
  apply (capital_category_matches_nothing Examples.lamps "lamp:NOUN" "lamp" "NOUN" "" None
           (fun lu => VStr (_lu_to_spec Examples.lamps lu))).
  - reflexivity.
  - discriminate.
  - reflexivity.
Defined.

(** ** From a unit to its spec and back *)

Lemma lstrip_fixed_app (a t : string) :
  lstrip a = a → lstrip (a ++ String ":" t) = (a ++ String ":" t)%string.
Proof.
  intros Ha. rewrite (lstrip_app_nonspace a t ":") by reflexivity. rewrite Ha. reflexivity.
Qed.

Lemma split_fields (a b d : string) :
  split ":" a = [a] → split ":" b = [b] → split ":" d = [d] →
  split ":" (a ++ ":" ++ b ++ ":" ++ d) = [a; b; d].
Proof.
  intros Ha Hb Hd.
  change (a ++ ":" ++ b ++ ":" ++ d)%string with (a ++ String ":" (b ++ String ":" d))%string.
  rewrite !split_app_sep, Ha, Hb, Hd. reflexivity.
Qed.

Lemma lu_to_spec_resolves (c : Cornet) (lu : node) :
  lu ∈ default [] (_form2lu c !! _get_lu_form c lu) →
  split ":" (_get_lu_form c lu) = [_get_lu_form c lu] →
  split ":" (_get_lu_cat c lu) = [_get_lu_cat c lu] →
  split ":" (_get_lu_sense c lu) = [_get_lu_sense c lu] →
  lstrip (_get_lu_form c lu) = _get_lu_form c lu →
  lower (_get_lu_cat c lu) = _get_lu_cat c lu →
  lu ∈ resolve c (_lu_to_spec c lu).
Proof.
  intros Hin Hform Hcat Hsense Hstrip Hlower.
  unfold resolve. rewrite split_unit_spec_fields.
  unfold _lu_to_spec.
  change (join ":" [_get_lu_form c lu; _get_lu_cat c lu; _get_lu_sense c lu])
    with (_get_lu_form c lu ++ ":" ++ _get_lu_cat c lu ++ ":" ++ _get_lu_sense c lu)%string.
  change (_get_lu_form c lu ++ ":" ++ _get_lu_cat c lu ++ ":" ++ _get_lu_sense c lu)%string
    with (_get_lu_form c lu ++ String ":" (_get_lu_cat c lu ++ ":" ++ _get_lu_sense c lu))%string
    at 1.
  rewrite (lstrip_fixed_app _ _ Hstrip).
  change (_get_lu_form c lu ++ String ":" (_get_lu_cat c lu ++ ":" ++ _get_lu_sense c lu))%string
    with (_get_lu_form c lu ++ ":" ++ _get_lu_cat c lu ++ ":" ++ _get_lu_sense c lu)%string.
  rewrite (split_fields _ _ _ Hform Hcat Hsense). cbn [app firstn unpack3].
  unfold matching_lus. apply list_elem_of_In, filter_In. split; [apply list_elem_of_In, Hin|].
  apply andb_true_intro. split.
  - unfold _lu_has_cat. unfold _get_lu_cat in *.
    destruct (ET.find (deref c lu) "form") as [f|]; [|reflexivity].
    unfold ET.get_default in *. destruct (ET.get f "form-cat") as [v|]; [|reflexivity].
    rewrite Hlower, String.eqb_refl. apply orb_true_r.
  - unfold _lu_has_sense, _get_lu_sense, ET.get_default.
    destruct (ET.get (deref c lu) "c_seq_nr") as [v|]; [|reflexivity].
    rewrite String.eqb_refl. apply orb_true_r.
Qed.

(** The spec [_lu_to_spec] writes for a unit finds the unit again,
    provided the unit is filed in the index under its own form, none of
    form, category and sense holds a colon, the form does not begin
    with a blank, and the category is in lower case. *)
Theorem lu_to_spec_finds_unit (c : Cornet) (lu : node) :
  lu ∈ default [] (_form2lu c !! _get_lu_form c lu) →
  split ":" (_get_lu_form c lu) = [_get_lu_form c lu] →
  split ":" (_get_lu_cat c lu) = [_get_lu_cat c lu] →
  split ":" (_get_lu_sense c lu) = [_get_lu_sense c lu] →
  lstrip (_get_lu_form c lu) = _get_lu_form c lu →
  lower (_get_lu_cat c lu) = _get_lu_cat c lu →
  lu ∈ resolve c (_lu_to_spec c lu).
Proof. apply lu_to_spec_resolves. Qed.

Lemma lu_to_spec_finds_unit_witness : 3 ∈ resolve Examples.lamps (_lu_to_spec Examples.lamps 3).
Proof.
  apply (lu_to_spec_finds_unit Examples.lamps 3); [|reflexivity..].
  vm_compute. left.
Defined.

End LexUnitFacts.

(* ===================================================================== *)
(** * Settings *)
(* ===================================================================== *)

Module SettingsFacts.
Import Py SpecParser Cornet CornetInit SpecParserFacts.

Lemma handled_cases (f : string) :
  existsb (String.eqb f) _handled_output_formats = true
  ↔ f = "spec"%string ∨ f = "xml"%string ∨ f = "raw"%string.
Proof.
  cbn [existsb _handled_output_formats]. rewrite !orb_true_iff, !String.eqb_eq.
  split; [intros [?|[?|[?|?]]]; try tauto; discriminate|tauto].
Qed.

Lemma handled_In (f : string) :
  existsb (String.eqb f) _handled_output_formats = true ↔ In f _handled_output_formats.
Proof.
  rewrite handled_cases. cbn [In _handled_output_formats].
  split; [intros [-> | [-> | ->]]; tauto|intros [<- | [<- | [<- | []]]]; tauto].
Qed.

(** [set_output_format] takes exactly the three formats; any other
    string raises, and what is raised is the [TypeError] of adding the
    tuple of formats to the message, not the [ValueError] the message
    was meant for.  After a format has been set, a query without
    format selector answers as the same query with that selector did
    before. *)
Theorem set_output_format_selects (c : Cornet) (format : string) :
  match set_output_format c format with
  | Ok c' =>
      In format _handled_output_formats
      ∧ _output_format c' = format ∧ _max_depth c' = _max_depth c ∧ same_tables c c'
      ∧ (∀ spec, get_lex_units c' spec None = get_lex_units c spec (Some format))
      ∧ (∀ lu_spec rel_spec,
           get_related_lex_units c' lu_spec rel_spec None
           = get_related_lex_units c lu_spec rel_spec (Some format))
      ∧ (∀ from_lu_spec rel_spec to_lu_spec,
           test_lex_units_relation c' from_lu_spec rel_spec to_lu_spec None
           = test_lex_units_relation c from_lu_spec rel_spec to_lu_spec (Some format))
      ∧ (∀ lu_spec1 lu_spec2 rel_name,
           least_common_subsumers c' lu_spec1 lu_spec2 rel_name None
           = least_common_subsumers c lu_spec1 lu_spec2 rel_name (Some format))
  | Raise e => ¬ In format _handled_output_formats ∧ e = TypeError
  end.
Proof.
  unfold set_output_format.
  destruct (existsb (String.eqb format) _handled_output_formats) eqn:Hex.
  - split; [apply handled_In; exact Hex|].
    split; [reflexivity|]. split; [reflexivity|].
    split; [repeat split|].
    apply handled_cases in Hex.
    destruct Hex as [-> | [-> | ->]]; repeat split; intros; reflexivity.
  - split; [|reflexivity]. rewrite <- handled_In, Hex. discriminate.
Qed.

(** An instance [__init__] has created holds a known output format and
    a maximum depth from 1 to 9, and the two setters keep it so: they
    change their own setting, or raise.  With such settings, a query
    without format selector finds its formatters. *)
Theorem settings_stay_valid :
  (∀ opened output_format max_depth c,
     __init__ opened output_format max_depth = Ok c →
     settings_ok c ∧ same_tables opened c
     ∧ _output_format c = output_format ∧ _max_depth c = max_depth)
  ∧ (∀ c format c', settings_ok c → set_output_format c format = Ok c' → settings_ok c')
  ∧ (∀ c max_depth c', settings_ok c → set_max_depth c max_depth = Ok c' → settings_ok c')
  ∧ (∀ c, settings_ok c →
          ∃ lu_formatter rel_formatter,
            _get_lex_unit_formatter c None = Ok lu_formatter
            ∧ _get_relation_formatter c None = Ok rel_formatter).
Proof.
  assert (Hfmt : ∀ c format c', set_output_format c format = Ok c' →
                 In format _handled_output_formats ∧ _output_format c' = format
                 ∧ _max_depth c' = _max_depth c ∧ same_tables c c').
  { intros c format c'. unfold set_output_format.
    destruct (existsb (String.eqb format) _handled_output_formats) eqn:Hex; [|discriminate].
    intros [= <-]. split; [apply handled_In; exact Hex|]. repeat split. }
  assert (Hdepth : ∀ c max_depth c', set_max_depth c max_depth = Ok c' →
                   (1 ≤ max_depth ≤ 9)%Z ∧ _max_depth c' = max_depth
                   ∧ _output_format c' = _output_format c ∧ same_tables c c').
  { intros c max_depth c'. unfold set_max_depth.
    destruct ((0 <? max_depth)%Z && (max_depth <? 10)%Z) eqn:Hr; [|discriminate].
    intros [= <-]. apply andb_true_iff in Hr as [H0 H10].
    apply Z.ltb_lt in H0, H10. split; [lia|]. repeat split. }
  split; [|split; [|split]].
  - intros opened output_format max_depth c. unfold __init__.
    destruct (set_output_format opened output_format) as [c1|e] eqn:E1; [|discriminate].
    cbn [rbind]. intros E2.
    destruct (Hfmt _ _ _ E1) as (Hin & Hf1 & _ & Ht1).
    destruct (Hdepth _ _ _ E2) as (Hr & Hd2 & Hf2 & Ht2).
    unfold settings_ok. rewrite Hf2, Hf1, Hd2.
    split; [tauto|]. split; [|tauto].
    unfold same_tables in *. destruct Ht1 as (A1 & A2 & A3 & A4 & A5).
    destruct Ht2 as (B1 & B2 & B3 & B4 & B5). repeat split; congruence.
  - intros c format c' [_ Hr] E. destruct (Hfmt _ _ _ E) as (Hin & Hf & Hd & _).
    unfold settings_ok. rewrite Hf, Hd. split; [exact Hin|exact Hr].
  - intros c max_depth c' [Hin _] E. destruct (Hdepth _ _ _ E) as (Hr & Hd & Hf & _).
    unfold settings_ok. rewrite Hd, Hf. tauto.
  - intros c [Hin _]. unfold _get_lex_unit_formatter, _get_relation_formatter.
    cbn [effective_format].
    cbn [In _handled_output_formats] in Hin.
    destruct Hin as [<- | [<- | [<- | []]]]; cbn; eauto.
Qed.

End SettingsFacts.

(* ===================================================================== *)
(** * Relation specifications *)
(* ===================================================================== *)

Module RelationSpecFacts.
Import Py SpecParser Cornet CornetInit SpecParserFacts.

(** ** Relation names in any case *)

Lemma upper_char_idem (ch : ascii) : upper_char (upper_char ch) = upper_char ch.
Proof. destruct ch as [[] [] [] [] [] [] [] []]; reflexivity. Qed.

Lemma upper_idem (s : string) : upper (upper s) = upper s.
Proof.
  unfold upper. induction s as [|ch s IH]; [reflexivity|].
  cbn [map_string]. rewrite upper_char_idem, IH. reflexivity.
Qed.

Lemma upper_snoc (s : string) (ch : ascii) :
  upper (s ++ String ch EmptyString) = (upper s ++ String (upper_char ch) EmptyString)%string.
Proof.
  unfold upper. induction s as [|a s IH]; [reflexivity|].
  change (String a s ++ String ch EmptyString)%string with (String a (s ++ String ch EmptyString)).
  cbn [map_string]. rewrite IH. reflexivity.
Qed.

Lemma split_rel_spec_upper (spec : string) :
  _split_rel_spec (upper spec) = _split_rel_spec spec.
Proof.
  destruct (string_snoc_inv spec) as [->|(s & ch & ->)]; [reflexivity|].
  rewrite upper_snoc. unfold _split_rel_spec.
  rewrite !last_char_snoc, !but_last_snoc. cbn [rbind].
  assert (Hd : digit_1_9 (upper_char ch) = digit_1_9 ch)
    by (destruct ch as [[] [] [] [] [] [] [] []]; reflexivity).
  assert (Hp : Ascii.eqb (upper_char ch) "+" = Ascii.eqb ch "+")
    by (destruct ch as [[] [] [] [] [] [] [] []]; reflexivity).
  rewrite Hd, Hp.
  destruct (digit_1_9 ch); [rewrite upper_idem; reflexivity|].
  destruct (Ascii.eqb ch "+"); [rewrite upper_idem; reflexivity|].
  rewrite !upper_snoc, upper_idem, upper_char_idem. reflexivity.
Qed.

Lemma upper_eq_plus (s : string) : String.eqb (upper s) "+" = String.eqb s "+".
Proof.
  destruct s as [|ch s]; [reflexivity|]. destruct s as [|ch' s].
  - destruct ch as [[] [] [] [] [] [] [] []]; reflexivity.
  - cbn. destruct (Ascii.eqb (upper_char ch) "+"), (Ascii.eqb ch "+"); reflexivity.
Qed.

Lemma same_upper_split (r r' : string) :
  upper r' = upper r → _split_rel_spec r' = _split_rel_spec r.
Proof. intros H. rewrite <- (split_rel_spec_upper r'), H. apply split_rel_spec_upper. Qed.

Lemma same_upper_plus (r r' : string) :
  upper r' = upper r → String.eqb r' "+" = String.eqb r "+".
Proof. intros H. rewrite <- (upper_eq_plus r'), H. apply upper_eq_plus. Qed.

(** The relation name is not case-sensitive: two relation specs (or
    relation names) that are the same in upper case give the same
    answers, with the same lookups and searches. *)
Theorem relation_name_any_case (c : Cornet) (r r' : string) :
  upper r' = upper r →
  (∀ from_lu_spec to_lu_spec format,
     test_lex_units_relation c from_lu_spec r' to_lu_spec format
     = test_lex_units_relation c from_lu_spec r to_lu_spec format)
  ∧ (∀ lu_spec format,
       get_related_lex_units c lu_spec r' format = get_related_lex_units c lu_spec r format)
  ∧ (∀ lu_spec1 lu_spec2 format,
       all_common_subsumers c lu_spec1 lu_spec2 r' format
       = all_common_subsumers c lu_spec1 lu_spec2 r format
       ∧ least_common_subsumers c lu_spec1 lu_spec2 r' format
         = least_common_subsumers c lu_spec1 lu_spec2 r format).
Proof.
  intros Hup. split; [|split].
  - intros. unfold test_lex_units_relation. rewrite (same_upper_split _ _ Hup). reflexivity.
  - intros. unfold get_related_lex_units, checked_depth.
    rewrite (same_upper_split _ _ Hup), (same_upper_plus _ _ Hup). reflexivity.
  - intros.
    assert (Hall : all_common_subsumers c lu_spec1 lu_spec2 r' format
                   = all_common_subsumers c lu_spec1 lu_spec2 r format).
    { unfold all_common_subsumers. rewrite Hup. reflexivity. }
    split; [exact Hall|]. unfold least_common_subsumers. rewrite Hall. reflexivity.
Qed.

Lemma relation_name_any_case_witness :
  test_lex_units_relation Examples.lamps "lamp" "has_hyponym2" "fotolamp" None
  = test_lex_units_relation Examples.lamps "lamp" "HAS_HYPONYM2" "fotolamp" None.
Proof.
  apply (relation_name_any_case Examples.lamps "HAS_HYPONYM2" "has_hyponym2"). reflexivity.
Defined.

(** ** The maximum depth *)

Lemma split_digit (ch : ascii) (n : Z) :
  digit_1_9 ch = Some n → _split_rel_spec (String ch EmptyString) = Ok (EmptyString, n).
Proof. unfold _split_rel_spec. cbn. intros ->. reflexivity. Qed.

Lemma split_named (name : string) (ch : ascii) (rel_name : string) (depth : Z) :
  truthy name = true →
  _split_rel_spec (name ++ String ch EmptyString) = Ok (rel_name, depth) →
  truthy rel_name = true.
Proof.
  intros Hname. unfold _split_rel_spec. rewrite last_char_snoc, but_last_snoc. cbn [rbind].
  destruct (digit_1_9 ch); [|destruct (Ascii.eqb ch "+")]; intros [= <- _];
    rewrite truthy_upper; [exact Hname..|].
  destruct name; [discriminate|reflexivity].
Qed.

(** [set_max_depth] takes the depths 1 to 9 and raises [ValueError] on
    any other.  The maximum it sets bounds the searches for related
    units that name no relation: a bare digit above the maximum makes
    [get_related_lex_units] raise [ValueError] before it looks up
    anything, and the bare [+] stands for the maximum.  A relation spec
    with a name is not bounded by it, and neither are
    [test_lex_units_relation] and [get_lex_units]. *)
Theorem max_depth_bounds_unnamed_searches (c : Cornet) (max_depth : Z) :
  match set_max_depth c max_depth with
  | Ok c' =>
      (1 ≤ max_depth ≤ 9)%Z ∧ _max_depth c' = max_depth
      ∧ (∀ lu_spec ch n format,
           digit_1_9 ch = Some n → (max_depth < n)%Z →
           ∃ msg, get_related_lex_units c' lu_spec (String ch EmptyString) format
                  = ([], Raise (ValueError msg)))
      ∧ (_split_rel_spec "+" = Ok (EmptyString, 9%Z)
         ∧ checked_depth c' "+" "" 9 = Ok max_depth)
      ∧ (∀ lu_spec name ch format,
           truthy name = true →
           get_related_lex_units c' lu_spec (name ++ String ch EmptyString) format
           = get_related_lex_units c lu_spec (name ++ String ch EmptyString) format)
      ∧ (∀ from_lu_spec rel_spec to_lu_spec format,
           test_lex_units_relation c' from_lu_spec rel_spec to_lu_spec format
           = test_lex_units_relation c from_lu_spec rel_spec to_lu_spec format)
      ∧ (∀ spec format, get_lex_units c' spec format = get_lex_units c spec format)
  | Raise e => ¬ (1 ≤ max_depth ≤ 9)%Z ∧ ∃ msg, e = ValueError msg
  end.
Proof.
  unfold set_max_depth.
  destruct ((0 <? max_depth)%Z && (max_depth <? 10)%Z) eqn:Hr.
  - apply andb_true_iff in Hr as [H0 H10]. apply Z.ltb_lt in H0, H10.
    split; [lia|]. split; [reflexivity|]. split; [|split; [|split; [|split]]].
    + intros lu_spec ch n format Hd Hlt. unfold get_related_lex_units.
      rewrite (split_digit ch n Hd). cbn [lift bind]. unfold checked_depth.
      cbn [truthy negb _max_depth].
      assert (String.eqb (String ch EmptyString) "+" = false) as ->.
      { destruct ch as [[] [] [] [] [] [] [] []]; try reflexivity; discriminate. }
      apply Z.ltb_lt in Hlt. rewrite Hlt. eexists. reflexivity.
    + split; reflexivity.
    + intros lu_spec name ch format Hname. unfold get_related_lex_units.
      destruct (_split_rel_spec (name ++ String ch EmptyString)) as [[rel_name depth]|e] eqn:Hs;
        [|reflexivity].
      cbn [lift bind]. unfold checked_depth.
      rewrite (split_named _ _ _ _ Hname Hs). reflexivity.
    + intros. reflexivity.
    + intros. reflexivity.
  - split; [|eexists; reflexivity].
    apply andb_false_iff in Hr as [Hr|Hr]; apply Z.ltb_ge in Hr; lia.
Qed.

End RelationSpecFacts.

(* ===================================================================== *)
(** * Lin similarity *)
(* ===================================================================== *)

Module LinFacts.
Import Py SpecParser Cornet Reach Invariants Subsumers TraversalFacts SubsumerFacts SimCornet.
Import SimilarityFacts CommonSubsumerFacts.

(** A loop whose body returns and keeps an invariant of the elements
    gone through so far. *)
Lemma for_each_inv {A S} (I : list A → S → Prop) (l : list A) (body : S → A → M S) :
  ∀ done s,
    I done s →
    (∀ done' x s, I done' s → x ∈ l →
                  ∃ s', outcome (body s x) = Ok s' ∧ I (done' ++ [x]) s') →
    ∃ s', outcome (for_each l body s) = Ok s' ∧ I (done ++ l) s'.
Proof.
  induction l as [|a l IH]; intros done s Hs Hbody; cbn [for_each].
  - exists s. rewrite app_nil_r. split; [reflexivity|exact Hs].
  - destruct (Hbody done a s Hs ltac:(left)) as (s1 & H1 & Hs1).
    rewrite outcome_bind, H1. cbn [rbind].
    destruct (IH (done ++ [a]) s1 Hs1) as (s' & H' & Hs').
    { intros done' x s0 H0 Hx. apply Hbody; [exact H0|right; exact Hx]. }
    exists s'. split; [exact H'|]. rewrite <- app_assoc in Hs'. exact Hs'.
Qed.

(** ** The least common subsumers of a unit and itself *)

Lemma NoDup_all_equal {A} (l : list A) (a : A) :
  NoDup l → (∀ x, x ∈ l → x = a) → a ∈ l → l = [a].
Proof.
  intros Hnd Hall Hin. destruct l as [|x l]; [inversion Hin|].
  assert (x = a) as -> by (apply Hall; left).
  destruct l as [|y l]; [reflexivity|].
  assert (y = a) as -> by (apply Hall; right; left).
  apply NoDup_cons in Hnd as [Hnotin _]. exfalso. apply Hnotin. left.
Qed.

Lemma filter_NoDup {A} (f : A → bool) (l : list A) : NoDup l → NoDup (List.filter f l).
Proof.
  induction 1 as [|x l Hx Hnd IH]; cbn [List.filter]; [constructor|].
  destruct (f x); [|exact IH]. constructor; [|exact IH].
  intros Hin. apply Hx. apply list_elem_of_In, filter_In in Hin as [Hin _].
  apply list_elem_of_In. exact Hin.
Qed.

Lemma unit_lcs_self (c : Cornet) (lu : node) : unit_lcs c lu lu = [lu].
Proof.
  unfold unit_lcs, lcs_of_units.
  destruct (transitive_closure_returns c [lu] "HAS_HYPERONYM") as (sucs & Htc & _).
  rewrite Htc.
  set (s := add_zero [lu] sucs).
  assert (Hdist : ∀ x d, s !! x = Some d ↔ distance (_graph c) "HAS_HYPERONYM" [lu] x d).
  { intros x d. apply add_zero_distance. exact Htc. }
  assert (Hlu : s !! lu = Some 0).
  { apply Hdist. split; [apply reach_0; left|lia]. }
  assert (Hzero : ∀ x, s !! x = Some 0 → x = lu).
  { intros x Hx. apply Hdist in Hx as [Hr _]. apply reach_0 in Hr.
    apply list_elem_of_singleton in Hr. exact Hr. }
  assert (Hfl : List.filter (filed_under s 0) (map_to_list s) = [(lu, 0)]).
  { apply NoDup_all_equal.
    - apply filter_NoDup, NoDup_map_to_list.
    - intros [x d] Hin. apply list_elem_of_In, filter_In in Hin as [Hin Hf].
      apply list_elem_of_In, elem_of_map_to_list in Hin.
      unfold filed_under in Hf. cbn [fst snd] in Hf.
      destruct (s !! x) as [d2|] eqn:Hx; [|discriminate].
      apply Nat.eqb_eq in Hf. assert (d = 0) as -> by lia. assert (d2 = 0) as -> by lia.
      rewrite (Hzero x Hx). reflexivity.
    - apply list_elem_of_In, filter_In. split.
      + apply list_elem_of_In, elem_of_map_to_list. exact Hlu.
      + unfold filed_under. cbn [fst snd]. rewrite Hlu. reflexivity. }
  assert (Hacs : group_by_sum VLu s s !! 0 = Some [VLu lu]).
  { rewrite group_by_sum_lookup, Hfl. reflexivity. }
  pose proof (min_key_spec (group_by_sum VLu s s)) as Hmin.
  destruct (min_key (group_by_sum VLu s s)) as [minimum|].
  - destruct Hmin as [_ Hleast]. assert (minimum = 0) as ->.
    { specialize (Hleast 0). rewrite Hacs in Hleast. specialize (Hleast ltac:(eauto)). lia. }
    rewrite Hacs. reflexivity.
  - rewrite Hmin, lookup_empty in Hacs. discriminate.
Qed.

Section Lin.

Variable float : Type.
Variable fzero : float.
Variable of_int : Z → float.
Variables fadd fmul : float → float → float.
Variable fneg : float → float.
Variable fdiv : float → float → result float.
Variable fltb : float → float → bool.
Variable math_log : float → Z → result float.

Variable sc : SimCornet.
Variables smooth cat_totals : bool.

Local Abbreviation IC := (fun lu => _IC float of_int fneg fdiv math_log sc lu true smooth cat_totals).
Local Abbreviation ic_of := (IC_of float of_int fneg fdiv math_log sc smooth cat_totals).
Local Abbreviation ic_returns := (IC_returns float of_int fneg fdiv math_log sc smooth cat_totals).
Local Abbreviation max2 := (py_max2 float fltb).

Lemma lin_lcs_loop_returns ic1 ic2 lcss max_sim :
  (∀ lcs, lcs ∈ lcss → ic_returns lcs = true) →
  (∀ a, ∃ q, fdiv a (fadd ic1 ic2) = Ok q) →
  ∃ r, outcome (lin_lcs_loop float of_int fadd fmul fneg fdiv fltb math_log
                             sc smooth cat_totals ic1 ic2 lcss max_sim) = Ok r.
Proof.
  intros Hret Hdiv. unfold lin_lcs_loop.
  destruct (for_each_inv (fun _ _ => True) lcss
              (fun max_sim lcs =>
                 bind (lift (IC lcs))
                      (fun lcs_ic =>
                         match lcs_ic with
                         | None => ret max_sim
                         | Some lcs_ic =>
                             bind (lift (fdiv (fmul (of_int 2) lcs_ic) (fadd ic1 ic2)))
                                  (fun new_sim => ret (max2 max_sim (Some new_sim)))
                         end))
              [] max_sim I) as (r & Hr & _).
  - intros _ lcs m _ Hin. rewrite outcome_bind, outcome_lift.
    rewrite (IC_returns_eq float of_int fneg fdiv math_log sc smooth cat_totals lcs)
      by (apply Hret; exact Hin).
    cbn [rbind]. destruct (ic_of lcs) as [lcs_ic|]; [|eexists; split; [reflexivity|exact I]].
    destruct (Hdiv (fmul (of_int 2) lcs_ic)) as [q Hq].
    rewrite outcome_bind, outcome_lift, Hq. cbn [rbind].
    eexists. split; [reflexivity|exact I].
  - exists r. exact Hr.
Qed.

(** [lin_sim] never answers with a number below zero.  Let every unit
    the two specs resolve to have a spec of its own that resolves to
    that unit alone, let [_IC] return for the units involved, let the
    division by [ic1 + ic2] return for every pair of units with
    defined information contents, and let [<] on floats be
    irreflexive.  Then [lin_sim] returns; its result is [None] exactly
    when no pair of units has both information contents defined, and
    otherwise a number that is not less than [0.0]. *)
Theorem lin_sim_not_negative (spec1 spec2 : string) (format : option string) :
  (∀ a, fltb a a = false) →
  round_trips (cornet sc) (resolve (cornet sc) spec1 ++ resolve (cornet sc) spec2) = true →
  forallb ic_returns
          (jc_units (cornet sc) (resolve (cornet sc) spec1) (resolve (cornet sc) spec2))
  = true →
  (∀ lu1 lu2 ic1 ic2 a,
     lu1 ∈ resolve (cornet sc) spec1 → lu2 ∈ resolve (cornet sc) spec2 →
     ic_of lu1 = Some ic1 → ic_of lu2 = Some ic2 →
     ∃ q, fdiv a (fadd ic1 ic2) = Ok q) →
  ∃ r,
    outcome (lin_sim float fzero of_int fadd fmul fneg fdiv fltb math_log
                     sc spec1 spec2 smooth cat_totals format) = Ok r
    ∧ (r = None ↔
       ∀ lu1 lu2, lu1 ∈ resolve (cornet sc) spec1 → lu2 ∈ resolve (cornet sc) spec2 →
                  ic_of lu1 = None ∨ ic_of lu2 = None)
    ∧ (∀ m, r = Some m → fltb m fzero = false).
Proof.
  intros Hirr Hround Hret Hdiv.
  assert (Hic : ∀ lu, lu ∈ jc_units (cornet sc) (resolve (cornet sc) spec1)
                                    (resolve (cornet sc) spec2) →
                      IC lu = Ok (ic_of lu)).
  { intros lu Hin. apply IC_returns_eq. rewrite forallb_forall in Hret.
    apply Hret, list_elem_of_In. exact Hin. }
  unfold jc_units in Hic.
  assert (Hmax0 : ∀ m, ∃ v, max2 m (Some fzero) = Some v ∧ fltb v fzero = false).
  { intros [v|]; unfold py_max2, py_max; cbn [fold_left py_lt].
    - destruct (fltb v fzero) eqn:Hv; eauto.
    - eauto. }
  unfold lin_sim. cbv zeta.
  rewrite outcome_bind, (get_lex_units_outcome _ spec1 (Some "raw"%string) VLu eq_refl).
  cbn [rbind].
  rewrite outcome_bind, (get_lex_units_outcome _ spec2 (Some "raw"%string) VLu eq_refl).
  cbn [rbind]. rewrite !as_lus_map_VLu.
  set (lus1 := resolve (cornet sc) spec1) in *. set (lus2 := resolve (cornet sc) spec2) in *.
  lazymatch goal with
  | |- context [outcome (for_each _ ?body _)] =>
      destruct (for_each_inv
                  (fun done1 m =>
                     (m = None ↔ ∀ lu1 lu2, lu1 ∈ done1 → lu2 ∈ lus2 →
                                            ic_of lu1 = None ∨ ic_of lu2 = None)
                     ∧ ∀ v, m = Some v → fltb v fzero = false)
                  lus1 body [] None) as (r & Hr & Hinv)
  end.
  - split; [|discriminate]. split; [|reflexivity]. intros _ lu1 lu2 H1. inversion H1.
  - intros done1 lu1 m [Hnone Hlow] H1.
    rewrite outcome_bind, outcome_lift, Hic by (apply elem_of_app; left; exact H1).
    cbn [rbind]. destruct (ic_of lu1) as [ic1|] eqn:E1.
    + lazymatch goal with
      | |- context [outcome (for_each _ ?body _)] =>
          destruct (for_each_inv
                      (fun done2 m' =>
                         (m' = None ↔ m = None ∧ ∀ lu2, lu2 ∈ done2 → ic_of lu2 = None)
                         ∧ ∀ v, m' = Some v → fltb v fzero = false)
                      lus2 body [] m) as (m' & Hm' & [Hnone' Hlow'])
      end.
      * split; [|exact Hlow]. split; [intros ->; split; [reflexivity|]|tauto].
        intros lu2 H2. inversion H2.
      * intros done2 lu2 m2 [Hn2 Hl2] H2.
        rewrite outcome_bind, outcome_lift, Hic
          by (apply elem_of_app; right; apply elem_of_app; left; exact H2).
        cbn [rbind]. destruct (ic_of lu2) as [ic2|] eqn:E2.
        -- destruct (least_common_subsumers_raw (cornet sc) (_lu_to_spec (cornet sc) lu1)
                       (_lu_to_spec (cornet sc) lu2)) as (lcss & Hl & Has).
           rewrite (round_trips_elem _ _ lu1 Hround) in Has
             by (apply elem_of_app; left; exact H1).
           rewrite (round_trips_elem _ _ lu2 Hround) in Has
             by (apply elem_of_app; right; exact H2).
           fold (unit_lcs (cornet sc) lu1 lu2) in Has.
           rewrite outcome_bind, Hl. cbn [rbind]. rewrite outcome_bind, Has.
           destruct (lin_lcs_loop_returns ic1 ic2 (unit_lcs (cornet sc) lu1 lu2) m2)
             as [m3 Hm3].
           { intros lcs Hlcs. unfold IC_returns. rewrite Hic; [reflexivity|].
             apply elem_of_app; right; apply elem_of_app; right.
             eapply elem_of_pairwise_lcs; eassumption. }
           { intros a. eapply Hdiv; eassumption. }
           rewrite Hm3. cbn [rbind]. rewrite outcome_ret.
           destruct (Hmax0 m3) as (v & Hv & Hv0). rewrite Hv.
           eexists. split; [reflexivity|]. split.
           ++ split; [discriminate|]. intros [_ Hall]. exfalso.
              assert (ic_of lu2 = None) by (apply Hall, elem_of_app; right; left).
              congruence.
           ++ intros v' [= <-]. exact Hv0.
        -- rewrite outcome_ret. eexists. split; [reflexivity|]. split; [|exact Hl2].
           rewrite Hn2. split.
           ++ intros [Hm Hall]. split; [exact Hm|]. intros lu2' Hin.
              apply elem_of_app in Hin as [Hin|Hin]; [apply Hall; exact Hin|].
              apply list_elem_of_singleton in Hin. subst lu2'. exact E2.
           ++ intros [Hm Hall]. split; [exact Hm|]. intros lu2' Hin.
              apply Hall, elem_of_app. left. exact Hin.
      * exists m'. split; [exact Hm'|]. split; [|exact Hlow'].
        cbn [app] in Hnone'. rewrite Hnone', Hnone. split.
        -- intros [Hd Hall] lu1' lu2 Hin1 Hin2.
           apply elem_of_app in Hin1 as [Hin1|Hin1]; [eapply Hd; eassumption|].
           right. apply Hall. exact Hin2.
        -- intros Hall. split.
           ++ intros lu1' lu2 Hin1 Hin2. apply Hall; [apply elem_of_app; left|]; assumption.
           ++ intros lu2 Hin2.
              destruct (Hall lu1 lu2 ltac:(apply elem_of_app; right; left) Hin2); congruence.
    + rewrite outcome_ret. exists m. split; [reflexivity|]. split; [|exact Hlow].
      rewrite Hnone. split.
      * intros Hd lu1' lu2 Hin1 Hin2.
        apply elem_of_app in Hin1 as [Hin1|Hin1]; [eapply Hd; eassumption|].
        apply list_elem_of_singleton in Hin1. subst lu1'. left. exact E1.
      * intros Hall lu1' lu2 Hin1 Hin2. apply Hall; [apply elem_of_app; left|]; assumption.
  - exists r. split; [exact Hr|]. cbn [app] in Hinv. exact Hinv.
Qed.

(** [lin_sim] of a word with itself divides by zero when the word has
    one unit only and the information content of that unit is zero
    (its subcount is the total count): the unit is its own least
    common subsumer, and [2 * lcs_ic] is divided by [ic1 + ic2]. *)
Theorem lin_sim_divides_by_zero (spec : string) (lu : node) (ic : float)
        (format : option string) :
  resolve (cornet sc) spec = [lu] →
  resolve (cornet sc) (_lu_to_spec (cornet sc) lu) = [lu] →
  IC lu = Ok (Some ic) →
  fdiv (fmul (of_int 2) ic) (fadd ic ic) = Raise ZeroDivisionError →
  outcome (lin_sim float fzero of_int fadd fmul fneg fdiv fltb math_log
                   sc spec spec smooth cat_totals format) = Raise ZeroDivisionError.
Proof.
  intros Hres Hround HIC Hdiv.
  unfold lin_sim. cbv zeta.
  rewrite outcome_bind, (get_lex_units_outcome _ spec (Some "raw"%string) VLu eq_refl).
  cbn [rbind].
  rewrite outcome_bind, (get_lex_units_outcome _ spec (Some "raw"%string) VLu eq_refl).
  cbn [rbind]. rewrite !as_lus_map_VLu, Hres. cbn [for_each].
  rewrite outcome_bind, outcome_bind, outcome_lift, HIC. cbn [rbind for_each].
  rewrite outcome_bind, outcome_bind, outcome_lift. cbn [rbind].
  destruct (least_common_subsumers_raw (cornet sc) (_lu_to_spec (cornet sc) lu)
              (_lu_to_spec (cornet sc) lu)) as (lcss & Hl & Has).
  rewrite Hround in Has. fold (unit_lcs (cornet sc) lu lu) in Has.
  rewrite unit_lcs_self in Has.
  rewrite outcome_bind, Hl. cbn [rbind]. rewrite outcome_bind, Has.
  unfold lin_lcs_loop. cbn [for_each].
  rewrite outcome_bind, outcome_bind, outcome_lift, HIC. cbn [rbind].
  rewrite outcome_bind, outcome_lift, Hdiv. reflexivity.
Qed.

End Lin.

Lemma lin_sim_divides_by_zero_witness :
  outcome (Dyadic.lin_sim Examples.top "iets" "iets" false false None)
  = Raise ZeroDivisionError.
Proof.
  apply (lin_sim_divides_by_zero Dyadic.float Dyadic.fzero Dyadic.of_int Dyadic.fadd
           Dyadic.fmul Dyadic.fneg Dyadic.fdiv Dyadic.fltb Dyadic.math_log
           Examples.top false false "iets" 1 0%Q None); vm_compute; reflexivity.
Defined.

Lemma lin_sim_not_negative_witness :
  ∃ r,
    outcome (Dyadic.lin_sim Examples.senses "a" "b" false false None) = Ok r
    ∧ (r = None ↔
       ∀ lu1 lu2, lu1 ∈ resolve (cornet Examples.senses) "a" →
                  lu2 ∈ resolve (cornet Examples.senses) "b" →
                  IC_of Dyadic.float Dyadic.of_int Dyadic.fneg Dyadic.fdiv Dyadic.math_log
                        Examples.senses false false lu1 = None
                  ∨ IC_of Dyadic.float Dyadic.of_int Dyadic.fneg Dyadic.fdiv Dyadic.math_log
                          Examples.senses false false lu2 = None)
    ∧ (∀ m, r = Some m → Dyadic.fltb m Dyadic.fzero = false).
Proof.
  apply (lin_sim_not_negative Dyadic.float Dyadic.fzero Dyadic.of_int Dyadic.fadd
           Dyadic.fmul Dyadic.fneg Dyadic.fdiv Dyadic.fltb Dyadic.math_log
           Examples.senses false false "a" "b" None Dyadic_fltb_irrefl).
  - vm_compute. reflexivity.
  - vm_compute. reflexivity.
  - intros lu1 lu2 ic1 ic2 a H1 H2.
    change (resolve (cornet Examples.senses) "a") with [1; 2] in H1.
    change (resolve (cornet Examples.senses) "b") with [3] in H2.
    apply list_elem_of_singleton in H2. subst lu2.
    apply elem_of_cons in H1 as [->|H1]; [|apply list_elem_of_singleton in H1; subst lu1];
      vm_compute; intros [= <-] [= <-]; eexists; reflexivity.
Defined.

End LinFacts.

(* ===================================================================== *)
(** * Related units *)
(* ===================================================================== *)

Module RelatedFacts.
Import Py SpecParser Cornet Reach Invariants CornetInit RelatedUnits.
Import GraphFacts TraversalFacts SimilarityFacts TrailFacts LinFacts.

(** ** Dicts as association lists *)

Lemma value_eqb_eq (a b : value) : value_eqb a b = true ↔ a = b.
Proof.
  destruct a, b; cbn; try (split; congruence).
  - rewrite String.eqb_eq. split; congruence.
  - rewrite Nat.eqb_eq. split; congruence.
  - rewrite attr_eqb_eq. split; congruence.
Qed.

Lemma value_eqb_refl (a : value) : value_eqb a a = true.
Proof. apply value_eqb_eq. reflexivity. Qed.

Lemma value_eqb_ne (a b : value) : a ≠ b → value_eqb a b = false.
Proof.
  intros Hne. destruct (value_eqb a b) eqn:E; [|reflexivity].
  apply value_eqb_eq in E. contradiction.
Qed.

Lemma dict_get_set_eq {V} (k : value) (v : V) d : dict_get k (dict_set k v d) = Some v.
Proof.
  induction d as [|[k' v'] d IH]; cbn.
  - rewrite value_eqb_refl. reflexivity.
  - destruct (value_eqb k' k) eqn:E; cbn; rewrite E; auto.
Qed.

Lemma dict_get_set_ne {V} (k k' : value) (v : V) d :
  k' ≠ k → dict_get k' (dict_set k v d) = dict_get k' d.
Proof.
  intros Hne. induction d as [|[k0 v0] d IH]; cbn.
  - rewrite value_eqb_ne by congruence. reflexivity.
  - destruct (value_eqb k0 k) eqn:E; cbn.
    + apply value_eqb_eq in E. subst k0. rewrite value_eqb_ne by congruence. reflexivity.
    + rewrite IH. reflexivity.
Qed.

Lemma elem_of_dict_set {V} (k : value) (v : V) d a b :
  (a, b) ∈ dict_set k v d → (a = k ∧ b = v) ∨ (a, b) ∈ d.
Proof.
  induction d as [|[k0 v0] d IH]; cbn.
  - intros H. apply list_elem_of_singleton in H. inversion H. left. auto.
  - destruct (value_eqb k0 k) eqn:E.
    + apply value_eqb_eq in E. subst k0.
      intros H. apply elem_of_cons in H as [H|H].
      * inversion H. left. auto.
      * right. apply elem_of_cons. right. exact H.
    + intros H. apply elem_of_cons in H as [H|H].
      * right. apply elem_of_cons. left. exact H.
      * destruct (IH H) as [?|?]; [left; assumption|].
        right. apply elem_of_cons. right. assumption.
Qed.

Lemma dict_get_elem {V} (k : value) (v : V) d : dict_get k d = Some v → (k, v) ∈ d.
Proof.
  induction d as [|[k0 v0] d IH]; cbn; [discriminate|].
  destruct (value_eqb k0 k) eqn:E.
  - apply value_eqb_eq in E. subst k0. intros [= ->]. apply elem_of_cons. left. reflexivity.
  - intros H. apply elem_of_cons. right. apply IH, H.
Qed.

Lemma dict_get_set {V} (k q : value) (v : V) d :
  dict_get q (dict_set k v d) = if value_eqb k q then Some v else dict_get q d.
Proof.
  destruct (value_eqb k q) eqn:E.
  - apply value_eqb_eq in E. subst q. apply dict_get_set_eq.
  - apply dict_get_set_ne. intros ->. rewrite value_eqb_refl in E. discriminate.
Qed.

Lemma fold_left_inv {A B} (I : list B → A → Prop) (f : A → B → A) (l : list B) :
  ∀ done a,
    I done a →
    (∀ done' x a', x ∈ l → I done' a' → I (done' ++ [x]) (f a' x)) →
    I (done ++ l) (fold_left f l a).
Proof.
  induction l as [|x l IH]; intros done a Ha Hstep; cbn [fold_left].
  - rewrite app_nil_r. exact Ha.
  - replace (done ++ x :: l) with ((done ++ [x]) ++ l) by (rewrite <- app_assoc; reflexivity).
    apply IH.
    + apply Hstep; [left|exact Ha].
    + intros done' y a' Hy. apply Hstep. right. exact Hy.
Qed.

Lemma not_on_path (to_lu : node) (path : list node) :
  negb (existsb (Nat.eqb to_lu) path) = true ↔ to_lu ∉ path.
Proof.
  rewrite negb_true_iff. split.
  - intros Hex Hin. apply list_elem_of_In in Hin.
    assert (existsb (Nat.eqb to_lu) path = true) as H'.
    { apply existsb_exists. exists to_lu. split; [exact Hin|apply Nat.eqb_refl]. }
    congruence.
  - intros Hnot. destruct (existsb (Nat.eqb to_lu) path) eqn:E; [|reflexivity].
    apply existsb_exists in E as (x & Hx & Heq). apply Nat.eqb_eq in Heq. subst x.
    exfalso. apply Hnot, list_elem_of_In, Hx.
Qed.

(** ** The search below one unit *)

(** One turn of the loop over the edges that leave a unit. *)
Lemma search_unfold g fuel from_lu rel_name depth lu_formatter rel_formatter path :
  _search_related_lex_units g (S fuel) from_lu rel_name depth lu_formatter rel_formatter path
  = if (Z.of_nat (length path) <=? depth)%Z then
      rbind
        (fold_left
           (fun acc '(_, to_lu, edge) =>
              rbind acc (fun from_lu_related =>
                if negb (existsb (Nat.eqb to_lu) path) && _rel_has_name edge rel_name then
                  rbind (_search_related_lex_units g fuel to_lu rel_name depth
                           lu_formatter rel_formatter (path ++ [to_lu]))
                    (fun to_lu_related =>
                       let to_lu_repr := lu_formatter to_lu in
                       rbind (rel_formatter (Some edge)) (fun rel_repr =>
                         if hashable rel_repr then
                           match dict_get rel_repr from_lu_related with
                           | Some inner =>
                               Ok (dict_set rel_repr
                                     (dict_set to_lu_repr to_lu_related inner)
                                     from_lu_related)
                           | None =>
                               Ok (dict_set rel_repr [(to_lu_repr, to_lu_related)]
                                            from_lu_related)
                           end
                         else Raise TypeError))
                else Ok from_lu_related))
           (NX.out_edges_of g from_lu) (Ok []))
        (fun entries => Ok (Related entries))
    else Ok (Related []).
Proof. reflexivity. Qed.

Section Reported.

Variables (g : NX.MultiDiGraph) (rel_name : string) (depth : Z).
Variables (lu_formatter : node → value) (rel_formatter : option NX.attr → result value).
Variable rel_repr : NX.attr → value.
Hypothesis formats : ∀ edge, rel_formatter (Some edge) = Ok (rel_repr edge).
Hypothesis hashes : ∀ edge, hashable (rel_repr edge) = true.

(** What the loop has put in the dict after the edges [done]. *)
Let filled (path : list node) (from_lu : node)
    (done : list (node * node * NX.attr))
    (acc : result (list (value * list (value * related)))) : Prop :=
  ∃ entries,
    acc = Ok entries
    ∧ (∀ r inner to_repr sub,
         (r, inner) ∈ entries → (to_repr, sub) ∈ inner →
         ∃ to_lu edge,
           NX.has_edge g from_lu to_lu edge
           ∧ _rel_has_name edge rel_name = true
           ∧ (to_lu ∉ path)
           ∧ to_repr = lu_formatter to_lu ∧ r = rel_repr edge
           ∧ reported g rel_name depth lu_formatter rel_repr (path ++ [to_lu]) to_lu sub)
    ∧ (∀ u to_lu edge,
         (u, to_lu, edge) ∈ done → _rel_has_name edge rel_name = true → to_lu ∉ path →
         ∃ inner sub, dict_get (rel_repr edge) entries = Some inner
                      ∧ dict_get (lu_formatter to_lu) inner = Some sub).

Lemma search_reported :
  ∀ fuel from_lu path,
    (depth < Z.of_nat (fuel + length path))%Z →
    ∃ r, _search_related_lex_units g fuel from_lu rel_name depth
           lu_formatter rel_formatter path = Ok r
         ∧ reported g rel_name depth lu_formatter rel_repr path from_lu r.
Proof.
  induction fuel as [|fuel IH]; intros from_lu path Hfuel.
  - cbn [_search_related_lex_units].
    destruct (Z.leb_spec (Z.of_nat (length path)) depth) as [Hle|Hgt]; [cbn in Hfuel; lia|].
    exists (Related []). split; [reflexivity|]. constructor.
    + intros r inner to_repr sub Hin. apply elem_of_nil in Hin. contradiction.
    + intros Hle. lia.
  - rewrite search_unfold.
    destruct (Z.leb_spec (Z.of_nat (length path)) depth) as [Hle|Hgt].
    2:{ exists (Related []). split; [reflexivity|]. constructor.
        - intros r inner to_repr sub Hin. apply elem_of_nil in Hin. contradiction.
        - intros Hle. lia. }
    lazymatch goal with
    | |- context [fold_left ?f _ _] => set (step := f)
    end.
    destruct (fold_left_inv (filled path from_lu) step (NX.out_edges_of g from_lu)
                            [] (Ok [])) as (entries & Hfolded & Hsound & Hcomplete).
    + exists []. split; [reflexivity|]. split.
      * intros r inner to_repr sub Hin. apply elem_of_nil in Hin. contradiction.
      * intros u to_lu edge Hin. apply elem_of_nil in Hin. contradiction.
    + intros done' [[u to_lu] edge] acc Hx (entries & -> & Hsound & Hcomplete).
      apply elem_of_out_edges_of in Hx as [-> Hedge].
      unfold step. cbn [rbind].
      destruct (negb (existsb (Nat.eqb to_lu) path) && _rel_has_name edge rel_name) eqn:Eq.
      * apply andb_true_iff in Eq as [Hpath Hrel]. apply not_on_path in Hpath.
        destruct (IH to_lu (path ++ [to_lu])) as (sub & -> & Hsub).
        { rewrite length_app. cbn [length]. lia. }
        cbn [rbind]. rewrite formats. cbn [rbind]. rewrite hashes.
        set (old := default [] (dict_get (rel_repr edge) entries)).
        exists (dict_set (rel_repr edge) (dict_set (lu_formatter to_lu) sub old) entries).
        split.
        { subst old. destruct (dict_get (rel_repr edge) entries); reflexivity. }
        split.
        -- intros r inner to_repr s Hr Hs.
           apply elem_of_dict_set in Hr as [[-> ->]|Hr]; [|apply (Hsound r inner to_repr s Hr Hs)].
           apply elem_of_dict_set in Hs as [[-> ->]|Hs].
           { exists to_lu, edge. auto 10. }
           subst old. destruct (dict_get (rel_repr edge) entries) as [inner|] eqn:Eget.
           ++ apply dict_get_elem in Eget. apply (Hsound _ _ _ _ Eget Hs).
           ++ apply elem_of_nil in Hs. contradiction.
        -- intros u to_lu0 edge0 Hin Hrel0 Hpath0. rewrite dict_get_set.
           apply elem_of_app in Hin as [Hin|Hin].
           ++ destruct (Hcomplete u to_lu0 edge0 Hin Hrel0 Hpath0) as (inner & s & Hget & Hgets).
              destruct (value_eqb (rel_repr edge) (rel_repr edge0)) eqn:Er.
              ** apply value_eqb_eq in Er.
                 assert (is_Some (dict_get (lu_formatter to_lu0)
                                           (dict_set (lu_formatter to_lu) sub old)))
                   as [s' Hs'].
                 { rewrite dict_get_set. subst old. rewrite Er, Hget. cbn [default].
                   destruct (value_eqb (lu_formatter to_lu) (lu_formatter to_lu0)); eauto. }
                 eexists _, s'. split; [reflexivity|exact Hs'].
              ** eauto.
           ++ apply list_elem_of_singleton in Hin. inversion Hin; subst.
              rewrite value_eqb_refl. eexists _, sub. split; [reflexivity|].
              rewrite dict_get_set, value_eqb_refl. reflexivity.
      * exists entries. split; [reflexivity|]. split; [exact Hsound|].
        intros u to_lu0 edge0 Hin Hrel0 Hpath0.
        apply elem_of_app in Hin as [Hin|Hin].
        -- apply (Hcomplete u to_lu0 edge0 Hin Hrel0 Hpath0).
        -- apply list_elem_of_singleton in Hin. inversion Hin; subst.
           apply not_on_path in Hpath0. rewrite Hpath0, Hrel0 in Eq. discriminate.
    + cbn [app] in Hfolded. rewrite Hfolded. cbn [rbind].
      exists (Related entries). split; [reflexivity|]. constructor.
      * intros r inner to_repr sub Hr Hs. split; [exact Hle|].
        apply (Hsound r inner to_repr sub Hr Hs).
      * intros _ to_lu edge Hedge Hrel Hpath.
        apply (Hcomplete from_lu to_lu edge); [|exact Hrel|exact Hpath].
        apply elem_of_out_edges_of. split; [reflexivity|exact Hedge].
Qed.

End Reported.

(** ** Formats that cannot key a dict *)

Section Failing.

Variables (g : NX.MultiDiGraph) (rel_name : string) (depth : Z).
Variables (lu_formatter : node → value) (rel_formatter : option NX.attr → result value).
Variable e : exn.
Hypothesis fails :
  ∀ edge, rel_formatter (Some edge) = Raise e
          ∨ ∃ v, rel_formatter (Some edge) = Ok v ∧ hashable v = false ∧ e = TypeError.

Lemma search_fails :
  ∀ fuel from_lu path,
    (depth < Z.of_nat (fuel + length path))%Z →
    _search_related_lex_units g fuel from_lu rel_name depth lu_formatter rel_formatter path
    = if (Z.of_nat (length path) <=? depth)%Z
         && existsb (followed rel_name path) (NX.out_edges_of g from_lu)
      then Raise e else Ok (Related []).
Proof.
  induction fuel as [|fuel IH]; intros from_lu path Hfuel.
  - cbn [_search_related_lex_units].
    destruct (Z.leb_spec (Z.of_nat (length path)) depth) as [Hle|Hgt]; [cbn in Hfuel; lia|].
    reflexivity.
  - rewrite search_unfold.
    destruct (Z.of_nat (length path) <=? depth)%Z eqn:Ele; [|reflexivity].
    apply Z.leb_le in Ele. cbn [andb].
    lazymatch goal with
    | |- context [fold_left ?f _ _] => set (step := f)
    end.
    assert (∀ l, fold_left step l (Raise e) = Raise e) as Hraised.
    { induction l as [|[[u to_lu] edge] l IHl]; [reflexivity|]. cbn [fold_left].
      unfold step at 2. cbn [rbind]. exact IHl. }
    assert (∀ l, (∀ x, x ∈ l → x ∈ NX.out_edges_of g from_lu) →
                 fold_left step l (Ok [])
                 = if existsb (followed rel_name path) l then Raise e else Ok []) as Hfold.
    { induction l as [|[[u to_lu] edge] l IHl]; intros Hl; [reflexivity|].
      cbn [fold_left existsb]. unfold step at 2. cbn [rbind followed].
      destruct (negb (existsb (Nat.eqb to_lu) path) && _rel_has_name edge rel_name) eqn:Eq.
      - cbn [orb]. rewrite IH by (rewrite length_app; cbn [length]; lia).
        replace (fold_left step l _) with (fold_left step l (Raise e)); [apply Hraised|].
        f_equal.
        destruct ((Z.of_nat (length (path ++ [to_lu])) <=? depth)%Z
                  && existsb (followed rel_name (path ++ [to_lu])) (NX.out_edges_of g to_lu));
          [reflexivity|].
        cbn [rbind].
        destruct (fails edge) as [-> | (v & -> & Hv & ->)]; [reflexivity|].
        cbn [rbind]. rewrite Hv. reflexivity.
      - cbn [orb]. apply IHl. intros x Hx. apply Hl. right. exact Hx. }
    rewrite Hfold by auto.
    destruct (existsb (followed rel_name path) (NX.out_edges_of g from_lu)); reflexivity.
Qed.

End Failing.

(** ** The public method *)

Lemma checked_depth_positive (c : Cornet) (rel_spec rel_name : string) (depth depth' : Z) :
  settings_ok c →
  _split_rel_spec rel_spec = Ok (rel_name, depth) →
  checked_depth c rel_spec rel_name depth = Ok depth' →
  (1 ≤ depth')%Z.
Proof.
  intros [_ Hmax] Hsplit Hchecked. apply split_rel_spec_depth in Hsplit.
  unfold checked_depth in Hchecked.
  destruct (negb (truthy rel_name)); [|inversion Hchecked; lia].
  destruct (String.eqb rel_spec "+"); [inversion Hchecked; lia|].
  destruct (_max_depth c <? depth)%Z; inversion Hchecked; lia.
Qed.

Lemma get_related_lex_units_outcome
      (c : Cornet) (lu_spec rel_spec : string) (format : option string)
      (rel_name : string) (depth depth' : Z) lu_formatter rel_formatter :
  _split_rel_spec rel_spec = Ok (rel_name, depth) →
  checked_depth c rel_spec rel_name depth = Ok depth' →
  _get_lex_unit_formatter c format = Ok lu_formatter →
  _get_relation_formatter c format = Ok rel_formatter →
  outcome (get_related_lex_units c lu_spec rel_spec format)
  = outcome
      (for_each (resolve c lu_spec)
         (fun related_lus from_lu =>
            bind (tick (Ev_search_related_lex_units from_lu)) (fun _ =>
            bind (lift (_search_related_lex_units (_graph c) (Z.to_nat depth') from_lu
                          rel_name depth' lu_formatter rel_formatter [from_lu]))
                 (fun r => ret (dict_set (lu_formatter from_lu) r related_lus))))
         []).
Proof.
  intros Hsplit Hchecked Hlu Hrel. unfold get_related_lex_units.
  rewrite Hsplit. rewrite outcome_bind, outcome_lift. cbn [rbind].
  rewrite Hchecked. rewrite outcome_bind, outcome_lift. cbn [rbind].
  rewrite Hlu. rewrite outcome_bind, outcome_lift. cbn [rbind].
  rewrite Hrel. rewrite outcome_bind, outcome_lift. cbn [rbind].
  destruct (get_lex_units_raw c lu_spec) as (form & ->).
  rewrite outcome_bind. cbn [outcome snd rbind]. rewrite as_lus_map_VLu. reflexivity.
Qed.

Lemma related_units_reported_any
      (c : Cornet) (lu_spec rel_spec : string) (format : option string)
      (rel_name : string) (depth depth' : Z) :
  effective_format c format = "spec"%string →
  _split_rel_spec rel_spec = Ok (rel_name, depth) →
  checked_depth c rel_spec rel_name depth = Ok depth' →
  ∃ related_lus,
    outcome (get_related_lex_units c lu_spec rel_spec format) = Ok related_lus
    ∧ (∀ lu, lu ∈ resolve c lu_spec →
             is_Some (dict_get (VStr (_lu_to_spec c lu)) related_lus))
    ∧ (∀ k r, (k, r) ∈ related_lus →
              ∃ lu, lu ∈ resolve c lu_spec ∧ k = VStr (_lu_to_spec c lu)
                    ∧ reported (_graph c) rel_name depth'
                               (fun lu => VStr (_lu_to_spec c lu))
                               (Trails.relation_repr "spec") [lu] lu r).
Proof.
  intros Hformat Hsplit Hchecked.
  assert (_get_lex_unit_formatter c format = Ok (fun lu => VStr (_lu_to_spec c lu))) as Hlu.
  { unfold _get_lex_unit_formatter. rewrite Hformat. reflexivity. }
  assert (_get_relation_formatter c format = Ok _rel_to_spec) as Hrel.
  { unfold _get_relation_formatter. rewrite Hformat. reflexivity. }
  rewrite (get_related_lex_units_outcome _ _ _ _ _ _ _ _ _ Hsplit Hchecked Hlu Hrel).
  lazymatch goal with
  | |- context [outcome (for_each _ ?body _)] =>
      destruct (for_each_inv
                  (fun done related_lus =>
                     (∀ lu, lu ∈ done →
                            is_Some (dict_get (VStr (_lu_to_spec c lu)) related_lus))
                     ∧ (∀ k r, (k, r) ∈ related_lus →
                               ∃ lu, lu ∈ done ∧ k = VStr (_lu_to_spec c lu)
                                     ∧ reported (_graph c) rel_name depth'
                                                (fun lu => VStr (_lu_to_spec c lu))
                                                (Trails.relation_repr "spec") [lu] lu r))
                  (resolve c lu_spec) body [] [])
        as (related_lus & Hout & Hall & Honly)
  end.
  - split.
    + intros lu Hin. apply elem_of_nil in Hin. contradiction.
    + intros k r Hin. apply elem_of_nil in Hin. contradiction.
  - intros done' from_lu related_lus [Hall Honly] Hin.
    rewrite outcome_bind. unfold tick at 1. cbn [outcome snd rbind] .
    change (snd ?m) with (outcome m). rewrite outcome_bind, outcome_lift.
    destruct (search_reported (_graph c) rel_name depth'
                (fun lu => VStr (_lu_to_spec c lu)) _rel_to_spec
                (Trails.relation_repr "spec"))
      with (fuel := Z.to_nat depth') (from_lu := from_lu) (path := [from_lu])
      as (r & -> & Hr).
    + intros [x|]; reflexivity.
    + intros [x|]; reflexivity.
    + cbn [length]. lia.
    + cbn [rbind]. rewrite outcome_ret. eexists. split; [reflexivity|]. split.
      * intros lu Hlu'. rewrite dict_get_set.
        destruct (value_eqb _ _) eqn:Ev; [eauto|].
        apply elem_of_app in Hlu' as [Hlu'|Hlu'].
        -- apply Hall, Hlu'.
        -- apply list_elem_of_singleton in Hlu'. subst lu.
           rewrite value_eqb_refl in Ev. discriminate.
      * intros k r' Hk. apply elem_of_dict_set in Hk as [[-> ->]|Hk].
        -- exists from_lu. split; [apply elem_of_app; right; apply list_elem_of_singleton; reflexivity|].
           split; [reflexivity|exact Hr].
        -- destruct (Honly k r' Hk) as (lu & Hlu' & ? & ?).
           exists lu. split; [apply elem_of_app; left; exact Hlu'|]. split; assumption.
  - exists related_lus. split; [exact Hout|]. cbn [app] in Hall, Honly. split; assumption.
Qed.

(** [get_related_lex_units] in the format [spec], for a relation spec
    it accepts: it returns a dict with an entry for every unit the
    unit spec resolves to, and for those units only; and the nested
    dict below a unit lists, relation by relation and level by level,
    exactly the units that edges passing the relation filter lead to
    without coming back to a unit already on the way, down to the
    depth asked for. *)
Theorem related_units_reported
        (c : Cornet) (lu_spec rel_spec : string) (format : option string)
        (rel_name : string) (depth depth' : Z) :
  effective_format c format = "spec"%string →
  _split_rel_spec rel_spec = Ok (rel_name, depth) →
  checked_depth c rel_spec rel_name depth = Ok depth' →
  ∃ related_lus,
    outcome (get_related_lex_units c lu_spec rel_spec format) = Ok related_lus
    ∧ (∀ lu, lu ∈ resolve c lu_spec →
             is_Some (dict_get (VStr (_lu_to_spec c lu)) related_lus))
    ∧ (∀ k r, (k, r) ∈ related_lus →
              ∃ lu, lu ∈ resolve c lu_spec ∧ k = VStr (_lu_to_spec c lu)
                    ∧ reported (_graph c) rel_name depth'
                               (fun lu => VStr (_lu_to_spec c lu))
                               (Trails.relation_repr "spec") [lu] lu r).
Proof. apply related_units_reported_any. Qed.

Lemma related_units_reported_witness :
  ∃ related_lus,
    outcome (get_related_lex_units Examples.lamps "lamp" "HAS_HYPONYM2" None) = Ok related_lus
    ∧ (∀ lu, lu ∈ resolve Examples.lamps "lamp" →
             is_Some (dict_get (VStr (_lu_to_spec Examples.lamps lu)) related_lus))
    ∧ (∀ k r, (k, r) ∈ related_lus →
              ∃ lu, lu ∈ resolve Examples.lamps "lamp"
                    ∧ k = VStr (_lu_to_spec Examples.lamps lu)
                    ∧ reported (_graph Examples.lamps) "HAS_HYPONYM" 2
                               (fun lu => VStr (_lu_to_spec Examples.lamps lu))
                               (Trails.relation_repr "spec") [lu] lu r).
Proof.
  apply (related_units_reported Examples.lamps "lamp" "HAS_HYPONYM2" None "HAS_HYPONYM" 2 2);
    reflexivity.
Defined.

(** Some edge leaving [lu] passes the filter and leads elsewhere. *)
Lemma followed_some (g : NX.MultiDiGraph) (rel_name : string) (lu : node) :
  existsb (followed rel_name [lu]) (NX.out_edges_of g lu) = true
  ↔ ∃ to_lu edge, NX.has_edge g lu to_lu edge
                  ∧ _rel_has_name edge rel_name = true ∧ to_lu ≠ lu.
Proof.
  rewrite existsb_exists. split.
  - intros ([[u to_lu] edge] & Hin & Hf). apply list_elem_of_In in Hin.
    apply elem_of_out_edges_of in Hin as [-> Hedge].
    cbn [followed] in Hf. apply andb_true_iff in Hf as [Hpath Hrel].
    apply not_on_path in Hpath. exists to_lu, edge. split; [exact Hedge|].
    split; [exact Hrel|]. intros ->. apply Hpath, list_elem_of_singleton. reflexivity.
  - intros (to_lu & edge & Hedge & Hrel & Hne). exists (lu, to_lu, edge). split.
    + apply list_elem_of_In, elem_of_out_edges_of. split; [reflexivity|exact Hedge].
    + cbn [followed]. apply andb_true_iff. split; [|exact Hrel].
      apply not_on_path. intros Hin. apply list_elem_of_singleton in Hin. contradiction.
Qed.

Lemma related_units_unkeyed_any
      (c : Cornet) (lu_spec rel_spec : string) (format : option string)
      (rel_name : string) (depth depth' : Z) :
  settings_ok c →
  effective_format c format = "raw"%string ∨ effective_format c format = "xml"%string →
  _split_rel_spec rel_spec = Ok (rel_name, depth) →
  checked_depth c rel_spec rel_name depth = Ok depth' →
  (some_related (_graph c) rel_name (resolve c lu_spec) →
   outcome (get_related_lex_units c lu_spec rel_spec format)
   = Raise (if String.eqb (effective_format c format) "raw"
            then TypeError else AttributeError))
  ∧ (¬ some_related (_graph c) rel_name (resolve c lu_spec) →
     ∃ related_lus,
       outcome (get_related_lex_units c lu_spec rel_spec format) = Ok related_lus
       ∧ ∀ k r, (k, r) ∈ related_lus → r = Related []).
Proof.
  intros Hsettings Hformat Hsplit Hchecked.
  pose proof (checked_depth_positive _ _ _ _ _ Hsettings Hsplit Hchecked) as Hpos.
  set (e := if String.eqb (effective_format c format) "raw"
            then TypeError else AttributeError).
  assert (∃ lu_formatter rel_formatter,
            _get_lex_unit_formatter c format = Ok lu_formatter
            ∧ _get_relation_formatter c format = Ok rel_formatter
            ∧ ∀ edge, rel_formatter (Some edge) = Raise e
                      ∨ ∃ v, rel_formatter (Some edge) = Ok v
                             ∧ hashable v = false ∧ e = TypeError)
    as (lu_formatter & rel_formatter & Hlu & Hrel & Hfails).
  { unfold _get_lex_unit_formatter, _get_relation_formatter. subst e.
    destruct Hformat as [-> | ->]; cbn; eexists _, _;
      (split; [reflexivity|]); (split; [reflexivity|]); intros edge.
    - right. eexists. split; [reflexivity|]. split; reflexivity.
    - left. reflexivity. }
  rewrite (get_related_lex_units_outcome _ _ _ _ _ _ _ _ _ Hsplit Hchecked Hlu Hrel).
  assert (∀ from_lu,
            _search_related_lex_units (_graph c) (Z.to_nat depth') from_lu rel_name depth'
                                      lu_formatter rel_formatter [from_lu]
            = if existsb (followed rel_name [from_lu]) (NX.out_edges_of (_graph c) from_lu)
              then Raise e else Ok (Related [])) as Hsearch.
  { intros from_lu.
    rewrite (search_fails (_graph c) rel_name depth' lu_formatter rel_formatter e Hfails)
      by (cbn [length]; lia).
    cbn [length]. replace (Z.of_nat 1 <=? depth')%Z with true; [reflexivity|].
    symmetry. apply Z.leb_le. lia. }
  lazymatch goal with
  | |- context [outcome (for_each _ ?body _)] => set (loop := body)
  end.
  assert (∀ l related_lus,
            (∀ k r, (k, r) ∈ related_lus → r = Related []) →
            if existsb (fun lu => existsb (followed rel_name [lu])
                                          (NX.out_edges_of (_graph c) lu)) l
            then outcome (for_each l loop related_lus) = Raise e
            else ∃ related_lus',
                outcome (for_each l loop related_lus) = Ok related_lus'
                ∧ ∀ k r, (k, r) ∈ related_lus' → r = Related []) as Hloop.
  { induction l as [|lu l IHl]; intros related_lus Hempty; cbn [existsb for_each].
    - exists related_lus. split; [reflexivity|exact Hempty].
    - rewrite outcome_bind. unfold loop at 1 3.
      rewrite outcome_bind. unfold tick at 1. cbn [outcome snd rbind].
      change (snd ?m) with (outcome m). rewrite outcome_bind, outcome_lift, Hsearch.
      destruct (existsb (followed rel_name [lu]) (NX.out_edges_of (_graph c) lu)).
      + reflexivity.
      + cbn [rbind orb]. rewrite outcome_ret. cbn [rbind]. apply IHl.
        intros k r Hk. apply elem_of_dict_set in Hk as [[_ ->]|Hk]; [reflexivity|].
        apply (Hempty k r Hk). }
  specialize (Hloop (resolve c lu_spec) []).
  assert (existsb (fun lu => existsb (followed rel_name [lu])
                                     (NX.out_edges_of (_graph c) lu)) (resolve c lu_spec)
          = true ↔ some_related (_graph c) rel_name (resolve c lu_spec)) as Hsome.
  { rewrite existsb_exists. unfold some_related. split.
    - intros (lu & Hin & Hf). apply followed_some in Hf as (to_lu & edge & ? & ? & ?).
      exists lu, to_lu, edge. split; [apply list_elem_of_In; exact Hin|auto].
    - intros (lu & to_lu & edge & Hin & ? & ? & ?). exists lu.
      split; [apply list_elem_of_In; exact Hin|]. apply followed_some. eauto. }
  destruct (existsb _ (resolve c lu_spec)).
  - split; [intros _|intros Hnot; exfalso; apply Hnot, Hsome; reflexivity].
    apply Hloop. intros k r Hin. apply elem_of_nil in Hin. contradiction.
  - split; [intros Hs; apply Hsome in Hs; discriminate|intros _].
    apply Hloop. intros k r Hin. apply elem_of_nil in Hin. contradiction.
Qed.

(** [get_related_lex_units] in the formats [raw] and [xml] gives no
    answer as soon as there is one to give.  If a unit the spec
    resolves to has an edge that passes the relation filter to another
    unit, the call raises: [TypeError] for [raw], where the attribute
    dict of the edge is used as a dict key, and [AttributeError] for
    [xml], where [tostring] is applied to it.  If there is no such
    edge, it returns a dict in which every unit has the empty dict. *)
Theorem related_units_unkeyed
        (c : Cornet) (lu_spec rel_spec : string) (format : option string)
        (rel_name : string) (depth depth' : Z) :
  settings_ok c →
  effective_format c format = "raw"%string ∨ effective_format c format = "xml"%string →
  _split_rel_spec rel_spec = Ok (rel_name, depth) →
  checked_depth c rel_spec rel_name depth = Ok depth' →
  (some_related (_graph c) rel_name (resolve c lu_spec) →
   outcome (get_related_lex_units c lu_spec rel_spec format)
   = Raise (if String.eqb (effective_format c format) "raw"
            then TypeError else AttributeError))
  ∧ (¬ some_related (_graph c) rel_name (resolve c lu_spec) →
     ∃ related_lus,
       outcome (get_related_lex_units c lu_spec rel_spec format) = Ok related_lus
       ∧ ∀ k r, (k, r) ∈ related_lus → r = Related []).
Proof. apply related_units_unkeyed_any. Qed.

Lemma related_units_unkeyed_witness :
  outcome (get_related_lex_units Examples.lamps "lamp" "HAS_HYPONYM2" (Some "raw"%string))
  = Raise TypeError
  ∧ outcome (get_related_lex_units Examples.lamps "lamp" "HAS_HYPONYM2" (Some "xml"%string))
    = Raise AttributeError.
Proof.
  assert (some_related (_graph Examples.lamps) "HAS_HYPONYM" (resolve Examples.lamps "lamp"))
    as Hsome.
  { exists 2, 3, (Some "HAS_HYPONYM"%string).
    split; [apply list_elem_of_In; vm_compute; auto|].
    split; [|split; [reflexivity|lia]].
    apply (elem_of_out_edges_of (_graph Examples.lamps) 2 2 3).
    apply list_elem_of_In. vm_compute. auto. }
  split.
  - apply (related_units_unkeyed Examples.lamps "lamp" "HAS_HYPONYM2" (Some "raw"%string)
             "HAS_HYPONYM" 2 2); try reflexivity; [|left; reflexivity|exact Hsome].
    split; [vm_compute; auto|vm_compute; split; discriminate].
  - apply (related_units_unkeyed Examples.lamps "lamp" "HAS_HYPONYM2" (Some "xml"%string)
             "HAS_HYPONYM" 2 2); try reflexivity; [|right; reflexivity|exact Hsome].
    split; [vm_compute; auto|vm_compute; split; discriminate].
Defined.

End RelatedFacts.

(* ===================================================================== *)
(** * Queries and synsets *)
(* ===================================================================== *)

Module QueryFacts.
Import Py SpecParser Cornet CornetInit Queries.
Import Parse Induced.
Import SpecParserFacts SimilarityFacts RelationSpecFacts ParseFacts RelatedFacts.

(** ** Routing of queries *)

Lemma truthy_snoc (w : string) (ch : ascii) : truthy (w ++ String ch EmptyString) = true.
Proof. destruct w; reflexivity. Qed.

Lemma words_aux_truthy (s : string) :
  ∀ cur, (∀ w, cur = Some w → truthy w = true) →
         Forall (fun w => truthy w = true) (words_aux cur s).
Proof.
  induction s as [|ch s IH]; intros cur Hcur; cbn [words_aux].
  - destruct cur as [w|]; [|constructor]. constructor; [apply Hcur; reflexivity|constructor].
  - destruct (is_space ch).
    + destruct cur as [w|].
      * constructor; [apply Hcur; reflexivity|]. apply IH. discriminate.
      * apply IH. discriminate.
    + apply IH. intros w [= <-]. destruct cur as [w'|]; [apply truthy_snoc|reflexivity].
Qed.

Lemma ask_routes_any (c : Cornet) (query : string) (format : option string) :
  match words query with
  | [] =>
      ask c query format
      = bind (get_lex_units c "" format) (fun lus => ret (LexUnits lus))
  | [lu_spec] =>
      ask c query format
      = bind (get_lex_units c lu_spec format) (fun lus => ret (LexUnits lus))
  | [lu_spec; rel_spec] =>
      ask c query format
      = bind (get_related_lex_units c lu_spec rel_spec format)
             (fun related_lus => ret (RelatedLexUnits related_lus))
  | from_lu_spec :: rel_spec :: to_lu_spec :: _ =>
      ask c query format
      = bind (test_lex_units_relation c from_lu_spec rel_spec to_lu_spec format)
             (fun path => ret (Path path))
  end.
Proof.
  unfold ask, _split_query, words.
  pose proof (words_aux_truthy (strip query) None) as Hw.
  destruct (words_aux None (strip query)) as [|u [|r [|t rest]]]; cbn [app].
  - reflexivity.
  - cbn [upper map_string truthy]. reflexivity.
  - assert (truthy r = true) as Hr.
    { specialize (Hw ltac:(discriminate)). inversion Hw as [|? ? _ Hw']. inversion Hw'. assumption. }
    cbn [truthy]. rewrite truthy_upper, Hr.
    unfold get_related_lex_units, checked_depth.
    rewrite (same_upper_split r (upper r)) by apply upper_idem.
    rewrite (same_upper_plus r (upper r)) by apply upper_idem. reflexivity.
  - assert (truthy t = true) as Ht.
    { specialize (Hw ltac:(discriminate)). inversion Hw as [|? ? _ Hw'].
      inversion Hw' as [|? ? _ Hw'']. inversion Hw''. assumption. }
    rewrite Ht. unfold test_lex_units_relation.
    rewrite (same_upper_split r (upper r)) by apply upper_idem. reflexivity.
Qed.

(** [ask] goes by the number of words of the query, the words being
    what blanks separate: none or one is a unit spec for
    [get_lex_units], two are a unit spec and a relation spec for
    [get_related_lex_units], three are the arguments of
    [test_lex_units_relation].  Words after the third are ignored, and
    the result and the lookups made are those of the method called. *)
Theorem ask_routes (c : Cornet) (query : string) (format : option string) :
  match words query with
  | [] =>
      ask c query format
      = bind (get_lex_units c "" format) (fun lus => ret (LexUnits lus))
  | [lu_spec] =>
      ask c query format
      = bind (get_lex_units c lu_spec format) (fun lus => ret (LexUnits lus))
  | [lu_spec; rel_spec] =>
      ask c query format
      = bind (get_related_lex_units c lu_spec rel_spec format)
             (fun related_lus => ret (RelatedLexUnits related_lus))
  | from_lu_spec :: rel_spec :: to_lu_spec :: _ =>
      ask c query format
      = bind (test_lex_units_relation c from_lu_spec rel_spec to_lu_spec format)
             (fun path => ret (Path path))
  end.
Proof. apply ask_routes_any. Qed.

(** ** Synsets of a unit *)

Lemma split_join_comma (ids : list string) :
  ids ≠ [] → Forall comma_free ids → split "," (join "," ids) = ids.
Proof.
  induction ids as [|a ids IH]; [congruence|]. intros _ Hfree.
  inversion Hfree as [|? ? Ha Hids]; subst.
  destruct ids as [|b ids]; [exact Ha|].
  change (join "," (a :: b :: ids)) with (a ++ String "," (join "," (b :: ids)))%string.
  rewrite split_app_sep, Ha, IH by (discriminate || assumption). reflexivity.
Qed.

Lemma fold_left_append {A B} (f : B → list A) (l : list B) (acc : list A) :
  fold_left (fun acc x => acc ++ f x) l acc = acc ++ flat_map f l.
Proof.
  revert acc. induction l as [|x l IH]; intros acc; cbn [fold_left flat_map].
  - rewrite app_nil_r. reflexivity.
  - rewrite IH, app_assoc. reflexivity.
Qed.

Lemma flat_map_option {A B} (f : A → option B) (l : list A) :
  flat_map (fun x => match f x with Some y => [y] | None => [] end) l = omap f l.
Proof.
  induction l as [|x l IH]; [reflexivity|].
  cbn. rewrite IH. destruct (f x); reflexivity.
Qed.

Lemma flat_map_agree {A B} (f g : A → list B) (l : list A) :
  (∀ x, x ∈ l → f x = g x) → flat_map f l = flat_map g l.
Proof.
  induction l as [|x l IH]; intros H; [reflexivity|].
  cbn [flat_map]. rewrite H by left. rewrite IH; [reflexivity|].
  intros y Hy. apply H. right. exact Hy.
Qed.

Lemma get_synsets_outcome (c : Cornet) (spec : string) (format : option string) formatter :
  _get_synset_formatter c format = Ok formatter →
  outcome (get_synsets c spec format)
  = Ok (flat_map
          (fun lu =>
             omap (fun c_sy_id => option_map formatter (_c_sy_id2synset c !! c_sy_id))
                  (split "," (ET.get_default (deref c lu) "c_sy_id" "")))
          (resolve c spec)).
Proof.
  intros Hf. unfold get_synsets, resolve.
  destruct (split_unit_spec_unpacks spec) as (_ & form & cat & sense & ->).
  rewrite outcome_bind, outcome_lift. cbn [rbind].
  rewrite Hf. rewrite outcome_bind, outcome_lift. cbn [rbind].
  rewrite outcome_bind. unfold tick at 1. cbn [outcome snd rbind].
  change (snd ?m) with (outcome m).
  erewrite for_each_outcome
    with (f := fun synsets lu =>
                 synsets ++ omap (fun c_sy_id =>
                                    option_map formatter (_c_sy_id2synset c !! c_sy_id))
                                 (split "," (ET.get_default (deref c lu) "c_sy_id" ""))).
  - rewrite fold_left_append. reflexivity.
  - intros synsets lu _.
    erewrite for_each_outcome
      with (f := fun synsets c_sy_id =>
                   synsets ++ match _c_sy_id2synset c !! c_sy_id with
                              | Some sy => [formatter sy]
                              | None => []
                              end).
    + rewrite fold_left_append, <- flat_map_option.
      apply (f_equal Ok), (f_equal (app synsets)), flat_map_ext. intros id.
      destruct (_c_sy_id2synset c !! id); reflexivity.
    + intros synsets' c_sy_id _.
      rewrite outcome_bind. unfold tick at 1. cbn [outcome snd rbind].
      destruct (_c_sy_id2synset c !! c_sy_id); cbn; [reflexivity|].
      rewrite app_nil_r. reflexivity.
Qed.

Lemma listing_ids_comma_free (synsets : list ET.Element)
      (sy_id2lus : gmap string (list node)) (lu : node) :
  (∀ synset_el id, synset_el ∈ synsets → ET.get synset_el "c_sy_id" = Some id →
                   comma_free id) →
  Forall comma_free (listing_ids synsets sy_id2lus lu).
Proof.
  intros Hfree. unfold listing_ids. apply Forall_forall. intros id Hin.
  apply list_elem_of_In, in_flat_map in Hin as (synset_el & Hel & Hin).
  destruct (lookup_lus sy_id2lus (ET.get synset_el "c_sy_id")); [|contradiction].
  apply repeat_spec in Hin. subst id.
  destruct (ET.get synset_el "c_sy_id") as [id|] eqn:Eid; [|reflexivity].
  apply (Hfree synset_el id); [apply list_elem_of_In; exact Hel|exact Eid].
Qed.

(** [get_synsets] after [parse_cdb], whatever the lists of units by
    synset: the synsets follow the ids [parse_cdb] appended to the
    units. *)
Lemma get_synsets_listing
      (c : Cornet) (h : heap) (lus : list node) (synsets : list ET.Element)
      (sy_id2lus : gmap string (list node))
      (spec : string) (format : option string) formatter :
  parse_cdb h lus synsets sy_id2lus = Ok (elements c, _graph c) →
  (∀ lu, lu ∈ resolve c spec → ∃ e, h !! lu = Some e ∧ ET.get e "c_sy_id" = None) →
  (∀ synset_el id, synset_el ∈ synsets → ET.get synset_el "c_sy_id" = Some id →
                   comma_free id) →
  _c_sy_id2synset c !! ""%string = None →
  _get_synset_formatter c format = Ok formatter →
  outcome (get_synsets c spec format)
  = Ok (flat_map
          (fun lu =>
             omap (fun c_sy_id => option_map formatter (_c_sy_id2synset c !! c_sy_id))
                  (listing_ids synsets sy_id2lus lu))
          (resolve c spec)).
Proof.
  intros Hparse Hfile Hfree Hempty Hf.
  rewrite (get_synsets_outcome _ _ _ _ Hf). f_equal.
  apply flat_map_agree. intros lu Hlu.
  destruct (Hfile lu Hlu) as (e & He & Hnone).
  pose proof (parse_cdb_unit_after _ _ _ _ _ _ Hparse lu) as Hafter.
  rewrite He in Hafter. destruct Hafter as (e' & He' & _ & _ & _ & Hattr).
  unfold deref. rewrite He'. cbn [default]. unfold ET.get_default, id.
  rewrite Hattr, Hnone. unfold back_reference.
  destruct (listing_ids synsets sy_id2lus lu) as [|id ids] eqn:Eids.
  - cbn. unfold mbind, option_bind. rewrite Hempty. reflexivity.
  - rewrite split_join_comma; [reflexivity|discriminate|].
    rewrite <- Eids. apply listing_ids_comma_free, Hfree.
Qed.

(** ** The units of a synset *)

Lemma seen_lu_id (c_lu_id : option string) (ids : list string) :
  existsb (fun seen => bool_decide (seen = c_lu_id)) (map Some ids) = true
  ↔ ∃ id, c_lu_id = Some id ∧ id ∈ ids.
Proof.
  rewrite existsb_exists. split.
  - intros (seen & Hin & Heq). apply bool_decide_eq_true in Heq. subst seen.
    apply in_map_iff in Hin as (id & <- & Hin). exists id.
    split; [reflexivity|apply list_elem_of_In; exact Hin].
  - intros (id & -> & Hin). exists (Some id). split.
    + apply in_map_iff. exists id. split; [reflexivity|apply list_elem_of_In; exact Hin].
    + apply bool_decide_eq_true. reflexivity.
Qed.

Lemma synset_to_specs_once_any (c : Cornet) (synset : ET.Element) :
  ∃ ids : list string,
    NoDup ids
    ∧ sublist ids (omap (fun syn => ET.get syn "c_lu_id") (synonym_elements synset))
    ∧ (∀ id, id ∈ ids ↔
             is_Some (_c_lu_id2lu c !! id)
             ∧ ∃ syn, syn ∈ synonym_elements synset ∧ ET.get syn "c_lu_id" = Some id)
    ∧ Forall2 (fun id spec => ∃ lu, _c_lu_id2lu c !! id = Some lu ∧ spec = _lu_to_spec c lu)
              ids (_synset_to_specs c synset).
Proof.
  unfold _synset_to_specs.
  lazymatch goal with
  | |- context [fold_left ?f _ _] => set (step := f)
  end.
  pose proof (fold_left_inv
                (fun done (st : list string * list (option string)) =>
                   ∃ ids : list string,
                     snd st = map Some ids
                     ∧ NoDup ids
                     ∧ sublist ids (omap (fun syn => ET.get syn "c_lu_id") done)
                     ∧ (∀ id, id ∈ ids ↔
                              is_Some (_c_lu_id2lu c !! id)
                              ∧ ∃ syn, syn ∈ done ∧ ET.get syn "c_lu_id" = Some id)
                     ∧ Forall2 (fun id spec =>
                                  ∃ lu, _c_lu_id2lu c !! id = Some lu
                                        ∧ spec = _lu_to_spec c lu)
                               ids (fst st))
                step (synonym_elements synset) [] ([], [])) as Hfold.
  cbn [app] in Hfold.
  destruct Hfold as (ids & _ & Hnodup & Hsub & Hmem & Hspecs).
  - exists []. split; [reflexivity|]. split; [constructor|]. split; [constructor|].
    split; [|constructor].
    intros id. split.
    + intros Hin. apply elem_of_nil in Hin. contradiction.
    + intros (_ & syn & Hin & _). apply elem_of_nil in Hin. contradiction.
  - intros done syn [specs seen] _ (ids & Hseen & Hnodup & Hsub & Hmem & Hspecs).
    cbn [fst snd] in Hseen, Hspecs. subst seen. unfold step.
    rewrite omap_app. cbn [omap list_omap].
    destruct (ET.get syn "c_lu_id") as [id|] eqn:Eid; cbn [lookup_lu].
    2:{ exists ids. cbn [fst snd]. rewrite app_nil_r.
        split; [reflexivity|]. split; [exact Hnodup|]. split; [exact Hsub|].
        split; [|exact Hspecs].
        intros id. rewrite Hmem. split; intros (Hk & syn' & Hin & Hget); (split; [exact Hk|]).
        - exists syn'. split; [apply elem_of_app; left; exact Hin|exact Hget].
        - apply elem_of_app in Hin as [Hin|Hin]; [eauto|].
          apply list_elem_of_singleton in Hin. subst syn'. congruence. }
    assert (∀ id', (is_Some (_c_lu_id2lu c !! id')
                    ∧ ∃ syn', syn' ∈ done ++ [syn] ∧ ET.get syn' "c_lu_id" = Some id')
                   ↔ id' ∈ ids ∨ (id' = id ∧ is_Some (_c_lu_id2lu c !! id))) as Hstep.
    { intros id'. rewrite Hmem. split.
      - intros (Hk & syn' & Hin & Hget). apply elem_of_app in Hin as [Hin|Hin].
        + left. eauto.
        + apply list_elem_of_singleton in Hin. subst syn'.
          assert (id' = id) as -> by congruence. right. auto.
      - intros [(Hk & syn' & Hin & Hget)|[-> Hk]].
        + split; [exact Hk|]. exists syn'. split; [apply elem_of_app; left; exact Hin|exact Hget].
        + split; [exact Hk|]. exists syn.
          split; [apply elem_of_app; right; apply list_elem_of_singleton; reflexivity|exact Eid]. }
    destruct (_c_lu_id2lu c !! id) as [lu|] eqn:Elu.
    2:{ exists ids. cbn [fst snd].
        split; [reflexivity|]. split; [exact Hnodup|].
        split; [apply sublist_inserts_r; exact Hsub|]. split; [|exact Hspecs].
        intros id'. rewrite Hstep. split; [auto|].
        intros [?|[_ [? ?]]]; [assumption|discriminate]. }
    destruct (existsb _ (map Some ids)) eqn:Eseen.
    + apply seen_lu_id in Eseen as (id0 & [= <-] & Hin).
      exists ids. cbn [fst snd].
      split; [reflexivity|]. split; [exact Hnodup|].
      split; [apply sublist_inserts_r; exact Hsub|]. split; [|exact Hspecs].
      intros id'. rewrite Hstep. split; [auto|].
      intros [?|[-> _]]; assumption.
    + assert (id ∉ ids) as Hnew.
      { intros Hin. assert (existsb (fun seen => bool_decide (seen = Some id)) (map Some ids)
                            = true) as Hx by (apply seen_lu_id; eauto).
        congruence. }
      exists (ids ++ [id]). cbn [fst snd].
      split; [rewrite map_app; reflexivity|].
      split.
      { apply NoDup_app. split; [exact Hnodup|]. split; [|apply NoDup_singleton].
        intros x Hx Hx'. apply list_elem_of_singleton in Hx'. subst x. contradiction. }
      split; [apply sublist_app; [exact Hsub|reflexivity]|].
      split.
      * intros id'. rewrite Hstep, elem_of_app, list_elem_of_singleton.
        split; [intros [?| ->]; eauto|intros [?|[-> _]]; auto].
      * apply Forall2_app; [exact Hspecs|]. constructor; [|constructor]. eauto.
  - exists ids. auto.
Qed.

(** [_synset_to_specs] lists a unit once, however often the synset
    names it: the specs it returns are those of the ids of the
    [<synonym>] elements that are in the table of units, each id taken
    once, in the order of the elements; ids that are not in the table
    are passed over. *)
Theorem synset_to_specs_once (c : Cornet) (synset : ET.Element) :
  ∃ ids : list string,
    NoDup ids
    ∧ sublist ids (omap (fun syn => ET.get syn "c_lu_id") (synonym_elements synset))
    ∧ (∀ id, id ∈ ids ↔
             is_Some (_c_lu_id2lu c !! id)
             ∧ ∃ syn, syn ∈ synonym_elements synset ∧ ET.get syn "c_lu_id" = Some id)
    ∧ Forall2 (fun id spec => ∃ lu, _c_lu_id2lu c !! id = Some lu ∧ spec = _lu_to_spec c lu)
              ids (_synset_to_specs c synset).
Proof. apply synset_to_specs_once_any. Qed.

(** ** A unit of a synset by its form *)

Lemma first_with_form_spec (c : Cornet) (lemma : string) (synonyms : list ET.Element) :
  match first_with_form c lemma synonyms with
  | Some lu =>
      ∃ before syn after,
        synonyms = before ++ syn :: after
        ∧ lookup_lu c (ET.get syn "c_lu_id") = Some lu
        ∧ _get_lu_form c lu = lemma
        ∧ (∀ syn' lu', syn' ∈ before → lookup_lu c (ET.get syn' "c_lu_id") = Some lu' →
                       _get_lu_form c lu' ≠ lemma)
  | None =>
      ∀ syn lu, syn ∈ synonyms → lookup_lu c (ET.get syn "c_lu_id") = Some lu →
                _get_lu_form c lu ≠ lemma
  end.
Proof.
  induction synonyms as [|syn rest IH]; cbn [first_with_form].
  - intros syn lu Hin. apply elem_of_nil in Hin. contradiction.
  - destruct (lookup_lu c (ET.get syn "c_lu_id")) as [lu|] eqn:Elu.
    + destruct (String.eqb (_get_lu_form c lu) lemma) eqn:Eform.
      * apply String.eqb_eq in Eform. exists [], syn, rest.
        repeat split; [exact Elu|exact Eform|].
        intros syn' lu' Hin. apply elem_of_nil in Hin. contradiction.
      * apply String.eqb_neq in Eform.
        destruct (first_with_form c lemma rest) as [lu'|].
        -- destruct IH as (before & syn' & after & -> & Hlu' & Hform & Hnone).
           exists (syn :: before), syn', after. repeat split; [exact Hlu'|exact Hform|].
           intros syn0 lu0 Hin Hlu0. apply elem_of_cons in Hin as [->|Hin].
           ++ congruence.
           ++ apply (Hnone syn0 lu0 Hin Hlu0).
        -- intros syn' lu' Hin Hlu'. apply elem_of_cons in Hin as [->|Hin].
           ++ congruence.
           ++ apply (IH syn' lu' Hin Hlu').
    + destruct (first_with_form c lemma rest) as [lu'|].
      * destruct IH as (before & syn' & after & -> & Hlu' & Hform & Hnone).
        exists (syn :: before), syn', after. repeat split; [exact Hlu'|exact Hform|].
        intros syn0 lu0 Hin Hlu0. apply elem_of_cons in Hin as [->|Hin].
        -- congruence.
        -- apply (Hnone syn0 lu0 Hin Hlu0).
      * intros syn' lu' Hin Hlu'. apply elem_of_cons in Hin as [->|Hin].
        -- congruence.
        -- apply (IH syn' lu' Hin Hlu').
Qed.

Lemma get_lex_unit_from_synset_any
      (c : Cornet) (c_sy_id lemma : string) (format : option string) :
  match _c_sy_id2synset c !! c_sy_id with
  | None => outcome (get_lex_unit_from_synset c c_sy_id lemma format) = Ok None
  | Some synset =>
      match _get_lex_unit_formatter c format with
      | Raise e => outcome (get_lex_unit_from_synset c c_sy_id lemma format) = Raise e
      | Ok formatter =>
          ∃ r, outcome (get_lex_unit_from_synset c c_sy_id lemma format) = Ok r
               ∧ (r = None ↔
                  ∀ syn lu, syn ∈ synonym_elements synset →
                            lookup_lu c (ET.get syn "c_lu_id") = Some lu →
                            _get_lu_form c lu ≠ lemma)
               ∧ (∀ v, r = Some v →
                       ∃ before syn after lu,
                         synonym_elements synset = before ++ syn :: after
                         ∧ lookup_lu c (ET.get syn "c_lu_id") = Some lu
                         ∧ _get_lu_form c lu = lemma ∧ v = formatter lu
                         ∧ (∀ syn' lu', syn' ∈ before →
                                        lookup_lu c (ET.get syn' "c_lu_id") = Some lu' →
                                        _get_lu_form c lu' ≠ lemma))
      end
  end.
Proof.
  unfold get_lex_unit_from_synset.
  rewrite outcome_bind. unfold tick at 1. cbn [outcome snd rbind].
  destruct (_c_sy_id2synset c !! c_sy_id) as [synset|]; [|reflexivity].
  change (snd ?m) with (outcome m). rewrite outcome_bind, outcome_lift.
  destruct (_get_lex_unit_formatter c format) as [formatter|e]; [|reflexivity].
  cbn [rbind]. rewrite outcome_ret. eexists. split; [reflexivity|].
  pose proof (first_with_form_spec c lemma (synonym_elements synset)) as Hfirst.
  destruct (first_with_form c lemma (synonym_elements synset)) as [lu|]; cbn [option_map].
  - destruct Hfirst as (before & syn & after & Hsplit & Hlu & Hform & Hnone). split.
    + split; [discriminate|]. intros Hno. exfalso. apply (Hno syn lu); [|exact Hlu|exact Hform].
      rewrite Hsplit. apply elem_of_app. right. left.
    + intros v [= <-]. exists before, syn, after, lu. auto.
  - split; [|discriminate]. split; [intros _; exact Hfirst|reflexivity].
Qed.

(** [get_lex_unit_from_synset]: for a synset id that is not in the
    table the answer is [None], whatever the format, known or not.
    For a synset of the table an unknown format raises; otherwise the
    answer is the first unit, in the order of the [<synonym>]
    elements, that is in the table of units and has the form asked
    for: the synonyms split into those before it, none of which names
    a unit of the table with that form, the one that names it, and
    the rest.  The answer is [None] exactly when the synset has no
    such unit. *)
Theorem get_lex_unit_from_synset_first
        (c : Cornet) (c_sy_id lemma : string) (format : option string) :
  match _c_sy_id2synset c !! c_sy_id with
  | None => outcome (get_lex_unit_from_synset c c_sy_id lemma format) = Ok None
  | Some synset =>
      match _get_lex_unit_formatter c format with
      | Raise e => outcome (get_lex_unit_from_synset c c_sy_id lemma format) = Raise e
      | Ok formatter =>
          ∃ r, outcome (get_lex_unit_from_synset c c_sy_id lemma format) = Ok r
               ∧ (r = None ↔
                  ∀ syn lu, syn ∈ synonym_elements synset →
                            lookup_lu c (ET.get syn "c_lu_id") = Some lu →
                            _get_lu_form c lu ≠ lemma)
               ∧ (∀ v, r = Some v →
                       ∃ before syn after lu,
                         synonym_elements synset = before ++ syn :: after
                         ∧ lookup_lu c (ET.get syn "c_lu_id") = Some lu
                         ∧ _get_lu_form c lu = lemma ∧ v = formatter lu
                         ∧ (∀ syn' lu', syn' ∈ before →
                                        lookup_lu c (ET.get syn' "c_lu_id") = Some lu' →
                                        _get_lu_form c lu' ≠ lemma))
      end
  end.
Proof. apply get_lex_unit_from_synset_any. Qed.

End QueryFacts.

(* ===================================================================== *)
(** * The tables of synsets *)
(* ===================================================================== *)

Module SynsetTableFacts.
Import Py Parse ParseSynsets.

Lemma table_inv_insert c_lu_id2lu done synsets members id elem lus :
  table_inv c_lu_id2lu done synsets members →
  truthy id = true → elem ∈ done → ET.tag elem = "cdb_synset"%string →
  (ET.get elem "c_sy_id" = Some id ∨ ET.get elem "d_synset_id" = Some id) →
  (∃ k, ET.get elem "c_sy_id" = Some k ∧ (k = id ∨ is_Some (members !! k))) →
  known_once c_lu_id2lu lus →
  table_inv c_lu_id2lu done (<[id := elem]> synsets) (<[id := lus]> members).
Proof.
  intros (Hdom & Hsyn & Hmem) Hid Hdone Htag Hwhich (k & Hk & Hin) Hlus.
  split; [|split].
  - intros id'. destruct (decide (id = id')) as [->|Hne].
    + rewrite !lookup_insert_eq. split; eauto.
    + rewrite !lookup_insert_ne by exact Hne. apply Hdom.
  - intros id' elem'. destruct (decide (id = id')) as [->|Hne].
    + rewrite lookup_insert_eq. intros [= <-].
      split; [exact Hid|]. split; [exact Hdone|]. split; [exact Htag|].
      split; [exact Hwhich|]. exists k. split; [exact Hk|].
      destruct (decide (id' = k)) as [->|Hne'].
      * rewrite lookup_insert_eq. eauto.
      * rewrite lookup_insert_ne by exact Hne'. destruct Hin as [->|Hin]; [congruence|exact Hin].
    + rewrite lookup_insert_ne by exact Hne. intros Hlook.
      destruct (Hsyn _ _ Hlook) as (? & ? & ? & ? & k' & Hk' & Hin').
      split; [assumption|]. split; [assumption|]. split; [assumption|].
      split; [assumption|]. exists k'. split; [exact Hk'|].
      destruct (decide (id = k')) as [->|Hne'].
      * rewrite lookup_insert_eq. eauto.
      * rewrite lookup_insert_ne by exact Hne'. exact Hin'.
  - intros id' lus'. destruct (decide (id = id')) as [->|Hne].
    + rewrite lookup_insert_eq. intros [= <-]. exact Hlus.
    + rewrite lookup_insert_ne by exact Hne. apply Hmem.
Qed.

Lemma table_inv_mono c_lu_id2lu done more synsets members :
  table_inv c_lu_id2lu done synsets members →
  table_inv c_lu_id2lu (done ++ more) synsets members.
Proof.
  intros (Hdom & Hsyn & Hmem). split; [exact Hdom|]. split; [|exact Hmem].
  intros id elem Hlook. destruct (Hsyn _ _ Hlook) as (? & ? & ? & ? & ?).
  split; [assumption|]. split; [apply elem_of_app; left; assumption|]. auto.
Qed.

Lemma on_synonym_inv c_lu_id2lu done st elem :
  state_inv c_lu_id2lu done st →
  state_inv c_lu_id2lu (done ++ [elem]) (on_synonym c_lu_id2lu st elem).
Proof.
  intros (Htab & Hnodup & Hseen). unfold on_synonym.
  assert (state_inv c_lu_id2lu (done ++ [elem]) st) as Hsame.
  { split; [apply table_inv_mono; exact Htab|]. split; assumption. }
  destruct (ET.get elem "c_lu_id") as [c_lu_id|]; [|exact Hsame].
  destruct (c_lu_id2lu !! c_lu_id) as [lu|] eqn:Elu; [|exact Hsame].
  destruct (existsb (String.eqb c_lu_id) (seen_lu_ids st)) eqn:Eseen; [exact Hsame|].
  split; [apply table_inv_mono; exact Htab|]. cbn [seen_lu_ids lus]. split.
  - apply NoDup_app. split; [exact Hnodup|]. split; [|apply NoDup_singleton].
    intros x Hx Hx'. apply list_elem_of_singleton in Hx'. subst x.
    assert (existsb (String.eqb c_lu_id) (seen_lu_ids st) = true) as Hex.
    { apply existsb_exists. exists c_lu_id.
      split; [apply list_elem_of_In; exact Hx|apply String.eqb_refl]. }
    congruence.
  - apply Forall2_app; [exact Hseen|]. constructor; [exact Elu|constructor].
Qed.

Lemma attr_truthy_Some (a : option string) :
  attr_truthy a = true ↔ ∃ s, a = Some s ∧ truthy s = true.
Proof.
  destruct a as [s|]; cbn.
  - split; [eauto|]. intros (? & [= <-] & ?). assumption.
  - split; [discriminate|]. intros (? & ? & _). discriminate.
Qed.

Lemma on_synset_inv c_lu_id2lu done st elem :
  state_inv c_lu_id2lu done st →
  ET.tag elem = "cdb_synset"%string →
  match on_synset st elem with
  | Ok st' => ¬ unnamed_synset elem ∧ state_inv c_lu_id2lu (done ++ [elem]) st'
  | Raise e => e = KeyError ∧ unnamed_synset elem
  end.
Proof.
  intros (Htab & Hnodup & Hseen) Htag. unfold on_synset.
  apply (table_inv_mono _ _ [elem]) in Htab.
  assert (elem ∈ done ++ [elem]) as Hin
      by (apply elem_of_app; right; apply list_elem_of_singleton; reflexivity).
  (* the tables after the first test *)
  set (first := match ET.get elem "c_sy_id" with
                | Some id =>
                    if truthy id && negb (bool_decide (is_Some (sy_id2synset st !! id)))
                    then (<[id := elem]> (sy_id2synset st), <[id := lus st]> (sy_id2lus st))
                    else (sy_id2synset st, sy_id2lus st)
                | None => (sy_id2synset st, sy_id2lus st)
                end).
  assert (table_inv c_lu_id2lu (done ++ [elem]) (fst first) (snd first)
          ∧ (∀ id, ET.get elem "c_sy_id" = Some id → truthy id = true →
                   is_Some (snd first !! id))
          ∧ (∀ id, is_Some (snd first !! id) → truthy id = true)) as (Hfirst & Hnamed & Hkeys).
  { subst first. destruct (ET.get elem "c_sy_id") as [id|] eqn:Ec.
    - destruct (truthy id) eqn:Et; cbn [andb].
      + destruct (bool_decide (is_Some (sy_id2synset st !! id))) eqn:Eb; cbn [negb fst snd].
        * apply bool_decide_eq_true in Eb. split; [exact Htab|]. split.
          -- intros id' [= <-] _. apply Htab. exact Eb.
          -- intros id' Hs. apply Htab in Hs as [el Hel].
             destruct Htab as (_ & Hsyn & _). apply (Hsyn _ _ Hel).
        * split; [|split].
          -- apply table_inv_insert; auto.
             ++ exists id. auto.
             ++ exists (seen_lu_ids st). auto.
          -- intros id' [= <-] _. rewrite lookup_insert_eq. eauto.
          -- intros id'. destruct (decide (id = id')) as [<-|Hne]; [auto|].
             rewrite lookup_insert_ne by exact Hne. intros Hs.
             apply Htab in Hs as [el Hel].
             destruct Htab as (_ & Hsyn & _). apply (Hsyn _ _ Hel).
      + cbn [fst snd]. split; [exact Htab|]. split; [intros id' [= <-]; congruence|].
        intros id' Hs. apply Htab in Hs as [el Hel].
        destruct Htab as (_ & Hsyn & _). apply (Hsyn _ _ Hel).
    - cbn [fst snd]. split; [exact Htab|]. split; [discriminate|].
      intros id' Hs. apply Htab in Hs as [el Hel].
      destruct Htab as (_ & Hsyn & _). apply (Hsyn _ _ Hel). }
  destruct first as [synsets members]. cbn [fst snd] in Hfirst, Hnamed, Hkeys.
  assert (∀ synsets' members',
            table_inv c_lu_id2lu (done ++ [elem]) synsets' members' →
            state_inv c_lu_id2lu (done ++ [elem])
                      {| sy_id2synset := synsets'; sy_id2lus := members';
                         lus := []; seen_lu_ids := [] |}) as Hstate.
  { intros ? ? Ht. split; [exact Ht|]. cbn. split; constructor. }
  destruct (ET.get elem "d_synset_id") as [d|] eqn:Ed.
  2:{ cbn [rbind]. split; [|apply Hstate, Hfirst].
      intros (_ & _ & Hd). rewrite Ed in Hd. discriminate. }
  destruct (truthy d) eqn:Etd; cbn [andb].
  2:{ cbn [rbind]. split; [|apply Hstate, Hfirst].
      intros (_ & _ & Hd). rewrite Ed in Hd. cbn in Hd. congruence. }
  destruct (bool_decide (Some d = ET.get elem "c_sy_id")) eqn:Eeq; cbn [negb].
  { apply bool_decide_eq_true in Eeq. cbn [rbind]. split; [|apply Hstate, Hfirst].
    intros (_ & Hc & _). rewrite <- Eeq in Hc. cbn in Hc. congruence. }
  unfold lookup_lus.
  destruct (ET.get elem "c_sy_id") as [id|] eqn:Ec.
  2:{ cbn [rbind]. split; [reflexivity|]. split; [exact Htag|].
      rewrite Ec, Ed. cbn. auto. }
  destruct (truthy id) eqn:Et.
  - destruct (Hnamed id eq_refl Et) as [shared Hshared]. rewrite Hshared. cbn [rbind].
    split.
    + intros (_ & Hc & _). rewrite Ec in Hc. cbn in Hc. congruence.
    + apply Hstate. apply table_inv_insert; auto.
      * exists id. split; [exact Ec|]. right. eauto.
      * destruct Hfirst as (_ & _ & Hmem). apply (Hmem _ _ Hshared).
  - destruct (members !! id) as [shared|] eqn:Eshared.
    + assert (truthy id = true) by (apply Hkeys; eauto). congruence.
    + cbn [rbind]. split; [reflexivity|]. split; [exact Htag|].
      rewrite Ec, Ed. cbn. auto.
Qed.

Lemma read_synsets_inv c_lu_id2lu (parser : list ET.Element) :
  ∀ done st,
    state_inv c_lu_id2lu done st →
    match read_synsets c_lu_id2lu parser st with
    | Ok st' =>
        (∀ elem, elem ∈ parser → ¬ unnamed_synset elem)
        ∧ state_inv c_lu_id2lu (done ++ parser) st'
    | Raise e => e = KeyError ∧ ∃ elem, elem ∈ parser ∧ unnamed_synset elem
    end.
Proof.
  induction parser as [|elem rest IH]; intros done st Hst; cbn [read_synsets].
  - rewrite app_nil_r. split; [|exact Hst].
    intros elem Hin. apply elem_of_nil in Hin. contradiction.
  - replace (done ++ elem :: rest) with ((done ++ [elem]) ++ rest)
      by (rewrite <- app_assoc; reflexivity).
    assert (∀ st1,
              state_inv c_lu_id2lu (done ++ [elem]) st1 →
              ¬ unnamed_synset elem →
              match read_synsets c_lu_id2lu rest st1 with
              | Ok st' =>
                  (∀ elem0, elem0 ∈ elem :: rest → ¬ unnamed_synset elem0)
                  ∧ state_inv c_lu_id2lu ((done ++ [elem]) ++ rest) st'
              | Raise e => e = KeyError ∧ ∃ elem0, elem0 ∈ elem :: rest ∧ unnamed_synset elem0
              end) as Hrest.
    { intros st1 Hst1 Hnot. specialize (IH _ _ Hst1).
      destruct (read_synsets c_lu_id2lu rest st1) as [st'|e].
      - destruct IH as [Hno Hinv]. split; [|exact Hinv].
        intros elem0 Hin. apply elem_of_cons in Hin as [->|Hin]; [exact Hnot|apply Hno, Hin].
      - destruct IH as [-> (elem0 & Hin & Hun)]. split; [reflexivity|].
        exists elem0. split; [right; exact Hin|exact Hun]. }
    destruct (String.eqb (ET.tag elem) "cdb_synset") eqn:Etag.
    + apply String.eqb_eq in Etag.
      pose proof (on_synset_inv _ _ _ _ Hst Etag) as Hstep.
      destruct (on_synset st elem) as [st1|e]; cbn [rbind].
      * destruct Hstep as [Hnot Hst1]. apply Hrest; assumption.
      * destruct Hstep as [-> Hun]. split; [reflexivity|]. exists elem. split; [left|exact Hun].
    + assert (¬ unnamed_synset elem) as Hnot.
      { intros (Ht & _). apply String.eqb_neq in Etag. contradiction. }
      destruct (String.eqb (ET.tag elem) "synonym").
      * apply Hrest; [apply on_synonym_inv; exact Hst|exact Hnot].
      * apply Hrest; [|exact Hnot].
        destruct Hst as (Htab & ? & ?). split; [apply table_inv_mono; exact Htab|]. auto.
Qed.

Lemma parse_cdb_syn_tables_any (parser : list ET.Element) (c_lu_id2lu : gmap string node) :
  match _parse_cdb_syn parser c_lu_id2lu with
  | Ok (synsets, members) =>
      (∀ elem, elem ∈ parser → ¬ unnamed_synset elem)
      ∧ table_inv c_lu_id2lu parser synsets members
  | Raise e => e = KeyError ∧ ∃ elem, elem ∈ parser ∧ unnamed_synset elem
  end.
Proof.
  unfold _parse_cdb_syn.
  pose proof (read_synsets_inv c_lu_id2lu parser []
                {| sy_id2synset := ∅; sy_id2lus := ∅; lus := []; seen_lu_ids := [] |}) as H.
  cbn [app] in H.
  assert (state_inv c_lu_id2lu []
            {| sy_id2synset := ∅; sy_id2lus := ∅; lus := []; seen_lu_ids := [] |}) as Hinit.
  { split; [|split; constructor].
    split; [|split].
    - intros id. cbn. rewrite !lookup_empty. split; intros [? ?]; discriminate.
    - intros ? ?. cbn. rewrite lookup_empty. discriminate.
    - intros ? ?. cbn. rewrite lookup_empty. discriminate. }
  specialize (H Hinit).
  destruct (read_synsets c_lu_id2lu parser _) as [st|e]; cbn [rbind]; [|exact H].
  destruct H as [Hno (Htab & _)]. split; assumption.
Qed.

(** [_parse_cdb_syn] fails in one case only, with a [KeyError]: when
    the file has a [<cdb_synset>] with a [d_synset_id] but without a
    [c_sy_id].  When it returns, the two tables have the same keys; a
    synset is filed under ids that are not empty and are its own
    [c_sy_id] or [d_synset_id]; and the units of a synset are units of
    the table of units, listed once for every distinct id. *)
Theorem parse_cdb_syn_tables (parser : list ET.Element) (c_lu_id2lu : gmap string node) :
  match _parse_cdb_syn parser c_lu_id2lu with
  | Ok (synsets, members) =>
      (∀ elem, elem ∈ parser → ¬ unnamed_synset elem)
      ∧ (∀ id, is_Some (synsets !! id) ↔ is_Some (members !! id))
      ∧ (∀ id elem,
           synsets !! id = Some elem →
           truthy id = true ∧ elem ∈ parser ∧ ET.tag elem = "cdb_synset"%string
           ∧ (ET.get elem "c_sy_id" = Some id ∨ ET.get elem "d_synset_id" = Some id))
      ∧ (∀ id lus,
           members !! id = Some lus →
           ∃ ids, NoDup ids
                  ∧ Forall2 (fun c_lu_id lu => c_lu_id2lu !! c_lu_id = Some lu) ids lus)
  | Raise e => e = KeyError ∧ ∃ elem, elem ∈ parser ∧ unnamed_synset elem
  end.
Proof.
  pose proof (parse_cdb_syn_tables_any parser c_lu_id2lu) as H.
  destruct (_parse_cdb_syn parser c_lu_id2lu) as [[synsets members]|e]; [|exact H].
  destruct H as (Hno & Hdom & Hsyn & Hmem).
  split; [exact Hno|]. split; [exact Hdom|]. split; [|exact Hmem].
  intros id elem Hlook. destruct (Hsyn _ _ Hlook) as (? & ? & ? & ? & _). auto.
Qed.

(** ** From the tables to the edges *)

Lemma relations_to_edges_returns (members : gmap string (list node))
      (synsets : list ET.Element) :
  (∀ synset_el, synset_el ∈ synsets →
                ∃ k, ET.get synset_el "c_sy_id" = Some k ∧ is_Some (members !! k)) →
  ∀ st, ∃ st', _relations_to_edges synsets members st = Ok st'.
Proof.
  induction synsets as [|synset_el rest IH]; intros Hall st; cbn [_relations_to_edges].
  - eauto.
  - destruct (Hall synset_el) as (k & Hk & [nodes Hnodes]); [left|].
    unfold _synonym_relations_to_edges, _wn_internal_relations_to_edges, lookup_lus.
    rewrite Hk, Hnodes. cbn [rbind].
    destruct (fold_left _ nodes st) as [h g]. cbn [rbind].
    apply IH. intros s Hs. apply Hall. right. exact Hs.
Qed.

Lemma parse_cdb_after_syn_any
      (parser : list ET.Element) (c_lu_id2lu : gmap string node)
      (sy_id2synset : gmap string ET.Element) (sy_id2lus : gmap string (list node)) :
  _parse_cdb_syn parser c_lu_id2lu = Ok (sy_id2synset, sy_id2lus) →
  ∀ (h : heap) (lus : list node) (synsets : list ET.Element),
    (∀ synset_el, synset_el ∈ synsets → ∃ id, sy_id2synset !! id = Some synset_el) →
    ∃ h' g, parse_cdb h lus synsets sy_id2lus = Ok (h', g).
Proof.
  intros Hparse h lus synsets Hvalues.
  pose proof (parse_cdb_syn_tables_any parser c_lu_id2lu) as H.
  rewrite Hparse in H. destruct H as (_ & _ & Hsyn & _).
  unfold parse_cdb.
  destruct (relations_to_edges_returns sy_id2lus synsets) with
    (st := (h, fold_left NX.add_node lus NX.empty)) as [[h' g] Hst].
  - intros synset_el Hin. destruct (Hvalues _ Hin) as [id Hid].
    destruct (Hsyn _ _ Hid) as (_ & _ & _ & _ & Hk). exact Hk.
  - eauto.
Qed.

(** With the tables [_parse_cdb_syn] returns, the pass that turns the
    relations into edges cannot fail: every synset of the table has a
    [c_sy_id], and that id has its list of units. *)
Theorem parse_cdb_after_syn
        (parser : list ET.Element) (c_lu_id2lu : gmap string node)
        (sy_id2synset : gmap string ET.Element) (sy_id2lus : gmap string (list node)) :
  _parse_cdb_syn parser c_lu_id2lu = Ok (sy_id2synset, sy_id2lus) →
  ∀ (h : heap) (lus : list node) (synsets : list ET.Element),
    (∀ synset_el, synset_el ∈ synsets → ∃ id, sy_id2synset !! id = Some synset_el) →
    ∃ h' g, parse_cdb h lus synsets sy_id2lus = Ok (h', g).
Proof. apply parse_cdb_after_syn_any. Qed.

Lemma parse_cdb_after_syn_witness :
  ∃ h' g,
    parse_cdb Examples.abc_heap [1; 2; 3; 4] [Examples.twice_abc; Examples.twice_d]
              (list_to_map [("abc", [1; 2; 3]); ("d", [4])]%string)
    = Ok (h', g).
Proof.
  apply (parse_cdb_after_syn Examples.twice_events (Cornet._c_lu_id2lu Examples.twice)
           (Cornet._c_sy_id2synset Examples.twice)).
  - vm_compute. reflexivity.
  - intros synset_el Hin.
    apply elem_of_cons in Hin as [->|Hin];
      [exists "abc"%string|apply list_elem_of_singleton in Hin; subst; exists "d"%string];
      vm_compute; reflexivity.
Defined.

End SynsetTableFacts.

(* ===================================================================== *)
(** * The tables of lexical units *)
(* ===================================================================== *)

Module LexUnitTableFacts.
Import Py Parse ParseSynsets ParseLexUnits Cornet.

Lemma snoc_split {A} (done pre post : list A) (x y : A) :
  done ++ [x] = pre ++ y :: post →
  (post = [] ∧ pre = done ∧ y = x) ∨ (∃ post', post = post' ++ [x] ∧ done = pre ++ y :: post').
Proof.
  revert done. induction pre as [|a pre IH]; intros done Heq.
  - destruct done as [|d done]; cbn in Heq.
    + inversion Heq; subst. left. auto.
    + inversion Heq; subst. right. exists done. auto.
  - destruct done as [|d done]; cbn in Heq.
    + inversion Heq as [[Ha Hnil]]. destruct pre; discriminate.
    + inversion Heq as [[Ha Hrest]]. subst a.
      destruct (IH _ Hrest) as [(-> & -> & ->)|(post' & -> & ->)].
      * left. auto.
      * right. exists post'. auto.
Qed.

Lemma last_form_snoc (l : list ET.Element) (e : ET.Element) :
  last_form (l ++ [e])
  = if String.eqb (ET.tag e) "form" then Some e else last_form l.
Proof. unfold last_form. rewrite rev_app_distr. reflexivity. Qed.

Lemma seq_snoc_length (l : list nat) :
  l = seq 0 (length l) → l ++ [length l] = seq 0 (length (l ++ [length l])).
Proof.
  intros H. rewrite length_app. cbn [length]. rewrite Nat.add_1_r, seq_S.
  cbn [plus]. rewrite <- H. reflexivity.
Qed.

Lemma fresh_not_added (l : list nat) : l = seq 0 (length l) → length l ∉ l.
Proof.
  intros H Hin. rewrite H in Hin at 2. apply list_elem_of_In, in_seq in Hin. lia.
Qed.

Lemma lu_inv_skip done st elem :
  lu_inv done st →
  ET.tag elem ≠ "cdb_lu"%string →
  String.eqb (ET.tag elem) "form" = false →
  lu_inv (done ++ [elem]) st.
Proof.
  intros (Hseq & Hdom & Hcont & Hids & Hforms & Hone & Hform & Hseen & Hno & Hfiled) Htag Hnf.
  split; [exact Hseq|]. split; [exact Hdom|]. split.
  { intros lu e Hlu. destruct (Hcont _ _ Hlu) as (? & ? & ? & ?).
    split; [apply elem_of_app; left; assumption|]. auto. }
  split; [exact Hids|]. split; [exact Hforms|]. split; [exact Hone|]. split.
  { rewrite last_form_snoc, Hnf. exact Hform. }
  split.
  { intros e Hin Ht. apply elem_of_app in Hin as [Hin|Hin]; [apply Hseen; assumption|].
    apply list_elem_of_singleton in Hin. subst e. contradiction. }
  split.
  { intros before e after Heq.
    apply snoc_split in Heq as [(-> & -> & ->)|(post' & -> & ->)].
    - intros (Ht & _). contradiction.
    - apply (Hno _ _ _ eq_refl). }
  intros before e after fe form Heq Ht.
  apply snoc_split in Heq as [(-> & -> & ->)|(post' & -> & ->)]; [contradiction|].
  apply (Hfiled _ _ _ _ _ eq_refl Ht).
Qed.

Lemma lu_inv_form done st elem :
  lu_inv done st →
  String.eqb (ET.tag elem) "form" = true →
  lu_inv (done ++ [elem]) (on_form st elem).
Proof.
  intros (Hseq & Hdom & Hcont & Hids & Hforms & Hone & Hform & Hseen & Hno & Hfiled) Hf.
  assert (ET.tag elem ≠ "cdb_lu"%string) as Htag.
  { apply String.eqb_eq in Hf. rewrite Hf. discriminate. }
  unfold on_form.
  split; [exact Hseq|]. split; [exact Hdom|]. split.
  { intros lu e Hlu. destruct (Hcont _ _ Hlu) as (? & ? & ? & ?).
    split; [apply elem_of_app; left; assumption|]. auto. }
  split; [exact Hids|]. split; [exact Hforms|]. split; [exact Hone|]. split.
  { cbn [form_elem]. rewrite last_form_snoc, Hf. reflexivity. }
  split.
  { intros e Hin Ht. apply elem_of_app in Hin as [Hin|Hin]; [apply Hseen; assumption|].
    apply list_elem_of_singleton in Hin. subst e. contradiction. }
  split.
  { intros before e after Heq.
    apply snoc_split in Heq as [(-> & -> & ->)|(post' & -> & ->)].
    - intros (Ht & _). contradiction.
    - apply (Hno _ _ _ eq_refl). }
  intros before e after fe form Heq Ht.
  apply snoc_split in Heq as [(-> & -> & ->)|(post' & -> & ->)]; [contradiction|].
  apply (Hfiled _ _ _ _ _ eq_refl Ht).
Qed.

Lemma file_under_lookup form lu t f :
  file_under form lu t !! f
  = if decide (form = f) then Some (default [] (t !! form) ++ [lu]) else t !! f.
Proof.
  unfold file_under. destruct (decide (form = f)) as [->|Hne].
  - apply lookup_insert_eq.
  - apply lookup_insert_ne. exact Hne.
Qed.

Lemma lu_inv_unit done st elem :
  lu_inv done st →
  ET.tag elem = "cdb_lu"%string →
  match on_lex_unit st elem with
  | Returned st' => lu_inv (done ++ [elem]) st'
  | Stopped _ => flawed done elem
  end.
Proof.
  intros (Hseq & Hdom & Hcont & Hids & Hforms & Hone & Hform & Hseen & Hno & Hfiled) Htag.
  unfold on_lex_unit.
  destruct (attr_truthy (ET.get elem "c_sy_id")) eqn:Esy.
  { split; [exact Htag|]. left. exact Esy. }
  destruct (ET.get elem "c_lu_id") as [c_lu_id|] eqn:Eid.
  2:{ split; [exact Htag|]. right. left. rewrite Eid. reflexivity. }
  destruct (truthy c_lu_id) eqn:Etr; cbn [andb].
  2:{ split; [exact Htag|]. right. left. rewrite Eid. cbn. exact Etr. }
  destruct (bool_decide (is_Some (c_lu_id2lu st !! c_lu_id))) eqn:Eknown; cbn [negb].
  { apply bool_decide_eq_true in Eknown as [lu Hlu].
    destruct (Hids _ _ Hlu) as (_ & e & He & Hget).
    destruct (Hcont _ _ He) as (Hin & Ht & _).
    split; [exact Htag|]. right. right. left. exists e. rewrite Eid. auto. }
  apply bool_decide_eq_false in Eknown.
  assert (c_lu_id2lu st !! c_lu_id = None) as Hnew.
  { destruct (c_lu_id2lu st !! c_lu_id) eqn:E; [exfalso; apply Eknown; eauto|reflexivity]. }
  destruct (form_elem st) as [form_el|] eqn:Efe.
  2:{ split; [exact Htag|]. right. right. right. symmetry. exact Hform. }
  set (lu := length (added st)).
  pose proof (fresh_not_added _ Hseq) as Hfresh. fold lu in Hfresh.
  assert (contents st !! lu = None) as Hfresh'.
  { destruct (contents st !! lu) eqn:E; [|reflexivity].
    exfalso. apply Hfresh, Hdom. eauto. }
  assert (∀ f units lu', form2lu st !! f = Some units → lu' ∈ units →
            ∃ units',
              match ET.get form_el "form-spelling" with
              | Some f0 => if truthy f0 then file_under f0 lu (form2lu st) else form2lu st
              | None => form2lu st
              end !! f = Some units' ∧ lu' ∈ units') as Hgrow.
  { intros f units lu' Hlook Hin.
    destruct (ET.get form_el "form-spelling") as [f0|]; [|eauto].
    destruct (truthy f0); [|eauto].
    rewrite file_under_lookup. destruct (decide (f0 = f)) as [->|Hne]; [|eauto].
    rewrite Hlook. cbn [default]. eexists. split; [reflexivity|].
    apply elem_of_app. left. exact Hin. }
  split; [|split; [|split; [|split; [|split; [|split; [|split; [|split; [|split]]]]]]]];
    cbn [form2lu c_lu_id2lu added contents form_elem].
  - apply seq_snoc_length, Hseq.
  - intros lu'. rewrite elem_of_app, list_elem_of_singleton.
    destruct (decide (lu = lu')) as [<-|Hne].
    + rewrite lookup_insert_eq. split; eauto.
    + rewrite lookup_insert_ne by exact Hne. rewrite <- Hdom.
      split; [intros [?|?]; [assumption|congruence]|auto].
  - intros lu' e. destruct (decide (lu = lu')) as [<-|Hne].
    + rewrite lookup_insert_eq. intros [= <-].
      split; [apply elem_of_app; right; apply list_elem_of_singleton; reflexivity|].
      split; [exact Htag|]. split; [exact Esy|].
      exists c_lu_id. split; [exact Eid|]. apply lookup_insert_eq.
    + rewrite lookup_insert_ne by exact Hne. intros He.
      destruct (Hcont _ _ He) as (? & ? & ? & id & Hget & Hlook).
      split; [apply elem_of_app; left; assumption|]. split; [assumption|].
      split; [assumption|]. exists id. split; [exact Hget|].
      rewrite lookup_insert_ne; [exact Hlook|]. intros <-. congruence.
  - intros id lu'. destruct (decide (c_lu_id = id)) as [<-|Hne].
    + rewrite lookup_insert_eq. intros [= <-]. split; [exact Etr|].
      exists elem. split; [apply lookup_insert_eq|exact Eid].
    + rewrite lookup_insert_ne by exact Hne. intros Hlook.
      destruct (Hids _ _ Hlook) as (? & e & He & Hget). split; [assumption|].
      exists e. split; [|exact Hget].
      rewrite lookup_insert_ne; [exact He|]. intros <-. congruence.
  - assert (∀ form units, form2lu st !! form = Some units →
                          truthy form = true ∧ units ≠ [] ∧ NoDup units
                          ∧ ∀ lu', lu' ∈ units → lu' ∈ added st ++ [lu]) as Hold.
    { intros form units Hlook. destruct (Hforms _ _ Hlook) as (? & ? & ? & Hsub).
      split; [assumption|]. split; [assumption|]. split; [assumption|].
      intros lu' Hlu'. apply elem_of_app. left. apply Hsub, Hlu'. }
    destruct (ET.get form_el "form-spelling") as [f|]; [|exact Hold].
    destruct (truthy f) eqn:Ef; [|exact Hold].
    intros form units. rewrite file_under_lookup.
    destruct (decide (f = form)) as [<-|Hne]; [|apply Hold].
    intros [= <-]. split; [exact Ef|]. split; [destruct (default [] _); discriminate|].
    destruct (form2lu st !! f) as [units|] eqn:Eunits; cbn [default].
    + destruct (Hforms _ _ Eunits) as (_ & _ & Hnd & Hsub). split.
      * apply NoDup_app. split; [exact Hnd|]. split; [|apply NoDup_singleton].
        intros x Hx Hx'. apply list_elem_of_singleton in Hx'. subst x.
        apply Hfresh, Hsub, Hx.
      * intros lu' Hlu'. apply elem_of_app in Hlu' as [Hlu'|Hlu'].
        -- apply elem_of_app. left. apply Hsub, Hlu'.
        -- apply elem_of_app. right. exact Hlu'.
    + split; [apply NoDup_singleton|]. intros lu' Hlu'. apply elem_of_app. right. exact Hlu'.
  - destruct (ET.get form_el "form-spelling") as [f|]; [|exact Hone].
    destruct (truthy f) eqn:Ef; [|exact Hone].
    assert (∀ form units, form2lu st !! form = Some units → lu ∉ units) as Hnot.
    { intros form units Hlook Hin. destruct (Hforms _ _ Hlook) as (_ & _ & _ & Hsub).
      apply Hfresh, Hsub, Hin. }
    intros f1 f2 u1 u2 lu'. rewrite !file_under_lookup.
    destruct (decide (f = f1)) as [<-|Hne1], (decide (f = f2)) as [<-|Hne2]; [reflexivity| | |].
    + intros [= <-] H2 Hin1 Hin2. apply elem_of_app in Hin1 as [Hin1|Hin1].
      * destruct (form2lu st !! f) as [units|] eqn:Eunits; cbn [default] in Hin1.
        -- apply (Hone _ _ _ _ _ Eunits H2 Hin1 Hin2).
        -- apply elem_of_nil in Hin1. contradiction.
      * apply list_elem_of_singleton in Hin1. subst lu'. exfalso. apply (Hnot _ _ H2 Hin2).
    + intros H1 [= <-] Hin1 Hin2. apply elem_of_app in Hin2 as [Hin2|Hin2].
      * destruct (form2lu st !! f) as [units|] eqn:Eunits; cbn [default] in Hin2.
        -- apply (Hone _ _ _ _ _ H1 Eunits Hin1 Hin2).
        -- apply elem_of_nil in Hin2. contradiction.
      * apply list_elem_of_singleton in Hin2. subst lu'. exfalso. apply (Hnot _ _ H1 Hin1).
    + apply Hone.
  - rewrite last_form_snoc, Htag. cbn. exact Hform.
  - intros e Hin Ht. apply elem_of_app in Hin as [Hin|Hin].
    + destruct (Hseen _ Hin Ht) as (id & Hget & Hs). exists id. split; [exact Hget|].
      destruct (decide (c_lu_id = id)) as [<-|Hne].
      * rewrite lookup_insert_eq. eauto.
      * rewrite lookup_insert_ne by exact Hne. exact Hs.
    + apply list_elem_of_singleton in Hin. subst e. exists c_lu_id.
      split; [exact Eid|]. rewrite lookup_insert_eq. eauto.
  - intros before e after Heq.
    apply snoc_split in Heq as [(-> & -> & ->)|(post' & -> & ->)];
      [|apply (Hno _ _ _ eq_refl)].
    intros (_ & [Hc|[Hc|[Hc|Hc]]]).
    + congruence.
    + rewrite Eid in Hc. cbn in Hc. congruence.
    + destruct Hc as (earlier & Hin & Ht & Hsame).
      destruct (Hseen _ Hin Ht) as (id & Hget & Hs).
      rewrite Hget, Eid in Hsame. injection Hsame as ->. apply Eknown, Hs.
    + rewrite <- Hform in Hc. discriminate.
  - intros before e after fe form Heq Ht Hlast Hget Htruthy.
    apply snoc_split in Heq as [(-> & -> & ->)|(post' & -> & ->)].
    + rewrite <- Hform in Hlast. injection Hlast as <-.
      exists lu. rewrite lookup_insert_eq, Hget, Htruthy, file_under_lookup.
      destruct (decide (form = form)) as [_|Hne]; [|contradiction].
      eexists. split; [reflexivity|]. split; [reflexivity|].
      apply elem_of_app. right. apply list_elem_of_singleton. reflexivity.
    + destruct (Hfiled _ _ _ _ _ eq_refl Ht Hlast Hget Htruthy) as (lu' & units & He & Hlook & Hin).
      destruct (Hgrow _ _ _ Hlook Hin) as (units' & Hlook' & Hin').
      exists lu', units'. split; [|split; assumption].
      rewrite lookup_insert_ne; [exact He|]. intros <-. congruence.
Qed.

Lemma read_lex_units_inv (parser : list ET.Element) :
  ∀ done st,
    lu_inv done st →
    match read_lex_units parser st with
    | Returned st' => lu_inv (done ++ parser) st'
    | Stopped _ =>
        ∃ before elem after, done ++ parser = before ++ elem :: after ∧ flawed before elem
    end.
Proof.
  induction parser as [|elem rest IH]; intros done st Hst; cbn [read_lex_units].
  - rewrite app_nil_r. exact Hst.
  - replace (done ++ elem :: rest) with ((done ++ [elem]) ++ rest)
      by (rewrite <- app_assoc; reflexivity).
    destruct (String.eqb (ET.tag elem) "cdb_lu") eqn:Etag.
    + apply String.eqb_eq in Etag.
      pose proof (lu_inv_unit _ _ _ Hst Etag) as Hstep.
      destruct (on_lex_unit st elem) as [st'|e].
      * apply IH, Hstep.
      * exists done, elem, rest. split; [rewrite <- app_assoc; reflexivity|exact Hstep].
    + apply String.eqb_neq in Etag.
      destruct (String.eqb (ET.tag elem) "form") eqn:Ef.
      * apply IH, lu_inv_form; assumption.
      * apply IH, lu_inv_skip; assumption.
Qed.

Lemma parse_lex_units_inv (parser : list ET.Element) :
  match _parse_lex_units parser with
  | Returned (form2lu, c_lu_id2lu, lus, h) =>
      lu_inv parser {| form2lu := form2lu; c_lu_id2lu := c_lu_id2lu; added := lus;
                       contents := h; form_elem := last_form parser |}
  | Stopped _ => ∃ before elem after, parser = before ++ elem :: after ∧ flawed before elem
  end.
Proof.
  unfold _parse_lex_units.
  pose proof (read_lex_units_inv parser []
                {| form2lu := ∅; c_lu_id2lu := ∅; added := []; contents := ∅;
                   form_elem := None |}) as H.
  cbn [app] in H.
  assert (lu_inv [] {| form2lu := ∅; c_lu_id2lu := ∅; added := []; contents := ∅;
                       form_elem := None |}) as Hinit.
  { split; [reflexivity|]. split.
    { intros lu. cbn. rewrite lookup_empty. split.
      - intros Hin. apply elem_of_nil in Hin. contradiction.
      - intros [? ?]. discriminate. }
    split; [intros ? ?; cbn; rewrite lookup_empty; discriminate|].
    split; [intros ? ?; cbn; rewrite lookup_empty; discriminate|].
    split; [intros ? ?; cbn; rewrite lookup_empty; discriminate|].
    split; [intros ? ? ? ? ?; cbn; rewrite lookup_empty; discriminate|].
    split; [reflexivity|].
    split; [intros e Hin; apply elem_of_nil in Hin; contradiction|].
    split; intros before; intros; destruct before; discriminate. }
  specialize (H Hinit).
  destruct (read_lex_units parser _) as [st|e]; [|exact H].
  destruct st as [f ids lus h fe]. cbn [form2lu c_lu_id2lu added contents].
  destruct H as (H1 & H2 & H3 & H4 & H5 & H6 & H7 & H8 & H9 & H10).
  cbn [form2lu c_lu_id2lu added contents form_elem] in *.
  repeat (split; [assumption|]). split; [reflexivity|]. repeat (split; [assumption|]).
  assumption.
Qed.

(** [_parse_lex_units] stops exactly when the file has a [<cdb_lu>]
    with a [c_sy_id], without a [c_lu_id], with the [c_lu_id] of an
    earlier unit, or read before any [<form>].  When it returns, the
    units added to the graph are distinct and are the elements kept;
    the table of ids pairs every unit with its own [c_lu_id], one to
    one; and the table of forms holds no empty form and no empty
    list, and no unit more than once. *)
Theorem parse_lex_units_tables (parser : list ET.Element) :
  match _parse_lex_units parser with
  | Returned (form2lu, c_lu_id2lu, lus, h) =>
      (∀ before elem after, parser = before ++ elem :: after → ¬ flawed before elem)
      ∧ NoDup lus
      ∧ (∀ lu, lu ∈ lus ↔ is_Some (h !! lu))
      ∧ (∀ id lu, c_lu_id2lu !! id = Some lu
                  ↔ ∃ e, h !! lu = Some e ∧ ET.get e "c_lu_id" = Some id)
      ∧ (∀ lu e, h !! lu = Some e →
                 e ∈ parser ∧ ET.tag e = "cdb_lu"%string
                 ∧ attr_truthy (ET.get e "c_sy_id") = false)
      ∧ (∀ form units, form2lu !! form = Some units →
                       truthy form = true ∧ units ≠ [] ∧ NoDup units
                       ∧ ∀ lu, lu ∈ units → lu ∈ lus)
      ∧ (∀ f1 f2 u1 u2 lu, form2lu !! f1 = Some u1 → form2lu !! f2 = Some u2 →
                           lu ∈ u1 → lu ∈ u2 → f1 = f2)
  | Stopped _ => ∃ before elem after, parser = before ++ elem :: after ∧ flawed before elem
  end.
Proof.
  pose proof (parse_lex_units_inv parser) as H.
  destruct (_parse_lex_units parser) as [[[[f ids] lus] h]|e]; [|exact H].
  destruct H as (Hseq & Hdom & Hcont & Hids & Hforms & Hone & _ & _ & Hno & _).
  cbn [form2lu c_lu_id2lu added contents] in *.
  split; [exact Hno|]. split; [rewrite Hseq; apply NoDup_ListNoDup, seq_NoDup|].
  split; [exact Hdom|]. split.
  { intros id lu. split.
    - intros Hlook. apply Hids in Hlook as [_ ?]. assumption.
    - intros (e & He & Hget). destruct (Hcont _ _ He) as (_ & _ & _ & id' & Hget' & Hlook).
      congruence. }
  split; [|split; assumption].
  intros lu e He. destruct (Hcont _ _ He) as (? & ? & ? & _). auto.
Qed.

(** ** Units and their forms *)

Lemma last_form_app (l1 l2 : list ET.Element) (fe : ET.Element) :
  last_form l2 = Some fe → last_form (l1 ++ l2) = Some fe.
Proof.
  unfold last_form. rewrite rev_app_distr. intros H.
  induction (rev l2) as [|x l IH]; [discriminate|]. cbn in *.
  destruct (String.eqb (ET.tag x) "form"); [exact H|]. apply IH, H.
Qed.

Lemma end_events_last (e : ET.Element) :
  ParseSynsets.end_events e = flat_map ParseSynsets.end_events (ET.children e) ++ [e].
Proof. destruct e. reflexivity. Qed.

Lemma lex_units_filed_any (parser : list ET.Element)
      (form2lu : gmap string (list node)) (c_lu_id2lu : gmap string node)
      (lus : list node) (h : heap) (c : Cornet) :
  _parse_lex_units parser = Returned (form2lu, c_lu_id2lu, lus, h) →
  _form2lu c = form2lu →
  ∀ lu e e' before after,
    h !! lu = Some e →
    parser = before ++ ParseSynsets.end_events e ++ after →
    last_form (flat_map ParseSynsets.end_events (ET.children e)) = ET.find e "form" →
    elements c !! lu = Some e' → ET.children e' = ET.children e →
    truthy (_get_lu_form c lu) = true →
    lu ∈ default [] (_form2lu c !! _get_lu_form c lu).
Proof.
  intros Hparse -> lu e e' before after He Hsplit Hlast He' Hchildren Htruthy.
  pose proof (parse_lex_units_inv parser) as H. rewrite Hparse in H.
  destruct H as (_ & _ & Hcont & _ & _ & _ & _ & _ & _ & Hfiled).
  cbn [ParseLexUnits.form2lu ParseLexUnits.c_lu_id2lu added contents] in *.
  unfold _get_lu_form, deref in *. rewrite He' in *. cbn [default] in *. unfold id in *.
  assert (ET.find e' "form" = ET.find e "form") as Hfind
      by (unfold ET.find; rewrite Hchildren; reflexivity).
  rewrite Hfind in *.
  destruct (ET.find e "form") as [fe|] eqn:Efe; [|discriminate].
  unfold ET.get_default in *.
  destruct (ET.get fe "form-spelling") as [form|] eqn:Eform; [|discriminate].
  rewrite end_events_last in Hsplit.
  assert (parser = (before ++ flat_map ParseSynsets.end_events (ET.children e)) ++ e :: after)
    as Hsplit' by (rewrite Hsplit, <- !app_assoc; reflexivity).
  destruct (Hcont _ _ He) as (_ & Htag & _ & id & Hid & Hlook).
  destruct (Hfiled _ _ _ fe form Hsplit' Htag (last_form_app _ _ _ Hlast) Eform Htruthy)
    as (lu' & units & He2 & Hunits & Hin).
  destruct (Hcont _ _ He2) as (_ & _ & _ & id' & Hid' & Hlook').
  assert (lu' = lu) as -> by congruence.
  rewrite Hunits. exact Hin.
Qed.

(** A unit is filed in the table of forms under its own form, where
    [get_lex_units] looks for it: this for a unit of the file whose
    [<form>] child is the [<form>] read last before the unit is
    closed, and whose form is not empty.  (The elements of the
    instance are those of the file, but for attributes added later.) *)
Theorem lex_units_filed_under_form (parser : list ET.Element)
        (form2lu : gmap string (list node)) (c_lu_id2lu : gmap string node)
        (lus : list node) (h : heap) (c : Cornet) :
  _parse_lex_units parser = Returned (form2lu, c_lu_id2lu, lus, h) →
  _form2lu c = form2lu →
  ∀ lu e e' before after,
    h !! lu = Some e →
    parser = before ++ ParseSynsets.end_events e ++ after →
    last_form (flat_map ParseSynsets.end_events (ET.children e)) = ET.find e "form" →
    elements c !! lu = Some e' → ET.children e' = ET.children e →
    truthy (_get_lu_form c lu) = true →
    lu ∈ default [] (_form2lu c !! _get_lu_form c lu).
Proof. apply lex_units_filed_any. Qed.

Lemma lex_units_filed_under_form_witness :
  1 ∈ default [] (_form2lu Examples.read_units !! _get_lu_form Examples.read_units 1).
Proof.
  apply (lex_units_filed_under_form Examples.unit_events
           (_form2lu Examples.read_units) (_c_lu_id2lu Examples.read_units)
           [0; 1; 2] (elements Examples.read_units) Examples.read_units
           eq_refl eq_refl 1
           (Examples.cdb_lu "r2" "A" "verb" "1" []) (Examples.cdb_lu "r2" "A" "verb" "1" [])
           (ParseSynsets.end_events (Examples.cdb_lu "r1" "A" "noun" "1" []))
           (ParseSynsets.end_events (Examples.cdb_lu "r3" "B" "noun" "1" [])
            ++ [ET.Elem "cdb_lu_list" []
                  [Examples.cdb_lu "r1" "A" "noun" "1" []; Examples.cdb_lu "r2" "A" "verb" "1" [];
                   Examples.cdb_lu "r3" "B" "noun" "1" []]]));
    reflexivity.
Defined.

End LexUnitTableFacts.

(* ===================================================================== *)
(** * Counts and probabilities *)
(* ===================================================================== *)

Module CountFacts.
Import Py SpecParser Cornet SimCornet ParseCounts.

Lemma parse_count_totals_lookup (root : ET.Element) (cat2counts : gmap string Z) :
  _parse_count_totals root = Ok cat2counts →
  ∀ cat,
    match cat2counts !! cat with
    | Some total =>
        cat ∈ counted_categories
        ∧ ∃ s, ET.get root (total_attr cat) = Some s ∧ int_of_string s = Ok total
    | None => cat ∉ counted_categories
    end.
Proof.
  unfold _parse_count_totals, counted_categories. cbn [fold_left rbind].
  destruct (ET.get root (total_attr "noun")) as [s1|] eqn:E1; [|discriminate].
  destruct (int_of_string s1) as [n1|] eqn:I1; [|discriminate]. cbn [rbind].
  destruct (ET.get root (total_attr "verb")) as [s2|] eqn:E2; [|discriminate].
  destruct (int_of_string s2) as [n2|] eqn:I2; [|discriminate]. cbn [rbind].
  destruct (ET.get root (total_attr "adj")) as [s3|] eqn:E3; [|discriminate].
  destruct (int_of_string s3) as [n3|] eqn:I3; [|discriminate]. cbn [rbind].
  destruct (ET.get root (total_attr "other")) as [s4|] eqn:E4; [|discriminate].
  destruct (int_of_string s4) as [n4|] eqn:I4; [|discriminate]. cbn [rbind].
  destruct (ET.get root (total_attr "all")) as [s5|] eqn:E5; [|discriminate].
  destruct (int_of_string s5) as [n5|] eqn:I5; [|discriminate]. cbn [rbind].
  intros [= <-] cat.
  destruct (decide (cat = "all"%string)) as [->|H5].
  { rewrite lookup_insert_eq. split; [apply list_elem_of_In; cbn; auto 10|eauto]. }
  rewrite lookup_insert_ne by congruence.
  destruct (decide (cat = "other"%string)) as [->|H4].
  { rewrite lookup_insert_eq. split; [apply list_elem_of_In; cbn; auto 10|eauto]. }
  rewrite lookup_insert_ne by congruence.
  destruct (decide (cat = "adj"%string)) as [->|H3].
  { rewrite lookup_insert_eq. split; [apply list_elem_of_In; cbn; auto 10|eauto]. }
  rewrite lookup_insert_ne by congruence.
  destruct (decide (cat = "verb"%string)) as [->|H2].
  { rewrite lookup_insert_eq. split; [apply list_elem_of_In; cbn; auto 10|eauto]. }
  rewrite lookup_insert_ne by congruence.
  destruct (decide (cat = "noun"%string)) as [->|H1].
  { rewrite lookup_insert_eq. split; [apply list_elem_of_In; cbn; auto 10|eauto]. }
  rewrite lookup_insert_ne by congruence.
  rewrite lookup_empty. unfold counted_categories. intros Hin.
  repeat (apply elem_of_cons in Hin as [->|Hin]; [congruence|]).
  apply elem_of_nil in Hin. exact Hin.
Qed.

Section Probability.

Variable float : Type.
Variable of_int : Z → float.
Variable fdiv : float → float → result float.

Lemma p_total_of_category_any (root : ET.Element) (sc : SimCornet.SimCornet) :
  _parse_count_totals root = Ok (_cat2counts sc) →
  ∀ lu subcount smooth cat_totals n,
    _get_lu_count sc lu subcount = Ok (Some n) →
    let cat := if cat_totals && truthy (_get_lu_cat (cornet sc) lu)
               then _get_lu_cat (cornet sc) lu else "all"%string in
    if bool_decide (cat ∈ counted_categories) then
      ∃ s total,
        ET.get root (total_attr cat) = Some s ∧ int_of_string s = Ok total
        ∧ _p float of_int fdiv sc lu subcount smooth cat_totals
          = rbind (fdiv (of_int (if (n =? 0)%Z && smooth then 1%Z else n)) (of_int total))
                  (fun p => Ok (Some p))
    else _p float of_int fdiv sc lu subcount smooth cat_totals = Raise KeyError.
Proof.
  intros Htotals lu subcount smooth cat_totals n Hcount cat.
  pose proof (parse_count_totals_lookup _ _ Htotals cat) as Hcat.
  assert (_p float of_int fdiv sc lu subcount smooth cat_totals
          = match _cat2counts sc !! cat with
            | None => Raise KeyError
            | Some total =>
                rbind (fdiv (of_int (if (n =? 0)%Z && smooth then 1%Z else n)) (of_int total))
                      (fun p => Ok (Some p))
            end) as ->.
  { unfold _p. rewrite Hcount. cbn [rbind]. subst cat.
    destruct cat_totals; cbn [andb]; [|reflexivity].
    destruct (truthy (_get_lu_cat (cornet sc) lu)); reflexivity. }
  destruct (_cat2counts sc !! cat) as [total|].
  - destruct Hcat as (Hin & s & Hs & Hint).
    rewrite bool_decide_eq_true_2 by exact Hin. eauto.
  - rewrite bool_decide_eq_false_2 by exact Hcat. reflexivity.
Qed.

End Probability.

(** With the totals [_parse_count_totals] has read, the probability of
    a unit that has a count is that count (one for a zero count when
    smoothing) divided by a total of the root of the file: the overall
    total, or with [cat_totals] the total of the category of the unit.
    For a category that has no total, such as [adv], [_p] raises
    [KeyError]; without [cat_totals] it never does. *)
Theorem p_total_of_category
        (float : Type) (of_int : Z → float) (fdiv : float → float → result float)
        (root : ET.Element) (sc : SimCornet.SimCornet) :
  _parse_count_totals root = Ok (_cat2counts sc) →
  ∀ lu subcount smooth cat_totals n,
    _get_lu_count sc lu subcount = Ok (Some n) →
    let cat := if cat_totals && truthy (_get_lu_cat (cornet sc) lu)
               then _get_lu_cat (cornet sc) lu else "all"%string in
    if bool_decide (cat ∈ counted_categories) then
      ∃ s total,
        ET.get root (total_attr cat) = Some s ∧ int_of_string s = Ok total
        ∧ _p float of_int fdiv sc lu subcount smooth cat_totals
          = rbind (fdiv (of_int (if (n =? 0)%Z && smooth then 1%Z else n)) (of_int total))
                  (fun p => Ok (Some p))
    else _p float of_int fdiv sc lu subcount smooth cat_totals = Raise KeyError.
Proof. apply p_total_of_category_any. Qed.

Lemma p_total_of_category_witness :
  _p Dyadic.float Dyadic.of_int Dyadic.fdiv Examples.adverbs 1 false false true
  = Raise KeyError
  ∧ _p Dyadic.float Dyadic.of_int Dyadic.fdiv Examples.adverbs 1 false false false
    = Ok (Some (3 # 16)%Q).
Proof.
  split.
  - apply (p_total_of_category Dyadic.float Dyadic.of_int Dyadic.fdiv
             Examples.totals_root Examples.adverbs eq_refl 1 false false true 3 eq_refl).
  - destruct (p_total_of_category Dyadic.float Dyadic.of_int Dyadic.fdiv
                Examples.totals_root Examples.adverbs eq_refl 1 false false false 3 eq_refl)
      as (s & total & Hs & Htotal & ->).
    vm_compute in Hs. injection Hs as <-. vm_compute in Htotal. injection Htotal as <-.
    vm_compute. reflexivity.
Defined.

End CountFacts.

(* ===================================================================== *)
(** * The values the proxy returns *)
(* ===================================================================== *)

Module ProxyFacts.
Import Py Server.

(** Induction on values: the elements of a list and the keys and
    values of a dict come before the list and the dict. *)
Lemma pyval_nested_ind (P : pyval → Prop) :
  P PNone → (∀ b, P (PBool b)) → (∀ n, P (PInt n)) → (∀ s, P (PStr s)) →
  (∀ l, Forall P l → P (PList l)) →
  (∀ items, Forall (fun kv => P (fst kv) ∧ P (snd kv)) items → P (PDict items)) →
  ∀ v, P v.
Proof.
  intros HNone HBool HInt HStr HList HDict.
  fix IH 1. intros [|b|n|s|l|items].
  - exact HNone.
  - apply HBool.
  - apply HInt.
  - apply HStr.
  - apply HList. induction l as [|x l IHl]; constructor; [apply IH|exact IHl].
  - apply HDict. induction items as [|[k v] items IHitems]; constructor.
    + split; apply IH.
    + exact IHitems.
Qed.

(** ** Building a dict *)

Lemma setitem_components (Pk Pv : pyval → Prop) (k v : pyval) (d : list (pyval * pyval)) :
  Forall (fun kv => Pk (fst kv) ∧ Pv (snd kv)) d → Pk k → Pv v →
  Forall (fun kv => Pk (fst kv) ∧ Pv (snd kv)) (setitem k v d).
Proof.
  intros Hd Hk Hv. induction Hd as [|[k' v'] d [Hk' Hv'] Hd IH]; cbn [setitem].
  - constructor; [split; assumption|constructor].
  - destruct (key_eqb k' k); constructor; auto.
Qed.

Lemma dict_of_components (Pk Pv : pyval → Prop) (pairs : list (pyval * pyval)) :
  Forall (fun kv => Pk (fst kv) ∧ Pv (snd kv)) pairs →
  Forall (fun kv => Pk (fst kv) ∧ Pv (snd kv)) (dict_of pairs).
Proof.
  unfold dict_of. intros Hp.
  assert (∀ acc, Forall (fun kv => Pk (fst kv) ∧ Pv (snd kv)) acc →
                 Forall (fun kv => Pk (fst kv) ∧ Pv (snd kv))
                        (fold_left (fun d kv => match kv with (k, v) => setitem k v d end)
                                   pairs acc)) as H.
  { induction Hp as [|[k v] pairs [Hk Hv] Hp IH]; intros acc Hacc; cbn [fold_left].
    - exact Hacc.
    - apply IH, setitem_components; assumption. }
  apply H. constructor.
Qed.

Lemma setitem_keys (k v : pyval) (d : list (pyval * pyval)) :
  map fst (setitem k v d)
  = if existsb (fun kv => key_eqb (fst kv) k) d then map fst d else map fst d ++ [k].
Proof.
  induction d as [|[k' v'] d IH]; cbn [setitem existsb map fst]; [reflexivity|].
  destruct (key_eqb k' k); cbn [orb map fst]; [reflexivity|].
  rewrite IH. destruct (existsb _ d); reflexivity.
Qed.

Lemma keys_distinct_keys (d d' : list (pyval * pyval)) :
  map fst d = map fst d' → keys_distinct d = keys_distinct d'.
Proof.
  revert d'. induction d as [|[k v] d IH]; intros [|[k' v'] d'] Heq; try discriminate;
    [reflexivity|].
  cbn in Heq. injection Heq as -> Heq. cbn [keys_distinct].
  rewrite (IH _ Heq). f_equal. f_equal.
  assert (∀ l : list (pyval * pyval),
            existsb (fun kv => key_eqb k' (fst kv)) l = existsb (key_eqb k') (map fst l)) as Hex.
  { induction l as [|x l IHl]; [reflexivity|]. cbn. rewrite IHl. reflexivity. }
  rewrite !Hex, Heq. reflexivity.
Qed.

Lemma keys_distinct_snoc (d : list (pyval * pyval)) (k v : pyval) :
  keys_distinct (d ++ [(k, v)])
  = keys_distinct d && negb (existsb (fun kv => key_eqb (fst kv) k) d).
Proof.
  induction d as [|[k' v'] d IH]; cbn [app keys_distinct existsb fst]; [reflexivity|].
  rewrite IH, existsb_app. cbn [existsb fst]. rewrite orb_false_r.
  destruct (existsb (fun kv => key_eqb k' (fst kv)) d), (key_eqb k' k),
    (keys_distinct d), (existsb (fun kv => key_eqb (fst kv) k) d); reflexivity.
Qed.

Lemma setitem_distinct (k v : pyval) (d : list (pyval * pyval)) :
  keys_distinct d = true → keys_distinct (setitem k v d) = true.
Proof.
  intros Hd.
  destruct (existsb (fun kv => key_eqb (fst kv) k) d) eqn:Ex.
  - rewrite (keys_distinct_keys (setitem k v d) d); [exact Hd|].
    rewrite setitem_keys, Ex. reflexivity.
  - rewrite (keys_distinct_keys (setitem k v d) (d ++ [(k, v)])).
    + rewrite keys_distinct_snoc, Hd, Ex. reflexivity.
    + rewrite setitem_keys, Ex, map_app. reflexivity.
Qed.

Lemma dict_of_distinct (pairs : list (pyval * pyval)) :
  keys_distinct (dict_of pairs) = true.
Proof.
  unfold dict_of.
  assert (∀ acc, keys_distinct acc = true →
                 keys_distinct
                   (fold_left (fun d kv => match kv with (k, v) => setitem k v d end)
                              pairs acc) = true) as H.
  { induction pairs as [|[k v] pairs IH]; intros acc Hacc; cbn [fold_left]; [exact Hacc|].
    apply IH, setitem_distinct, Hacc. }
  apply H. reflexivity.
Qed.

Lemma setitem_new (k v : pyval) (d : list (pyval * pyval)) :
  existsb (fun kv => key_eqb (fst kv) k) d = false → setitem k v d = d ++ [(k, v)].
Proof.
  induction d as [|[k' v'] d IH]; cbn [setitem existsb fst app]; [reflexivity|].
  destruct (key_eqb k' k); cbn [orb]; [discriminate|]. intros H. rewrite IH by exact H.
  reflexivity.
Qed.

Lemma dict_of_proper (items : list (pyval * pyval)) :
  keys_distinct items = true → dict_of items = items.
Proof.
  unfold dict_of. intros Hd.
  assert (∀ acc, keys_distinct (acc ++ items) = true →
                 fold_left (fun d kv => match kv with (k, v) => setitem k v d end) items acc
                 = acc ++ items) as H.
  { clear Hd. induction items as [|[k v] items IH]; intros acc Hacc; cbn [fold_left].
    - rewrite app_nil_r. reflexivity.
    - replace (acc ++ (k, v) :: items) with ((acc ++ [(k, v)]) ++ items) in *
        by (rewrite <- app_assoc; reflexivity).
      assert (keys_distinct (acc ++ [(k, v)]) = true) as Hsnoc.
      { revert Hacc. generalize (acc ++ [(k, v)]). intros l.
        induction l as [|[k' v'] l IHl]; cbn [app keys_distinct]; [reflexivity|].
        rewrite existsb_app. intros H. apply andb_true_iff in H as [H1 H2].
        rewrite negb_true_iff in H1. apply orb_false_iff in H1 as [H1 _].
        rewrite H1, IHl by exact H2. reflexivity. }
      rewrite keys_distinct_snoc in Hsnoc. apply andb_true_iff in Hsnoc as [_ Hnew].
      rewrite negb_true_iff in Hnew. rewrite setitem_new by exact Hnew.
      apply IH, Hacc. }
  apply (H []). exact Hd.
Qed.

(** ** What the proxy returns *)

Lemma safe_return_result (v : pyval) :
  none_free (_safe_return v) = true ∧ dicts_proper (_safe_return v) = true.
Proof.
  induction v as [|b|n|s|l IH|items IH] using pyval_nested_ind; cbn [_safe_return];
    try (split; reflexivity).
  - cbn [none_free dicts_proper]. split; apply forallb_forall; intros x Hx;
      apply in_map_iff in Hx as (y & <- & Hy);
      rewrite Forall_forall in IH; apply IH, list_elem_of_In, Hy.
  - cbn [none_free dicts_proper]. rewrite dict_of_distinct. cbn [andb].
    assert (Forall (fun kv => (none_free (fst kv) = true ∧ dicts_proper (fst kv) = true)
                              ∧ (none_free (snd kv) = true ∧ dicts_proper (snd kv) = true))
                   (dict_of (map (fun kv => match kv with
                                            | (k, v) => (_safe_return k, _safe_return v)
                                            end) items))) as Hall.
    { apply (dict_of_components
               (fun k => none_free k = true ∧ dicts_proper k = true)
               (fun v => none_free v = true ∧ dicts_proper v = true)).
      apply Forall_forall. intros kv Hkv.
      apply list_elem_of_In, in_map_iff in Hkv as ([k v] & <- & Hin).
      rewrite Forall_forall in IH. apply (IH (k, v)), list_elem_of_In, Hin. }
    rewrite Forall_forall in Hall.
    split; apply forallb_forall; intros [k v] Hkv;
      destruct (Hall (k, v)) as [[? ?] [? ?]]; try (apply list_elem_of_In; exact Hkv);
      cbn [fst snd] in *; apply andb_true_iff; split; assumption.
Qed.

Lemma safe_return_unchanged (v : pyval) :
  none_free v = true → dicts_proper v = true → _safe_return v = v.
Proof.
  induction v as [|b|n|s|l IH|items IH] using pyval_nested_ind;
    cbn [_safe_return none_free dicts_proper]; intros Hfree Hproper;
    try reflexivity; try discriminate.
  - f_equal. rewrite <- (map_id l) at 2. apply map_ext_in. intros x Hx.
    rewrite Forall_forall in IH. rewrite forallb_forall in Hfree, Hproper.
    apply IH; [apply list_elem_of_In; exact Hx|apply Hfree, Hx|apply Hproper, Hx].
  - apply andb_true_iff in Hproper as [Hkeys Hproper].
    assert (map (fun kv => match kv with
                           | (k, v) => (_safe_return k, _safe_return v)
                           end) items = items) as ->.
    { rewrite <- (map_id items) at 2. apply map_ext_in. intros [k v] Hkv.
      rewrite Forall_forall in IH. rewrite forallb_forall in Hfree, Hproper.
      specialize (IH (k, v) ltac:(apply list_elem_of_In; exact Hkv)).
      specialize (Hfree _ Hkv). specialize (Hproper _ Hkv). cbn in *.
      apply andb_true_iff in Hfree as [? ?]. apply andb_true_iff in Hproper as [? ?].
      destruct IH as [IHk IHv]. rewrite IHk, IHv by assumption. reflexivity. }
    rewrite dict_of_proper by exact Hkeys. reflexivity.
Qed.

(** What [_safe_return] returns holds no [None], at any depth, in
    lists or in the keys and values of dicts.  A value that holds no
    [None] is returned as it is, and so is what [_safe_return] has
    returned before: translating twice changes nothing. *)
Theorem safe_return_none_free (v : pyval) :
  none_free (_safe_return v) = true
  ∧ (none_free v = true → dicts_proper v = true → _safe_return v = v)
  ∧ _safe_return (_safe_return v) = _safe_return v.
Proof.
  destruct (safe_return_result v) as [Hfree Hproper].
  split; [exact Hfree|]. split; [apply safe_return_unchanged|].
  apply safe_return_unchanged; assumption.
Qed.

(** A dict with the keys [None] and [0]: both are the key [False]
    afterwards, and the value read last is kept. *)
Example safe_return_merges_keys :
  _safe_return (PDict [(PNone, PStr "a"); (PInt 0, PList [PNone])])
  = PDict [(PBool false, PList [PBool false])].
Proof. reflexivity. Qed.

End ProxyFacts.

(* ===================================================================== *)
(** * Opening a database *)
(* ===================================================================== *)

Module OpenFacts.
Import Py SpecParser Parse ParseSynsets ParseLexUnits Induced Cornet.
Import ParseFacts LexUnitFacts LexUnitTableFacts.

Lemma opened_units_found_any
      (parser : list ET.Element) (synsets : list ET.Element)
      (sy_id2lus : gmap string (list node))
      (form2lu : gmap string (list node)) (c_lu_id2lu : gmap string node)
      (lus : list node) (h : heap) (c : Cornet) :
  _parse_lex_units parser = Returned (form2lu, c_lu_id2lu, lus, h) →
  parse_cdb h lus synsets sy_id2lus = Ok (elements c, _graph c) →
  _form2lu c = form2lu →
  ∀ lu e before after,
    h !! lu = Some e →
    parser = before ++ end_events e ++ after →
    last_form (flat_map end_events (ET.children e)) = ET.find e "form" →
    truthy (_get_lu_form c lu) = true →
    split ":" (_get_lu_form c lu) = [_get_lu_form c lu] →
    split ":" (_get_lu_cat c lu) = [_get_lu_cat c lu] →
    split ":" (_get_lu_sense c lu) = [_get_lu_sense c lu] →
    lstrip (_get_lu_form c lu) = _get_lu_form c lu →
    lower (_get_lu_cat c lu) = _get_lu_cat c lu →
    lu ∈ resolve c (_lu_to_spec c lu).
Proof.
  intros Hunits Hedges Hforms lu e before after He Hsplit Hlast Htruthy
         Hform Hcat Hsense Hstrip Hlower.
  apply lu_to_spec_resolves; try assumption.
  pose proof (parse_cdb_unit_after _ _ _ _ _ _ Hedges lu) as Hafter.
  rewrite He in Hafter. destruct Hafter as (e' & He' & _ & Hchildren & _).
  apply (lex_units_filed_any parser form2lu c_lu_id2lu lus h c Hunits Hforms
           lu e e' before after He Hsplit Hlast He' Hchildren Htruthy).
Qed.

(** On an instance opened on a database, the spec written for a unit
    finds the unit: [get_lex_units] on [_lu_to_spec(lu)] has [lu]
    among its units.  This for a unit of the file whose [<form>]
    child is the [<form>] read last before the unit is closed, with a
    form that is not empty and does not begin with a blank, a category
    in lower case, and no colon in form, category or sense. *)
Theorem opened_units_found
        (parser : list ET.Element) (synsets : list ET.Element)
        (sy_id2lus : gmap string (list node))
        (form2lu : gmap string (list node)) (c_lu_id2lu : gmap string node)
        (lus : list node) (h : heap) (c : Cornet) :
  _parse_lex_units parser = Returned (form2lu, c_lu_id2lu, lus, h) →
  parse_cdb h lus synsets sy_id2lus = Ok (elements c, _graph c) →
  _form2lu c = form2lu →
  ∀ lu e before after,
    h !! lu = Some e →
    parser = before ++ end_events e ++ after →
    last_form (flat_map end_events (ET.children e)) = ET.find e "form" →
    truthy (_get_lu_form c lu) = true →
    split ":" (_get_lu_form c lu) = [_get_lu_form c lu] →
    split ":" (_get_lu_cat c lu) = [_get_lu_cat c lu] →
    split ":" (_get_lu_sense c lu) = [_get_lu_sense c lu] →
    lstrip (_get_lu_form c lu) = _get_lu_form c lu →
    lower (_get_lu_cat c lu) = _get_lu_cat c lu →
    lu ∈ resolve c (_lu_to_spec c lu).
Proof. apply opened_units_found_any. Qed.

Lemma opened_units_found_witness :
  1 ∈ resolve Examples.read_units (_lu_to_spec Examples.read_units 1)
  ∧ _lu_to_spec Examples.read_units 1 = "A:verb:1"%string.
Proof.
  split; [|reflexivity].
  apply (opened_units_found Examples.unit_events [] ∅
           (_form2lu Examples.read_units) (_c_lu_id2lu Examples.read_units)
           [0; 1; 2] (elements Examples.read_units) Examples.read_units
           eq_refl eq_refl eq_refl 1
           (Examples.cdb_lu "r2" "A" "verb" "1" [])
           (ParseSynsets.end_events (Examples.cdb_lu "r1" "A" "noun" "1" []))
           (ParseSynsets.end_events (Examples.cdb_lu "r3" "B" "noun" "1" [])
            ++ [ET.Elem "cdb_lu_list" []
                  [Examples.cdb_lu "r1" "A" "noun" "1" []; Examples.cdb_lu "r2" "A" "verb" "1" [];
                   Examples.cdb_lu "r3" "B" "noun" "1" []]]));
    reflexivity.
Defined.

End OpenFacts.

(* ===================================================================== *)
(** * Resnik's similarity as a maximum *)
(* ===================================================================== *)

Module ResnikFacts.
Import Py SpecParser Cornet Reach Invariants TraversalFacts SubsumerFacts SimCornet
       SimilarityFacts CommonSubsumerFacts.

(** With the raw format every member of a group is a unit. *)
Lemma raw_group_units (sucs1 sucs2 : gmap node nat) (k : nat) (group : list value) :
  group_by_sum VLu sucs1 sucs2 !! k = Some group → group = map VLu (as_lus group).
Proof.
  rewrite group_by_sum_lookup.
  assert (H : ∀ l : list (node * nat),
             map (fun p => VLu p.1) l = map VLu (as_lus (map (fun p => VLu p.1) l))).
  { induction l as [|q l IH]; [reflexivity|].
    cbn [map]. unfold as_lus in *. cbn. rewrite <- IH. reflexivity. }
  destruct (List.filter _ _) as [|p fl]; [discriminate|]. intros [= <-]. exact (H (p :: fl)).
Qed.

(** [least_common_subsumers] with the default relation and raw output
    returns a list of units. *)
Lemma least_common_subsumers_units (c : Cornet) (spec1 spec2 : string) :
  ∃ lcss,
    outcome (least_common_subsumers c spec1 spec2 "HAS_HYPERONYM" (Some "raw"%string))
    = Ok (map VLu lcss)
    ∧ lcss = lcs_of_units c (resolve c spec1) (resolve c spec2).
Proof.
  destruct (all_common_subsumers_outcome c spec1 spec2 "HAS_HYPERONYM"
              (Some "raw"%string) VLu eq_refl) as (sucs1 & sucs2 & H1 & H2 & Hall).
  change (upper "HAS_HYPERONYM") with "HAS_HYPERONYM"%string in H1, H2.
  unfold lcs_of_units. rewrite H1, H2. cbv zeta.
  unfold least_common_subsumers. rewrite outcome_bind, Hall. cbn [rbind].
  pose proof (min_key_spec (group_by_sum VLu (add_zero (resolve c spec1) sucs1)
                                         (add_zero (resolve c spec2) sucs2))) as Hm.
  destruct (min_key _) as [minimum|].
  - destruct Hm as [[group Hg] _]. rewrite Hg. exists (as_lus group).
    split; [|reflexivity]. cbn [outcome ret snd]. f_equal. exact (raw_group_units _ _ _ _ Hg).
  - exists []. split; reflexivity.
Qed.

Lemma Forall2_elem_l {A B} (P : A → B → Prop) (l : list A) (k : list B) (x : A) :
  Forall2 P l k → x ∈ l → ∃ y, y ∈ k ∧ P x y.
Proof.
  induction 1 as [|x' y' l k Hxy _ IH]; intros Hin.
  - apply elem_of_nil in Hin. contradiction.
  - apply elem_of_cons in Hin as [->|Hin].
    + exists y'. split; [left|exact Hxy].
    + destruct (IH Hin) as (y & Hy & HP). exists y. split; [right; exact Hy|exact HP].
Qed.

Lemma Forall2_elem_r {A B} (P : A → B → Prop) (l : list A) (k : list B) (y : B) :
  Forall2 P l k → y ∈ k → ∃ x, x ∈ l ∧ P x y.
Proof.
  induction 1 as [|x' y' l k Hxy _ IH]; intros Hin.
  - apply elem_of_nil in Hin. contradiction.
  - apply elem_of_cons in Hin as [->|Hin].
    + exists x'. split; [left|exact Hxy].
    + destruct (IH Hin) as (x & Hx & HP). exists x. split; [right; exact Hx|exact HP].
Qed.

Lemma map_result_returns {A B} (f : A → result B) (l : list A) (ys : list B) :
  map_result f l = Ok ys ↔ Forall2 (fun x y => f x = Ok y) l ys.
Proof.
  revert ys. induction l as [|x l IH]; intros ys; cbn [map_result].
  - split; [intros [= <-]; constructor|intros H; inversion H; reflexivity].
  - split.
    + destruct (f x) as [y|e] eqn:Ex; [|discriminate]. cbn [rbind].
      destruct (map_result f l) as [ys'|e]; [|discriminate]. cbn [rbind].
      intros [= <-]. constructor; [exact Ex|]. apply IH. reflexivity.
    + intros H. inversion H as [|? y ? ys' Hx Hl]; subst.
      rewrite Hx. cbn [rbind]. apply IH in Hl. rewrite Hl. reflexivity.
Qed.

Lemma map_result_raises {A B} (f : A → result B) (l : list A) (e : exn) :
  map_result f l = Raise e ↔
  ∃ before x after, l = before ++ x :: after ∧ f x = Raise e
                    ∧ ∀ x', x' ∈ before → ∃ y, f x' = Ok y.
Proof.
  induction l as [|x l IH]; cbn [map_result].
  - split; [discriminate|]. intros (before & x & after & H & _). destruct before; discriminate.
  - destruct (f x) as [y|e'] eqn:Ex; cbn [rbind].
    + assert (Hrest : (∃ before x0 after, x :: l = before ++ x0 :: after ∧ f x0 = Raise e
                                          ∧ ∀ x', x' ∈ before → ∃ y, f x' = Ok y)
                      → map_result f l = Raise e).
      { intros (before & x' & after & Hl & Hx' & Hb).
        destruct before as [|b before]; injection Hl as <- ->; [congruence|].
        apply IH. exists before, x', after. repeat split; [exact Hx'|].
        intros x0 H0. apply Hb. right. exact H0. }
      destruct (map_result f l) as [ys|e''] eqn:El; cbn [rbind].
      * split; [discriminate|]. intros H. apply Hrest in H. discriminate.
      * split.
        -- intros [= ->]. destruct IH as [IH _]. destruct (IH eq_refl)
             as (before & x' & after & -> & Hx' & Hb).
           exists (x :: before), x', after. repeat split; [exact Hx'|].
           intros x0 H0. apply elem_of_cons in H0 as [->|H0]; [eauto|apply Hb; exact H0].
        -- intros H. apply Hrest in H. exact H.
    + split.
      * intros [= ->]. exists [], x, l. repeat split; [exact Ex|].
        intros x' H. apply elem_of_nil in H. contradiction.
      * intros (before & x' & after & Hl & Hx' & Hb).
        destruct before as [|b before]; injection Hl as <- ->; [congruence|].
        destruct (Hb _ ltac:(left)) as [y Hy]. congruence.
Qed.

Section Maximum.

Variable float : Type.
Variable fzero : float.
Variable of_int : Z → float.
Variable fneg : float → float.
Variable fdiv : float → float → result float.
Variable fltb : float → float → bool.
Variable math_log : float → Z → result float.

Hypothesis fltb_irrefl : ∀ a, fltb a a = false.
Hypothesis fltb_trans : ∀ a b d, fltb a b = true → fltb b d = true → fltb a d = true.

Variable sc : SimCornet.
Variables smooth cat_totals : bool.

Local Abbreviation IC := (fun lu => _IC float of_int fneg fdiv math_log sc lu true smooth cat_totals).
Local Abbreviation lt := (py_lt float fltb).

Lemma py_lt_irrefl (a : option float) : lt a a = false.
Proof. destruct a as [a|]; [apply fltb_irrefl|reflexivity]. Qed.

Lemma py_lt_trans (a b d : option float) : lt a b = true → lt b d = true → lt a d = true.
Proof.
  destruct a as [a|], b as [b|], d as [d|]; cbn [py_lt]; try discriminate; try reflexivity.
  apply fltb_trans.
Qed.

(** [max] returns an item of the list, and no item is greater. *)
Lemma py_max_spec (first : option float) (rest : list (option float)) :
  py_max float fltb first rest ∈ first :: rest
  ∧ ∀ x, x ∈ first :: rest → lt (py_max float fltb first rest) x = false.
Proof.
  unfold py_max.
  enough (H : ∀ seen m,
             m ∈ seen → (∀ x, x ∈ seen → lt m x = false) →
             let r := fold_left (fun max_item item => if lt max_item item then item else max_item)
                                rest m in
             r ∈ seen ++ rest ∧ ∀ x, x ∈ seen ++ rest → lt r x = false).
  { apply (H [first] first); [left|].
    intros x Hx. apply list_elem_of_singleton in Hx. subst x. apply py_lt_irrefl. }
  induction rest as [|item rest' IH]; intros seen m Hin Hmax; cbn [fold_left].
  - rewrite app_nil_r. auto.
  - replace (seen ++ item :: rest') with ((seen ++ [item]) ++ rest')
      by (rewrite <- app_assoc; reflexivity).
    destruct (lt m item) eqn:E.
    + apply (IH (seen ++ [item]) item).
      * apply elem_of_app. right. left.
      * intros x Hx. apply elem_of_app in Hx as [Hx|Hx].
        -- destruct (lt item x) eqn:Ex; [|reflexivity].
           rewrite <- (Hmax x Hx). symmetry. exact (py_lt_trans m item x E Ex).
        -- apply list_elem_of_singleton in Hx. subst x. apply py_lt_irrefl.
    + apply (IH (seen ++ [item]) m).
      * apply elem_of_app. left. exact Hin.
      * intros x Hx. apply elem_of_app in Hx as [Hx|Hx]; [apply Hmax; exact Hx|].
        apply list_elem_of_singleton in Hx. subst x. exact E.
Qed.

Local Abbreviation resnik :=
  (resnik_sim float fzero of_int fneg fdiv fltb math_log sc).

(** [resnik_sim], for [<] on floats irreflexive and transitive.  If
    the default output format is unknown it raises.  Otherwise it
    returns [None] if one of the specs resolves to no unit.  Otherwise
    [least_common_subsumers], called once on the two specs with the
    relation HAS_HYPERONYM, returns a list of units, and: if the list
    is empty the result is zero; if [_IC] returns for every unit of
    the list, the result is the information content of one of them,
    and the information content of none of them is greater ([None]
    being below every number); and [resnik_sim] raises exactly when
    [_IC] raises for a unit of the list, with the error of the first
    such unit. *)
Theorem resnik_sim_of_sets (spec1 spec2 : string) (format : option string) :
  match _get_lex_unit_formatter (cornet sc) None with
  | Raise e => outcome (resnik spec1 spec2 smooth cat_totals format) = Raise e
  | Ok _ =>
      (resolve (cornet sc) spec1 = [] ∨ resolve (cornet sc) spec2 = [] →
       outcome (resnik spec1 spec2 smooth cat_totals format) = Ok None)
      ∧ (resolve (cornet sc) spec1 ≠ [] → resolve (cornet sc) spec2 ≠ [] →
         ∃ lcss,
           outcome (least_common_subsumers (cornet sc) spec1 spec2 "HAS_HYPERONYM"
                                           (Some "raw"%string))
           = Ok (map VLu lcss)
           ∧ (lcss = [] → outcome (resnik spec1 spec2 smooth cat_totals format)
                          = Ok (Some fzero))
           ∧ (lcss ≠ [] → (∀ lcs, lcs ∈ lcss → ∃ ic, IC lcs = Ok ic) →
              ∃ lcs r,
                lcs ∈ lcss ∧ IC lcs = Ok r
                ∧ outcome (resnik spec1 spec2 smooth cat_totals format) = Ok r
                ∧ ∀ lcs' ic, lcs' ∈ lcss → IC lcs' = Ok ic → lt r ic = false)
           ∧ (∀ e, outcome (resnik spec1 spec2 smooth cat_totals format) = Raise e ↔
                   ∃ before lcs after,
                     lcss = before ++ lcs :: after ∧ IC lcs = Raise e
                     ∧ ∀ lcs', lcs' ∈ before → ∃ ic, IC lcs' = Ok ic))
  end.
Proof.
  destruct (_get_lex_unit_formatter (cornet sc) None) as [formatter|e] eqn:Hf.
  2:{ unfold resnik_sim. cbv zeta. rewrite outcome_bind.
      unfold get_lex_units at 1.
      destruct (SpecParserFacts.split_unit_spec_unpacks spec1) as (_ & form & cat & sense & ->).
      rewrite Hf. reflexivity. }
  pose proof (resnik_sim_outcome float fzero of_int fneg fdiv fltb math_log sc
                smooth cat_totals spec1 spec2 format formatter Hf) as Hout.
  split.
  - intros Hnil. rewrite Hout.
    destruct (resolve (cornet sc) spec1) as [|a1 l1]; [reflexivity|].
    destruct Hnil as [Hnil| ->]; [discriminate|reflexivity].
  - intros Hne1 Hne2.
    destruct (least_common_subsumers_units (cornet sc) spec1 spec2) as (lcss & Hl & Hlcss).
    exists lcss. split; [exact Hl|].
    assert (Hout' : outcome (resnik spec1 spec2 smooth cat_totals format)
                    = match map_result IC lcss with
                      | Ok (first :: rest) => Ok (py_max float fltb first rest)
                      | Ok [] => Ok (Some fzero)
                      | Raise e => Raise e
                      end).
    { rewrite Hout, Hlcss.
      destruct (resolve (cornet sc) spec1) as [|a1 l1]; [contradiction|].
      destruct (resolve (cornet sc) spec2) as [|a2 l2]; [contradiction|]. reflexivity. }
    clear Hout Hl Hlcss. split; [|split].
    + intros ->. rewrite Hout'. reflexivity.
    + intros Hne Hret.
      destruct (map_result IC lcss) as [ics|e] eqn:Emap.
      * apply map_result_returns in Emap.
        destruct ics as [|first rest].
        { inversion Emap. subst. contradiction. }
        destruct (py_max_spec first rest) as [Hin Hmax].
        destruct (Forall2_elem_r _ _ _ _ Emap Hin) as (lcs & Hlcs & HIC).
        exists lcs, (py_max float fltb first rest).
        split; [exact Hlcs|]. split; [exact HIC|].
        split; [exact Hout'|].
        intros lcs' ic Hin' HIC'. apply Hmax.
        destruct (Forall2_elem_l _ _ _ _ Emap Hin') as (ic' & Hic' & HIC'').
        cbv beta in HIC''. congruence.
      * apply map_result_raises in Emap.
        destruct Emap as (before & lcs & after & -> & HIC & _).
        destruct (Hret lcs) as [ic Hic]; [apply elem_of_app; right; left|]. congruence.
    + intros e. rewrite Hout'.
      destruct (map_result IC lcss) as [ics|e'] eqn:Emap.
      * split.
        -- destruct ics; discriminate.
        -- intros H. apply map_result_raises in H. congruence.
      * split.
        -- intros [= ->]. apply map_result_raises. exact Emap.
        -- intros H. apply map_result_raises in H. congruence.
Qed.

End Maximum.
(** On the two words with two common hyperonyms: the least common
    subsumers are y:noun:1 and x:noun:1, of information content 1 and
    2, and the similarity is 2. *)
Lemma resnik_sim_of_sets_witness :
  (outcome (least_common_subsumers (cornet Examples.forked) "a" "b" "HAS_HYPERONYM"
                                   (Some "raw"%string)) = Ok [VLu 4; VLu 3]
   ∧ Dyadic._IC Examples.forked 4 true false false = Ok (Some 1%Q)
   ∧ Dyadic._IC Examples.forked 3 true false false = Ok (Some 2%Q)
   ∧ outcome (Dyadic.resnik_sim Examples.forked "a" "b" false false None) = Ok (Some 2%Q))
  ∧ (resolve (cornet Examples.forked) "a" ≠ [] → resolve (cornet Examples.forked) "b" ≠ [] →
     ∃ lcss,
       outcome (least_common_subsumers (cornet Examples.forked) "a" "b" "HAS_HYPERONYM"
                                       (Some "raw"%string))
       = Ok (map VLu lcss)
       ∧ (lcss = [] → outcome (Dyadic.resnik_sim Examples.forked "a" "b" false false None)
                      = Ok (Some Dyadic.fzero))
       ∧ (lcss ≠ [] →
          (∀ lcs, lcs ∈ lcss → ∃ ic, Dyadic._IC Examples.forked lcs true false false = Ok ic) →
          ∃ lcs r,
            lcs ∈ lcss ∧ Dyadic._IC Examples.forked lcs true false false = Ok r
            ∧ outcome (Dyadic.resnik_sim Examples.forked "a" "b" false false None) = Ok r
            ∧ ∀ lcs' ic, lcs' ∈ lcss →
                         Dyadic._IC Examples.forked lcs' true false false = Ok ic →
                         py_lt Dyadic.float Dyadic.fltb r ic = false)
       ∧ (∀ e, outcome (Dyadic.resnik_sim Examples.forked "a" "b" false false None) = Raise e ↔
               ∃ before lcs after,
                 lcss = before ++ lcs :: after
                 ∧ Dyadic._IC Examples.forked lcs true false false = Raise e
                 ∧ ∀ lcs', lcs' ∈ before →
                           ∃ ic, Dyadic._IC Examples.forked lcs' true false false = Ok ic)).
Proof.
  split; [repeat split; vm_compute; reflexivity|].
  pose proof (resnik_sim_of_sets Dyadic.float Dyadic.fzero Dyadic.of_int Dyadic.fneg
                Dyadic.fdiv Dyadic.fltb Dyadic.math_log
                Dyadic_fltb_irrefl Dyadic_fltb_trans
                Examples.forked false false "a" "b" None) as H.
  destruct (_get_lex_unit_formatter (cornet Examples.forked) None) eqn:E;
    [exact (proj2 H)|vm_compute in E; discriminate].
Defined.

End ResnikFacts.

(* ===================================================================== *)
(** * The synsets of a unit, on an opened database *)
(* ===================================================================== *)

Module OpenedQueryFacts.
Import Py SpecParser Parse ParseSynsets ParseLexUnits Induced Cornet Queries.
Import ParseFacts QueryFacts SynsetTableFacts LexUnitTableFacts.

Lemma resolve_filed (c : Cornet) (spec : string) (lu : node) :
  lu ∈ resolve c spec → ∃ form units, _form2lu c !! form = Some units ∧ lu ∈ units.
Proof.
  unfold resolve. destruct (unpack3 (_split_unit_spec spec)) as [[[form cat] sense]|e].
  - unfold matching_lus. intros Hin. apply list_elem_of_In, filter_In in Hin as [Hin _].
    destruct (_form2lu c !! form) as [units|] eqn:E; [|contradiction].
    exists form, units. split; [exact E|apply list_elem_of_In; exact Hin].
  - intros Hin. apply elem_of_nil in Hin. contradiction.
Qed.

Lemma known_once_NoDup (c_lu_id2lu : gmap string node) (lus : list node) :
  (∀ id1 id2 lu, c_lu_id2lu !! id1 = Some lu → c_lu_id2lu !! id2 = Some lu → id1 = id2) →
  known_once c_lu_id2lu lus → NoDup lus.
Proof.
  intros Hinj (ids & Hnd & Hall). revert Hnd.
  induction Hall as [|id lu ids lus Hid Hall IH]; intros Hnd; [constructor|].
  apply NoDup_cons in Hnd as [Hnotin Hnd]. apply NoDup_cons. split; [|apply IH; exact Hnd].
  intros Hin. apply Hnotin. clear IH Hnd Hnotin.
  induction Hall as [|id' lu' ids lus Hid' Hall IH].
  - apply elem_of_nil in Hin. contradiction.
  - apply elem_of_cons in Hin as [->|Hin].
    + rewrite (Hinj id id' lu' Hid Hid'). left.
    + right. apply IH. exact Hin.
Qed.

Lemma count_occ_NoDup (l : list node) (x : node) :
  NoDup l → count_occ Nat.eq_dec l x = if bool_decide (x ∈ l) then 1 else 0.
Proof.
  induction 1 as [|y l Hnotin Hnd IH].
  - rewrite bool_decide_eq_false_2; [reflexivity|]. apply not_elem_of_nil.
  - cbn [count_occ]. destruct (Nat.eq_dec y x) as [->|Hne].
    + rewrite bool_decide_eq_true_2 by left. rewrite IH.
      rewrite bool_decide_eq_false_2 by exact Hnotin. reflexivity.
    + rewrite IH. destruct (bool_decide (x ∈ l)) eqn:E.
      * apply bool_decide_eq_true in E. rewrite bool_decide_eq_true_2; [reflexivity|].
        right. exact E.
      * apply bool_decide_eq_false in E. rewrite bool_decide_eq_false_2; [reflexivity|].
        intros Hin. apply elem_of_cons in Hin as [->|Hin]; [congruence|contradiction].
Qed.

Lemma omap_flat_map {A B C} (f : B → option C) (g : A → list B) (l : list A) :
  omap f (flat_map g l) = flat_map (fun x => omap f (g x)) l.
Proof.
  induction l as [|x l IH]; [reflexivity|].
  cbn [flat_map]. rewrite omap_app, IH. reflexivity.
Qed.

Lemma attr_falsy (a : option string) :
  attr_truthy a = false → a = None ∨ a = Some ""%string.
Proof. destruct a as [[|ch s]|]; [auto|discriminate|auto]. Qed.

Lemma get_synsets_opened
      (lu_parser syn_parser synsets : list ET.Element)
      (form2lu : gmap string (list node)) (c_lu_id2lu : gmap string node)
      (lus : list node) (h : heap) (sy_id2lus : gmap string (list node))
      (c : Cornet) (spec : string) (format : option string) :
  _parse_lex_units lu_parser = Returned (form2lu, c_lu_id2lu, lus, h) →
  _parse_cdb_syn syn_parser c_lu_id2lu = Ok (_c_sy_id2synset c, sy_id2lus) →
  (∀ synset_el, synset_el ∈ synsets → ∃ id, _c_sy_id2synset c !! id = Some synset_el) →
  parse_cdb h lus synsets sy_id2lus = Ok (elements c, _graph c) →
  _form2lu c = form2lu →
  (∀ synset_el id, synset_el ∈ synsets → ET.get synset_el "c_sy_id" = Some id →
                   comma_free id) →
  match _get_synset_formatter c format with
  | Raise e => outcome (get_synsets c spec format) = Raise e
  | Ok formatter =>
      (∀ id nodes, sy_id2lus !! id = Some nodes → NoDup nodes)
      ∧ (∀ synset_el, synset_el ∈ synsets →
           ∃ id nodes sy, ET.get synset_el "c_sy_id" = Some id
                          ∧ sy_id2lus !! id = Some nodes
                          ∧ _c_sy_id2synset c !! id = Some sy)
      ∧ outcome (get_synsets c spec format)
        = Ok (flat_map
                (fun lu =>
                   flat_map
                     (fun synset_el =>
                        match ET.get synset_el "c_sy_id" with
                        | Some id =>
                            match sy_id2lus !! id, _c_sy_id2synset c !! id with
                            | Some nodes, Some sy =>
                                if bool_decide (lu ∈ nodes) then [formatter sy] else []
                            | _, _ => []
                            end
                        | None => []
                        end)
                     synsets)
                (resolve c spec))
  end.
Proof.
  intros Hunits Hsyn Hvalues Hedges Hforms Hfree.
  pose proof (parse_lex_units_inv lu_parser) as Hlu. rewrite Hunits in Hlu.
  destruct Hlu as (_ & Hadded & Hcontents & Hids & Hfiled & _).
  cbn [ParseLexUnits.added ParseLexUnits.contents ParseLexUnits.c_lu_id2lu
       ParseLexUnits.form2lu] in *.
  pose proof (parse_cdb_syn_tables_any syn_parser c_lu_id2lu) as Htab. rewrite Hsyn in Htab.
  destruct Htab as (_ & Hkeys & Hsy & Hknown).
  assert (Hinj : ∀ id1 id2 lu, c_lu_id2lu !! id1 = Some lu → c_lu_id2lu !! id2 = Some lu →
                               id1 = id2).
  { intros id1 id2 lu H1 H2.
    destruct (Hids _ _ H1) as (_ & e1 & He1 & Hg1).
    destruct (Hids _ _ H2) as (_ & e2 & He2 & Hg2). congruence. }
  assert (Hnd : ∀ id nodes, sy_id2lus !! id = Some nodes → NoDup nodes).
  { intros id nodes Hn. apply (known_once_NoDup c_lu_id2lu); [exact Hinj|].
    apply (Hknown id). exact Hn. }
  assert (Hempty : _c_sy_id2synset c !! ""%string = None).
  { destruct (_c_sy_id2synset c !! ""%string) as [el|] eqn:E; [|reflexivity].
    destruct (Hsy _ _ E) as (Ht & _). discriminate. }
  destruct (_get_synset_formatter c format) as [formatter|e] eqn:Hf.
  2:{ unfold get_synsets.
      destruct (SpecParserFacts.split_unit_spec_unpacks spec) as (_ & form & cat & sense & ->).
      rewrite SimilarityFacts.outcome_bind, SimilarityFacts.outcome_lift. cbn [rbind].
      rewrite Hf. reflexivity. }
  split; [exact Hnd|]. split.
  { intros synset_el Hin. destruct (Hvalues _ Hin) as [id Hid].
    destruct (Hsy _ _ Hid) as (_ & _ & _ & _ & k & Hk & [nodes Hn]).
    destruct (proj2 (Hkeys k) (ex_intro _ nodes Hn)) as [sy Hsy'].
    exists k, nodes, sy. auto. }
  rewrite (get_synsets_outcome _ _ _ _ Hf). f_equal.
  apply flat_map_agree. intros lu Hlu.
  destruct (resolve_filed _ _ _ Hlu) as (form & units & Hform & Hin).
  rewrite Hforms in Hform. destruct (Hfiled _ _ Hform) as (_ & _ & _ & Hsub).
  destruct (proj1 (Hadded lu) (Hsub _ Hin)) as [e He].
  destruct (Hcontents _ _ He) as (_ & _ & Hfalsy & _).
  pose proof (parse_cdb_unit_after _ _ _ _ _ _ Hedges lu) as Hafter.
  rewrite He in Hafter. destruct Hafter as (e' & He' & _ & _ & _ & Hattr).
  unfold deref. rewrite He'. cbn [default]. unfold ET.get_default, id.
  rewrite Hattr.
  assert (Hlist : omap (fun c_sy_id => option_map formatter (_c_sy_id2synset c !! c_sy_id))
                       (split "," match back_reference (ET.get e "c_sy_id")
                                                         (listing_ids synsets sy_id2lus lu) with
                                  | Some v => v
                                  | None => ""%string
                                  end)
                  = omap (fun c_sy_id => option_map formatter (_c_sy_id2synset c !! c_sy_id))
                         (listing_ids synsets sy_id2lus lu)).
  { pose proof (listing_ids_comma_free synsets sy_id2lus lu Hfree) as Hcf.
    destruct (attr_falsy _ Hfalsy) as [-> | ->]; unfold back_reference.
    - destruct (listing_ids synsets sy_id2lus lu) as [|id ids] eqn:Eids.
      + cbn. unfold mbind, option_bind. rewrite Hempty. reflexivity.
      + cbv beta iota.
        rewrite split_join_comma; [reflexivity|discriminate|exact Hcf].
    - cbv beta iota. rewrite split_join_comma; [|discriminate|].
      + cbn. unfold mbind, option_bind. rewrite Hempty. reflexivity.
      + constructor; [reflexivity|exact Hcf]. }
  rewrite Hlist. unfold listing_ids. rewrite omap_flat_map.
  apply flat_map_agree. intros synset_el Hel.
  destruct (ET.get synset_el "c_sy_id") as [id|]; cbn [lookup_lus]; [|reflexivity].
  destruct (sy_id2lus !! id) as [nodes|] eqn:En; [|reflexivity].
  rewrite (count_occ_NoDup nodes lu (Hnd _ _ En)). cbn [default].
  destruct (bool_decide (lu ∈ nodes)); cbn.
  - destruct (_c_sy_id2synset c !! id); reflexivity.
  - destruct (_c_sy_id2synset c !! id); reflexivity.
Qed.

(** An instance opened on a database: the units and their tables
    as [_parse_lex_units] returns them, the tables of synsets as
    [_parse_cdb_syn] returns them for these units, the graph and the
    units as [parse_cdb] leaves them after going through [synsets],
    synsets of the table.  If no [c_sy_id] of these synsets holds a
    comma, [get_synsets] raises on an unknown format and otherwise
    returns, for every unit matching the spec in turn and for every
    synset of [synsets] in turn whose list of units has the unit, the
    formatted synset filed under the [c_sy_id] of that synset.  The
    list of units of a synset holds no unit twice, so that a synset
    naming a unit more than once is given once. *)
Theorem get_synsets_after_parse
      (lu_parser syn_parser synsets : list ET.Element)
      (form2lu : gmap string (list node)) (c_lu_id2lu : gmap string node)
      (lus : list node) (h : heap) (sy_id2lus : gmap string (list node))
      (c : Cornet) (spec : string) (format : option string) :
  _parse_lex_units lu_parser = Returned (form2lu, c_lu_id2lu, lus, h) →
  _parse_cdb_syn syn_parser c_lu_id2lu = Ok (_c_sy_id2synset c, sy_id2lus) →
  (∀ synset_el, synset_el ∈ synsets → ∃ id, _c_sy_id2synset c !! id = Some synset_el) →
  parse_cdb h lus synsets sy_id2lus = Ok (elements c, _graph c) →
  _form2lu c = form2lu →
  (∀ synset_el id, synset_el ∈ synsets → ET.get synset_el "c_sy_id" = Some id →
                   comma_free id) →
  match _get_synset_formatter c format with
  | Raise e => outcome (get_synsets c spec format) = Raise e
  | Ok formatter =>
      (∀ id nodes, sy_id2lus !! id = Some nodes → NoDup nodes)
      ∧ (∀ synset_el, synset_el ∈ synsets →
           ∃ id nodes sy, ET.get synset_el "c_sy_id" = Some id
                          ∧ sy_id2lus !! id = Some nodes
                          ∧ _c_sy_id2synset c !! id = Some sy)
      ∧ outcome (get_synsets c spec format)
        = Ok (flat_map
                (fun lu =>
                   flat_map
                     (fun synset_el =>
                        match ET.get synset_el "c_sy_id" with
                        | Some id =>
                            match sy_id2lus !! id, _c_sy_id2synset c !! id with
                            | Some nodes, Some sy =>
                                if bool_decide (lu ∈ nodes) then [formatter sy] else []
                            | _, _ => []
                            end
                        | None => []
                        end)
                     synsets)
                (resolve c spec))
  end.
Proof. apply get_synsets_opened. Qed.

(** The database read from two files: the word "A" has the units r1,
    which the first synset names twice, and r2, of the second synset. *)
Lemma get_synsets_after_parse_witness :
  outcome (get_synsets Examples.opened "A" None)
  = Ok [SySpecs ["A:noun:1"; "B:noun:1"]; SySpecs ["A:verb:1"]]%string
  ∧ match _get_synset_formatter Examples.opened None with
    | Raise e => outcome (get_synsets Examples.opened "A" None) = Raise e
    | Ok formatter =>
        (∀ id nodes,
           (list_to_map [("s1", [0; 2]); ("s2", [1])]%string : gmap string (list node)) !! id
           = Some nodes → NoDup nodes)
        ∧ (∀ synset_el, synset_el ∈ Examples.opened_synsets →
             ∃ id nodes sy,
               ET.get synset_el "c_sy_id" = Some id
               ∧ (list_to_map [("s1", [0; 2]); ("s2", [1])]%string
                  : gmap string (list node)) !! id = Some nodes
               ∧ _c_sy_id2synset Examples.opened !! id = Some sy)
        ∧ outcome (get_synsets Examples.opened "A" None)
          = Ok (flat_map
                  (fun lu =>
                     flat_map
                       (fun synset_el =>
                          match ET.get synset_el "c_sy_id" with
                          | Some id =>
                              match (list_to_map [("s1", [0; 2]); ("s2", [1])]%string
                                     : gmap string (list node)) !! id,
                                    _c_sy_id2synset Examples.opened !! id with
                              | Some nodes, Some sy =>
                                  if bool_decide (lu ∈ nodes) then [formatter sy] else []
                              | _, _ => []
                              end
                          | None => []
                          end)
                       Examples.opened_synsets)
                  (resolve Examples.opened "A"))
    end.
Proof.
  split; [vm_compute; reflexivity|].
  apply (get_synsets_after_parse Examples.unit_events Examples.opened_syn_events
           Examples.opened_synsets (_form2lu Examples.opened) (_c_lu_id2lu Examples.opened)
           [0; 1; 2] (elements Examples.read_units)).
  - vm_compute. reflexivity.
  - vm_compute. reflexivity.
  - intros synset_el Hin.
    apply elem_of_cons in Hin as [->|Hin];
      [exists "s1"%string|apply list_elem_of_singleton in Hin; subst; exists "s2"%string];
      vm_compute; reflexivity.
  - vm_compute. reflexivity.
  - reflexivity.
  - intros synset_el id Hel Hid.
    apply elem_of_cons in Hel as [->|Hel];
      [|apply list_elem_of_singleton in Hel; subst synset_el];
      vm_compute in Hid; injection Hid as <-; vm_compute; reflexivity.
Defined.

End OpenedQueryFacts.
